(** * Fog-glow convolution of the compositor: a shallow embedding

    The development follows
    [source/blender/compositor/operations/COM_GlareFogGlowOperation.cc]:
    [next_pow2], [revbin_upd], the 1D Hartley transform [FHT], the 2D
    transform [FHT2D] with its in-place transposition, the spectral
    multiplication [fht_convolve] and the block overlap-add driver
    [convolve].

    Conventions.
    - Integers are [Z].  The [unsigned int] computations whose wrap-around
      can be reached ([next_pow2], the padded size in [convolve], the
      [PRED] remap and the cycle counter of the transposition) are reduced
      modulo [2^32] with [u32].  Loop counters and buffer offsets are plain
      [Z]: the routines index buffers that were allocated with these very
      sizes.
    - A buffer is a [list] of samples; a C pointer into a buffer is the
      buffer together with a base offset.  Every access is checked: an
      index outside the allocation makes the run fault, which is the
      [None] of the [option] monad.  Loops whose trip count depends on the
      data carry fuel, and running out of fuel is [None] as well.
    - Two lists are two buffers.  What [convolve] leaves in the memory of
      its caller when its pointers overlap is the matter of [flat], the
      same routine over one address space, which follows this model; the
      two agree on buffers that are apart ([flat_convolve_separate]).
    - The arithmetic on [fREAL] ([float]) and [double] is a parameter of
      the model, the class [FloatArith]; [binary32] instantiates it with
      IEEE-754 single and double precision from [SpecFloat].  The [cos]
      of the C library is a parameter of the transforms. *)

From Stdlib Require Import Reals Lra.
From Stdlib Require Import ZArith Zpow_facts Lia Bool SpecFloat.
From stdpp Require Import base option list numbers gmap.

Local Open Scope Z_scope.

(** ** Arithmetic of the sample types *)

Class FloatArith (F D : Type) := {
  f_zero : F;                 (* 0.0f, and the all-zero bytes of calloc/memset *)
  f_one : F;                  (* 1.0f *)
  f_half : F;                 (* (fREAL)0.5 *)
  f_add : F → F → F;
  f_sub : F → F → F;
  f_mul : F → F → F;
  f_div : F → F → F;
  f_nonzero : F → bool;       (* x != 0.0f *)
  f_of_int : Z → F;           (* (fREAL)len *)
  d_of_f : F → D;             (* (double)x *)
  f_of_d : D → F;             (* a double stored into an fREAL *)
  d_one : D;                  (* 1.0 *)
  d_half : D;                 (* 0.5 *)
  d_pi : D;                   (* M_PI *)
  d_add : D → D → D;
  d_sub : D → D → D;
  d_mul : D → D → D;
  d_sqrt : D → D
}.

(** ** Machine integers *)

Definition u32 (z : Z) : Z := z mod 2 ^ 32.

(** ** Checked buffers and loops *)

Definition load {A} (buf : list A) (i : Z) : option A :=
  if 0 <=? i then buf !! Z.to_nat i else None.

Definition store {A} (buf : list A) (i : Z) (v : A) : option (list A) :=
  if (0 <=? i) && (i <? Z.of_nat (length buf))
  then Some (<[Z.to_nat i := v]> buf) else None.

(** [SWAP(type, a, b)] on two cells of one buffer. *)
Definition SWAP {A} (buf : list A) (a b : Z) : option (list A) :=
  va ← load buf a;
  vb ← load buf b;
  buf ← store buf a vb;
  store buf b va.

(** The body of a loop run once for every index of a list, in order. *)
Fixpoint for_each {I S} (body : I → S → option S) (l : list I) (s : S)
  : option S :=
  match l with
  | [] => Some s
  | i :: l => s' ← body i s; for_each body l s'
  end.

(** [for (i = lo; i < hi; i++)] *)
Definition for_range {S} (lo hi : Z) (body : Z → S → option S) (s : S)
  : option S :=
  for_each body (seqZ lo (hi - lo)) s.

(** [for (k = lo; k < hi; k += step)], [step > 0] *)
Definition for_step {S} (lo hi step : Z) (body : Z → S → option S) (s : S)
  : option S :=
  for_each body
    ((λ t, lo + t * step) <$> seqZ 0 ((hi - lo + step - 1) `div` step)) s.

(** ** [next_pow2] *)

(** [while (x >>= 1) { ++L2; }], with [L2] the cell the source reaches
    through its pointer argument. *)
Fixpoint next_pow2_loop (fuel : nat) (x L2 : Z) : option Z :=
  match fuel with
  | O => None
  | S fuel =>
      let x := Z.shiftr x 1 in
      if x =? 0 then Some L2 else next_pow2_loop fuel x (u32 (L2 + 1))
  end.

(** Returns [(pw, L2)]. *)
Definition next_pow2 (x : Z) : option (Z * Z) :=
  let x_notpow2 := Z.land x (u32 (x - 1)) in
  L2 ← next_pow2_loop 33 x 0;
  let pw := u32 (Z.shiftl 1 L2) in
  if x_notpow2 =? 0 then Some (pw, L2)
  else Some (u32 (Z.shiftl pw 1), u32 (L2 + 1)).

(** ** [revbin_upd] *)

(** [while (!((r ^= h) & h)) { h >>= 1; }]; once [h] is zero the loop of
    the source never leaves, and the fuel (one step per bit of [h], and
    one more) runs out. *)
Fixpoint revbin_upd_loop (fuel : nat) (r h : Z) : option Z :=
  match fuel with
  | O => None
  | S fuel =>
      let r := Z.lxor r h in
      if Z.land r h =? 0 then revbin_upd_loop fuel r (Z.shiftr h 1)
      else Some r
  end.

Definition revbin_upd (r h : Z) : option Z := revbin_upd_loop 33 r h.

Section Model.
Context {F D : Type} `{!FloatArith F D}.

(** [cos] of the C library.  The source calls it on [double]s; it is not
    part of the source, and IEEE-754 does not fix its results, so the
    transform takes it as a parameter. *)
Variable cos : D → D.

(** ** [FHT] *)

(** [t1 = data[q]; data[q] = data[p] - t1; data[p] += t1;] *)
Definition FHT_butterfly (p q : Z) (data : list F) : option (list F) :=
  t1 ← load data q;
  dp ← load data p;
  data ← store data q (f_sub dp t1);
  dp ← load data p;
  store data p (f_add dp t1).

(** The body of the innermost loop of the [n > 2] branch; [pk], [pnk],
    [pnbd] and [pbd] are the cells [data[k]], [data_n[k]], [data_nbd[k]]
    and [data_bd[k]]. *)
Definition FHT_rotate (fc fs : D) (pk pnk pnbd pbd : Z) (data : list F)
  : option (list F) :=
  xn ← load data pnk;
  xnbd ← load data pnbd;
  let t1 := f_of_d (d_add (d_mul fc (d_of_f xn)) (d_mul fs (d_of_f xnbd))) in
  let t2 := f_of_d (d_sub (d_mul fs (d_of_f xn)) (d_mul fc (d_of_f xnbd))) in
  xk ← load data pk;
  data ← store data pnk (f_sub xk t1);
  xbd ← load data pbd;
  data ← store data pnbd (f_sub xbd t2);
  xk ← load data pk;
  data ← store data pk (f_add xk t1);
  xbd ← load data pbd;
  store data pbd (f_add xbd t2).

(** One pass of the [do ... while] loop, for the stage half-width [n]
    and the angle [a]. *)
Definition FHT_stage (base len n : Z) (a : D) (data : list F)
  : option (list F) :=
  let istep := Z.shiftl n 1 in
  data ← for_step 0 len istep
            (λ k, FHT_butterfly (base + k) (base + n + k)) data;
  let n2 := Z.shiftr n 1 in
  data ←
    (if 2 <? n then
       let dc := cos a in
       let ds := d_sqrt (d_sub d_one (d_mul dc dc)) in
       '(data, _, _, _) ←
         for_range 1 n2
           (λ bl '(data, fc, fs, bd),
              data ← for_step bl len istep
                        (λ k, FHT_rotate fc fs (base + k) (base + n + k)
                                (base + n + bd + k) (base + bd + k)) data;
              let tt := d_sub (d_mul fc dc) (d_mul fs ds) in
              let fs := d_add (d_mul fs dc) (d_mul fc ds) in
              Some (data, tt, fs, bd - 2))
           (data, dc, ds, n - 2);
       Some data
     else Some data);
  if 1 <? n then
    for_step n2 len istep
      (λ k, FHT_butterfly (base + k) (base + n + k)) data
  else Some data.

(** [do { ...; n = istep; a *= 0.5; } while (n < len);] *)
Fixpoint FHT_stages (fuel : nat) (base len n : Z) (a : D) (data : list F)
  : option (list F) :=
  match fuel with
  | O => None
  | S fuel =>
      data ← FHT_stage base len n a data;
      let n := Z.shiftl n 1 in
      if n <? len then FHT_stages fuel base len n (d_mul a d_half) data
      else Some data
  end.

(** The bit-reversal loop; the state is the buffer and [j].  [len],
    [len - 1] and [Nh] are the [int len = 1 << M] and the
    [unsigned int Nh = len >> 1] of the source for [M ≤ 30]; at [M = 31]
    the source's [len] overflows. *)
Definition FHT_revbin (base len : Z) (data : list F) : option (list F) :=
  let Nh := Z.shiftr len 1 in
  fst <$>
    for_range 1 (len - 1)
      (λ i '(data, j),
         j ← revbin_upd j Nh;
         if i <? j then
           t1 ← load data (base + i);
           dj ← load data (base + j);
           data ← store data (base + i) dj;
           data ← store data (base + j) t1;
           Some (data, j)
         else Some (data, j))
      (data, 0).

(** [FHT(&buf[base], M, inverse)] *)
Definition FHT (data : list F) (base M : Z) (inverse : bool)
  : option (list F) :=
  let len := Z.shiftl 1 M in
  data ← FHT_revbin base len data;
  data ← FHT_stages (S (Z.to_nat M)) base len 1 d_pi data;
  if inverse then
    let sc := f_div (f_of_int 1) (f_of_int len) in
    for_range 0 len
      (λ k data, x ← load data (base + k); store data (base + k) (f_mul x sc))
      data
  else Some data.

(** ** The transposition inside [FHT2D] *)

(** [#define PRED(k) (((k & Nym) << Mx) + (k >> My))] *)
Definition PRED (Mx My k : Z) : Z :=
  let Nym := u32 (Z.shiftl 1 My - 1) in
  u32 (u32 (Z.shiftl (Z.land k Nym) Mx) + Z.shiftr k My).

(** [for (j = PRED(i); j > i; j = PRED(j)) {}] *)
Fixpoint transpose_chase (fuel : nat) (Mx My i j : Z) : option Z :=
  match fuel with
  | O => None
  | S fuel =>
      if i <? j then transpose_chase fuel Mx My i (PRED Mx My j)
      else Some j
  end.

(** [for (k = i, j = PRED(i); j != i; k = j, j = PRED(j), stm--)
      SWAP(fREAL, data[j], data[k]);] *)
Fixpoint transpose_cycle (fuel : nat) (base Mx My i k j stm : Z)
    (data : list F) : option (list F * Z) :=
  match fuel with
  | O => None
  | S fuel =>
      if j =? i then Some (data, stm)
      else
        data ← SWAP data (base + j) (base + k);
        transpose_cycle fuel base Mx My i j (PRED Mx My j) (u32 (stm - 1)) data
  end.

(** [for (i = 0; stm > 0; i++) { ... }] *)
Fixpoint transpose_rect (fuel : nat) (base Mx My i stm : Z) (data : list F)
  : option (list F) :=
  match fuel with
  | O => None
  | S fuel =>
      if 0 <? stm then
        j ← transpose_chase (S (Z.to_nat (Z.shiftl 1 (Mx + My)))) Mx My i
               (PRED Mx My i);
        if j <? i then transpose_rect fuel base Mx My (u32 (i + 1)) stm data
        else
          '(data, stm) ←
            transpose_cycle (S (Z.to_nat (Z.shiftl 1 (Mx + My)))) base Mx My
              i i (PRED Mx My i) stm data;
          transpose_rect fuel base Mx My (u32 (i + 1)) (u32 (stm - 1)) data
      else Some data
  end.

(** The square branch. *)
Definition transpose_square (base Mx My : Z) (data : list F)
  : option (list F) :=
  let Nx := Z.shiftl 1 Mx in
  let Ny := Z.shiftl 1 My in
  for_range 0 Ny
    (λ j, for_range (j + 1) Nx
            (λ i data,
               let op := i + Z.shiftl j Mx in
               let np := j + Z.shiftl i My in
               SWAP data (base + op) (base + np)))
    data.

(** Lines 129-154: "Transpose data". *)
Definition FHT2D_transpose (data : list F) (base Mx My : Z)
  : option (list F) :=
  let Nx := u32 (Z.shiftl 1 Mx) in
  let Ny := u32 (Z.shiftl 1 My) in
  if Nx =? Ny then transpose_square base Mx My data
  else
    let stm := u32 (Z.shiftl 1 (Mx + My)) in
    transpose_rect (S (Z.to_nat stm)) base Mx My 0 stm data.

(** ** [FHT2D] *)

(** The body of the "Finalize" loops at [(j, i)]. *)
Definition FHT2D_finalize_at (base Mx Nx Ny j i : Z) (data : list F)
  : option (list F) :=
  let jm := Z.land (Ny - j) (Ny - 1) in
  let ji := Z.shiftl j Mx in
  let jmi := Z.shiftl jm Mx in
  let im := Z.land (Nx - i) (Nx - 1) in
  A ← load data (base + (ji + i));
  B ← load data (base + (jmi + i));
  C ← load data (base + (ji + im));
  D' ← load data (base + (jmi + im));
  let E := f_mul f_half (f_sub (f_add A D') (f_add B C)) in
  data ← store data (base + (ji + i)) (f_sub A E);
  data ← store data (base + (jmi + i)) (f_add B E);
  data ← store data (base + (ji + im)) (f_add C E);
  store data (base + (jmi + im)) (f_sub D' E).

(** [FHT2D(&buf[base], Mx, My, nzp, inverse)] *)
Definition FHT2D (data : list F) (base Mx My nzp : Z) (inverse : bool)
  : option (list F) :=
  let Nx := Z.shiftl 1 Mx in
  let Ny := Z.shiftl 1 My in
  let maxy := if inverse then Ny else nzp in
  data ← for_range 0 maxy
            (λ j data, FHT data (base + Nx * j) Mx inverse) data;
  data ← FHT2D_transpose data base Mx My;
  (* SWAP(Nx, Ny); SWAP(Mx, My); *)
  let '(Nx, Ny) := (Ny, Nx) in
  let '(Mx, My) := (My, Mx) in
  data ← for_range 0 Ny
            (λ j data, FHT data (base + Nx * j) Mx inverse) data;
  for_range 0 (Z.shiftr Ny 1 + 1)
    (λ j, for_range 0 (Z.shiftr Nx 1 + 1)
            (λ i, FHT2D_finalize_at base Mx Nx Ny j i))
    data.

(** ** [fht_convolve] *)

(** [d1[p] *= d2[p]] *)
Definition fht_mul_at (d2 : list F) (b2 b1 p : Z) (d1 : list F)
  : option (list F) :=
  x ← load d1 (b1 + p);
  y ← load d2 (b2 + p);
  store d1 (b1 + p) (f_mul x y).

(** The four-line group that combines the bins [p] and [q]:
    [a = d1[p]*d2[p] - d1[q]*d2[q]; b = d1[q]*d2[p] + d1[p]*d2[q];
     d1[p] = (b + a) * 0.5; d1[q] = (b - a) * 0.5;] *)
Definition fht_pair_at (d2 : list F) (b2 b1 p q : Z) (d1 : list F)
  : option (list F) :=
  x1p ← load d1 (b1 + p); x2p ← load d2 (b2 + p);
  x1q ← load d1 (b1 + q); x2q ← load d2 (b2 + q);
  let a := f_sub (f_mul x1p x2p) (f_mul x1q x2q) in
  let b := f_add (f_mul x1q x2p) (f_mul x1p x2q) in
  d1 ← store d1 (b1 + p) (f_mul (f_add b a) f_half);
  store d1 (b1 + q) (f_mul (f_sub b a) f_half).

(** [fht_convolve(&d1[b1], &d2[b2], M, N)]; returns the new [d1].  The
    sizes and bins [m], [n], [m2], [n2], [mn2], [mj] and [mL] are the
    [unsigned int]s of the source as long as they stay below [2^32], which
    they do for [M + N < 32]. *)
Definition fht_convolve (d1 : list F) (b1 : Z) (d2 : list F) (b2 : Z)
    (M N : Z) : option (list F) :=
  let m := Z.shiftl 1 M in
  let n := Z.shiftl 1 N in
  let m2 := Z.shiftl 1 (M - 1) in
  let n2 := Z.shiftl 1 (N - 1) in
  let mn2 := Z.shiftl m (N - 1) in
  d1 ← fht_mul_at d2 b2 b1 0 d1;
  d1 ← fht_mul_at d2 b2 b1 mn2 d1;
  d1 ← fht_mul_at d2 b2 b1 m2 d1;
  d1 ← fht_mul_at d2 b2 b1 (m2 + mn2) d1;
  d1 ← for_range 1 m2
          (λ i d1,
             let k := m - i in
             d1 ← fht_pair_at d2 b2 b1 i k d1;
             fht_pair_at d2 b2 b1 (i + mn2) (k + mn2) d1)
          d1;
  d1 ← for_range 1 n2
          (λ j d1,
             let L := n - j in
             let mj := Z.shiftl j M in
             let mL := Z.shiftl L M in
             d1 ← fht_pair_at d2 b2 b1 mj mL d1;
             fht_pair_at d2 b2 b1 (m2 + mj) (m2 + mL) d1)
          d1;
  for_range 1 m2
    (λ i, let k := m - i in
          for_range 1 n2
            (λ j d1,
               let L := n - j in
               let mj := Z.shiftl j M in
               let mL := Z.shiftl L M in
               d1 ← fht_pair_at d2 b2 b1 (i + mj) (k + mL) d1;
               fht_pair_at d2 b2 b1 (i + mL) (k + mj) d1))
    d1.

(** ** Image buffers *)

(** Declared outside this file (the compositor's [COM_defines.h]): a
    colour pixel, and the [fRGB] the glare code overlays on it, is four
    floats, R, G, B and alpha. *)
Definition COM_DATA_TYPE_COLOR_CHANNELS : Z := 4.

Record MemoryBuffer := {
  get_width : Z;
  get_height : Z;
  get_buffer : list F
}.

(** The cell [colp[x][ch]], where [colp] points to the pixel row at
    [&buffer[y * width * 4]] and is indexed in [fRGB] units.
    The accessor is checked on the coordinates: a pixel outside the
    [width × height] rectangle is a fault, although its cell could lie
    inside the allocation.  The source forms the row offset
    [y * width * COM_DATA_TYPE_COLOR_CHANNELS] in [unsigned int]; it is the
    number computed here for a buffer of at most [2^30] pixels. *)
Definition pixel (width height x y ch : Z) : option Z :=
  if (0 <=? x) && (x <? width) && (0 <=? y) && (y <? height)
  then Some (y * width * COM_DATA_TYPE_COLOR_CHANNELS
             + x * COM_DATA_TYPE_COLOR_CHANNELS + ch)
  else None.

Definition load_pixel (width height : Z) (buf : list F) (x y ch : Z)
  : option F :=
  p ← pixel width height x y ch; load buf p.

(** ** [convolve]: normalisation of the kernel (lines 273-295) *)

(** [add_v3_v3(wt, colp[x])] *)
Definition add_v3_px (kw kh : Z) (kernel : list F) (x y : Z)
    (wt : F * F * F) : option (F * F * F) :=
  let '(w0, w1, w2) := wt in
  a0 ← load_pixel kw kh kernel x y 0;
  a1 ← load_pixel kw kh kernel x y 1;
  a2 ← load_pixel kw kh kernel x y 2;
  Some (f_add w0 a0, f_add w1 a1, f_add w2 a2).

(** [colp[x][ch] *= wt[ch]] *)
Definition mul_px (kw kh : Z) (x y ch : Z) (w : F) (kernel : list F)
  : option (list F) :=
  p ← pixel kw kh x y ch;
  a ← load kernel p;
  store kernel p (f_mul a w).

(** [mul_v3_v3(colp[x], wt)] *)
Definition mul_v3_px (kw kh : Z) (wt : F * F * F) (x y : Z)
    (kernel : list F) : option (list F) :=
  let '(w0, w1, w2) := wt in
  kernel ← mul_px kw kh x y 0 w0 kernel;
  kernel ← mul_px kw kh x y 1 w1 kernel;
  mul_px kw kh x y 2 w2 kernel.

Definition kernel_weights (kw kh : Z) (kernel : list F)
  : option (F * F * F) :=
  for_range 0 kh
    (λ y, for_range 0 kw (λ x, add_v3_px kw kh kernel x y))
    (f_zero, f_zero, f_zero).

(** [if (wt[c] != 0.0f) wt[c] = 1.0f / wt[c];] *)
Definition reciprocal_weight (w : F) : F :=
  if f_nonzero w then f_div f_one w else w.

Definition normalize_kernel (kw kh : Z) (kernel : list F)
  : option (list F) :=
  '(w0, w1, w2) ← kernel_weights kw kh kernel;
  let wt := (reciprocal_weight w0, reciprocal_weight w1,
             reciprocal_weight w2) in
  for_range 0 kh
    (λ y, for_range 0 kw (λ x, mul_v3_px kw kh wt x y))
    kernel.

(** ** [convolve]: the steps of one tile and channel *)

(** Lines 263-267 for one axis: [w2 = 2 * kernel_width - 1;
    w2 = next_pow2(w2, &log2_w);] *)
Definition padded_size (kernel_dim : Z) : option (Z * Z) :=
  next_pow2 (u32 (2 * kernel_dim - 1)).

(** [memset(buf, 0, n * sizeof(fREAL))] *)
Definition memset0 (n : Z) (buf : list F) : option (list F) :=
  if (0 <=? n) && (n <=? Z.of_nat (length buf))
  then Some (replicate (Z.to_nat n) f_zero ++ drop (Z.to_nat n) buf)
  else None.

(** Lines 323-329: "in2, channel ch -> data1". *)
Definition load_kernel (kw kh w2 : Z) (kernel : list F) (b1 ch : Z)
    (data1 : list F) : option (list F) :=
  for_range 0 kh
    (λ y, for_range 0 kw
            (λ x data1,
               v ← load_pixel kw kh kernel x y ch;
               store data1 (b1 + (y * w2 + x)) v))
    data1.

(** Lines 333-348: "in1, channel ch -> data2". *)
Definition load_tile (iw ih w2 h2 xbsz ybsz xbl ybl ch : Z)
    (image : list F) (data2 : list F) : option (list F) :=
  data2 ← memset0 (w2 * h2) data2;
  for_range 0 ybsz
    (λ y data2,
       let yy := ybl * ybsz + y in
       if ih <=? yy then Some data2
       else
         for_range 0 xbsz
           (λ x data2,
              let xx := xbl * xbsz + x in
              if iw <=? xx then Some data2
              else
                v ← load_pixel iw ih image xx yy ch;
                store data2 (y * w2 + x) v)
           data2)
    data2.

(** Lines 364-378: "Overlap-add result". *)
Definition overlap_add (iw ih w2 h2 xbsz ybsz hw hh xbl ybl ch : Z)
    (data2 : list F) (rdst : list F) : option (list F) :=
  for_range 0 h2
    (λ y rdst,
       let yy := ybl * ybsz + y - hh in
       if (yy <? 0) || (ih <=? yy) then Some rdst
       else
         for_range 0 w2
           (λ x rdst,
              let xx := xbl * xbsz + x - hw in
              if (xx <? 0) || (iw <=? xx) then Some rdst
              else
                v ← load data2 (y * w2 + x);
                p ← pixel iw ih xx yy ch;
                old ← load rdst p;
                store rdst p (f_add old v))
           rdst)
    rdst.

(** The scratch state of [convolve]: [rdst], [data1], [data2] and the
    flag [in2done]. *)
Record scratch := {
  rdst : list F;
  data1 : list F;
  data2 : list F;
  in2done : bool
}.

(** The body of [for (ch = 0; ch < 3; ch++)]. *)
Definition convolve_channel (iw ih kw kh w2 h2 log2_w log2_h : Z)
    (xbsz ybsz hw hh xbl ybl : Z) (image kernel : list F) (ch : Z)
    (s : scratch) : option scratch :=
  let b1 := ch * w2 * h2 in
  d1 ← (if in2done s then Some (data1 s)
        else load_kernel kw kh w2 kernel b1 ch (data1 s));
  d2 ← load_tile iw ih w2 h2 xbsz ybsz xbl ybl ch image (data2 s);
  d1 ← (if in2done s then Some d1
        else FHT2D d1 b1 log2_w log2_h (kh + 1) false);
  d2 ← FHT2D d2 0 log2_w log2_h (kh + 1) false;
  d2 ← fht_convolve d2 0 d1 b1 log2_h log2_w;
  d2 ← FHT2D d2 0 log2_h log2_w 0 true;
  r ← overlap_add iw ih w2 h2 xbsz ybsz hw hh xbl ybl ch d2 (rdst s);
  Some {| rdst := r; data1 := d1; data2 := d2; in2done := in2done s |}.

(** [memcpy(dst, src, n * sizeof(float))] *)
Definition memcpy (n : Z) (src dst : list F) : option (list F) :=
  if (0 <=? n) && (n <=? Z.of_nat (length src))
     && (n <=? Z.of_nat (length dst))
  then Some (take (Z.to_nat n) src ++ drop (Z.to_nat n) dst)
  else None.

(** ** [convolve]

    [convolve dst in1 in2] returns the caller-visible memory on return:
    the destination buffer, the source image and the kernel. *)
Definition convolve (dst : list F) (in1 in2 : MemoryBuffer)
  : option (list F * MemoryBuffer * MemoryBuffer) :=
  let kernel_width := get_width in2 in
  let kernel_height := get_height in2 in
  let image_width := get_width in1 in
  let image_height := get_height in1 in
  let kernel_buffer := get_buffer in2 in
  let image_buffer := get_buffer in1 in
  let rdst0 :=
    replicate
      (Z.to_nat (image_width * image_height * COM_DATA_TYPE_COLOR_CHANNELS))
      f_zero in
  '(w2, log2_w) ← padded_size kernel_width;
  '(h2, log2_h) ← padded_size kernel_height;
  let data1_0 := replicate (Z.to_nat (3 * w2 * h2)) f_zero in
  let data2_0 := replicate (Z.to_nat (w2 * h2)) f_zero in
  kernel_buffer ← normalize_kernel kernel_width kernel_height kernel_buffer;
  let hw := Z.shiftr kernel_width 1 in
  let hh := Z.shiftr kernel_height 1 in
  let xbsz := (w2 + 1) - kernel_width in
  let ybsz := (h2 + 1) - kernel_height in
  let nxb := image_width `div` xbsz
             + (if image_width `mod` xbsz =? 0 then 0 else 1) in
  let nyb := image_height `div` ybsz
             + (if image_height `mod` ybsz =? 0 then 0 else 1) in
  s ← for_range 0 nyb
        (λ ybl, for_range 0 nxb
           (λ xbl s,
              s ← for_range 0 3
                    (convolve_channel image_width image_height
                       kernel_width kernel_height w2 h2 log2_w log2_h
                       xbsz ybsz hw hh xbl ybl image_buffer kernel_buffer)
                    s;
              Some {| rdst := rdst s; data1 := data1 s; data2 := data2 s;
                      in2done := true |}))
        {| rdst := rdst0; data1 := data1_0; data2 := data2_0;
           in2done := false |};
  dst ← memcpy
          (image_width * image_height * COM_DATA_TYPE_COLOR_CHANNELS)
          (rdst s) dst;
  Some (dst, in1,
        {| get_width := kernel_width; get_height := kernel_height;
           get_buffer := kernel_buffer |}).

End Model.

Arguments MemoryBuffer : clear implicits.
Arguments scratch : clear implicits.

(** ** IEEE-754 instance: [float] is binary32, [double] is binary64 *)

Module binary32.

Definition prec32 : Z := 24.
Definition emax32 : Z := 128.
Definition prec64 : Z := 53.
Definition emax64 : Z := 1024.

(** Rounding of a value to the nearest number of the format, ties to
    even. *)
Definition round (prec emax : Z) (x : spec_float) : spec_float :=
  match x with
  | S754_finite s m e => binary_round prec emax s m e
  | _ => x
  end.

Definition of_int (prec emax : Z) (z : Z) : spec_float :=
  binary_normalize prec emax z 0 false.

Definition nonzero (x : spec_float) : bool :=
  match x with
  | S754_zero _ => false
  | _ => true
  end.

#[export] Instance arith : FloatArith spec_float spec_float := {|
  f_zero := S754_zero false;
  f_one := of_int prec32 emax32 1;
  f_half := S754_finite false 8388608 (-24);
  f_add := SFadd prec32 emax32;
  f_sub := SFsub prec32 emax32;
  f_mul := SFmul prec32 emax32;
  f_div := SFdiv prec32 emax32;
  f_nonzero := nonzero;
  f_of_int := of_int prec32 emax32;
  d_of_f := round prec64 emax64;
  f_of_d := round prec32 emax32;
  d_one := of_int prec64 emax64 1;
  d_half := S754_finite false 4503599627370496 (-53);
  d_pi := S754_finite false 7074237752028440 (-51);
  d_add := SFadd prec64 emax64;
  d_sub := SFsub prec64 emax64;
  d_mul := SFmul prec64 emax64;
  d_sqrt := SFsqrt prec64 emax64
|}.

(** Buffers and images of small integers, for examples. *)
Definition fl (z : Z) : spec_float := of_int prec32 emax32 z.

Definition image_of (w h : Z) (l : list Z) : MemoryBuffer spec_float :=
  {| get_width := w; get_height := h; get_buffer := fl <$> l |}.

End binary32.

(** ** Exact instance: [float] and [double] are the real numbers *)

Module exact.

Definition nonzero (x : R) : bool := if Req_dec_T x 0 then false else true.

#[export] Instance arith : FloatArith R R := {|
  f_zero := 0%R;
  f_one := 1%R;
  f_half := (/ 2)%R;
  f_add := Rplus;
  f_sub := Rminus;
  f_mul := Rmult;
  f_div := Rdiv;
  f_nonzero := nonzero;
  f_of_int := IZR;
  d_of_f := id;
  f_of_d := id;
  d_one := 1%R;
  d_half := (/ 2)%R;
  d_pi := PI;
  d_add := Rplus;
  d_sub := Rminus;
  d_mul := Rmult;
  d_sqrt := sqrt
|}.

End exact.

(** * [BKE_mesh_legacy_convert.h]: the inline of the header *)

(** [BKE_mesh_origindex_mface_mpoly(index_mf_to_mpoly, index_mp_to_orig, i)]:
    [const int j = index_mf_to_mpoly[i];
     return (j != -1) ? (index_mp_to_orig ? index_mp_to_orig[j] : j) : -1;]
    The second table may be a null pointer, which is [None] here. *)
Definition BKE_mesh_origindex_mface_mpoly (index_mf_to_mpoly : list Z)
    (index_mp_to_orig : option (list Z)) (i : Z) : option Z :=
  j ← load index_mf_to_mpoly i;
  if negb (j =? -1) then
    match index_mp_to_orig with
    | Some orig => load orig j
    | None => Some j
    end
  else Some (-1).


(** * [convolve] through its pointers

    The routines above take every buffer as a list of its own, which
    cannot say that two pointers of a call lead to the same floats.  What
    a call of [convolve(dst, in1, in2)] leaves in the memory of its caller
    depends on that: [dst] is a bare [float *], and the buffers of the
    image and of the kernel are reached through pointers as well.

    [flat] is [convolve] over one address space.  The memory is the list
    of all the floats the call can reach and a pointer is the index of a
    float, so that [dst], the buffer of the image and the buffer of the
    kernel may overlap in any way.  The buffers that the call allocates
    lie in the same memory, after the floats of the caller, and are
    released before the call returns.  A load or a store outside the
    memory is a fault; one that leaves its buffer but stays inside the
    memory reads or overwrites the float it finds there.

    [FHT2D], which takes a buffer and a base offset, and the computations
    [reciprocal_weight] and [padded_size] are those of the model above.
    Integers follow the model above as well: the padded sizes are reduced
    modulo [2^32], loop counters and offsets are plain [Z], so that the
    routines are those of the source for the sizes at which its 32-bit
    counters, offsets and sizes do not wrap: a kernel of at most [2^14]
    pixels per side and an image of at most [2^28] pixels. *)

Module flat.
Section Flat.
Context {F D : Type} `{!FloatArith F D}.
Variable cos : D → D.

(** A [MemoryBuffer] as the callee sees it: the rectangle, and the address
    [get_buffer()] returns. *)
Record MemoryBuffer := {
  get_width : Z;
  get_height : Z;
  get_buffer : Z
}.

(** [new MemoryBuffer(...)] and [MEM_callocN(n * sizeof(fREAL), ...)]:
    [n] floats of their own, after everything allocated so far.
    [MEM_callocN] clears them; the buffer of [rdst] is cleared by the
    [memset] that follows its allocation.  Returns the memory and the
    address of the first float. *)
Definition alloc (n : Z) (mem : list F) : list F * Z :=
  (mem ++ replicate (Z.to_nat n) f_zero, Z.of_nat (length mem)).

(** [MEM_freeN], [delete]: the memory from the address [p] on is released.
    The call releases its three buffers, which are the last ones. *)
Definition release (p : Z) (mem : list F) : list F :=
  take (Z.to_nat p) mem.

(** [memset(p, 0, n * sizeof(fREAL))] *)
Definition memset0 (p n : Z) (mem : list F) : option (list F) :=
  if (0 <=? p) && (0 <=? n) && (p + n <=? Z.of_nat (length mem))
  then Some (take (Z.to_nat p) mem ++ replicate (Z.to_nat n) f_zero
             ++ drop (Z.to_nat (p + n)) mem)
  else None.

(** [memcpy(dst, src, n * sizeof(float))].  The source of the only call is
    the buffer of [rdst], an allocation of the call, which [dst] cannot
    overlap. *)
Definition memcpy (dst src n : Z) (mem : list F) : option (list F) :=
  if (0 <=? dst) && (0 <=? src) && (0 <=? n)
     && (dst + n <=? Z.of_nat (length mem))
     && (src + n <=? Z.of_nat (length mem))
  then Some (take (Z.to_nat dst) mem
             ++ take (Z.to_nat n) (drop (Z.to_nat src) mem)
             ++ drop (Z.to_nat (dst + n)) mem)
  else None.

(** The offset of [colp[x][ch]] in a buffer, for
    [colp = (fRGB * )&buffer[y * width * COM_DATA_TYPE_COLOR_CHANNELS]].
    The loops of the source keep [x] and [y] inside the rectangle of the
    buffer; nothing is checked here. *)
Definition pixel (width x y ch : Z) : Z :=
  y * width * COM_DATA_TYPE_COLOR_CHANNELS
  + x * COM_DATA_TYPE_COLOR_CHANNELS + ch.

Definition load_pixel (buffer width : Z) (mem : list F) (x y ch : Z)
  : option F :=
  load mem (buffer + pixel width x y ch).

(** ** Normalisation of the kernel (lines 273-295) *)

(** [add_v3_v3(wt, colp[x])] *)
Definition add_v3_px (kernel_buffer kw : Z) (mem : list F) (x y : Z)
    (wt : F * F * F) : option (F * F * F) :=
  let '(w0, w1, w2) := wt in
  a0 ← load_pixel kernel_buffer kw mem x y 0;
  a1 ← load_pixel kernel_buffer kw mem x y 1;
  a2 ← load_pixel kernel_buffer kw mem x y 2;
  Some (f_add w0 a0, f_add w1 a1, f_add w2 a2).

(** [colp[x][ch] *= wt[ch]] *)
Definition mul_px (kernel_buffer kw : Z) (x y ch : Z) (w : F)
    (mem : list F) : option (list F) :=
  let p := pixel kw x y ch in
  a ← load mem (kernel_buffer + p);
  store mem (kernel_buffer + p) (f_mul a w).

(** [mul_v3_v3(colp[x], wt)] *)
Definition mul_v3_px (kernel_buffer kw : Z) (wt : F * F * F) (x y : Z)
    (mem : list F) : option (list F) :=
  let '(w0, w1, w2) := wt in
  mem ← mul_px kernel_buffer kw x y 0 w0 mem;
  mem ← mul_px kernel_buffer kw x y 1 w1 mem;
  mul_px kernel_buffer kw x y 2 w2 mem.

Definition kernel_weights (kernel_buffer kw kh : Z) (mem : list F)
  : option (F * F * F) :=
  for_range 0 kh
    (λ y, for_range 0 kw (λ x, add_v3_px kernel_buffer kw mem x y))
    (f_zero, f_zero, f_zero).

Definition normalize_kernel (kernel_buffer kw kh : Z) (mem : list F)
  : option (list F) :=
  '(w0, w1, w2) ← kernel_weights kernel_buffer kw kh mem;
  let wt := (reciprocal_weight w0, reciprocal_weight w1,
             reciprocal_weight w2) in
  for_range 0 kh
    (λ y, for_range 0 kw (λ x, mul_v3_px kernel_buffer kw wt x y))
    mem.

(** ** The steps of one tile and channel *)

(** Lines 323-329: "in2, channel ch -> data1"; [fp[x] = colp[x][ch]] with
    [fp = &data1ch[y * w2]]. *)
Definition load_kernel (kernel_buffer kw kh w2 data1ch ch : Z)
    (mem : list F) : option (list F) :=
  for_range 0 kh
    (λ y, for_range 0 kw
            (λ x mem,
               v ← load_pixel kernel_buffer kw mem x y ch;
               store mem (data1ch + (y * w2 + x)) v))
    mem.

(** Lines 333-348: "in1, channel ch -> data2". *)
Definition load_tile (image_buffer iw ih w2 h2 xbsz ybsz xbl ybl ch : Z)
    (data2 : Z) (mem : list F) : option (list F) :=
  mem ← memset0 data2 (w2 * h2) mem;
  for_range 0 ybsz
    (λ y mem,
       let yy := ybl * ybsz + y in
       if ih <=? yy then Some mem
       else
         for_range 0 xbsz
           (λ x mem,
              let xx := xbl * xbsz + x in
              if iw <=? xx then Some mem
              else
                v ← load_pixel image_buffer iw mem xx yy ch;
                store mem (data2 + (y * w2 + x)) v)
           mem)
    mem.

(** [d1[p] *= d2[p]] *)
Definition fht_mul_at (d1 d2 p : Z) (mem : list F) : option (list F) :=
  x ← load mem (d1 + p);
  y ← load mem (d2 + p);
  store mem (d1 + p) (f_mul x y).

(** [a = d1[p]*d2[p] - d1[q]*d2[q]; b = d1[q]*d2[p] + d1[p]*d2[q];
     d1[p] = (b + a) * 0.5; d1[q] = (b - a) * 0.5;] *)
Definition fht_pair_at (d1 d2 p q : Z) (mem : list F) : option (list F) :=
  x1p ← load mem (d1 + p); x2p ← load mem (d2 + p);
  x1q ← load mem (d1 + q); x2q ← load mem (d2 + q);
  let a := f_sub (f_mul x1p x2p) (f_mul x1q x2q) in
  let b := f_add (f_mul x1q x2p) (f_mul x1p x2q) in
  mem ← store mem (d1 + p) (f_mul (f_add b a) f_half);
  store mem (d1 + q) (f_mul (f_sub b a) f_half).

(** [fht_convolve(d1, d2, M, N)] (lines 187-239) *)
Definition fht_convolve (d1 d2 M N : Z) (mem : list F) : option (list F) :=
  let m := Z.shiftl 1 M in
  let n := Z.shiftl 1 N in
  let m2 := Z.shiftl 1 (M - 1) in
  let n2 := Z.shiftl 1 (N - 1) in
  let mn2 := Z.shiftl m (N - 1) in
  mem ← fht_mul_at d1 d2 0 mem;
  mem ← fht_mul_at d1 d2 mn2 mem;
  mem ← fht_mul_at d1 d2 m2 mem;
  mem ← fht_mul_at d1 d2 (m2 + mn2) mem;
  mem ← for_range 1 m2
           (λ i mem,
              let k := m - i in
              mem ← fht_pair_at d1 d2 i k mem;
              fht_pair_at d1 d2 (i + mn2) (k + mn2) mem)
           mem;
  mem ← for_range 1 n2
           (λ j mem,
              let L := n - j in
              let mj := Z.shiftl j M in
              let mL := Z.shiftl L M in
              mem ← fht_pair_at d1 d2 mj mL mem;
              fht_pair_at d1 d2 (m2 + mj) (m2 + mL) mem)
           mem;
  for_range 1 m2
    (λ i, let k := m - i in
          for_range 1 n2
            (λ j mem,
               let L := n - j in
               let mj := Z.shiftl j M in
               let mL := Z.shiftl L M in
               mem ← fht_pair_at d1 d2 (i + mj) (k + mL) mem;
               fht_pair_at d1 d2 (i + mL) (k + mj) mem))
    mem.

(** Lines 364-378: "Overlap-add result"; [colp[xx][ch] += fp[x]] with
    [fp = &data2[y * w2]] and [colp] the row [yy] of [rdst]. *)
Definition overlap_add (iw ih w2 h2 xbsz ybsz hw hh xbl ybl ch : Z)
    (data2 rdst : Z) (mem : list F) : option (list F) :=
  for_range 0 h2
    (λ y mem,
       let yy := ybl * ybsz + y - hh in
       if (yy <? 0) || (ih <=? yy) then Some mem
       else
         for_range 0 w2
           (λ x mem,
              let xx := xbl * xbsz + x - hw in
              if (xx <? 0) || (iw <=? xx) then Some mem
              else
                v ← load mem (data2 + (y * w2 + x));
                let p := pixel iw xx yy ch in
                old ← load mem (rdst + p);
                store mem (rdst + p) (f_add old v))
           mem)
    mem.

(** The body of [for (ch = 0; ch < 3; ch++)]; [rdst], [data1] and [data2]
    are the addresses of the three buffers of the call. *)
Definition convolve_channel (iw ih kw kh w2 h2 log2_w log2_h : Z)
    (xbsz ybsz hw hh xbl ybl : Z) (image_buffer kernel_buffer : Z)
    (rdst data1 data2 : Z) (in2done : bool) (ch : Z) (mem : list F)
  : option (list F) :=
  let data1ch := data1 + ch * w2 * h2 in
  mem ← (if in2done then Some mem
         else load_kernel kernel_buffer kw kh w2 data1ch ch mem);
  mem ← load_tile image_buffer iw ih w2 h2 xbsz ybsz xbl ybl ch data2 mem;
  mem ← (if in2done then Some mem
         else FHT2D cos mem data1ch log2_w log2_h (kh + 1) false);
  mem ← FHT2D cos mem data2 log2_w log2_h (kh + 1) false;
  mem ← fht_convolve data2 data1ch log2_h log2_w mem;
  mem ← FHT2D cos mem data2 log2_h log2_w 0 true;
  overlap_add iw ih w2 h2 xbsz ybsz hw hh xbl ybl ch data2 rdst mem.

(** ** [convolve]

    [convolve dst in1 in2 mem] is the memory of the caller on return from
    [convolve(dst, in1, in2)], called with the memory [mem]. *)
Definition convolve (dst : Z) (in1 in2 : MemoryBuffer) (mem : list F)
  : option (list F) :=
  let kernel_width := get_width in2 in
  let kernel_height := get_height in2 in
  let image_width := get_width in1 in
  let image_height := get_height in1 in
  let kernel_buffer := get_buffer in2 in
  let image_buffer := get_buffer in1 in
  let '(mem, rdst) :=
    alloc (image_width * image_height * COM_DATA_TYPE_COLOR_CHANNELS) mem in
  mem ← memset0 rdst
          (image_width * image_height * COM_DATA_TYPE_COLOR_CHANNELS) mem;
  '(w2, log2_w) ← padded_size kernel_width;
  '(h2, log2_h) ← padded_size kernel_height;
  let '(mem, data1) := alloc (3 * w2 * h2) mem in
  let '(mem, data2) := alloc (w2 * h2) mem in
  mem ← normalize_kernel kernel_buffer kernel_width kernel_height mem;
  let hw := Z.shiftr kernel_width 1 in
  let hh := Z.shiftr kernel_height 1 in
  let xbsz := (w2 + 1) - kernel_width in
  let ybsz := (h2 + 1) - kernel_height in
  let nxb := image_width `div` xbsz
             + (if image_width `mod` xbsz =? 0 then 0 else 1) in
  let nyb := image_height `div` ybsz
             + (if image_height `mod` ybsz =? 0 then 0 else 1) in
  '(mem, _) ← for_range 0 nyb
        (λ ybl, for_range 0 nxb
           (λ xbl '(mem, in2done),
              mem ← for_range 0 3
                      (convolve_channel image_width image_height
                         kernel_width kernel_height w2 h2 log2_w log2_h
                         xbsz ybsz hw hh xbl ybl image_buffer kernel_buffer
                         rdst data1 data2 in2done)
                      mem;
              Some (mem, true)))
        (mem, false);
  (* MEM_freeN(data2); MEM_freeN(data1); *)
  let mem := release data1 mem in
  mem ← memcpy dst rdst
          (image_width * image_height * COM_DATA_TYPE_COLOR_CHANNELS) mem;
  (* delete (rdst); *)
  Some (release rdst mem).

End Flat.
End flat.

(** * Specification predicates *)

(** [pw] is the smallest power of two that is at least [x], and [L2] is its
    base-2 logarithm. *)
Definition is_next_pow2 (x pw L2 : Z) : Prop :=
  0 ≤ L2 ∧ pw = 2 ^ L2 ∧ x ≤ pw ∧ ∀ k, 0 ≤ k → x ≤ 2 ^ k → pw ≤ 2 ^ k.

(** The sum of channel [ch] over the first [n] pixels of an interleaved
    four-channel buffer, accumulated in buffer order from [0.0f]: the value
    the first loop nest of the normalisation leaves in [wt[ch]]. *)
Definition channel_sum {F D} `{!FloatArith F D} (kernel : list F) (n ch : Z)
  : F :=
  foldl (λ acc p, f_add acc (default f_zero (load kernel (4 * p + ch))))
    f_zero (seqZ 0 n).

(** The cells scaled so far, when the second loop nest has handled the
    first [t] cells of the buffer: the colour cells below [t] hold their
    weighted value, every other cell its old one. *)
Definition scaled_upto {F D} `{!FloatArith F D} (wf : Z → F)
    (kernel : list F) (t : Z) (k : list F)
  : Prop :=
  length k = length kernel ∧
  ∀ p c, 0 ≤ p → 0 ≤ c < 4 →
    load k (4 * p + c)
    = if (c <? 3) && (4 * p + c <? t)
      then (λ v, f_mul v (wf c)) <$> load kernel (4 * p + c)
      else load kernel (4 * p + c).

(** The sample that the tile buffer holds at [(x, y)] after "in1, channel
    ch -> data2": the image sample of the tile's pixel when the cell lies
    in the tile and the pixel in the image, and zero otherwise. *)
Definition tile_sample {F D} `{!FloatArith F D}
    (iw ih xbsz ybsz xbl ybl ch : Z) (image : list F)
    (x y : Z) : option F :=
  if (x <? xbsz) && (y <? ybsz)
     && (xbl * xbsz + x <? iw) && (ybl * ybsz + y <? ih)
  then load_pixel iw ih image (xbl * xbsz + x) (ybl * ybsz + y) ch
  else Some f_zero.


(** The 1×1 kernel whose only pixel is [1.0f] in every channel. *)
Definition unit_kernel {F D} `{!FloatArith F D} : MemoryBuffer F :=
  {| get_width := 1; get_height := 1;
     get_buffer := [f_one; f_one; f_one; f_one] |}.

(** The two runs [d1 := x, d2 := y] and [d1 := y, d2 := x] side by side on
    an [n × m] grid: on the cells handled so far ([T]) the two first
    buffers agree, the other cells still hold [x] and [y]. *)
Definition lockstep {A} (x y : list A) (m n : Z) (T : Z → Z → Prop)
    (a b : list A) : Prop :=
  length a = length x ∧ length b = length x ∧
  ∀ c r, 0 ≤ c < m → 0 ≤ r < n →
    (T c r → load a (c + r * m) = load b (c + r * m)) ∧
    (¬ T c r → load a (c + r * m) = load x (c + r * m)
               ∧ load b (c + r * m) = load y (c + r * m)).

(** The cells of the [n × m] grid that [fht_convolve] has handled: the
    four self-mirrored corners; rows [0] and [n2] up to column [i] and its
    mirror; columns [0] and [m2] up to row [j] and its mirror; the interior
    up to column [i]; and column [i] of the interior up to row [j]. *)
Definition fht_corners (m2 n2 c r : Z) : Prop :=
  (c = 0 ∨ c = m2) ∧ (r = 0 ∨ r = n2).
Definition fht_rows (m n2 i c r : Z) : Prop :=
  (r = 0 ∨ r = n2) ∧ (1 ≤ c < i ∨ m - i < c < m).
Definition fht_cols (m2 n j c r : Z) : Prop :=
  (c = 0 ∨ c = m2) ∧ (1 ≤ r < j ∨ n - j < r < n).
Definition fht_inner (m n n2 i c r : Z) : Prop :=
  (1 ≤ c < i ∨ m - i < c < m) ∧ (1 ≤ r < n2 ∨ n2 < r < n).
Definition fht_inner_col (m n i j c r : Z) : Prop :=
  (c = i ∨ c = m - i) ∧ (1 ≤ r < j ∨ n - j < r < n).

(** The cell of the [Ny × Nx] grid whose sample the transposition moves to
    cell [k]: [k] is cell [(k / Ny, k mod Ny)] of the transposed grid, of
    [Nx] rows and [Ny] columns. *)
Definition transpose_index (Nx Ny k : Z) : Z := (k `mod` Ny) * Nx + k `div` Ny.

(** The straightforward, out-of-place transposition of a grid of [Ny] rows
    and [Nx] columns: the columns [c] of the grid one after the other, each
    read from top to bottom. *)
Definition transpose_ref {A} (Nx Ny : Z) (data : list A) : list A :=
  c ← seqZ 0 Nx; r ← seqZ 0 Ny; option_list (load data (r * Nx + c)).

(** The cells [T] of an [n × n] grid hold the sample of their mirror cell,
    the others their own. *)
Definition mirrored {A} (data : list A) (n : Z) (T : Z → Z → Prop)
    (d : list A) : Prop :=
  length d = length data ∧
  ∀ r c, 0 ≤ r < n → 0 ≤ c < n →
    (T r c → load d (c + r * n) = load data (r + c * n)) ∧
    (¬ T r c → load d (c + r * n) = load data (c + r * n)).

(** The buffer [d] after the swaps of the cycle of [i] that involve the
    first [t] cells of the orbit, from the buffer [d0]: every cell but the
    last of these holds the sample of its successor, the last one holds the
    sample of [i], and the cells off the orbit are as they were. *)
Definition cycled {A} (Nx Ny : Z) (d0 d : list A) (i : Z) (t : nat) : Prop :=
  let orbit s := Nat.iter s (transpose_index Nx Ny) i in
  length d = length d0 ∧
  (∀ s, (s + 1 < t)%nat → load d (orbit s) = load d0 (orbit (S s))) ∧
  load d (orbit (t - 1)%nat) = load d0 i ∧
  (∀ k, 0 ≤ k < Nx * Ny → (∀ s, (s < t)%nat → k ≠ orbit s) →
     load d k = load d0 k).

(** The state of the cycle-following transposition when the outer loop
    reaches [i]: the cells [W] whose orbit under the remap meets a cell below
    [i] hold the sample of their image, the others their own, and [stm]
    counts the cells outside [W]. *)
Definition transposed_upto {A} (Nx Ny : Z) (data : list A) (i : Z)
    (W : gset Z) (d : list A) (stm : Z) : Prop :=
  (∀ k, k ∈ W ↔
        0 ≤ k < Nx * Ny ∧ ∃ t, Nat.iter t (transpose_index Nx Ny) k < i) ∧
  (∀ k, 0 ≤ k < Nx * Ny →
        load d k = load data (if decide (k ∈ W)
                              then transpose_index Nx Ny k else k)) ∧
  stm = Nx * Ny - Z.of_nat (size W) ∧
  length d = length data.

(** The number whose [m] low bits are the [m] low bits of [i] in reverse
    order. *)
Fixpoint revbin (m : nat) (i : Z) : Z :=
  match m with
  | O => 0
  | S m => 2 ^ Z.of_nat m * (i `mod` 2) + revbin m (i `div` 2)
  end.

(** [d] differs from [data] on the cells [base .. base + n - 1] at most. *)
Definition same_outside {A} (base n : Z) (data d : list A) : Prop :=
  length d = length data ∧
  ∀ k, ¬ (base ≤ k < base + n) → load d k = load data k.

(** The state of the reordering loop of [FHT] when it reaches [i]: the
    cells that are below [i], or whose reversal is, hold the sample of
    their reversal; the other cells hold their own. *)
Definition reordered_upto {A} (m : nat) (base : Z) (data : list A) (i : Z)
    (d : list A) : Prop :=
  same_outside base (2 ^ Z.of_nat m) data d ∧
  ∀ k, 0 ≤ k < 2 ^ Z.of_nat m →
    load d (base + k)
    = load data (base + (if decide (k < i ∨ revbin m k < i)
                         then revbin m k else k)).

(** The [n] cells of a memory from the address [p] on. *)
Definition region {A} (mem : list A) (p n : Z) : list A :=
  take (Z.to_nat n) (drop (Z.to_nat p) mem).

(** The sizes of the scratch buffers of [convolve]. *)
Definition scratch_sized {F} (iw ih w2 h2 : Z) (s : scratch F) : Prop :=
  Z.of_nat (length (rdst s)) = iw * ih * 4 ∧
  Z.of_nat (length (data1 s)) = 3 * w2 * h2 ∧
  Z.of_nat (length (data2 s)) = w2 * h2.

(** ** The discrete Hartley transform *)

(** [cas x = cos x + sin x], the kernel of the Hartley transform. *)
Definition cas (x : R) : R := (cos x + sin x)%R.

(** The sum of [f 0 .. f (n - 1)]. *)
Fixpoint sum_upto (n : nat) (f : nat → R) : R :=
  match n with
  | O => 0%R
  | S n => (sum_upto n f + f n)%R
  end.

Definition sumZ (n : Z) (f : Z → R) : R :=
  sum_upto (Z.to_nat n) (λ j, f (Z.of_nat j)).

(** The discrete Hartley transform of the [n] samples [f 0 .. f (n - 1)],
    at the bin [k]. *)
Definition dht (n : Z) (f : Z → R) (k : Z) : R :=
  sumZ n (λ j, f j * cas (2 * PI * IZR (j * k) / IZR n))%R.

(** The sample [j] of a buffer (zero outside). *)
Definition sample (x : list R) (j : Z) : R := default 0%R (load x j).

Definition DHT (x : list R) (k : Z) : R :=
  dht (Z.of_nat (length x)) (sample x) k.

(** The term that the stage of half-width [n] adds to the cell [k] of the
    block [t], and subtracts for the cell [n + k]. *)
Definition stage_T (n : Z) (d : list R) (t k : Z) : R :=
  (cos (PI * IZR k / IZR n) * sample d (t * (2 * n) + n + k)
   + sin (PI * IZR k / IZR n)
     * sample d (t * (2 * n) + n + (n - k) `mod` n))%R.

(** The buffer [d'] in the course of the stage of half-width [n] on the
    [c] blocks of [d]: the pairs of cells [Q] hold their new samples, the
    others their old ones. *)
Definition staged (n c : Z) (d : list R) (Q : Z → Z → Prop) (d' : list R)
  : Prop :=
  length d' = length d ∧
  ∀ t k, 0 ≤ t < c → 0 ≤ k < n →
    (Q t k →
     sample d' (t * (2 * n) + k)
     = (sample d (t * (2 * n) + k) + stage_T n d t k)%R ∧
     sample d' (t * (2 * n) + n + k)
     = (sample d (t * (2 * n) + k) - stage_T n d t k)%R) ∧
    (¬ Q t k →
     sample d' (t * (2 * n) + k) = sample d (t * (2 * n) + k) ∧
     sample d' (t * (2 * n) + n + k) = sample d (t * (2 * n) + n + k)).

(** The samples that the block [b] of [2^s] cells transforms, when the
    buffer of [2^M] samples [x] has been put in bit-reversed order: those
    whose index has the [M - s] low bits of the reversal of [b]. *)
Definition block_input (M : Z) (x : list R) (s b : Z) (j : Z) : R :=
  sample x (revbin (Z.to_nat (M - s)) b + j * 2 ^ (M - s)).

(** The buffer after the stages of half-width below [2^s]: every block of
    [2^s] cells holds the Hartley transform of its samples. *)
Definition blocks (M : Z) (x : list R) (s : Z) (d : list R) : Prop :=
  length d = length x ∧
  ∀ b k, 0 ≤ b < 2 ^ (M - s) → 0 ≤ k < 2 ^ s →
    sample d (b * 2 ^ s + k) = dht (2 ^ s) (block_input M x s b) k.

(** The factor of the direction: the inverse transform of [2^M] samples
    multiplies every sample by [1 / 2^M]. *)
Definition scale (M : Z) (inverse : bool) : R :=
  if inverse then (1 / IZR (2 ^ M))%R else 1%R.

(** The index [-u] modulo [n]: [(n - u) & (n - 1)] for a power of two. *)
Definition mirror (n u : Z) : Z := (n - u) `mod` n.

(** The sample the last pass of [FHT2D] leaves in the cell [(u, v)] of a
    grid of [Hh] rows of [W] cells, from the buffer [d] before the pass. *)
Definition fin_out (W Hh : Z) (d : list R) (u v : Z) : R :=
  (/ 2 * (sample d (u * W + v) + sample d (mirror Hh u * W + v)
          + sample d (u * W + mirror W v)
          - sample d (mirror Hh u * W + mirror W v)))%R.

(** The place in the order of the pass of the group of four cells that
    holds [(u, v)]. *)
Definition fin_pos (W Hh : Z) (u v : Z) : Z :=
  Z.min u (mirror Hh u) * (W `div` 2 + 1) + Z.min v (mirror W v).

(** The buffer [d'] when the pass has handled the [q] first groups. *)
Definition finalized (W Hh : Z) (d : list R) (q : Z) (d' : list R) : Prop :=
  length d' = length d ∧
  ∀ u v, 0 ≤ u < Hh → 0 ≤ v < W →
    sample d' (u * W + v)
    = if fin_pos W Hh u v <? q then fin_out W Hh d u v
      else sample d (u * W + v).

(** The discrete Hartley transform of a grid of [Ny] rows of [Nx] samples,
    [f x y] the sample of the column [x] of the row [y]. *)
Definition dht2 (Nx Ny : Z) (f : Z → Z → R) (u v : Z) : R :=
  sumZ Ny (λ y, sumZ Nx (λ x,
    f x y * cas (2 * PI * IZR (x * u) / IZR Nx
                 + 2 * PI * IZR (y * v) / IZR Ny)))%R.

(** The transform of the rows followed by the transform of the columns. *)
Definition dht_rows_cols (Nx Ny : Z) (f : Z → Z → R) (u v : Z) : R :=
  dht Ny (λ y, dht Nx (λ x, f x y) u) v.

(** The sample that [fht_convolve] leaves in the cell [(c, r)] of the grid
    of [n] rows of [m] cells, from the samples [x] and [y] of the cell and
    of its mirror in both directions. *)
Definition hartley_product (m n : Z) (x y : Z → R) (c r : Z) : R :=
  let p := c + r * m in
  let q := mirror m c + mirror n r * m in
  (/ 2 * (x p * y p - x q * y q + x q * y p + x p * y q))%R.

(** The first buffer of [fht_convolve] in the course of the run: the cells
    handled so far ([T]) hold their product, the others the sample of
    [x]. *)
Definition multiplied (x : list R) (y : Z → R) (m n : Z)
    (T : Z → Z → Prop) (a : list R) : Prop :=
  length a = length x ∧
  ∀ c r, 0 ≤ c < m → 0 ≤ r < n →
    (T c r → sample a (c + r * m) = hartley_product m n (sample x) y c r) ∧
    (¬ T c r → sample a (c + r * m) = sample x (c + r * m)).

(** The circular convolution of two grids of [Ny] rows of [Nx] samples. *)
Definition cconv2 (Nx Ny : Z) (a b : Z → Z → R) (x y : Z) : R :=
  sumZ Ny (λ y', sumZ Nx (λ x',
    a x' y' * b ((x - x') `mod` Nx) ((y - y') `mod` Ny)))%R.

(** The angle of the kernel of the two-dimensional transform. *)
Definition angle2 (Nx Ny u v x y : Z) : R :=
  (2 * PI * IZR (x * u) / IZR Nx + 2 * PI * IZR (y * v) / IZR Ny)%R.

(** The sample of the channel [ch] of the pixel [(kx, ky)] of a kernel of
    [kh] rows of [kw] pixels, and zero outside the kernel. *)
Definition kernel_at (kw kh : Z) (kernel : list R) (ch kx ky : Z) : R :=
  if (0 <=? kx) && (kx <? kw) && (0 <=? ky) && (ky <? kh)
  then sample kernel (4 * (ky * kw + kx) + ch) else 0%R.

(** The sample of the channel [ch] of the pixel [(ix, iy)] of an image, and
    zero outside the image. *)
Definition pixel_at (iw ih : Z) (image : list R) (ch ix iy : Z) : R :=
  if (0 <=? ix) && (ix <? iw) && (0 <=? iy) && (iy <? ih)
  then sample image (4 * (iy * iw + ix) + ch) else 0%R.

(** The convolution of the image with the kernel, the centre of the kernel
    at its pixel [(kw / 2, kh / 2)]: the sample of the channel [ch] of the
    pixel [(x, y)] of the result. *)
Definition convolved (iw ih kw kh : Z) (image kernel : list R)
    (ch x y : Z) : R :=
  sumZ ih (λ iy, sumZ iw (λ ix,
    sample image (4 * (iy * iw + ix) + ch)
    * kernel_at kw kh kernel ch (x + kw `div` 2 - ix) (y + kh `div` 2 - iy)))%R.

(** What the tile [(xbl, ybl)] of [ybsz] rows of [xbsz] pixels adds to the
    pixel [(x, y)]. *)
Definition tile_part (iw ih kw kh xbsz ybsz : Z) (image kernel : list R)
    (ch xbl ybl x y : Z) : R :=
  sumZ ybsz (λ ty, sumZ xbsz (λ tx,
    pixel_at iw ih image ch (xbl * xbsz + tx) (ybl * ybsz + ty)
    * kernel_at kw kh kernel ch
        (x + kw `div` 2 - (xbl * xbsz + tx))
        (y + kh `div` 2 - (ybl * ybsz + ty))))%R.

(** What the [t] first tiles, in the order of the loops of [convolve] on
    rows of [nxb] tiles, add to the pixel [(x, y)]. *)
Definition tiles_part (iw ih kw kh xbsz ybsz nxb : Z)
    (image kernel : list R) (ch t x y : Z) : R :=
  sumZ t (λ t', tile_part iw ih kw kh xbsz ybsz image kernel ch
                  (t' `mod` nxb) (t' `div` nxb) x y).

(** The sample of the cell [(x, y)] of a grid of [h2] rows of [w2] cells,
    and zero outside the grid. *)
Definition padded_at (w2 h2 : Z) (data : list R) (x y : Z) : R :=
  if (0 <=? x) && (x <? w2) && (0 <=? y) && (y <? h2)
  then sample data (y * w2 + x) else 0%R.

(** The part [ch] of [data1] holds the transform of the kernel, padded to
    [h2] rows of [w2] samples. *)
Definition kernel_ready (kw kh w2 h2 : Z) (kernel d1 : list R) (ch : Z)
  : Prop :=
  ∀ u v, 0 ≤ u < w2 → 0 ≤ v < h2 →
    sample d1 (ch * w2 * h2 + (u * h2 + v))
    = dht2 w2 h2 (kernel_at kw kh kernel ch) u v.

(** The part [ch] of [data1] is as [calloc] left it. *)
Definition kernel_blank (w2 h2 : Z) (d1 : list R) (ch : Z) : Prop :=
  ∀ k, 0 ≤ k < w2 * h2 → sample d1 (ch * w2 * h2 + k) = 0%R.

(** The scratch state of [convolve] when the loops reach the channel [c0]
    of the tile [t], in the order of the loops on rows of [nxb] tiles. *)
Definition convolving (iw ih kw kh w2 h2 xbsz ybsz nxb : Z)
    (image kernel : list R) (t c0 : Z) (s : scratch R) : Prop :=
  scratch_sized iw ih w2 h2 s ∧
  in2done s = (0 <? t) ∧
  (∀ ch, 0 ≤ ch < 3 →
     if (0 <? t) || (ch <? c0)
     then kernel_ready kw kh w2 h2 kernel (data1 s) ch
     else kernel_blank w2 h2 (data1 s) ch) ∧
  ∀ xx yy c, 0 ≤ xx < iw → 0 ≤ yy < ih → 0 ≤ c < 4 →
    sample (rdst s) (4 * (yy * iw + xx) + c)
    = if c <? 3
      then tiles_part iw ih kw kh xbsz ybsz nxb image kernel c
             (if c <? c0 then t + 1 else t) xx yy
      else 0%R.

(** The grid that the forward [FHT2D] transforms when its row pass stops at
    the row [nzp]: the rows from [nzp] on count as already transformed, that
    is, as standing for [1 / Nx] times their one-dimensional transform. *)
Definition skipped_rows (Nx nzp : Z) (f : Z → Z → R) (c r : Z) : R :=
  if r <? nzp then f c r else (dht Nx (λ c', f c' r) c / IZR Nx)%R.

(** The sum of the channel [ch] over the [n] first pixels of a buffer. *)
Definition channel_total (kernel : list R) (n ch : Z) : R :=
  sumZ n (λ p, sample kernel (4 * p + ch)).


(** * Properties *)

(** ** Checked buffers and counted loops *)

Section Buffers.
Context {A : Type}.
Implicit Types (buf : list A) (i j : Z) (v : A).

Lemma load_Some buf i v :
  load buf i = Some v ↔ 0 ≤ i ∧ buf !! Z.to_nat i = Some v.
Proof.
  unfold load. destruct (Z.leb_spec 0 i); split.
  - done.
  - by intros [_ ?].
  - done.
  - intros [? _]. lia.
Qed.

Lemma load_is_Some buf i : 0 ≤ i < Z.of_nat (length buf) → is_Some (load buf i).
Proof.
  intros Hi. unfold load. destruct (Z.leb_spec 0 i); [|lia].
  apply lookup_lt_is_Some. lia.
Qed.

Lemma load_None buf i : Z.of_nat (length buf) ≤ i → load buf i = None.
Proof.
  intros Hi. unfold load. destruct (Z.leb_spec 0 i); [|done].
  apply lookup_ge_None. lia.
Qed.

Lemma load_lt buf i v : load buf i = Some v → 0 ≤ i < Z.of_nat (length buf).
Proof.
  intros [? Hl]%load_Some. apply lookup_lt_Some in Hl. lia.
Qed.

Lemma store_Some buf i v buf' :
  store buf i v = Some buf' ↔
  0 ≤ i < Z.of_nat (length buf) ∧ buf' = <[Z.to_nat i := v]> buf.
Proof.
  unfold store.
  destruct (Z.leb_spec 0 i), (Z.ltb_spec i (Z.of_nat (length buf))); simpl;
    (split; [intros [= <-] || done| intros [? ->]]); try done; lia.
Qed.

Lemma store_is_Some buf i v :
  0 ≤ i < Z.of_nat (length buf) → store buf i v = Some (<[Z.to_nat i := v]> buf).
Proof. intros. by apply store_Some. Qed.

Lemma store_length buf i v buf' :
  store buf i v = Some buf' → length buf' = length buf.
Proof. intros [_ ->]%store_Some. apply length_insert. Qed.

Lemma load_store_eq buf i v buf' :
  store buf i v = Some buf' → load buf' i = Some v.
Proof.
  intros [Hi ->]%store_Some. apply load_Some. split; [lia|].
  apply list_lookup_insert_eq. lia.
Qed.

Lemma load_store_ne buf i j v buf' :
  store buf i v = Some buf' → i ≠ j → load buf' j = load buf j.
Proof.
  intros [Hi ->]%store_Some Hne. unfold load.
  destruct (Z.leb_spec 0 j); [|done].
  apply list_lookup_insert_ne. lia.
Qed.

Lemma load_insert buf i j v :
  0 ≤ i < Z.of_nat (length buf) →
  load (<[Z.to_nat i := v]> buf) j
  = if decide (j = i) then Some v else load buf j.
Proof.
  intros Hi. case_decide as Hj.
  - subst j. by apply load_store_eq with buf, store_is_Some.
  - apply load_store_ne with i v; [by apply store_is_Some|done].
Qed.

End Buffers.

Section Loops.
Context {S : Type}.
Implicit Types (s : S) (body : Z → S → option S).

Lemma for_range_empty lo hi body s : hi ≤ lo → for_range lo hi body s = Some s.
Proof.
  intros. unfold for_range, seqZ.
  replace (Z.to_nat (hi - lo)) with 0%nat by lia. done.
Qed.

Lemma for_range_first lo hi body s :
  lo < hi →
  for_range lo hi body s = s' ← body lo s; for_range (lo + 1) hi body s'.
Proof.
  intros. unfold for_range. rewrite seqZ_cons by lia. cbn [for_each].
  by replace (Z.pred (hi - lo)) with (hi - (lo + 1)) by lia.
Qed.

(** The invariant rule of a counted loop, and its total version. *)
Lemma for_range_inv (P : Z → S → Prop) lo hi body s s' :
  lo ≤ hi → P lo s →
  (∀ i s s', lo ≤ i < hi → P i s → body i s = Some s' → P (i + 1) s') →
  for_range lo hi body s = Some s' → P hi s'.
Proof.
  intros Hle HP Hstep.
  remember (Z.to_nat (hi - lo)) as n eqn:Hn.
  revert lo s Hle HP Hstep Hn. induction n as [|n IH]; intros lo s Hle HP Hstep Hn.
  - assert (lo = hi) as -> by lia. rewrite for_range_empty by lia.
    by intros [= <-].
  - rewrite for_range_first by lia.
    destruct (body lo s) as [s1|] eqn:Hb; [|done]. cbn [mbind option_bind].
    apply IH; [lia| |intros; eapply Hstep; eauto; lia|lia].
    eapply Hstep; eauto. lia.
Qed.

Lemma for_range_total (P : Z → S → Prop) lo hi body s :
  lo ≤ hi → P lo s →
  (∀ i s, lo ≤ i < hi → P i s → ∃ s', body i s = Some s' ∧ P (i + 1) s') →
  ∃ s', for_range lo hi body s = Some s' ∧ P hi s'.
Proof.
  intros Hle HP Hstep.
  remember (Z.to_nat (hi - lo)) as n eqn:Hn.
  revert lo s Hle HP Hstep Hn. induction n as [|n IH]; intros lo s Hle HP Hstep Hn.
  - assert (lo = hi) as -> by lia. rewrite for_range_empty by lia. eauto.
  - rewrite for_range_first by lia.
    destruct (Hstep lo s) as (s1 & -> & HP1); [lia|done|]. cbn [mbind option_bind].
    apply IH; [lia|done|intros; eapply Hstep; eauto; lia|lia].
Qed.

(** An invariant that does not mention the counter needs no bound. *)
Lemma for_range_preserve (P : S → Prop) lo hi body s s' :
  P s →
  (∀ i s s', lo ≤ i < hi → P s → body i s = Some s' → P s') →
  for_range lo hi body s = Some s' → P s'.
Proof.
  intros HP Hstep. destruct (Z.le_gt_cases lo hi) as [Hle|Hgt].
  - apply (for_range_inv (λ _, P)); eauto.
  - rewrite for_range_empty by lia. by intros [= <-].
Qed.

(** A loop whose body faults at its first index faults. *)
Lemma for_range_first_None lo hi body s :
  lo < hi → body lo s = None → for_range lo hi body s = None.
Proof. intros ? Hb. rewrite for_range_first by done. by rewrite Hb. Qed.

End Loops.
Section Loops2.
Context {S : Type}.
Implicit Types (s : S).

(** Two nested counted loops over a [w × h] grid, rows outside: the
    invariant is indexed by the number [y * w + x] of cells done. *)
Lemma for_range_grid_total (P : Z → S → Prop) w h
    (body : Z → Z → S → option S) s :
  0 ≤ w → 0 ≤ h → P 0 s →
  (∀ x y s, 0 ≤ x < w → 0 ≤ y < h → P (y * w + x) s →
     ∃ s', body x y s = Some s' ∧ P (y * w + x + 1) s') →
  ∃ s', for_range 0 h (λ y, for_range 0 w (λ x, body x y)) s = Some s'
        ∧ P (w * h) s'.
Proof.
  intros Hw Hh HP Hstep.
  destruct (for_range_total (λ y, P (y * w)) 0 h
              (λ y, for_range 0 w (λ x, body x y)) s) as (s' & Hs' & HP');
    [done|done| |].
  - intros y s0 Hy HP0.
    destruct (for_range_total (λ x, P (y * w + x)) 0 w (λ x, body x y) s0)
      as (s1 & Hs1 & HP1); [done|by rewrite Z.add_0_r| |].
    + intros x s1 Hx HP1. destruct (Hstep x y s1) as (s2 & ? & ?); [done..|].
      exists s2. split; [done|]. by rewrite Z.add_assoc.
    + exists s1. split; [done|].
      by replace ((y + 1) * w) with (y * w + w) by lia.
  - exists s'. split; [done|]. by rewrite Z.mul_comm.
Qed.


End Loops2.

Section Loops3.
Context {S : Type}.
Implicit Types (s : S).

Lemma for_range_skip lo hi s :
  for_range lo hi (λ _ s, Some s) s = Some s.
Proof.
  destruct (for_range_total (λ _ s', s' = s) lo (Z.max lo hi)
              (λ _ s, Some s) s) as (s' & Hs' & ->); [lia|done|eauto|].
  destruct (Z.le_gt_cases lo hi).
  - by rewrite Z.max_r in Hs' by lia.
  - by rewrite for_range_empty by lia.
Qed.

(** A guard in front of a loop can be moved into its body. *)
Lemma for_range_guard (c : bool) lo hi (body : Z → S → option S) s :
  (if c then Some s else for_range lo hi body s)
  = for_range lo hi (λ i s, if c then Some s else body i s) s.
Proof. destruct c; [|done]. by rewrite for_range_skip. Qed.

Lemma for_range_ext lo hi (body1 body2 : Z → S → option S) s :
  (∀ i s, lo ≤ i < hi → body1 i s = body2 i s) →
  for_range lo hi body1 s = for_range lo hi body2 s.
Proof.
  intros Hext. destruct (Z.le_gt_cases hi lo).
  { by rewrite !for_range_empty by lia. }
  remember (Z.to_nat (hi - lo)) as n eqn:Hn.
  revert lo s Hext H Hn. induction n as [|n IH]; intros lo s Hext Hlt Hn; [lia|].
  rewrite !for_range_first by lia. rewrite Hext by lia.
  destruct (body2 lo s) as [s1|]; [|done]. cbn [mbind option_bind].
  destruct (Z.eq_dec (lo + 1) hi) as [->|].
  - by rewrite !for_range_empty by lia.
  - apply IH; [intros; apply Hext; lia|lia|lia].
Qed.

End Loops3.

Lemma grid_index_inj w x y x' y' :
  0 ≤ x < w → 0 ≤ x' < w → y * w + x = y' * w + x' → x = x' ∧ y = y'.
Proof.
  intros Hx Hx' Heq.
  assert (y = y'); [|subst; lia].
  destruct (Z.lt_trichotomy y y') as [Hlt|[|Hlt]]; [exfalso|done|exfalso].
  - assert (w ≤ (y' - y) * w) by nia. lia.
  - assert (w ≤ (y - y') * w) by nia. lia.
Qed.

Section Loops4.
Context {S : Type}.

(** Two runs of a counted loop side by side. *)
Lemma for_range_total2 (P : Z → S → S → Prop) lo hi
    (body1 body2 : Z → S → option S) s1 s2 :
  lo ≤ hi → P lo s1 s2 →
  (∀ i s1 s2, lo ≤ i < hi → P i s1 s2 →
     ∃ s1' s2', body1 i s1 = Some s1' ∧ body2 i s2 = Some s2'
                ∧ P (i + 1) s1' s2') →
  ∃ s1' s2', for_range lo hi body1 s1 = Some s1'
             ∧ for_range lo hi body2 s2 = Some s2' ∧ P hi s1' s2'.
Proof.
  intros Hle HP Hstep.
  remember (Z.to_nat (hi - lo)) as k eqn:Hk.
  revert lo s1 s2 Hle HP Hstep Hk.
  induction k as [|k IH]; intros lo s1 s2 Hle HP Hstep Hk.
  - assert (lo = hi) as -> by lia. rewrite !for_range_empty by lia. eauto.
  - rewrite !for_range_first by lia.
    destruct (Hstep lo s1 s2) as (s1' & s2' & -> & -> & HP'); [lia|done|].
    cbn [mbind option_bind].
    apply IH; [lia|done|intros; eapply Hstep; eauto; lia|lia].
Qed.

End Loops4.

(** ** Machine integers and [next_pow2] *)

Lemma u32_small z : 0 ≤ z < 2 ^ 32 → u32 z = z.
Proof. intros. unfold u32. by apply Z.mod_small. Qed.

Lemma next_pow2_loop_log2 fuel x L :
  1 ≤ x < 2 ^ Z.of_nat fuel → 0 ≤ L → L + Z.log2 x < 2 ^ 32 →
  next_pow2_loop fuel x L = Some (L + Z.log2 x).
Proof.
  revert x L. induction fuel as [|fuel IH]; intros x L Hx HL Hb.
  - simpl in Hx. lia.
  - cbn [next_pow2_loop]. rewrite Z.shiftr_div_pow2 by lia.
    change (2 ^ 1) with 2.
    destruct (Z.eqb_spec (x `div` 2) 0) as [H0|H0].
    + assert (x = 1) by (apply Z.div_small_iff in H0; lia). subst x.
      f_equal. change (Z.log2 1) with 0. lia.
    + assert (2 ≤ x).
      { destruct (Z_lt_le_dec x 2) as [Hlt|]; [|done].
        exfalso. apply H0. apply Z.div_small. lia. }
      assert (Hlog : Z.log2 x = Z.succ (Z.log2 (x `div` 2))).
      { replace (x `div` 2) with (Z.shiftr x 1)
          by (rewrite Z.shiftr_div_pow2 by lia; done).
        rewrite Z.log2_shiftr by lia.
        pose proof (Z.log2_le_mono 2 x). change (Z.log2 2) with 1 in *. lia. }
      assert (0 ≤ Z.log2 (x `div` 2)) by apply Z.log2_nonneg.
      rewrite u32_small by lia.
      rewrite IH; [f_equal; lia | | lia | lia].
      split; [apply Z.div_le_lower_bound; lia|].
      apply Z.div_lt_upper_bound; [lia|].
      rewrite Nat2Z.inj_succ, Z.pow_succ_r in Hx by lia. lia.
Qed.

Lemma land_pred_pow2 x :
  1 ≤ x → (Z.land x (x - 1) = 0 ↔ x = 2 ^ Z.log2 x).
Proof.
  intros Hx. pose proof (Z.log2_spec x ltac:(lia)) as [Hlo Hhi].
  pose proof (Z.log2_nonneg x) as Hk.
  rewrite Z.pow_succ_r in Hhi by done.
  split.
  - intros Hland.
    destruct (Z.eq_dec x (2 ^ Z.log2 x)) as [|Hne]; [done|exfalso].
    assert (Hk' : Z.log2 (x - 1) = Z.log2 x).
    { apply Z.log2_unique; [done|]. rewrite Z.pow_succ_r by done. lia. }
    assert (Hbit : Z.testbit (Z.land x (x - 1)) (Z.log2 x) = true).
    { rewrite Z.land_spec, Z.bit_log2 by lia.
      rewrite <- Hk', Z.bit_log2 by lia. done. }
    rewrite Hland, Z.bits_0 in Hbit. done.
  - intros ->.
    rewrite Z.sub_1_r, <- Z.ones_equiv, Z.land_ones by done.
    apply Z.mod_same. lia.
Qed.

Lemma next_pow2_spec x :
  1 ≤ x ≤ 2 ^ 31 →
  ∃ pw L2, next_pow2 x = Some (pw, L2) ∧ is_next_pow2 x pw L2.
Proof.
  intros Hx. pose proof (Z.log2_spec x ltac:(lia)) as [Hlo Hhi].
  pose proof (Z.log2_nonneg x) as Hk.
  assert (Hk31 : Z.log2 x ≤ 31).
  { pose proof (Z.log2_le_mono x (2 ^ 31) ltac:(lia)) as H.
    rewrite Z.log2_pow2 in H; lia. }
  unfold next_pow2.
  rewrite next_pow2_loop_log2; [|simpl; lia|done|lia]. cbn [mbind option_bind].
  rewrite Z.add_0_l, (u32_small (x - 1)) by lia.
  rewrite Z.shiftl_1_l.
  assert (Hp : 0 < 2 ^ Z.log2 x ≤ 2 ^ 31).
  { split; [lia|]. apply Z.pow_le_mono_r; lia. }
  rewrite (u32_small (2 ^ _)) by lia.
  destruct (Z.eqb_spec (Z.land x (x - 1)) 0) as [H0|H0].
  - apply land_pred_pow2 in H0; [|lia].
    eexists _, _. split; [done|]. repeat split; [done|lia|].
    intros k _ Hle. lia.
  - assert (Hne : x ≠ 2 ^ Z.log2 x).
    { intros Heq. apply H0. by apply land_pred_pow2; [lia|]. }
    assert (Hk30 : Z.log2 x ≤ 30).
    { destruct (Z.eq_dec (Z.log2 x) 31) as [E|]; [|lia].
      rewrite E in *. lia. }
    rewrite Z.shiftl_mul_pow2 by lia. change (2 ^ 1) with 2.
    replace (2 ^ Z.log2 x * 2) with (2 ^ Z.succ (Z.log2 x))
      by (rewrite Z.pow_succ_r by done; lia).
    assert (2 ^ Z.succ (Z.log2 x) ≤ 2 ^ 31) by (apply Z.pow_le_mono_r; lia).
    rewrite !u32_small by lia.
    eexists _, _. split; [replace (Z.log2 x + 1) with (Z.succ (Z.log2 x)) by lia; done|].
    repeat split; [lia|lia|].
    intros k Hk0 Hle. apply Z.pow_le_mono_r; [lia|].
    destruct (Z_lt_le_dec k (Z.succ (Z.log2 x))) as [Hlt|]; [exfalso|done].
    assert (2 ^ k ≤ 2 ^ Z.log2 x) by (apply Z.pow_le_mono_r; lia). lia.
Qed.

(** C7 (as amended).  For every [x] with [1 ≤ x ≤ 2^31], [next_pow2]
    returns the smallest power of two that is at least [x] together with
    its base-2 logarithm; consequently, for kernel dimensions between [1]
    and [2^30], the padded size computed at the head of [convolve] is the
    smallest power of two that is at least [2 * kernel_dim - 1], with its
    logarithm. *)
Theorem next_pow2_smallest (x kernel_dim : Z) :
  1 ≤ x ≤ 2 ^ 31 →
  1 ≤ kernel_dim ≤ 2 ^ 30 →
  (∃ pw L2, next_pow2 x = Some (pw, L2) ∧ is_next_pow2 x pw L2) ∧
  (∃ w2 log2_w, padded_size kernel_dim = Some (w2, log2_w) ∧
                is_next_pow2 (2 * kernel_dim - 1) w2 log2_w).
Proof.
  intros Hx Hk. split; [by apply next_pow2_spec|].
  unfold padded_size. rewrite u32_small by lia.
  apply next_pow2_spec. lia.
Qed.

Lemma next_pow2_smallest_witness :
  (∃ pw L2, next_pow2 5 = Some (pw, L2) ∧ is_next_pow2 5 pw L2) ∧
  (∃ w2 log2_w, padded_size 3 = Some (w2, log2_w) ∧
                is_next_pow2 (2 * 3 - 1) w2 log2_w).
Proof. apply (next_pow2_smallest 5 3); lia. Defined.

(** C7, as stated, fails above [2^31]: the result wraps around to [0]. *)
Lemma next_pow2_wraps :
  next_pow2 2147483649 = Some (0, 32) ∧
  ¬ ∃ pw L2, next_pow2 2147483649 = Some (pw, L2) ∧
             is_next_pow2 2147483649 pw L2.
Proof.
  split; [reflexivity|].
  intros (pw & L2 & Heq & _ & _ & Hle & _).
  vm_compute in Heq. injection Heq as <- <-. lia.
Qed.

(** ** The transform on the shortest buffers *)

Section FHT_small.
Context {F D : Type} `{!FloatArith F D} (cos : D → D).

(** C8.  For every buffer [[a; b]] (M = 1) the forward transform produces
    [[a + b; a - b]]. *)
Theorem FHT_length_2 (a b : F) :
  FHT cos [a; b] 0 1 false = Some [f_add a b; f_sub a b].
Proof.
  unfold FHT. 
  assert (Hrev : FHT_revbin 0 (Z.shiftl 1 1) [a; b] = Some [a; b]) by reflexivity.
  rewrite Hrev. cbn [mbind option_bind].
  reflexivity.
Qed.

(** With [M = 0] the first butterfly of the [do ... while] loop reads
    [data[1]], one past a buffer of a single sample. *)
Lemma FHT_length_1_faults (data : list F) (base : Z) (inverse : bool) :
  Z.of_nat (length data) ≤ base + 1 → FHT cos data base 0 inverse = None.
Proof.
  intros Hlen. unfold FHT.
  change (FHT_revbin base (Z.shiftl 1 0) data) with (Some data).
  cbn [mbind option_bind].
  change (Z.to_nat 0) with 0%nat. cbn [FHT_stages].
  unfold FHT_stage.
  change (for_step 0 (Z.shiftl 1 0) (Z.shiftl 1 1)
            (λ k, FHT_butterfly (base + k) (base + 1 + k)) data)
    with (data' ← FHT_butterfly (base + 0) (base + 1 + 0) data; Some data').
  unfold FHT_butterfly. rewrite (load_None data (base + 1 + 0)) by lia. done.
Qed.
End FHT_small.

(** ** Normalisation of the kernel *)

Section Normalize.
Context {F D : Type} `{!FloatArith F D}.

Lemma pixel_Some w h x y ch :
  0 ≤ x < w → 0 ≤ y < h → pixel w h x y ch = Some (4 * (y * w + x) + ch).
Proof.
  intros Hx Hy. unfold pixel, COM_DATA_TYPE_COLOR_CHANNELS.
  destruct (Z.leb_spec 0 x), (Z.ltb_spec x w), (Z.leb_spec 0 y),
    (Z.ltb_spec y h); try lia.
  simpl. f_equal. lia.
Qed.

Lemma pixel_bound w h x y :
  0 ≤ x < w → 0 ≤ y < h → 0 ≤ y * w + x < w * h.
Proof. intros. nia. Qed.

Lemma channel_sum_step (kernel : list F) q ch :
  0 ≤ q →
  channel_sum kernel (q + 1) ch
  = f_add (channel_sum kernel q ch)
      (default f_zero (load kernel (4 * q + ch))).
Proof.
  intros. unfold channel_sum. rewrite seqZ_app by lia.
  rewrite foldl_app. done.
Qed.

Lemma kernel_weights_sum kw kh (kernel : list F) :
  0 ≤ kw → 0 ≤ kh → Z.of_nat (length kernel) = kw * kh * 4 →
  kernel_weights kw kh kernel
  = Some (channel_sum kernel (kw * kh) 0, channel_sum kernel (kw * kh) 1,
          channel_sum kernel (kw * kh) 2).
Proof.
  intros Hw Hh Hlen. unfold kernel_weights.
  destruct (for_range_grid_total
    (λ q wt, wt = (channel_sum kernel q 0, channel_sum kernel q 1,
                   channel_sum kernel q 2))
    kw kh (add_v3_px kw kh kernel) (f_zero, f_zero, f_zero))
    as (wt & -> & ->); [done..| |done].
  intros x y wt Hx Hy ->. pose proof (pixel_bound kw kh x y Hx Hy).
  unfold add_v3_px, load_pixel. rewrite !pixel_Some by done.
  cbn [mbind option_bind].
  destruct (load_is_Some kernel (4 * (y * kw + x) + 0)) as [a0 Ha0]; [lia|].
  destruct (load_is_Some kernel (4 * (y * kw + x) + 1)) as [a1 Ha1]; [lia|].
  destruct (load_is_Some kernel (4 * (y * kw + x) + 2)) as [a2 Ha2]; [lia|].
  rewrite Ha0, Ha1, Ha2. cbn [mbind option_bind].
  eexists. split; [done|].
  rewrite !channel_sum_step by lia. by rewrite Ha0, Ha1, Ha2.
Qed.

Lemma mul_px_step wf kw kh (kernel k : list F) x y c :
  0 ≤ x < kw → 0 ≤ y < kh → 0 ≤ c < 3 →
  Z.of_nat (length kernel) = kw * kh * 4 →
  scaled_upto wf kernel (4 * (y * kw + x) + c) k →
  ∃ k', mul_px kw kh x y c (wf c) k = Some k'
        ∧ scaled_upto wf kernel (4 * (y * kw + x) + c + 1) k'.
Proof.
  intros Hx Hy Hc Hlen [Hl Hk]. pose proof (pixel_bound kw kh x y Hx Hy).
  set (q := y * kw + x) in *.
  unfold mul_px. rewrite pixel_Some by done. cbn [mbind option_bind].
  fold q. rewrite Hk by lia.
  destruct (Z.ltb_spec (4 * q + c) (4 * q + c)); [lia|].
  rewrite andb_false_r.
  destruct (load_is_Some kernel (4 * q + c)) as [v Hv]; [lia|].
  rewrite Hv. cbn [mbind option_bind].
  rewrite store_is_Some by lia. eexists. split; [done|].
  split; [by rewrite length_insert|].
  intros p c' Hp Hc'.
  destruct (Z.eq_dec (4 * p + c') (4 * q + c)) as [Heq|Hne].
  - assert (p = q ∧ c' = c) as [-> ->] by lia.
    erewrite load_store_eq by (by apply store_is_Some; lia).
    destruct (Z.ltb_spec c 3), (Z.ltb_spec (4 * q + c) (4 * q + c + 1));
      try lia.
    by rewrite Hv.
  - erewrite load_store_ne; [|by apply store_is_Some; lia|done].
    rewrite Hk by done.
    destruct (Z.ltb_spec (4 * p + c') (4 * q + c)),
      (Z.ltb_spec (4 * p + c') (4 * q + c + 1)); try lia; done.
Qed.


Lemma mul_v3_px_step wf kw kh (kernel k : list F) x y :
  0 ≤ x < kw → 0 ≤ y < kh →
  Z.of_nat (length kernel) = kw * kh * 4 →
  scaled_upto wf kernel (4 * (y * kw + x)) k →
  ∃ k', mul_v3_px kw kh (wf 0, wf 1, wf 2) x y k = Some k'
        ∧ scaled_upto wf kernel (4 * (y * kw + x + 1)) k'.
Proof.
  intros Hx Hy Hlen Hk. unfold mul_v3_px.
  rewrite <- (Z.add_0_r (4 * _)) in Hk.
  destruct (mul_px_step wf kw kh kernel k x y 0) as (k0 & -> & Hk0);
    [done|done|lia|done|done|].
  cbn [mbind option_bind].
  replace (4 * (y * kw + x) + 0 + 1) with (4 * (y * kw + x) + 1) in Hk0 by lia.
  destruct (mul_px_step wf kw kh kernel k0 x y 1) as (k1 & -> & Hk1);
    [done|done|lia|done|done|].
  cbn [mbind option_bind].
  replace (4 * (y * kw + x) + 1 + 1) with (4 * (y * kw + x) + 2) in Hk1 by lia.
  destruct (mul_px_step wf kw kh kernel k1 x y 2) as (k2 & -> & [Hl2 Hk2]);
    [done|done|lia|done|done|].
  eexists. split; [done|]. split; [done|].
  intros p c Hp Hc. rewrite Hk2 by done.
  destruct (Z.ltb_spec c 3); [|done]. cbn [andb].
  destruct (Z.ltb_spec (4 * p + c) (4 * (y * kw + x) + 2 + 1)),
    (Z.ltb_spec (4 * p + c) (4 * (y * kw + x + 1))); try lia; done.
Qed.

(** C4 (as amended).  The normalisation multiplies every colour cell of the
    kernel by the weight of its channel and leaves alpha alone; the weight
    is the reciprocal [1.0f / sum] of the channel's sum when the sum is not
    zero, and the sum itself, that is zero, otherwise. *)
Theorem normalize_kernel_scales kw kh (kernel : list F) :
  0 ≤ kw → 0 ≤ kh → Z.of_nat (length kernel) = kw * kh * 4 →
  ∃ k', normalize_kernel kw kh kernel = Some k' ∧
    length k' = length kernel ∧
    ∀ x y ch, 0 ≤ x < kw → 0 ≤ y < kh → 0 ≤ ch < 4 →
      load_pixel kw kh k' x y ch
      = if ch <? 3
        then (λ v, f_mul v
                (reciprocal_weight (channel_sum kernel (kw * kh) ch)))
             <$> load_pixel kw kh kernel x y ch
        else load_pixel kw kh kernel x y ch.
Proof.
  intros Hw Hh Hlen. unfold normalize_kernel.
  rewrite kernel_weights_sum by done. cbn [mbind option_bind].
  set (wf := λ c, reciprocal_weight (channel_sum kernel (kw * kh) c)).
  change (reciprocal_weight (channel_sum kernel (kw * kh) 0)) with (wf 0).
  change (reciprocal_weight (channel_sum kernel (kw * kh) 1)) with (wf 1).
  change (reciprocal_weight (channel_sum kernel (kw * kh) 2)) with (wf 2).
  destruct (for_range_grid_total (λ q, scaled_upto wf kernel (4 * q))
    kw kh (mul_v3_px kw kh (wf 0, wf 1, wf 2)) kernel)
    as (k' & Hk' & Hl & Hs); [done|done| | |].
  - split; [done|]. intros p c Hp Hc.
    destruct (Z.ltb_spec (4 * p + c) (4 * 0)); [lia|]. by rewrite andb_false_r.
  - intros x y k Hx Hy Hk. by apply mul_v3_px_step.
  - exists k'. split; [done|]. split; [done|].
    intros x y ch Hx Hy Hch. pose proof (pixel_bound kw kh x y Hx Hy).
    unfold load_pixel. rewrite pixel_Some by done. cbn [mbind option_bind].
    rewrite Hs by lia.
    destruct (Z.ltb_spec ch 3); [|done]. cbn [andb].
    destruct (Z.ltb_spec (4 * (y * kw + x) + ch) (4 * (kw * kh))); [done|lia].
Qed.

End Normalize.

(** ** The steps of one tile *)

Section TileLoops.
Context {F D : Type} `{!FloatArith F D}.

Lemma memset0_length n (buf buf' : list F) :
  memset0 n buf = Some buf' → length buf' = length buf.
Proof.
  unfold memset0.
  destruct (Z.leb_spec 0 n), (Z.leb_spec n (Z.of_nat (length buf)));
    simpl; try done.
  intros [= <-]. rewrite length_app, length_replicate, length_drop. lia.
Qed.

Lemma load_tile_length iw ih w2 h2 xbsz ybsz xbl ybl ch
    (image data2 d2 : list F) :
  load_tile iw ih w2 h2 xbsz ybsz xbl ybl ch image data2 = Some d2 →
  length d2 = length data2.
Proof.
  unfold load_tile. intros Hl.
  destruct (memset0 (w2 * h2) data2) as [d0|] eqn:Hm; [|done].
  apply memset0_length in Hm as <-. cbn [mbind option_bind] in Hl.
  revert Hl. apply (for_range_preserve (λ d, length d = length d0)); [done|].
  intros y d d' _ Hd.
  destruct (ih <=? ybl * ybsz + y); [by intros [= <-]|].
  apply (for_range_preserve (λ d, length d = length d0)); [done|].
  clear d d' Hd. intros x d d' _ Hd.
  destruct (iw <=? xbl * xbsz + x); [by intros [= <-]|].
  destruct (load_pixel _ _ _ _ _ _); [|done]. cbn [mbind option_bind].
  intros ->%store_length. done.
Qed.

Lemma memset0_load n (buf buf' : list F) i :
  memset0 n buf = Some buf' → 0 ≤ i < n → load buf' i = Some f_zero.
Proof.
  unfold memset0.
  destruct (Z.leb_spec 0 n), (Z.leb_spec n (Z.of_nat (length buf)));
    simpl; try done.
  intros [= <-] Hi. apply load_Some. split; [lia|].
  rewrite lookup_app_l by (rewrite length_replicate; lia).
  apply lookup_replicate. split; [done|lia].
Qed.

Lemma load_tile_spec iw ih w2 h2 xbsz ybsz xbl ybl ch (image data2 : list F) :
  0 ≤ iw → 0 ≤ ih → Z.of_nat (length image) = iw * ih * 4 →
  Z.of_nat (length data2) = w2 * h2 →
  0 ≤ xbsz ≤ w2 → 0 ≤ ybsz ≤ h2 → 0 ≤ xbl → 0 ≤ ybl → 0 ≤ ch < 4 →
  ∃ d2, load_tile iw ih w2 h2 xbsz ybsz xbl ybl ch image data2 = Some d2 ∧
    length d2 = length data2 ∧
    ∀ x y, 0 ≤ x < w2 → 0 ≤ y < h2 →
      load d2 (y * w2 + x)
      = tile_sample iw ih xbsz ybsz xbl ybl ch image x y.
Proof.
  intros Hiw Hih Hlen Hlen2 Hxb Hyb Hxbl Hybl Hch. unfold load_tile.
  destruct (memset0 (w2 * h2) data2) as [d0|] eqn:Hm; cycle 1.
  { unfold memset0 in Hm.
    destruct (Z.leb_spec 0 (w2 * h2)),
      (Z.leb_spec (w2 * h2) (Z.of_nat (length data2))); simpl in Hm;
      try done; nia. }
  cbn [mbind option_bind].
  pose proof (memset0_length _ _ _ Hm) as Hl0.
  erewrite for_range_ext; cycle 1.
  { intros y d _. apply for_range_guard. }
  cbv beta.
  destruct (for_range_grid_total
    (λ q d, length d = length data2 ∧
       ∀ x y, 0 ≤ x < w2 → 0 ≤ y < h2 →
         load d (y * w2 + x)
         = if y * xbsz + x <? q
           then tile_sample iw ih xbsz ybsz xbl ybl ch image x y
           else Some f_zero)
    xbsz ybsz
    (λ x y d,
       if ih <=? ybl * ybsz + y then Some d
       else if iw <=? xbl * xbsz + x then Some d
            else v ← load_pixel iw ih image (xbl * xbsz + x)
                       (ybl * ybsz + y) ch;
                 store d (y * w2 + x) v) d0)
    as (d2 & Hd2 & Hl2 & Hs2); [lia|lia| | |].
  - split; [done|]. intros x y Hx Hy.
    destruct (Z.ltb_spec (y * xbsz + x) 0); [nia|].
    eapply memset0_load; [done|nia].
  - intros x y d Hx Hy [Hl Hd].
    assert (Hcell : ∀ x' y', 0 ≤ x' < w2 → 0 ≤ y' < h2 →
              (y' * xbsz + x' <? y * xbsz + x + 1)
              = (y' * xbsz + x' <? y * xbsz + x)
              ∨ (x' = x ∧ y' = y) ∨ xbsz ≤ x').
    { intros x' y' Hx' Hy'.
      destruct (Z.ltb_spec (y' * xbsz + x') (y * xbsz + x + 1)),
        (Z.ltb_spec (y' * xbsz + x') (y * xbsz + x)); try lia; auto.
      destruct (Z_lt_le_dec x' xbsz); [|auto]. right. left.
      assert (y' * xbsz + x' = y * xbsz + x) as Heq by lia.
      apply grid_index_inj in Heq; lia. }
    assert (Hskip : tile_sample iw ih xbsz ybsz xbl ybl ch image x y
                    = Some f_zero →
              length d = length data2 ∧
              ∀ x' y', 0 ≤ x' < w2 → 0 ≤ y' < h2 →
                load d (y' * w2 + x')
                = if y' * xbsz + x' <? y * xbsz + x + 1
                  then tile_sample iw ih xbsz ybsz xbl ybl ch image x' y'
                  else Some f_zero).
    { intros Hz. split; [done|]. intros x' y' Hx' Hy'.
      rewrite Hd by done.
      destruct (Hcell x' y' Hx' Hy') as [->|[[-> ->]|Hge]]; [done| |].
      - rewrite Hz. by destruct (_ <? _), (_ <? _).
      - unfold tile_sample.
        destruct (Z.ltb_spec x' xbsz); [lia|]. cbn [andb].
        by destruct (_ <? _), (_ <? _). }
    destruct (Z.leb_spec ih (ybl * ybsz + y)) as [Hyy|Hyy].
    { eexists. split; [done|]. apply Hskip. unfold tile_sample.
      destruct (Z.ltb_spec (ybl * ybsz + y) ih); [lia|].
      by rewrite andb_false_r. }
    destruct (Z.leb_spec iw (xbl * xbsz + x)) as [Hxx|Hxx].
    { eexists. split; [done|]. apply Hskip. unfold tile_sample.
      destruct (Z.ltb_spec (xbl * xbsz + x) iw); [lia|].
      by rewrite andb_false_r. }
    assert (0 ≤ xbl * xbsz + x < iw) by nia.
    assert (0 ≤ ybl * ybsz + y < ih) by nia.
    pose proof (pixel_bound iw ih _ _ H H0).
    unfold load_pixel at 1. rewrite pixel_Some by done.
    cbn [mbind option_bind].
    destruct (load_is_Some image
                (4 * ((ybl * ybsz + y) * iw + (xbl * xbsz + x)) + ch))
      as [v Hv]; [lia|].
    rewrite Hv. cbn [mbind option_bind].
    assert (0 ≤ y * w2 + x < w2 * h2) by nia.
    rewrite store_is_Some by lia. eexists. split; [done|].
    split; [by rewrite length_insert|].
    intros x' y' Hx' Hy'.
    destruct (Z.eq_dec (y' * w2 + x') (y * w2 + x)) as [Heq|Hne].
    + assert (x' = x ∧ y' = y) as [-> ->]
        by (apply grid_index_inj in Heq; lia).
      erewrite load_store_eq by (by apply store_is_Some; lia).
      destruct (Z.ltb_spec (y * xbsz + x) (y * xbsz + x + 1)); [|lia].
      unfold tile_sample, load_pixel. rewrite pixel_Some by done.
      cbn [mbind option_bind]. rewrite Hv.
      destruct (Z.ltb_spec x xbsz), (Z.ltb_spec y ybsz),
        (Z.ltb_spec (xbl * xbsz + x) iw), (Z.ltb_spec (ybl * ybsz + y) ih);
        try lia; done.
    + erewrite load_store_ne; [|by apply store_is_Some; lia|done].
      rewrite Hd by done.
      destruct (Hcell x' y' Hx' Hy') as [->|[[-> ->]|Hge]]; [done|done|].
      unfold tile_sample.
      destruct (Z.ltb_spec x' xbsz); [lia|]. cbn [andb].
      by destruct (_ <? _), (_ <? _).
  - exists d2. split; [done|]. split; [done|].
    intros x y Hx Hy. rewrite Hs2 by done.
    destruct (Z.ltb_spec (y * xbsz + x) (xbsz * ybsz)); [done|].
    unfold tile_sample.
    destruct (Z.ltb_spec x xbsz); [|done].
    destruct (Z.ltb_spec y ybsz); [nia|done].
Qed.


Lemma pixel_inv w h x y ch p :
  pixel w h x y ch = Some p →
  0 ≤ x < w ∧ 0 ≤ y < h ∧ p = 4 * (y * w + x) + ch.
Proof.
  unfold pixel, COM_DATA_TYPE_COLOR_CHANNELS.
  destruct (Z.leb_spec 0 x), (Z.ltb_spec x w), (Z.leb_spec 0 y),
    (Z.ltb_spec y h); simpl; try done.
  intros [= <-]. lia.
Qed.

(** The overlap-add writes cells of channel [ch] only. *)
Lemma overlap_add_frame iw ih w2 h2 xbsz ybsz hw hh xbl ybl ch
    (data2 rdst r : list F) :
  overlap_add iw ih w2 h2 xbsz ybsz hw hh xbl ybl ch data2 rdst = Some r →
  length r = length rdst ∧
  ∀ p c, 0 ≤ c < 4 → 0 ≤ ch < 4 → c ≠ ch →
    load r (4 * p + c) = load rdst (4 * p + c).
Proof.
  unfold overlap_add.
  set (P := λ r : list F, length r = length rdst ∧
    ∀ p c, 0 ≤ c < 4 → 0 ≤ ch < 4 → c ≠ ch →
      load r (4 * p + c) = load rdst (4 * p + c)).
  apply (for_range_preserve P); [done|].
  intros y r0 r1 _ Hr0. destruct (_ || _); [by intros [= <-]|].
  apply (for_range_preserve P); [done|].
  clear r0 r1 Hr0. intros x r0 r1 _ [Hl0 Hr0].
  destruct (_ || _); [by intros [= <-]|].
  destruct (load data2 _) as [v|]; [|done]. cbn [mbind option_bind].
  destruct (pixel _ _ _ _ _) as [q|] eqn:Hq; [|done].
  cbn [mbind option_bind].
  destruct (load r0 q) as [old|]; [|done]. cbn [mbind option_bind].
  intros Hst. apply pixel_inv in Hq as (_ & _ & ->).
  split; [by rewrite (store_length _ _ _ _ Hst)|].
  intros p c Hc Hch Hne.
  erewrite load_store_ne; [by apply Hr0|done|lia].
Qed.

Lemma overlap_add_total iw ih w2 h2 xbsz ybsz hw hh xbl ybl ch
    (data2 rdst : list F) :
  0 ≤ iw → 0 ≤ ih → Z.of_nat (length rdst) = iw * ih * 4 →
  0 ≤ w2 → 0 ≤ h2 → Z.of_nat (length data2) = w2 * h2 → 0 ≤ ch < 4 →
  ∃ r, overlap_add iw ih w2 h2 xbsz ybsz hw hh xbl ybl ch data2 rdst
       = Some r.
Proof.
  intros Hiw Hih Hlen Hw2 Hh2 Hlen2 Hch. unfold overlap_add.
  erewrite for_range_ext; cycle 1.
  { intros y r _. apply for_range_guard. }
  cbv beta.
  destruct (for_range_grid_total (λ _ r, length r = length rdst) w2 h2
    (λ x y r,
       if (ybl * ybsz + y - hh <? 0) || (ih <=? ybl * ybsz + y - hh)
       then Some r
       else if (xbl * xbsz + x - hw <? 0) || (iw <=? xbl * xbsz + x - hw)
            then Some r
            else v ← load data2 (y * w2 + x);
                 p ← pixel iw ih (xbl * xbsz + x - hw)
                       (ybl * ybsz + y - hh) ch;
                 old ← load r p;
                 store r p (f_add old v)) rdst)
    as (r & Hr & _); [done|done|done| |by exists r].
  intros x y r Hx Hy Hl.
  destruct (Z.ltb_spec (ybl * ybsz + y - hh) 0); [by eexists|].
  destruct (Z.leb_spec ih (ybl * ybsz + y - hh)); [by eexists|].
  destruct (Z.ltb_spec (xbl * xbsz + x - hw) 0); [by eexists|].
  destruct (Z.leb_spec iw (xbl * xbsz + x - hw)); [by eexists|].
  cbn [orb].
  pose proof (pixel_bound w2 h2 x y Hx Hy).
  destruct (load_is_Some data2 (y * w2 + x)) as [v ->]; [lia|].
  cbn [mbind option_bind]. rewrite pixel_Some by lia.
  cbn [mbind option_bind].
  pose proof (pixel_bound iw ih (xbl * xbsz + x - hw)
                (ybl * ybsz + y - hh) ltac:(lia) ltac:(lia)).
  destruct (load_is_Some r (4 * ((ybl * ybsz + y - hh) * iw
                                 + (xbl * xbsz + x - hw)) + ch))
    as [old ->]; [lia|].
  cbn [mbind option_bind]. rewrite store_is_Some by lia.
  eexists. split; [done|]. by rewrite length_insert.
Qed.

End TileLoops.

(** ** The 1×1 kernel *)

Section UnitKernel.
Context {F D : Type} `{!FloatArith F D} (cos : D → D).

(** With a 1×1 kernel the padded transform is 1×1, and the first 2D
    transform of the tile buffer runs [FHT] with [M = 0]. *)
Lemma FHT2D_1x1_faults (data : list F) (nzp : Z) :
  length data = 1%nat → 0 < nzp → FHT2D cos data 0 0 0 nzp false = None.
Proof.
  intros Hlen Hnzp. unfold FHT2D.
  rewrite for_range_first_None; [done|done|].
  apply FHT_length_1_faults. change (Z.shiftl 1 0) with 1. lia.
Qed.

Lemma convolve_channel_1x1_faults iw ih xbl ybl (image kernel : list F)
    (s : scratch F) :
  length (data2 s) = 1%nat →
  convolve_channel cos iw ih 1 1 1 1 0 0 1 1 0 0 xbl ybl image kernel 0 s = None.
Proof.
  intros Hlen. unfold convolve_channel.
  destruct (if in2done s then _ else _) as [d1|]; [|done].
  cbn [mbind option_bind].
  destruct (load_tile _ _ _ _ _ _ _ _ _ _ _) as [d2|] eqn:Hd2; [|done].
  cbn [mbind option_bind].
  destruct (if in2done s then _ else _) as [d1'|]; [|done].
  cbn [mbind option_bind].
  apply load_tile_length in Hd2.
  rewrite FHT2D_1x1_faults; [done|congruence|done].
Qed.

Lemma convolve_1x1_kernel_faults (dst : list F) (in1 : MemoryBuffer F)
    (k : list F) :
  0 < get_width in1 → 0 < get_height in1 →
  convolve cos dst in1 {| get_width := 1; get_height := 1; get_buffer := k |}
  = None.
Proof.
  intros Hw Hh. unfold convolve. cbn [get_width get_height get_buffer].
  change (padded_size 1) with (Some (1, 0)). cbn [mbind option_bind].
  destruct (normalize_kernel 1 1 k) as [kb|]; [|done].
  cbn [mbind option_bind].
  change (Z.shiftr 1 1) with 0. change (1 + 1 - 1) with 1.
  rewrite !Z.div_1_r, !Z.mod_1_r. cbn [Z.eqb]. rewrite !Z.add_0_r.
  rewrite for_range_first_None; [done|done|].
  rewrite for_range_first_None; [done|done|].
  rewrite for_range_first_None; [done|done|].
  by apply convolve_channel_1x1_faults.
Qed.

(** C1 (as amended).  A 1×1 kernel is outside the domain of [convolve]:
    for every source image of positive dimensions the call with the unit
    kernel faults.  The padded transform is 1×1, and [FHT] on a row of
    length 1 reads [data[1]], past the end of the one-sample tile buffer;
    the transform needs length at least 2. *)
Theorem convolve_unit_kernel_faults (dst : list F) (in1 : MemoryBuffer F) :
  0 < get_width in1 → 0 < get_height in1 →
  convolve cos dst in1 unit_kernel = None.
Proof. apply convolve_1x1_kernel_faults. Qed.

End UnitKernel.

(** ** [convolve]: what a call leaves in memory *)

Section Convolve.
Context {F D : Type} `{!FloatArith F D} (cos : D → D).

(** C5.  In a tile iteration the tile buffer is zeroed and then holds
    exactly the tile's image samples (every other cell is zero, whatever
    the buffer held before); neither the extraction nor the overlap-add
    faults, so every pixel they access lies inside the image: the tile
    positions outside it are skipped. *)
Theorem tile_steps_in_bounds iw ih w2 h2 xbsz ybsz hw hh xbl ybl ch
    (image data2 spectrum rdst : list F) :
  0 ≤ iw → 0 ≤ ih →
  Z.of_nat (length image) = iw * ih * 4 →
  Z.of_nat (length rdst) = iw * ih * 4 →
  Z.of_nat (length data2) = w2 * h2 →
  Z.of_nat (length spectrum) = w2 * h2 →
  0 ≤ xbsz ≤ w2 → 0 ≤ ybsz ≤ h2 → 0 ≤ xbl → 0 ≤ ybl → 0 ≤ ch < 3 →
  (∃ d2, load_tile iw ih w2 h2 xbsz ybsz xbl ybl ch image data2 = Some d2 ∧
     length d2 = length data2 ∧
     ∀ x y, 0 ≤ x < w2 → 0 ≤ y < h2 →
       load d2 (y * w2 + x)
       = tile_sample iw ih xbsz ybsz xbl ybl ch image x y) ∧
  (∃ r, overlap_add iw ih w2 h2 xbsz ybsz hw hh xbl ybl ch spectrum rdst
        = Some r ∧
     length r = length rdst ∧
     ∀ p c, 0 ≤ c < 4 → c ≠ ch → load r (4 * p + c) = load rdst (4 * p + c)).
Proof.
  intros Hiw Hih Hli Hlr Hl2 Hls Hxb Hyb Hxbl Hybl Hch. split.
  - apply load_tile_spec; try done. lia.
  - destruct (overlap_add_total iw ih w2 h2 xbsz ybsz hw hh xbl ybl ch
                spectrum rdst) as [r Hr]; try done; try lia.
    exists r. split; [done|].
    apply overlap_add_frame in Hr as [Hl Hf]. split; [done|].
    intros p c Hc Hne. apply Hf; [done|lia|done].
Qed.




End Convolve.

(** ** [fht_convolve] is commutative *)

Section Lockstep.
Context {F D : Type} `{!FloatArith F D}.
Hypothesis f_add_comm : ∀ a b : F, f_add a b = f_add b a.
Hypothesis f_mul_comm : ∀ a b : F, f_mul a b = f_mul b a.

Variables (x y : list F) (m n : Z).
Hypothesis Hlenx : Z.of_nat (length x) = m * n.
Hypothesis Hleny : Z.of_nat (length y) = m * n.

Lemma cell_bound c r : 0 ≤ c < m → 0 ≤ r < n → 0 ≤ c + r * m < m * n.
Proof. intros. nia. Qed.

Lemma cell_inj c r c' r' :
  0 ≤ c < m → 0 ≤ c' < m → c + r * m = c' + r' * m → c = c' ∧ r = r'.
Proof.
  intros Hc Hc' Heq. apply (grid_index_inj m c r c' r'); [done|done|lia].
Qed.

Lemma lockstep_ext (T T' : Z → Z → Prop) a b :
  (∀ c r, 0 ≤ c < m → 0 ≤ r < n → T c r ↔ T' c r) →
  lockstep x y m n T a b → lockstep x y m n T' a b.
Proof.
  intros HT (Hla & Hlb & Hc). split; [done|]. split; [done|].
  intros c r Hcm Hrn. destruct (Hc c r Hcm Hrn) as [H1 H2].
  specialize (HT c r Hcm Hrn). split; intros; [apply H1|apply H2]; tauto.
Qed.

Lemma lockstep_mul T a b c1 r1 p :
  p = c1 + r1 * m →
  0 ≤ c1 < m → 0 ≤ r1 < n → ¬ T c1 r1 →
  lockstep x y m n T a b →
  ∃ a' b',
    fht_mul_at y 0 0 p a = Some a' ∧
    fht_mul_at x 0 0 p b = Some b' ∧
    lockstep x y m n (λ c r, T c r ∨ (c = c1 ∧ r = r1)) a' b'.
Proof.
  intros -> Hc1 Hr1 HT (Hla & Hlb & Hc).
  pose proof (cell_bound c1 r1 Hc1 Hr1) as Hb.
  destruct (Hc c1 r1 Hc1 Hr1) as [_ [Hax Hby]]; [done|].
  destruct (load_is_Some x (c1 + r1 * m)) as [xp Hxp]; [lia|].
  destruct (load_is_Some y (c1 + r1 * m)) as [yp Hyp]; [lia|].
  unfold fht_mul_at. rewrite !Z.add_0_l, Hax, Hby, Hxp, Hyp.
  cbn [mbind option_bind].
  rewrite !store_is_Some by lia.
  eexists _, _. split; [done|]. split; [done|].
  split; [by rewrite length_insert|]. split; [by rewrite length_insert|].
  intros c r Hcm Hrn.
  rewrite !load_insert by lia.
  case_decide as Heq.
  - apply cell_inj in Heq as [-> ->]; [|done..].
    split; [by rewrite f_mul_comm|]. tauto.
  - destruct (Hc c r Hcm Hrn) as [H1 H2].
    split; [|tauto]. intros [?|[-> ->]]; [auto|done].
Qed.

Lemma lockstep_pair T a b c1 r1 c2 r2 p q :
  p = c1 + r1 * m → q = c2 + r2 * m →
  0 ≤ c1 < m → 0 ≤ r1 < n → 0 ≤ c2 < m → 0 ≤ r2 < n →
  ¬ T c1 r1 → ¬ T c2 r2 → ¬ (c1 = c2 ∧ r1 = r2) →
  lockstep x y m n T a b →
  ∃ a' b',
    fht_pair_at y 0 0 p q a = Some a' ∧
    fht_pair_at x 0 0 p q b = Some b' ∧
    lockstep x y m n
      (λ c r, T c r ∨ (c = c1 ∧ r = r1) ∨ (c = c2 ∧ r = r2)) a' b'.
Proof.
  intros -> -> Hc1 Hr1 Hc2 Hr2 HT1 HT2 Hne12 (Hla & Hlb & Hc).
  pose proof (cell_bound c1 r1 Hc1 Hr1) as Hb1.
  pose proof (cell_bound c2 r2 Hc2 Hr2) as Hb2.
  assert (Hpq : c1 + r1 * m ≠ c2 + r2 * m).
  { intros Heq. by apply cell_inj in Heq. }
  destruct (Hc c1 r1 Hc1 Hr1) as [_ [Hax1 Hby1]]; [done|].
  destruct (Hc c2 r2 Hc2 Hr2) as [_ [Hax2 Hby2]]; [done|].
  destruct (load_is_Some x (c1 + r1 * m)) as [xp Hxp]; [lia|].
  destruct (load_is_Some y (c1 + r1 * m)) as [yp Hyp]; [lia|].
  destruct (load_is_Some x (c2 + r2 * m)) as [xq Hxq]; [lia|].
  destruct (load_is_Some y (c2 + r2 * m)) as [yq Hyq]; [lia|].
  unfold fht_pair_at.
  rewrite !Z.add_0_l, Hax1, Hby1, Hax2, Hby2, Hxp, Hyp, Hxq, Hyq.
  cbn [mbind option_bind].
  rewrite (f_mul_comm yp xp), (f_mul_comm yq xq).
  rewrite (f_add_comm (f_mul yq xp) (f_mul yp xq)).
  rewrite (f_mul_comm yp xq), (f_mul_comm yq xp).
  set (va := f_mul (f_add _ _) f_half). set (vb := f_mul (f_sub _ _) f_half).
  rewrite (store_is_Some a) by lia. rewrite (store_is_Some b) by lia.
  cbn [mbind option_bind].
  rewrite !store_is_Some by (rewrite length_insert; lia).
  eexists _, _. split; [done|]. split; [done|].
  split; [by rewrite !length_insert|]. split; [by rewrite !length_insert|].
  intros c r Hcm Hrn.
  rewrite !load_insert by (rewrite ?length_insert; lia).
  destruct (Hc c r Hcm Hrn) as [H1 H2].
  repeat case_decide.
  - apply cell_inj in H as [-> ->]; [|done..]. split; [done|tauto].
  - apply cell_inj in H0 as [-> ->]; [|done..]. split; [done|tauto].
  - split; [|tauto].
    intros [?|[[-> ->]|[-> ->]]]; [auto|done|done].
Qed.


Lemma lockstep_init : lockstep x y m n (λ _ _, False) x y.
Proof.
  split; [done|]. split; [apply Nat2Z.inj; congruence|].
  intros c r _ _. split; [done|]. done.
Qed.

Lemma lockstep_full T a b :
  0 < m →
  (∀ c r, 0 ≤ c < m → 0 ≤ r < n → T c r) →
  lockstep x y m n T a b → a = b.
Proof.
  intros Hm HT (Hla & Hlb & Hc). apply list_eq. intros i.
  destruct (decide (i < length x)%nat) as [Hi|Hi]; cycle 1.
  { rewrite !lookup_ge_None_2 by lia. done. }
  pose proof (Z.mod_pos_bound (Z.of_nat i) m ltac:(done)) as Hmod.
  pose proof (Z.div_mod (Z.of_nat i) m ltac:(lia)) as Hdiv.
  assert (Hr : 0 ≤ Z.of_nat i `div` m < n).
  { split; [apply Z.div_pos; lia|]. apply Z.div_lt_upper_bound; lia. }
  destruct (Hc _ _ Hmod Hr) as [Heq _].
  specialize (Heq (HT _ _ Hmod Hr)).
  replace (Z.of_nat i `mod` m + Z.of_nat i `div` m * m) with (Z.of_nat i)
    in Heq by lia.
  unfold load in Heq. destruct (Z.leb_spec 0 (Z.of_nat i)); [|lia].
  by rewrite Nat2Z.id in Heq.
Qed.


Ltac fht_lia :=
  cbv beta;
  unfold fht_corners, fht_rows, fht_cols, fht_inner, fht_inner_col in *;
  lia.

(** One step of the two runs, on the invariant [L]. *)
Ltac lockstep_mul_step L c1 r1 p a' b' L' :=
  lazymatch type of L with
  | lockstep _ _ _ _ ?T ?a ?b =>
      destruct (lockstep_mul T a b c1 r1 p) as (a' & b' & -> & -> & L');
      [fht_lia|fht_lia|fht_lia|fht_lia|exact L|];
      cbn [mbind option_bind]
  end.

Ltac lockstep_pair_step L c1 r1 c2 r2 p q a' b' L' :=
  lazymatch type of L with
  | lockstep _ _ _ _ ?T ?a ?b =>
      destruct (lockstep_pair T a b c1 r1 c2 r2 p q)
        as (a' & b' & -> & -> & L');
      [fht_lia|fht_lia|fht_lia|fht_lia|fht_lia|fht_lia|fht_lia|fht_lia
      |fht_lia|exact L|];
      cbn [mbind option_bind]
  end.

(** The two runs of a loop of [fht_convolve], from the buffers [a] and [b],
    with the invariant [P]. *)
Ltac lockstep_loop P lo hi a b a' b' L' :=
  lazymatch goal with
  | |- context [for_range lo hi ?bA a] =>
      lazymatch goal with
      | |- context [for_range lo hi ?bB b] =>
          destruct (for_range_total2 P lo hi bA bB a b)
            as (a' & b' & -> & -> & L')
      end
  end.

Lemma fht_rows_step m' n2 i c r :
  1 ≤ i →
  fht_rows m' n2 (i + 1) c r
  ↔ fht_rows m' n2 i c r
    ∨ ((c = i ∧ r = 0) ∨ (c = m' - i ∧ r = 0))
    ∨ ((c = i ∧ r = n2) ∨ (c = m' - i ∧ r = n2)).
Proof. unfold fht_rows. lia. Qed.

Lemma fht_cols_step m2 n' j c r :
  1 ≤ j →
  fht_cols m2 n' (j + 1) c r
  ↔ fht_cols m2 n' j c r
    ∨ ((c = 0 ∧ r = j) ∨ (c = 0 ∧ r = n' - j))
    ∨ ((c = m2 ∧ r = j) ∨ (c = m2 ∧ r = n' - j)).
Proof. unfold fht_cols. lia. Qed.

Lemma fht_inner_col_step m' n' i j c r :
  1 ≤ j →
  fht_inner_col m' n' i (j + 1) c r
  ↔ fht_inner_col m' n' i j c r
    ∨ ((c = i ∧ r = j) ∨ (c = m' - i ∧ r = n' - j))
    ∨ ((c = i ∧ r = n' - j) ∨ (c = m' - i ∧ r = j)).
Proof. unfold fht_inner_col. lia. Qed.

Lemma fht_inner_step m' n' n2 i c r :
  n' = 2 * n2 → 1 ≤ i →
  fht_inner m' n' n2 (i + 1) c r
  ↔ fht_inner m' n' n2 i c r ∨ fht_inner_col m' n' i n2 c r.
Proof. unfold fht_inner, fht_inner_col. lia. Qed.

Lemma fht_rows_1 m' n2 c r : c < m' → ¬ fht_rows m' n2 1 c r.
Proof. unfold fht_rows. lia. Qed.

Lemma fht_cols_1 m2 n' c r : r < n' → ¬ fht_cols m2 n' 1 c r.
Proof. unfold fht_cols. lia. Qed.

Lemma fht_inner_1 m' n' n2 c r : c < m' → ¬ fht_inner m' n' n2 1 c r.
Proof. unfold fht_inner. lia. Qed.

Lemma fht_inner_col_1 m' n' i c r : r < n' → ¬ fht_inner_col m' n' i 1 c r.
Proof. unfold fht_inner_col. lia. Qed.

Lemma fht_cells_all m' n' m2 n2 c r :
  m' = 2 * m2 → n' = 2 * n2 → 0 ≤ c < m' → 0 ≤ r < n' →
  fht_corners m2 n2 c r ∨ fht_rows m' n2 m2 c r
  ∨ fht_cols m2 n' n2 c r ∨ fht_inner m' n' n2 m2 c r.
Proof.
  intros -> -> Hc Hr. unfold fht_corners, fht_rows, fht_cols, fht_inner.
  destruct (Z.eq_dec c 0), (Z.eq_dec c m2), (Z.eq_dec r 0), (Z.eq_dec r n2);
    lia.
Qed.

(** Closes a loop body: both runs returned, and the invariant of the next
    iteration follows from [L] by the equivalence [step]. *)
Ltac lockstep_done L step :=
  eexists _, _; split; [done|]; split; [done|];
  eapply lockstep_ext; [|exact L]; intros ? ? ? ?; cbv beta;
  rewrite step by lia; tauto.

Lemma fht_convolve_lockstep M N m2 n2 :
  m = 2 * m2 → n = 2 * n2 → 1 ≤ m2 → 1 ≤ n2 →
  Z.shiftl 1 M = m → Z.shiftl 1 (M - 1) = m2 →
  Z.shiftl 1 N = n → Z.shiftl 1 (N - 1) = n2 →
  Z.shiftl m (N - 1) = m * n2 →
  (∀ j, Z.shiftl j M = j * m) →
  ∃ r, fht_convolve x 0 y 0 M N = Some r ∧ fht_convolve y 0 x 0 M N = Some r.
Proof.
  intros Em En Hm2 Hn2 E1 E2 E3 E4 E5 EM.
  unfold fht_convolve. rewrite E1, E2, E3, E4, E5.
  (* the four corners *)
  pose proof lockstep_init as L0.
  lockstep_mul_step L0 0 0 0 a1 b1 L1.
  lockstep_mul_step L1 0 n2 (m * n2) a2 b2 L2.
  lockstep_mul_step L2 m2 0 m2 a3 b3 L3.
  lockstep_mul_step L3 m2 n2 (m2 + m * n2) a4 b4 L4.
  (* the rows 0 and n2 *)
  lockstep_loop
    (λ i, lockstep x y m n (λ c r, fht_corners m2 n2 c r ∨ fht_rows m n2 i c r))
    1 m2 a4 b4 a5 b5 L5; [lia| | |].
  { eapply lockstep_ext; [|exact L4]. intros c r Hc Hr. cbv beta.
    pose proof (fht_rows_1 m n2 c r ltac:(lia)). unfold fht_corners. tauto. }
  { intros i a b Hi L.
    lockstep_pair_step L i 0 (m - i) 0 i (m - i) a' b' L'.
    lockstep_pair_step L' i n2 (m - i) n2 (i + m * n2) (m - i + m * n2)
      a'' b'' L''.
    lockstep_done L'' fht_rows_step. }
  cbn [mbind option_bind].
  (* the columns 0 and m2 *)
  lockstep_loop
    (λ j, lockstep x y m n
            (λ c r, fht_corners m2 n2 c r ∨ fht_rows m n2 m2 c r
                    ∨ fht_cols m2 n j c r))
    1 n2 a5 b5 a6 b6 L6; [lia| | |].
  { eapply lockstep_ext; [|exact L5]. intros c r Hc Hr. cbv beta.
    pose proof (fht_cols_1 m2 n c r ltac:(lia)). tauto. }
  { intros j a b Hj L. rewrite !EM.
    lockstep_pair_step L 0 j 0 (n - j) (j * m) ((n - j) * m) a' b' L'.
    lockstep_pair_step L' m2 j m2 (n - j) (m2 + j * m) (m2 + (n - j) * m)
      a'' b'' L''.
    lockstep_done L'' fht_cols_step. }
  cbn [mbind option_bind].
  (* the interior *)
  lockstep_loop
    (λ i, lockstep x y m n
            (λ c r, fht_corners m2 n2 c r ∨ fht_rows m n2 m2 c r
                    ∨ fht_cols m2 n n2 c r ∨ fht_inner m n n2 i c r))
    1 m2 a6 b6 a7 b7 L7; [lia| | |].
  { eapply lockstep_ext; [|exact L6]. intros c r Hc Hr. cbv beta.
    pose proof (fht_inner_1 m n n2 c r ltac:(lia)). tauto. }
  { intros i a b Hi L.
    lockstep_loop
      (λ j, lockstep x y m n
              (λ c r, (fht_corners m2 n2 c r ∨ fht_rows m n2 m2 c r
                       ∨ fht_cols m2 n n2 c r ∨ fht_inner m n n2 i c r)
                      ∨ fht_inner_col m n i j c r))
      1 n2 a b a' b' L'; [lia| | |].
    { eapply lockstep_ext; [|exact L]. intros c r Hc Hr. cbv beta.
      pose proof (fht_inner_col_1 m n i c r ltac:(lia)). tauto. }
    { intros j a0 b0 Hj L0'. rewrite !EM.
      lockstep_pair_step L0' i j (m - i) (n - j)
        (i + j * m) (m - i + (n - j) * m) a1' b1' L1'.
      lockstep_pair_step L1' i (n - j) (m - i) j
        (i + (n - j) * m) (m - i + j * m) a2' b2' L2'.
      lockstep_done L2' fht_inner_col_step. }
    lockstep_done L' (fht_inner_step m n n2). }
  exists a7. split; [done|]. f_equal. symmetry.
  eapply lockstep_full; [lia| |exact L7].
  intros c r Hc Hr. by apply fht_cells_all.
Qed.

End Lockstep.

(** C10.  The spectral multiplication is commutative: for buffers [x] and
    [y] of [2^N] rows and [2^M] columns, with [M ≥ 1], [N ≥ 1] and
    [M + N < 32], so that the [unsigned int] bins [m << (N - 1)] and
    [j << M] of the source are the numbers computed here,
    [fht_convolve(x, y, M, N)] leaves in [x] what [fht_convolve(y, x, M, N)]
    leaves in [y], given that the addition and the multiplication of
    samples are commutative. *)
Theorem fht_convolve_comm {F D} `{!FloatArith F D} (x y : list F) (M N : Z) :
  (∀ a b : F, f_add a b = f_add b a) →
  (∀ a b : F, f_mul a b = f_mul b a) →
  1 ≤ M → 1 ≤ N → M + N < 32 →
  Z.of_nat (length x) = 2 ^ (M + N) → Z.of_nat (length y) = 2 ^ (M + N) →
  ∃ r, fht_convolve x 0 y 0 M N = Some r ∧ fht_convolve y 0 x 0 M N = Some r.
Proof.
  intros Hadd Hmul HM HN _ Hlx Hly.
  assert (Hpow : ∀ k, 1 ≤ k → 2 ^ k = 2 * 2 ^ (k - 1)).
  { intros k Hk. rewrite <- Z.pow_succ_r by lia. f_equal. lia. }
  assert (1 ≤ 2 ^ (M - 1)) by (pose proof (Z.pow_pos_nonneg 2 (M - 1)); lia).
  assert (1 ≤ 2 ^ (N - 1)) by (pose proof (Z.pow_pos_nonneg 2 (N - 1)); lia).
  rewrite Z.pow_add_r in Hlx, Hly by lia.
  apply (fht_convolve_lockstep Hadd Hmul x y (2 ^ M) (2 ^ N) Hlx Hly M N
           (2 ^ (M - 1)) (2 ^ (N - 1))).
  - by apply Hpow.
  - by apply Hpow.
  - done.
  - done.
  - apply Z.shiftl_1_l.
  - apply Z.shiftl_1_l.
  - apply Z.shiftl_1_l.
  - apply Z.shiftl_1_l.
  - apply Z.shiftl_mul_pow2. lia.
  - intros j. apply Z.shiftl_mul_pow2. lia.
Qed.

(** ** The in-place transposition of [FHT2D] *)

Section TransposeIndex.
Variables Mx My : Z.
Hypothesis HMx : 0 ≤ Mx.
Hypothesis HMy : 0 ≤ My.
Hypothesis HM : Mx + My < 32.

Local Abbreviation Nx := (2 ^ Mx).
Local Abbreviation Ny := (2 ^ My).
Local Abbreviation N := (2 ^ Mx * 2 ^ My).
Local Abbreviation P := (transpose_index (2 ^ Mx) (2 ^ My)).

Lemma Nx_pos : 0 < Nx.
Proof. apply Z.pow_pos_nonneg; lia. Qed.

Lemma Ny_pos : 0 < Ny.
Proof. apply Z.pow_pos_nonneg; lia. Qed.

Lemma N_pow : N = 2 ^ (Mx + My).
Proof. by rewrite Z.pow_add_r. Qed.

Lemma N_bound : 0 < N < 2 ^ 32.
Proof.
  rewrite N_pow. split; [apply Z.pow_pos_nonneg; lia|].
  apply Z.pow_lt_mono_r; lia.
Qed.

Lemma transpose_index_bound k : 0 ≤ k < N → 0 ≤ P k < N.
Proof.
  intros Hk. unfold transpose_index.
  pose proof Nx_pos. pose proof Ny_pos.
  pose proof (Z.mod_pos_bound k Ny ltac:(lia)).
  assert (0 ≤ k `div` Ny < Nx).
  { split; [apply Z.div_pos; lia|]. apply Z.div_lt_upper_bound; lia. }
  nia.
Qed.

Lemma PRED_transpose_index k : 0 ≤ k < N → PRED Mx My k = P k.
Proof.
  intros Hk. pose proof N_bound. pose proof Nx_pos. pose proof Ny_pos.
  pose proof (transpose_index_bound k Hk) as Hb.
  assert (Ny ≤ N) by nia.
  pose proof (Z.mod_pos_bound k Ny ltac:(lia)).
  assert (0 ≤ k `div` Ny) by (apply Z.div_pos; lia).
  unfold transpose_index in Hb |- *.
  unfold PRED. rewrite Z.shiftl_1_l.
  rewrite (u32_small (2 ^ My - 1)) by lia.
  rewrite Z.sub_1_r, <- Z.ones_equiv, Z.land_ones by lia.
  rewrite Z.shiftl_mul_pow2, Z.shiftr_div_pow2 by lia.
  rewrite (u32_small (_ * _)) by nia.
  rewrite u32_small by lia. done.
Qed.

Lemma transpose_index_inj k k' :
  0 ≤ k < N → 0 ≤ k' < N → P k = P k' → k = k'.
Proof.
  intros Hk Hk' Heq. unfold transpose_index in Heq.
  pose proof Nx_pos. pose proof Ny_pos.
  assert (Hq : ∀ j, 0 ≤ j < N → 0 ≤ j `div` Ny < Nx).
  { intros j Hj. split; [apply Z.div_pos; lia|].
    apply Z.div_lt_upper_bound; lia. }
  destruct (grid_index_inj Nx (k `div` Ny) (k `mod` Ny)
              (k' `div` Ny) (k' `mod` Ny)) as [Hd Hm];
    [by apply Hq|by apply Hq|lia|].
  rewrite (Z.div_mod k Ny), (Z.div_mod k' Ny) by lia. by rewrite Hd, Hm.
Qed.

(** The remap is multiplication by [Nx] modulo [N - 1]. *)
Lemma transpose_index_mul k :
  0 ≤ k < N → P k = Nx * k - (k `div` Ny) * (N - 1).
Proof.
  intros Hk. unfold transpose_index.
  pose proof Ny_pos. pose proof (Z.div_mod k Ny ltac:(lia)). nia.
Qed.

Lemma iter_transpose_index_bound t k :
  0 ≤ k < N → 0 ≤ Nat.iter t P k < N.
Proof.
  intros Hk. induction t as [|t IH]; [done|].
  rewrite Nat.iter_succ. by apply transpose_index_bound.
Qed.

Lemma iter_transpose_index_mod t k :
  0 ≤ k < N →
  Nat.iter t P k `mod` (N - 1) = (Nx ^ Z.of_nat t * k) `mod` (N - 1).
Proof.
  intros Hk. induction t as [|t IH].
  - cbn. by rewrite Z.mul_1_l.
  - rewrite Nat.iter_succ.
    rewrite transpose_index_mul by (by apply iter_transpose_index_bound).
    unfold Z.sub at 1. rewrite <- Z.mul_opp_l, Z_mod_plus_full.
    rewrite <- Zmult_mod_idemp_r, IH, Zmult_mod_idemp_r.
    f_equal. rewrite Nat2Z.inj_succ, Z.pow_succ_r by lia. lia.
Qed.

Lemma Nx_pow_period : (Nx ^ (Mx + My)) `mod` (N - 1) = 1 `mod` (N - 1).
Proof.
  pose proof N_bound as HN.
  destruct (Z.eq_dec (Mx + My) 0) as [HB|HB]; [by rewrite HB, Z.pow_0_r|].
  assert (2 ^ 1 ≤ 2 ^ (Mx + My)) by (apply Z.pow_le_mono_r; lia).
  rewrite <- Z.pow_mul_r by lia.
  replace (Mx * (Mx + My)) with ((Mx + My) * Mx) by lia.
  rewrite Z.pow_mul_r, <- N_pow by lia. rewrite N_pow in HN.
  rewrite <- N_pow in *.
  rewrite Zpower_mod by lia.
  replace (N `mod` (N - 1)) with (1 `mod` (N - 1)).
  - by rewrite <- Zpower_mod, Z.pow_1_l by lia.
  - replace N with (1 + 1 * (N - 1)) at 2 by lia.
    by rewrite Z_mod_plus_full.
Qed.

Lemma transpose_index_0 : P 0 = 0.
Proof.
  unfold transpose_index. pose proof Ny_pos.
  rewrite Z.mod_0_l, Z.div_0_l by lia. lia.
Qed.

Lemma transpose_index_last : P (N - 1) = N - 1.
Proof.
  unfold transpose_index. pose proof Nx_pos. pose proof Ny_pos.
  replace (Nx * Ny - 1) with ((Ny - 1) + (Nx - 1) * Ny) by lia.
  rewrite Z_mod_plus_full, Z.div_add by lia.
  rewrite Z.mod_small, Z.div_small by lia. lia.
Qed.

(** The remap has period [Mx + My]. *)
Lemma transpose_index_period k :
  0 ≤ k < N → Nat.iter (Z.to_nat (Mx + My)) P k = k.
Proof.
  intros Hk. set (B := Z.to_nat (Mx + My)).
  assert (Hfix : ∀ j, P j = j → Nat.iter B P j = j).
  { intros j Hj. induction B as [|b IH]; [done|].
    rewrite Nat.iter_succ. by rewrite IH. }
  destruct (Z.eq_dec k 0) as [->|Hk0]; [apply Hfix, transpose_index_0|].
  destruct (Z.eq_dec k (N - 1)) as [->|HkN];
    [apply Hfix, transpose_index_last|].
  pose proof (iter_transpose_index_bound B k Hk) as Hb.
  pose proof (iter_transpose_index_mod B k Hk) as Hmod.
  unfold B in Hmod. rewrite Z2Nat.id in Hmod by lia. fold B in Hmod.
  rewrite <- Zmult_mod_idemp_l, Nx_pow_period, Zmult_mod_idemp_l in Hmod.
  rewrite Z.mul_1_l in Hmod.
  rewrite (Z.mod_small k) in Hmod by lia.
  destruct (Z.eq_dec (Nat.iter B P k) (N - 1)) as [Heq|Hne].
  - exfalso. rewrite Heq, Z.mod_same in Hmod by lia. lia.
  - rewrite Z.mod_small in Hmod by lia. done.
Qed.

End TransposeIndex.
Section TransposeRef.
Context {A : Type}.
Implicit Types (data : list A).

Lemma bind_blocks_length {I} (l : list I) (g : I → list A) (n : nat) :
  (∀ i, i ∈ l → length (g i) = n) →
  length (i ← l; g i) = (length l * n)%nat.
Proof.
  induction l as [|i l IH]; intros Hg; [done|].
  cbn [mbind list_bind]. rewrite length_app, IH, Hg; [done|set_solver|].
  intros. apply Hg. set_solver.
Qed.

Lemma bind_blocks_lookup {I} (l : list I) (g : I → list A) (n c r : nat) i :
  (∀ i, i ∈ l → length (g i) = n) →
  l !! c = Some i → (r < n)%nat →
  (i ← l; g i) !! (c * n + r)%nat = g i !! r.
Proof.
  revert c. induction l as [|i0 l IH]; intros c Hg Hc Hr; [done|].
  cbn [mbind list_bind]. destruct c as [|c].
  - injection Hc as ->. rewrite lookup_app_l; [done|].
    rewrite Hg; [lia|set_solver].
  - rewrite lookup_app_r by (rewrite Hg; [lia|set_solver]).
    rewrite Hg by set_solver.
    replace (S c * n + r - n)%nat with (c * n + r)%nat by lia.
    apply IH; [|done|done]. intros. apply Hg. set_solver.
Qed.

Lemma transpose_ref_load Nx Ny data c r :
  Z.of_nat (length data) = Nx * Ny → 0 ≤ c < Nx → 0 ≤ r < Ny →
  load (transpose_ref Nx Ny data) (c * Ny + r) = load data (r * Nx + c).
Proof.
  intros Hlen Hc Hr.
  assert (Hcell : ∀ c r, c ∈ seqZ 0 Nx → r ∈ seqZ 0 Ny →
            length (option_list (load data (r * Nx + c))) = 1%nat).
  { intros c' r' [? ?]%elem_of_seqZ [? ?]%elem_of_seqZ.
    destruct (load_is_Some data (r' * Nx + c')) as [v ->]; [nia|done]. }
  assert (Hcol : ∀ c, c ∈ seqZ 0 Nx →
            length (r ← seqZ 0 Ny; option_list (load data (r * Nx + c)))
            = Z.to_nat Ny).
  { intros c' Hc'. rewrite (bind_blocks_length _ _ 1).
    - rewrite length_seqZ. lia.
    - intros r' Hr'. by apply Hcell. }
  unfold transpose_ref, load at 1.
  destruct (Z.leb_spec 0 (c * Ny + r)); [|nia].
  replace (Z.to_nat (c * Ny + r))
    with (Z.to_nat c * Z.to_nat Ny + Z.to_nat r)%nat by nia.
  rewrite (bind_blocks_lookup _ _ (Z.to_nat Ny) _ _ c);
    [|done|apply lookup_seqZ; lia|lia].
  replace (Z.to_nat r) with (Z.to_nat r * 1 + 0)%nat by lia.
  rewrite (bind_blocks_lookup _ _ 1 _ _ r);
    [|intros; apply Hcell; [apply elem_of_seqZ; lia|done]
     |apply lookup_seqZ; lia|lia].
  destruct (load data (r * Nx + c)) as [v|] eqn:Hv; [done|].
  destruct (load_is_Some data (r * Nx + c)) as [v Hv']; [nia|congruence].
Qed.

Lemma transpose_ref_length Nx Ny data :
  0 ≤ Nx → 0 ≤ Ny → Z.of_nat (length data) = Nx * Ny →
  Z.of_nat (length (transpose_ref Nx Ny data)) = Nx * Ny.
Proof.
  intros HNx HNy Hlen. unfold transpose_ref.
  rewrite (bind_blocks_length _ _ (Z.to_nat Ny)).
  - rewrite length_seqZ. nia.
  - intros c [? ?]%elem_of_seqZ. rewrite (bind_blocks_length _ _ 1).
    + rewrite length_seqZ. lia.
    + intros r [? ?]%elem_of_seqZ.
      destruct (load_is_Some data (r * Nx + c)) as [v ->]; [nia|done].
Qed.

(** A buffer whose cell [k] holds the sample of cell
    [transpose_index Nx Ny k] is the reference transpose. *)
Lemma transpose_ref_unique Nx Ny data d :
  0 < Nx → 0 < Ny → Z.of_nat (length data) = Nx * Ny →
  length d = length data →
  (∀ k, 0 ≤ k < Nx * Ny → load d k = load data (transpose_index Nx Ny k)) →
  d = transpose_ref Nx Ny data.
Proof.
  intros HNx HNy Hlen Hld Hd. apply list_eq. intros i.
  pose proof (transpose_ref_length Nx Ny data ltac:(lia) ltac:(lia) Hlen).
  destruct (decide (i < length data)%nat) as [Hi|Hi]; cycle 1.
  { rewrite !lookup_ge_None_2 by lia. done. }
  pose proof (Z.mod_pos_bound (Z.of_nat i) Ny ltac:(lia)) as Hmod.
  pose proof (Z.div_mod (Z.of_nat i) Ny ltac:(lia)) as Hdiv.
  assert (Hq : 0 ≤ Z.of_nat i `div` Ny < Nx).
  { split; [apply Z.div_pos; lia|]. apply Z.div_lt_upper_bound; lia. }
  pose proof (transpose_ref_load Nx Ny data _ _ Hlen Hq Hmod) as Href.
  replace (Z.of_nat i `div` Ny * Ny + Z.of_nat i `mod` Ny)
    with (Z.of_nat i) in Href by lia.
  specialize (Hd (Z.of_nat i) ltac:(lia)).
  unfold transpose_index in Hd. rewrite <- Href in Hd.
  unfold load in Hd. destruct (Z.leb_spec 0 (Z.of_nat i)); [|lia].
  by rewrite Nat2Z.id in Hd.
Qed.

(** Transposing twice, with the dimensions swapped in between, gives the
    grid back. *)
Lemma transpose_ref_involutive Nx Ny data :
  0 < Nx → 0 < Ny → Z.of_nat (length data) = Nx * Ny →
  transpose_ref Ny Nx (transpose_ref Nx Ny data) = data.
Proof.
  intros HNx HNy Hlen.
  pose proof (transpose_ref_length Nx Ny data ltac:(lia) ltac:(lia) Hlen)
    as Hl1.
  symmetry. apply transpose_ref_unique; [done|done|lia|lia|].
  intros k Hk. unfold transpose_index.
  pose proof (Z.mod_pos_bound k Nx ltac:(lia)) as Hmod.
  pose proof (Z.div_mod k Nx ltac:(lia)) as Hdiv.
  assert (Hq : 0 ≤ k `div` Nx < Ny).
  { split; [apply Z.div_pos; lia|]. apply Z.div_lt_upper_bound; lia. }
  rewrite transpose_ref_load by done. f_equal. lia.
Qed.

End TransposeRef.

Section Swap.
Context {A : Type}.
Implicit Types (buf : list A).

Lemma SWAP_Some buf a b va vb :
  load buf a = Some va → load buf b = Some vb →
  SWAP buf a b = Some (<[Z.to_nat b := va]> (<[Z.to_nat a := vb]> buf)).
Proof.
  intros Ha Hb. unfold SWAP. rewrite Ha, Hb. cbn [mbind option_bind].
  pose proof (load_lt _ _ _ Ha). pose proof (load_lt _ _ _ Hb).
  rewrite store_is_Some by done. cbn [mbind option_bind].
  rewrite store_is_Some by (rewrite length_insert; lia). done.
Qed.

End Swap.

Section Square.
Context {A : Type}.
Variables (data : list A) (n : Z).
Hypothesis Hn : 0 < n.
Hypothesis Hlen : Z.of_nat (length data) = n * n.

Lemma mirrored_ext (T T' : Z → Z → Prop) d :
  (∀ r c, 0 ≤ r < n → 0 ≤ c < n → T r c ↔ T' r c) →
  mirrored data n T d → mirrored data n T' d.
Proof.
  intros HT [Hl Hd]. split; [done|]. intros r c Hr Hc.
  destruct (Hd r c Hr Hc) as [H1 H2]. specialize (HT r c Hr Hc).
  split; intros; [apply H1|apply H2]; tauto.
Qed.

Lemma mirrored_swap (T : Z → Z → Prop) d j i :
  0 ≤ j < n → 0 ≤ i < n → j ≠ i → ¬ T j i → ¬ T i j →
  mirrored data n T d →
  ∃ d', SWAP d (0 + (i + j * n)) (0 + (j + i * n)) = Some d' ∧
        mirrored data n
          (λ r c, T r c ∨ (r = j ∧ c = i) ∨ (r = i ∧ c = j)) d'.
Proof.
  intros Hj Hi Hne HT1 HT2 [Hl Hd]. rewrite !Z.add_0_l.
  destruct (Hd j i Hj Hi) as [_ Hji]. specialize (Hji HT1).
  destruct (Hd i j Hi Hj) as [_ Hij]. specialize (Hij HT2).
  assert (0 ≤ i + j * n < n * n) by nia.
  assert (0 ≤ j + i * n < n * n) by nia.
  destruct (load_is_Some data (i + j * n)) as [va Hva]; [lia|].
  destruct (load_is_Some data (j + i * n)) as [vb Hvb]; [lia|].
  rewrite Hva in Hji. rewrite Hvb in Hij.
  rewrite (SWAP_Some _ _ _ _ _ Hji Hij). eexists. split; [done|].
  split; [by rewrite !length_insert|].
  intros r c Hr Hc.
  assert (Hidx : ∀ r' c', 0 ≤ r' < n → 0 ≤ c' < n →
            c + r * n = c' + r' * n → c = c' ∧ r = r').
  { intros r' c' Hr' Hc' Heq.
    apply (grid_index_inj n c r c' r'); [done|done|lia]. }
  rewrite !load_insert by (rewrite ?length_insert; lia).
  destruct (Hd r c Hr Hc) as [H1 H2].
  repeat case_decide.
  - apply Hidx in H3 as [-> ->]; [|done..]. rewrite Hva. split; [done|tauto].
  - apply Hidx in H4 as [-> ->]; [|done..]. rewrite Hvb. split; [done|tauto].
  - split; [|tauto]. intros [?|[[-> ->]|[-> ->]]]; [auto|done|done].
Qed.

Lemma mirrored_all (T : Z → Z → Prop) d :
  (∀ r c, 0 ≤ r < n → 0 ≤ c < n → T r c) →
  mirrored data n T d →
  length d = length data ∧
  ∀ k, 0 ≤ k < n * n → load d k = load data (transpose_index n n k).
Proof.
  intros HT [Hl Hd]. split; [done|]. intros k Hk. unfold transpose_index.
  pose proof (Z.mod_pos_bound k n ltac:(lia)) as Hmod.
  pose proof (Z.div_mod k n ltac:(lia)) as Hdiv.
  assert (Hq : 0 ≤ k `div` n < n).
  { split; [apply Z.div_pos; lia|]. apply Z.div_lt_upper_bound; lia. }
  destruct (Hd _ _ Hq Hmod) as [H1 _]. specialize (H1 (HT _ _ Hq Hmod)).
  replace (k `mod` n + k `div` n * n) with k in H1 by lia.
  rewrite H1. f_equal. lia.
Qed.

End Square.

Section SquareLoop.
Context {F : Type}.

Lemma transpose_square_spec (data : list F) (M : Z) :
  0 ≤ M → Z.of_nat (length data) = 2 ^ M * 2 ^ M →
  ∃ d, transpose_square 0 M M data = Some d ∧
       length d = length data ∧
       ∀ k, 0 ≤ k < 2 ^ M * 2 ^ M →
         load d k = load data (transpose_index (2 ^ M) (2 ^ M) k).
Proof.
  intros HM Hlen. unfold transpose_square. rewrite Z.shiftl_1_l.
  set (n := 2 ^ M) in *.
  assert (Hn : 0 < n) by (apply Z.pow_pos_nonneg; lia).
  assert (Hsh : ∀ j, Z.shiftl j M = j * n).
  { intros j. apply Z.shiftl_mul_pow2. lia. }
  destruct (for_range_total
    (λ j, mirrored data n (λ r c, r = c ∨ r < j ∨ c < j)) 0 n
    (λ j, for_range (j + 1) n
            (λ i data,
               SWAP data (0 + (i + Z.shiftl j M)) (0 + (j + Z.shiftl i M))))
    data) as (d & Hd & Hm); [lia| | |].
  - split; [done|]. intros r c Hr Hc. split; [|done].
    intros [->|[?|?]]; [done|lia|lia].
  - intros j d Hj Hm.
    destruct (for_range_total
      (λ i, mirrored data n
              (λ r c, (r = c ∨ r < j ∨ c < j)
                      ∨ (r = j ∧ c < i) ∨ (c = j ∧ r < i)))
      (j + 1) n
      (λ i data,
         SWAP data (0 + (i + Z.shiftl j M)) (0 + (j + Z.shiftl i M)))
      d) as (d' & Hd' & Hm'); [lia| | |].
    + eapply mirrored_ext; [|exact Hm]. intros r c Hr Hc. cbv beta. lia.
    + intros i d0 Hi Hm0. rewrite !Hsh.
      edestruct (mirrored_swap data n Hn Hlen) as (d1 & -> & Hm1);
        [| | | | |exact Hm0|]; [lia|lia|lia|cbv beta; lia|cbv beta; lia|].
      exists d1. split; [done|].
      eapply mirrored_ext; [|exact Hm1]. intros r c Hr Hc. cbv beta. lia.
    + exists d'. split; [done|].
      eapply mirrored_ext; [|exact Hm']. intros r c Hr Hc. cbv beta. lia.
  - exists d. split; [done|].
    eapply mirrored_all; [exact Hn| |exact Hm].
    intros r c Hr Hc. cbv beta. lia.
Qed.

End SquareLoop.
(** ** The rectangular branch of the transposition

    The remap [PRED] of the cycle-following loop is the index map
    [transpose_index]; its orbits are the cycles the loop follows. *)

Lemma first_such (Q : nat → Prop) `{!∀ n, Decision (Q n)} (n : nat) :
  (1 ≤ n)%nat → Q n →
  ∃ T, (1 ≤ T ≤ n)%nat ∧ Q T ∧ ∀ s, (1 ≤ s < T)%nat → ¬ Q s.
Proof.
  intros Hn HQ.
  assert (Hind : ∀ m, (∀ s, (1 ≤ s ≤ m)%nat → ¬ Q s) ∨
            ∃ T, (1 ≤ T ≤ m)%nat ∧ Q T ∧ ∀ s, (1 ≤ s < T)%nat → ¬ Q s).
  { induction m as [|m [IH|(T & HT & HQT & Hmin)]].
    - left. lia.
    - destruct (decide (Q (S m))) as [HS|HS].
      + right. exists (S m). split; [lia|]. split; [done|].
        intros s Hs. apply IH. lia.
      + left. intros s Hs. destruct (decide (s = S m)) as [->|]; [done|].
        apply IH. lia.
    - right. exists T. split; [lia|]. done. }
  destruct (Hind n) as [Hno|HT]; [|done]. by destruct (Hno n).
Qed.

Section Orbit.
Variables Mx My : Z.
Hypothesis HMx : 0 ≤ Mx.
Hypothesis HMy : 0 ≤ My.
Hypothesis HM : Mx + My < 32.
Hypothesis HB : 1 ≤ Mx + My.

Local Abbreviation N := (2 ^ Mx * 2 ^ My).
Local Abbreviation P := (transpose_index (2 ^ Mx) (2 ^ My)).
Local Abbreviation orbit i t := (Nat.iter t P i).

Lemma orbit_bound i t : 0 ≤ i < N → 0 ≤ orbit i t < N.
Proof. by apply iter_transpose_index_bound. Qed.

Lemma orbit_add i (a b : nat) : orbit i (a + b)%nat = orbit (orbit i b) a.
Proof. apply Nat.iter_add. Qed.

Lemma orbit_inj a k k' :
  0 ≤ k < N → 0 ≤ k' < N → orbit k a = orbit k' a → k = k'.
Proof.
  intros Hk Hk'. induction a as [|a IH]; [done|].
  rewrite !Nat.iter_succ. intros Heq. apply IH.
  eapply (transpose_index_inj Mx My); [done|done| | |done];
    by apply orbit_bound.
Qed.

Lemma orbit_PRED i t :
  0 ≤ i < N → PRED Mx My (orbit i t) = orbit i (S t).
Proof.
  intros Hi. rewrite Nat.iter_succ.
  apply PRED_transpose_index; [done..|]. by apply orbit_bound.
Qed.

(** The first return of the orbit of [i] to a cell at most [i]. *)
Lemma orbit_first_return i :
  0 ≤ i < N →
  ∃ T, (1 ≤ T)%nat ∧ orbit i T ≤ i ∧ ∀ s, (1 ≤ s < T)%nat → i < orbit i s.
Proof.
  intros Hi.
  destruct (first_such (λ t, orbit i t ≤ i) (Z.to_nat (Mx + My)))
    as (T & HT & HQ & Hmin); [lia| |].
  - rewrite (transpose_index_period Mx My) by done. lia.
  - exists T. split; [lia|]. split; [done|].
    intros s Hs. specialize (Hmin s Hs). lia.
Qed.

Lemma orbit_first_return_le i T :
  0 ≤ i < N → (1 ≤ T)%nat → orbit i T ≤ i →
  (∀ s, (1 ≤ s < T)%nat → i < orbit i s) →
  (T ≤ Z.to_nat (Mx + My))%nat.
Proof.
  intros Hi HT HQ Hmin.
  destruct (decide (T ≤ Z.to_nat (Mx + My))%nat) as [|Hgt]; [done|].
  specialize (Hmin (Z.to_nat (Mx + My)) ltac:(lia)).
  rewrite (transpose_index_period Mx My) in Hmin by done. lia.
Qed.

Lemma transpose_chase_first i T :
  0 ≤ i < N → (1 ≤ T)%nat → orbit i T ≤ i →
  (∀ s, (1 ≤ s < T)%nat → i < orbit i s) →
  ∀ t fuel, (1 ≤ t ≤ T)%nat → (T - t < fuel)%nat →
    transpose_chase fuel Mx My i (orbit i t) = Some (orbit i T).
Proof.
  intros Hi HT HQ Hmin t fuel.
  remember (T - t)%nat as n eqn:Hn. revert t fuel Hn.
  induction n as [|n IH]; intros t fuel Hn Ht Hfuel;
    (destruct fuel as [|fuel]; [lia|]); cbn [transpose_chase].
  - assert (t = T) as -> by lia.
    destruct (Z.ltb_spec i (orbit i T)); [lia|done].
  - specialize (Hmin t ltac:(lia)).
    destruct (Z.ltb_spec i (orbit i t)); [|lia].
    rewrite orbit_PRED by done. apply IH; lia.
Qed.

(** When the orbit first returns to [i] itself, its cells before the
    return are distinct. *)
Lemma orbit_distinct i (T a b : nat) :
  0 ≤ i < N → (∀ s, (1 ≤ s < T)%nat → i < orbit i s) →
  (a < b < T)%nat → orbit i a ≠ orbit i b.
Proof.
  intros Hi Hmin Hab Heq.
  replace b with (a + (b - a))%nat in Heq by lia.
  rewrite orbit_add in Heq.
  apply orbit_inj in Heq; [|done|by apply orbit_bound].
  specialize (Hmin (b - a)%nat ltac:(lia)). lia.
Qed.


Context {F : Type}.

Lemma transpose_cycle_run (d0 : list F) i (T : nat) :
  Z.of_nat (length d0) = N →
  0 ≤ i < N → (1 ≤ T)%nat → orbit i T = i →
  (∀ s, (1 ≤ s < T)%nat → i < orbit i s) →
  ∀ (t fuel : nat) stm d,
    (1 ≤ t ≤ T)%nat → (T - t < fuel)%nat →
    Z.of_nat (T - t) ≤ stm < 2 ^ 32 →
    cycled (2 ^ Mx) (2 ^ My) d0 d i t →
    ∃ d', transpose_cycle fuel 0 Mx My i (orbit i (t - 1)%nat) (orbit i t)
            stm d = Some (d', stm - Z.of_nat (T - t))
          ∧ cycled (2 ^ Mx) (2 ^ My) d0 d' i T.
Proof.
  intros Hlen Hi HT Hret Hmin t fuel.
  remember (T - t)%nat as n eqn:Hn. revert t fuel Hn.
  induction n as [|n IH]; intros t fuel Hn stm d Ht Hfuel Hstm Hc;
    (destruct fuel as [|fuel]; [lia|]); cbn [transpose_cycle].
  - assert (t = T) as -> by lia. rewrite Hret, Z.eqb_refl.
    exists d. split; [f_equal; f_equal; lia|done].
  - pose proof (Hmin t ltac:(lia)) as Hgt.
    destruct (Z.eqb_spec (orbit i t) i) as [Heq|Hne]; [lia|].
    destruct Hc as (Hl & Hsucc & Hlast & Hoff).
    pose proof (orbit_bound i t Hi) as Hbt.
    pose proof (orbit_bound i (t - 1) Hi) as Hbt1.
    assert (Hdist : ∀ s, (s < t)%nat → orbit i t ≠ orbit i s).
    { intros s Hs Heq. symmetry in Heq. revert Heq.
      apply (orbit_distinct i T); [done|done|lia]. }
    destruct (load_is_Some d0 (orbit i t)) as [vt Hvt]; [lia|].
    destruct (load_is_Some d0 i) as [vi Hvi]; [lia|].
    rewrite !Z.add_0_l.
    rewrite (SWAP_Some d _ _ vt vi);
      [|by rewrite Hoff by done|by rewrite Hlast].
    cbn [mbind option_bind]. rewrite orbit_PRED by done.
    rewrite u32_small by lia.
    set (d1 := <[Z.to_nat (orbit i (t - 1)) := vt]>
                 (<[Z.to_nat (orbit i t) := vi]> d)).
    destruct (IH (S t) fuel ltac:(lia) (stm - 1) d1) as (d' & Hrun & Hc');
      [lia|lia|lia| |].
    2: { replace (S t - 1)%nat with t in Hrun by lia. rewrite Hrun.
         exists d'. split; [f_equal; f_equal; lia|done]. }
    subst d1. split; [by rewrite !length_insert|].
    assert (Hld : ∀ k, 0 ≤ k < N →
              load (<[Z.to_nat (orbit i (t - 1)) := vt]>
                      (<[Z.to_nat (orbit i t) := vi]> d)) k
              = if decide (k = orbit i (t - 1)%nat) then Some vt
                else if decide (k = orbit i t) then Some vi
                     else load d k).
    { intros k Hk. rewrite !load_insert by (rewrite ?length_insert; lia).
      done. }
    split; [|split].
    + intros s Hs. rewrite Hld by (by apply orbit_bound).
      case_decide as Hs1.
      * destruct (decide (s = (t - 1)%nat)) as [->|Hst].
        { rewrite <- Hvt. f_equal. f_equal. lia. }
        exfalso. revert Hs1.
        destruct (decide (s < t - 1)%nat).
        -- apply (orbit_distinct i T); [done|done|lia].
        -- lia.
      * case_decide as Hs2.
        { exfalso. symmetry in Hs2. revert Hs2. apply Hdist. lia. }
        apply Hsucc. destruct (decide (s = (t - 1)%nat)); [|lia].
        subst s. done.
    + replace (S t - 1)%nat with t by lia.
      rewrite Hld by done. case_decide as Hs1.
      * exfalso. revert Hs1. apply Hdist. lia.
      * case_decide; [done|done].
    + intros k Hk Hoff'. rewrite Hld by done.
      case_decide as Hs1; [by destruct (Hoff' (t - 1)%nat ltac:(lia))|].
      case_decide as Hs2; [by destruct (Hoff' t ltac:(lia))|].
      apply Hoff; [done|]. intros s Hs. apply Hoff'. lia.
Qed.


Lemma orbit_multiple i (T q : nat) : orbit i T = i → orbit i (q * T) = i.
Proof.
  intros Hret. induction q as [|q IH]; [done|].
  replace (S q * T)%nat with (T + q * T)%nat by lia.
  by rewrite orbit_add, IH.
Qed.

Lemma orbit_periodic i (T u : nat) :
  (1 ≤ T)%nat → orbit i T = i → orbit i u = orbit i (u `mod` T).
Proof.
  intros HT Hret.
  transitivity (orbit i (u `mod` T + u `div` T * T)%nat).
  - f_equal. pose proof (Nat.div_mod_eq u T). lia.
  - by rewrite orbit_add, orbit_multiple.
Qed.

Lemma orbit_ge i (T u : nat) :
  0 ≤ i < N → (1 ≤ T)%nat → orbit i T = i →
  (∀ s, (1 ≤ s < T)%nat → i < orbit i s) →
  i ≤ orbit i u ∧ ∃ s, (s < T)%nat ∧ orbit i u = orbit i s.
Proof.
  intros Hi HT Hret Hmin. rewrite (orbit_periodic i T u) by done.
  pose proof (Nat.mod_upper_bound u T ltac:(lia)) as Hlt.
  split; [|by exists (u `mod` T)%nat].
  destruct (decide (u `mod` T = 0)%nat) as [->|Hne]; [done|].
  specialize (Hmin (u `mod` T)%nat ltac:(lia)). lia.
Qed.

Lemma range_set_size n :
  0 ≤ n → size (list_to_set (seqZ 0 n) : gset Z) = Z.to_nat n.
Proof.
  intros Hn. rewrite size_list_to_set by apply NoDup_seqZ.
  by rewrite length_seqZ.
Qed.

Lemma range_set_full (W : gset Z) n :
  0 ≤ n → (∀ k, k ∈ W → 0 ≤ k < n) → (Z.to_nat n ≤ size W)%nat →
  ∀ k, 0 ≤ k < n → k ∈ W.
Proof.
  intros Hn Hsub Hsize k Hk.
  assert (HW : W ≡ list_to_set (seqZ 0 n)).
  { apply set_subseteq_size_equiv.
    - intros j Hj. apply elem_of_list_to_set, elem_of_seqZ.
      specialize (Hsub j Hj). lia.
    - by rewrite range_set_size. }
  apply HW, elem_of_list_to_set, elem_of_seqZ. lia.
Qed.

Lemma range_set_bound (W : gset Z) n :
  0 ≤ n → (∀ k, k ∈ W → 0 ≤ k < n) → (size W ≤ Z.to_nat n)%nat.
Proof.
  intros Hn Hsub. rewrite <- range_set_size by done.
  apply subseteq_size. intros j Hj.
  apply elem_of_list_to_set, elem_of_seqZ. specialize (Hsub j Hj). lia.
Qed.


Variable data : list F.
Hypothesis Hlen : Z.of_nat (length data) = N.

Lemma transposed_upto_skip i (T : nat) W d stm :
  0 ≤ i < N → orbit i T < i →
  transposed_upto (2 ^ Mx) (2 ^ My) data i W d stm →
  transposed_upto (2 ^ Mx) (2 ^ My) data (i + 1) W d stm.
Proof.
  intros Hi HT (HW & Hd & Hstm & Hl). split; [|done].
  intros k. rewrite HW. split; intros [Hk [t Ht]]; (split; [done|]).
  - exists t. lia.
  - destruct (decide (orbit k t < i)) as [Hlt|Hge]; [by exists t|].
    exists (T + t)%nat. rewrite orbit_add.
    by replace (orbit k t) with i by lia.
Qed.

Lemma transposed_upto_cycle i (T : nat) W d d' stm :
  0 ≤ i < N → (1 ≤ T)%nat → orbit i T = i →
  (∀ s, (1 ≤ s < T)%nat → i < orbit i s) →
  transposed_upto (2 ^ Mx) (2 ^ My) data i W d stm →
  Z.of_nat T ≤ stm ∧
  (cycled (2 ^ Mx) (2 ^ My) d d' i T →
   transposed_upto (2 ^ Mx) (2 ^ My) data (i + 1)
     (W ∪ list_to_set ((λ s, orbit i s) <$> seq 0 T)) d'
     (stm - Z.of_nat T)).
Proof.
  intros Hi HT Hret Hmin (HW & Hd & Hstm & Hl).
  set (O := list_to_set ((λ s, orbit i s) <$> seq 0 T) : gset Z).
  assert (HO : ∀ k, k ∈ O ↔ ∃ s, (s < T)%nat ∧ k = orbit i s).
  { intros k. unfold O. rewrite elem_of_list_to_set, list_elem_of_fmap.
    split.
    - intros (s & -> & Hs%elem_of_seq). exists s. split; [lia|done].
    - intros (s & Hs & ->). exists s. split; [done|].
      apply elem_of_seq. lia. }
  assert (HOW : ∀ u, orbit i u ∉ W).
  { intros u [_ [t Ht]]%HW. rewrite <- orbit_add in Ht.
    destruct (orbit_ge i T (t + u) Hi HT Hret Hmin) as [Hge _]. lia. }
  assert (Hdisj : W ## O).
  { intros k HkW [s [_ ->]]%HO. by apply (HOW s). }
  assert (HsizeO : size O = T).
  { unfold O. rewrite size_list_to_set, length_fmap, length_seq; [done|].
    apply NoDup_fmap_2_strong; [|apply NoDup_seq].
    intros a b [_ Ha]%elem_of_seq [_ Hb]%elem_of_seq Heq.
    destruct (decide (a = b)) as [|Hne]; [done|exfalso].
    destruct (decide (a < b)%nat).
    - revert Heq. apply (orbit_distinct i T); [done|done|lia].
    - symmetry in Heq. revert Heq.
      apply (orbit_distinct i T); [done|done|lia]. }
  assert (Hsize : size (W ∪ O) = (size W + T)%nat).
  { by rewrite size_union, HsizeO. }
  assert (Hin : ∀ k, k ∈ W ∪ O → 0 ≤ k < N).
  { intros k [[? _]%HW|[s [_ ->]]%HO]%elem_of_union; [done|].
    by apply orbit_bound. }
  pose proof (range_set_bound (W ∪ O) N ltac:(lia) Hin) as Hbound.
  split; [lia|]. intros (Hl' & Hsucc & Hlast & Hoff).
  split; [|split; [|split; [lia|congruence]]].
  - intros k. rewrite elem_of_union, HW, HO. split.
    + intros [[Hk [t Ht]]|[s [Hs ->]]].
      * split; [done|]. exists t. lia.
      * split; [by apply orbit_bound|]. exists (T - s)%nat.
        rewrite <- orbit_add. replace (T - s + s)%nat with T by lia. lia.
    + intros [Hk [t Ht]].
      destruct (decide (orbit k t < i)) as [Hlt|Hge]; [left; eauto|right].
      assert (Hit : orbit k t = i) by lia.
      set (B := Z.to_nat (Mx + My)).
      assert (Hk' : orbit k (B * t) = k).
      { clear -HMx HMy HM Hk. induction t as [|t IH].
        - by rewrite Nat.mul_0_r.
        - replace (B * S t)%nat with (B + B * t)%nat by lia.
          rewrite orbit_add, IH. by apply transpose_index_period. }
      assert (Hk'' : k = orbit i ((B - 1) * t)).
      { rewrite <- Hit, <- orbit_add, <- Hk' at 1. f_equal. unfold B. nia. }
      destruct (orbit_ge i T ((B - 1) * t) Hi HT Hret Hmin)
        as [_ (s & Hs & Heq)].
      exists s. split; [done|congruence].
  - intros k Hk. case_decide as Hin'.
    + apply elem_of_union in Hin' as [HkW|[s [Hs ->]]%HO].
      * rewrite Hoff, Hd by (try done; intros s Hs ->; by apply (HOW s)).
        by rewrite decide_True.
      * assert (Hnext : load d' (orbit i s) = load d (orbit i (S s))).
        { destruct (decide (s + 1 < T)%nat); [by apply Hsucc|].
          assert (s = (T - 1)%nat) as -> by lia.
          rewrite Hlast. replace (S (T - 1)) with T by lia.
          by rewrite Hret. }
        rewrite Hnext, Hd by (by apply orbit_bound).
        rewrite decide_False by apply HOW. by rewrite Nat.iter_succ.
    + rewrite Hoff, Hd; [|done|done|].
      * rewrite decide_False; [done|]. intros ?. apply Hin'.
        by apply elem_of_union_l.
      * intros s Hs ->. apply Hin', elem_of_union_r, HO. eauto.
Qed.

Lemma transposed_upto_init :
  transposed_upto (2 ^ Mx) (2 ^ My) data 0 ∅ data N.
Proof.
  split; [|split; [|split]]; [| |by rewrite size_empty; lia|done].
  - intros k. split; [set_solver|]. intros [Hk [t Ht]].
    pose proof (orbit_bound k t Hk). lia.
  - intros k Hk. by rewrite decide_False by set_solver.
Qed.

Lemma transposed_upto_stm i W d stm :
  transposed_upto (2 ^ Mx) (2 ^ My) data i W d stm →
  0 ≤ stm ≤ N ∧ (N ≤ i → stm = 0) ∧
  (stm = 0 → ∀ k, 0 ≤ k < N → load d k = load data (P k)).
Proof.
  intros (HW & Hd & Hstm & Hl).
  pose proof (Nx_pos Mx HMx). pose proof (Ny_pos My HMy).
  assert (Hin : ∀ k, k ∈ W → 0 ≤ k < N) by (by intros k [? _]%HW).
  pose proof (range_set_bound W N ltac:(lia) Hin) as Hbound.
  split; [lia|]. split.
  - intros Hi.
    assert (list_to_set (seqZ 0 N) ⊆ W) as Hsub%subseteq_size.
    { intros k [? ?]%elem_of_list_to_set%elem_of_seqZ. apply HW.
      split; [lia|]. exists 0%nat. cbn. lia. }
    rewrite range_set_size in Hsub by lia. lia.
  - intros Hz k Hk. rewrite Hd by done.
    rewrite decide_True; [done|].
    apply (range_set_full W N); [lia|done|lia|done].
Qed.

Lemma transpose_rect_run (n : nat) :
  ∀ i W d stm fuel,
    Z.of_nat n = N - i → 0 ≤ i → (n < fuel)%nat →
    transposed_upto (2 ^ Mx) (2 ^ My) data i W d stm →
    ∃ d', transpose_rect fuel 0 Mx My i stm d = Some d' ∧
          length d' = length data ∧
          ∀ k, 0 ≤ k < N → load d' k = load data (P k).
Proof.
  pose proof (N_bound Mx My HMx HMy HM) as HN.
  induction n as [|n IH]; intros i W d stm fuel Hn Hi Hfuel Hinv;
    (destruct fuel as [|fuel]; [lia|]); cbn [transpose_rect];
    destruct (transposed_upto_stm _ _ _ _ Hinv) as (Hstm0 & Hend & Hdone).
  - rewrite Hend by lia. cbn. exists d. split; [done|].
    destruct Hinv as (_ & _ & _ & Hl). split; [done|]. apply Hdone. lia.
  - destruct (Z.ltb_spec 0 stm) as [Hpos|Hle]; cycle 1.
    { exists d. split; [done|].
      destruct Hinv as (_ & _ & _ & Hl). split; [done|]. apply Hdone. lia. }
    assert (Hi' : 0 ≤ i < N) by lia.
    destruct (orbit_first_return i Hi') as (T & HT & HQ & Hmin).
    pose proof (orbit_first_return_le i T Hi' HT HQ Hmin) as HTle.
    assert (Hpow : Mx + My < Z.shiftl 1 (Mx + My)).
    { rewrite Z.shiftl_1_l. apply Z.pow_gt_lin_r; lia. }
    assert (HP : PRED Mx My i = orbit i 1) by apply (orbit_PRED i 0 Hi').
    rewrite !HP.
    rewrite (transpose_chase_first i T Hi' HT HQ Hmin) by lia.
    cbn [mbind option_bind].
    assert (Hu : u32 (i + 1) = i + 1) by (apply u32_small; lia).
    destruct (Z.ltb_spec (orbit i T) i) as [Hlt|Hge].
    + rewrite Hu. eapply IH; [lia|lia|lia|].
      by eapply transposed_upto_skip.
    + assert (Hret : orbit i T = i) by lia.
      destruct (transposed_upto_cycle i T W d d stm Hi' HT Hret Hmin Hinv)
        as [Hroom _].
      assert (Hld : Z.of_nat (length d) = N).
      { by destruct Hinv as (_ & _ & _ & ->). }
      assert (Hc0 : cycled (2 ^ Mx) (2 ^ My) d d i 1).
      { split; [done|]. split; [intros; lia|]. split; [done|]. done. }
      destruct (transpose_cycle_run d i T Hld Hi' HT Hret Hmin 1%nat
                  (S (Z.to_nat (Z.shiftl 1 (Mx + My)))) stm d
                  ltac:(lia) ltac:(lia) ltac:(lia) Hc0) as (d' & Hrun & Hc).
      change (transpose_cycle (S (Z.to_nat (Z.shiftl 1 (Mx + My)))) 0 Mx My
                i i (orbit i 1) stm d = Some (d', stm - Z.of_nat (T - 1)))
        in Hrun.
      rewrite Hrun. cbn [mbind option_bind].
      rewrite Hu. rewrite u32_small by lia.
      destruct (transposed_upto_cycle i T W d d' stm Hi' HT Hret Hmin Hinv)
        as [_ Hnext].
      eapply IH; [lia|lia|lia|].
      replace (stm - Z.of_nat (T - 1) - 1) with (stm - Z.of_nat T) by lia.
      by apply Hnext.
Qed.

End Orbit.

Section Transpose.
Context {F : Type}.

Lemma FHT2D_transpose_ref (data : list F) (Mx My : Z) :
  0 ≤ Mx → 0 ≤ My → Mx + My < 32 →
  Z.of_nat (length data) = 2 ^ Mx * 2 ^ My →
  FHT2D_transpose data 0 Mx My = Some (transpose_ref (2 ^ Mx) (2 ^ My) data).
Proof.
  intros HMx HMy HM Hlen.
  pose proof (Nx_pos Mx HMx) as HNx. pose proof (Ny_pos My HMy) as HNy.
  pose proof (N_bound Mx My HMx HMy HM) as HN.
  assert (∃ d, FHT2D_transpose data 0 Mx My = Some d ∧
               length d = length data ∧
               ∀ k, 0 ≤ k < 2 ^ Mx * 2 ^ My →
                 load d k = load data (transpose_index (2 ^ Mx) (2 ^ My) k))
    as (d & -> & Hl & Hd).
  { unfold FHT2D_transpose. rewrite !Z.shiftl_1_l.
    assert (2 ^ Mx < 2 ^ 32 ∧ 2 ^ My < 2 ^ 32) as [? ?].
    { split; apply Z.pow_lt_mono_r; lia. }
    rewrite !u32_small by lia.
    destruct (Z.eqb_spec (2 ^ Mx) (2 ^ My)) as [Heq|Hne].
    - apply Z.pow_inj_r in Heq; [|lia..]. subst My.
      by apply transpose_square_spec.
    - assert (1 ≤ Mx + My).
      { destruct (decide (Mx = 0)); destruct (decide (My = 0)); subst;
          first [lia|by destruct Hne]. }
      rewrite Z.pow_add_r, (u32_small (2 ^ Mx * 2 ^ My)) by lia.
      eapply (transpose_rect_run Mx My HMx HMy HM ltac:(lia) data Hlen
                (Z.to_nat (2 ^ Mx * 2 ^ My))); [lia|lia|lia|].
      by apply transposed_upto_init. }
  f_equal. by apply transpose_ref_unique.
Qed.

(** The transposition step of [FHT2D], on a buffer that holds a grid of
    [2^My] rows and [2^Mx] columns (with [Mx + My < 32], the range in which
    the 32-bit cell counter holds the number of cells), returns, for square
    and for rectangular grids alike, the contents of the straightforward
    out-of-place transposition of the grid; and running it a second time
    with the two dimensions exchanged gives back the original buffer. *)
Theorem FHT2D_transpose_involutive (data : list F) (Mx My : Z) :
  0 ≤ Mx → 0 ≤ My → Mx + My < 32 →
  Z.of_nat (length data) = 2 ^ Mx * 2 ^ My →
  FHT2D_transpose data 0 Mx My
    = Some (transpose_ref (2 ^ Mx) (2 ^ My) data) ∧
  (d ← FHT2D_transpose data 0 Mx My; FHT2D_transpose d 0 My Mx) = Some data.
Proof.
  intros HMx HMy HM Hlen.
  pose proof (Nx_pos Mx HMx) as HNx. pose proof (Ny_pos My HMy) as HNy.
  rewrite FHT2D_transpose_ref by done. split; [done|].
  cbn [mbind option_bind].
  rewrite FHT2D_transpose_ref; [|done|done|lia|].
  - f_equal. by apply transpose_ref_involutive.
  - rewrite transpose_ref_length; lia.
Qed.

End Transpose.

(** ** More on [next_pow2], [PRED] and the header inline *)
(** [next_pow2] returns on every 32-bit input: its loop ends within 32
    passes, [L2] is at most 32 and the power returned is [1 << L2] cut to
    32 bits.  On [0] it returns [1] (with [L2 = 0]), and on every input
    above [2^31] the power wraps around to [0] (with [L2 = 32]). *)
Theorem next_pow2_total (x : Z) :
  0 ≤ x < 2 ^ 32 →
  ∃ pw L2, next_pow2 x = Some (pw, L2) ∧
           0 ≤ L2 ≤ 32 ∧ pw = u32 (2 ^ L2) ∧
           (x = 0 → pw = 1 ∧ L2 = 0) ∧
           (2 ^ 31 < x → pw = 0 ∧ L2 = 32).
Proof.
  intros Hx. destruct (Z.eq_dec x 0) as [->|Hx0].
  { exists 1, 0. repeat split; try done; lia. }
  pose proof (Z.log2_spec x ltac:(lia)) as [Hlo Hhi].
  pose proof (Z.log2_nonneg x) as Hk.
  assert (Hk31 : Z.log2 x ≤ 31).
  { pose proof (Z.log2_lt_pow2 x 32 ltac:(lia)). lia. }
  unfold next_pow2.
  rewrite next_pow2_loop_log2; [|simpl; lia|done|lia].
  cbn [mbind option_bind]. rewrite Z.add_0_l, Z.shiftl_1_l.
  assert (Hp : 0 < 2 ^ Z.log2 x ≤ 2 ^ 31).
  { split; [lia|]. apply Z.pow_le_mono_r; lia. }
  destruct (Z.eqb_spec (Z.land x (u32 (x - 1))) 0) as [H0|H0].
  - rewrite u32_small in H0 by lia. apply land_pred_pow2 in H0; [|lia].
    eexists _, _. split; [done|]. repeat split; try lia.
  - rewrite (u32_small (2 ^ _)) by lia.
    rewrite Z.shiftl_mul_pow2 by lia. change (2 ^ 1) with 2.
    replace (2 ^ Z.log2 x * 2) with (2 ^ (Z.log2 x + 1))
      by (rewrite Z.pow_add_r by lia; lia).
    rewrite (u32_small (_ + 1)) by lia.
    eexists _, _. split; [done|]. repeat split; try lia.
    + assert (Z.log2 x = 31) as ->.
      { destruct (Z.eq_dec (Z.log2 x) 31) as [|Hne]; [done|exfalso].
        assert (2 ^ Z.succ (Z.log2 x) ≤ 2 ^ 31)
          by (apply Z.pow_le_mono_r; lia). lia. }
      done.
    + destruct (Z.eq_dec (Z.log2 x) 31) as [|Hne]; [lia|exfalso].
      assert (2 ^ Z.succ (Z.log2 x) ≤ 2 ^ 31)
        by (apply Z.pow_le_mono_r; lia). lia.
Qed.

Lemma next_pow2_total_witness :
  0 ≤ 4294967295 < 2 ^ 32 ∧
  ∃ pw L2, next_pow2 4294967295 = Some (pw, L2) ∧
           0 ≤ L2 ≤ 32 ∧ pw = u32 (2 ^ L2) ∧
           (4294967295 = 0 → pw = 1 ∧ L2 = 0) ∧
           (2 ^ 31 < 4294967295 → pw = 0 ∧ L2 = 32).
Proof. split; [lia|]. apply (next_pow2_total 4294967295). lia. Defined.

Lemma iter_PRED Mx My (t : nat) k :
  0 ≤ Mx → 0 ≤ My → Mx + My < 32 → 0 ≤ k < 2 ^ Mx * 2 ^ My →
  Nat.iter t (PRED Mx My) k
  = Nat.iter t (transpose_index (2 ^ Mx) (2 ^ My)) k.
Proof.
  intros HMx HMy HM Hk. induction t as [|t IH]; [done|].
  rewrite !Nat.iter_succ, IH.
  apply PRED_transpose_index; [done..|].
  by apply iter_transpose_index_bound.
Qed.

(** The remap [PRED] of the rectangular transposition sends the cell [k]
    of the [2^My × 2^Mx] grid to the cell [(k mod Ny) * Nx + k div Ny] of
    the grid, and following it [Mx + My] times leads back to [k]: the
    cycles the loop follows have a length that divides [Mx + My]. *)
Theorem PRED_period (Mx My k : Z) :
  0 ≤ Mx → 0 ≤ My → Mx + My < 32 → 0 ≤ k < 2 ^ Mx * 2 ^ My →
  PRED Mx My k = (k `mod` 2 ^ My) * 2 ^ Mx + k `div` 2 ^ My ∧
  0 ≤ PRED Mx My k < 2 ^ Mx * 2 ^ My ∧
  Nat.iter (Z.to_nat (Mx + My)) (PRED Mx My) k = k.
Proof.
  intros HMx HMy HM Hk.
  rewrite iter_PRED, PRED_transpose_index by done.
  split; [done|]. split; [by apply transpose_index_bound|].
  by apply transpose_index_period.
Qed.

Lemma PRED_period_witness :
  (0 ≤ 3 ∧ 0 ≤ 2 ∧ 3 + 2 < 32 ∧ 0 ≤ 5 < 2 ^ 3 * 2 ^ 2) ∧
  PRED 3 2 5 = (5 `mod` 2 ^ 2) * 2 ^ 3 + 5 `div` 2 ^ 2 ∧
  0 ≤ PRED 3 2 5 < 2 ^ 3 * 2 ^ 2 ∧
  Nat.iter (Z.to_nat (3 + 2)) (PRED 3 2) 5 = 5.
Proof. split; [lia|]. apply (PRED_period 3 2 5); lia. Defined.

(** [BKE_mesh_origindex_mface_mpoly] stays inside its tables when every
    entry of the face table is [-1] or an index of the polygon table: for
    a face [i] of the table the call returns, and its result is [-1] when
    the face has no polygon (the polygon table is not read, and may be
    absent or empty), the polygon itself when there is no polygon table,
    and the polygon's entry otherwise. *)
Theorem BKE_mesh_origindex_mface_mpoly_in_bounds
    (index_mf_to_mpoly : list Z) (index_mp_to_orig : option (list Z))
    (i : Z) :
  0 ≤ i < Z.of_nat (length index_mf_to_mpoly) →
  (∀ orig j, index_mp_to_orig = Some orig → j ∈ index_mf_to_mpoly →
     j = -1 ∨ 0 ≤ j < Z.of_nat (length orig)) →
  ∃ j r, load index_mf_to_mpoly i = Some j ∧
         BKE_mesh_origindex_mface_mpoly index_mf_to_mpoly index_mp_to_orig i
         = Some r ∧
         (j = -1 → r = -1) ∧
         (j ≠ -1 → index_mp_to_orig = None → r = j) ∧
         (j ≠ -1 → ∀ orig, index_mp_to_orig = Some orig →
            load orig j = Some r).
Proof.
  intros Hi Hin. destruct (load_is_Some index_mf_to_mpoly i Hi) as [j Hj].
  exists j. unfold BKE_mesh_origindex_mface_mpoly. rewrite Hj.
  cbn [mbind option_bind].
  destruct (Z.eqb_spec j (-1)) as [->|Hne]; cbn [negb].
  { exists (-1). repeat split; done. }
  destruct index_mp_to_orig as [orig|].
  - assert (Hmem : j ∈ index_mf_to_mpoly).
    { unfold load in Hj. destruct (0 <=? i); [|done].
      by eapply list_elem_of_lookup_2. }
    destruct (Hin orig j eq_refl Hmem) as [?|Hb]; [done|].
    destruct (load_is_Some orig j Hb) as [r Hr]. exists r.
    repeat split; try done. by intros _ ? [= <-].
  - exists j. repeat split; done.
Qed.

Lemma BKE_mesh_origindex_mface_mpoly_in_bounds_witness :
  (0 ≤ 1 < Z.of_nat (length [2; 0; -1]) ∧
   ∀ orig j, Some [7; 8; 9] = Some orig → j ∈ [2; 0; -1] →
     j = -1 ∨ 0 ≤ j < Z.of_nat (length orig)) ∧
  ∃ j r, load [2; 0; -1] 1 = Some j ∧
         BKE_mesh_origindex_mface_mpoly [2; 0; -1] (Some [7; 8; 9]) 1
         = Some r ∧
         (j = -1 → r = -1) ∧
         (j ≠ -1 → Some [7; 8; 9] = None → r = j) ∧
         (j ≠ -1 → ∀ orig, Some [7; 8; 9] = Some orig →
            load orig j = Some r).
Proof.
  assert (Hin : ∀ orig j, Some [7; 8; 9] = Some orig → j ∈ [2; 0; -1] →
            j = -1 ∨ 0 ≤ j < Z.of_nat (length orig)).
  { intros orig j [= <-] Hj. cbn [length].
    repeat (apply elem_of_cons in Hj as [->|Hj]; [lia|]).
    by apply elem_of_nil in Hj. }
  split; [split; [cbn; lia|exact Hin]|].
  apply (BKE_mesh_origindex_mface_mpoly_in_bounds [2; 0; -1]
           (Some [7; 8; 9]) 1); [cbn; lia|exact Hin].
Defined.

(** ** Bit reversal: [revbin_upd] and the reordering loop of [FHT] *)

Lemma pow2_pos (k : Z) : 0 ≤ k → 0 < 2 ^ k.
Proof. intros. apply Z.pow_pos_nonneg; lia. Qed.

Lemma revbin_bound (m : nat) i : 0 ≤ revbin m i < 2 ^ Z.of_nat m.
Proof.
  revert i. induction m as [|m IH]; intros i; cbn [revbin]; [done|].
  pose proof (IH (i `div` 2)). pose proof (Z.mod_pos_bound i 2 ltac:(lia)).
  rewrite Nat2Z.inj_succ, Z.pow_succ_r by lia. nia.
Qed.

Lemma revbin_0 (m : nat) : revbin m 0 = 0.
Proof.
  induction m as [|m IH]; [done|]. cbn [revbin].
  change (0 `mod` 2) with 0. change (0 `div` 2) with 0. rewrite IH. lia.
Qed.

(** The reversal taken from the other end. *)
Lemma revbin_high (m : nat) i :
  0 ≤ i < 2 ^ Z.of_nat (S m) →
  revbin (S m) i
  = 2 * revbin m (i `mod` 2 ^ Z.of_nat m) + i `div` 2 ^ Z.of_nat m.
Proof.
  revert i. induction m as [|m IH]; intros i Hi.
  - cbn [revbin]. change (2 ^ Z.of_nat 0) with 1 in *.
    change (2 ^ Z.of_nat 1) with 2 in Hi.
    rewrite Z.div_1_r, Z.mod_small by lia. lia.
  - remember (S m) as m' eqn:Hm'. cbn [revbin]. subst m'.
    pose proof (pow2_pos (Z.of_nat m) ltac:(lia)) as Hp.
    assert (Hpow : 2 ^ Z.of_nat (S m) = 2 * 2 ^ Z.of_nat m).
    { rewrite Nat2Z.inj_succ, Z.pow_succ_r by lia. done. }
    rewrite Nat2Z.inj_succ, Z.pow_succ_r in Hi by lia. rewrite Hpow in Hi.
    rewrite IH; cycle 1.
    { rewrite Hpow. split; [apply Z.div_pos; lia|].
      apply Z.div_lt_upper_bound; lia. }
    remember (revbin m) as R. cbn [revbin]. subst R. rewrite Hpow.
    assert (H1 : (i `mod` (2 * 2 ^ Z.of_nat m)) `mod` 2 = i `mod` 2).
    { apply Z.mod_mod_divide. exists (2 ^ Z.of_nat m). lia. }
    assert (H2 : (i `mod` (2 * 2 ^ Z.of_nat m)) `div` 2
                 = (i `div` 2) `mod` 2 ^ Z.of_nat m).
    { rewrite Z.rem_mul_r by lia.
      rewrite (Z.mul_comm 2), Z.div_add by lia.
      rewrite (Z.div_small (i `mod` 2)) by (apply Z.mod_pos_bound; lia).
      done. }
    assert (H3 : i `div` (2 * 2 ^ Z.of_nat m)
                 = (i `div` 2) `div` 2 ^ Z.of_nat m).
    { by rewrite Z.div_div by lia. }
    rewrite H1, H2, H3. lia.
Qed.

Lemma revbin_involutive (m : nat) i :
  0 ≤ i < 2 ^ Z.of_nat m → revbin m (revbin m i) = i.
Proof.
  revert i. induction m as [|m IH]; intros i Hi.
  - cbn in *. lia.
  - pose proof (pow2_pos (Z.of_nat m) ltac:(lia)) as Hp.
    assert (Hpow : 2 ^ Z.of_nat (S m) = 2 * 2 ^ Z.of_nat m).
    { rewrite Nat2Z.inj_succ, Z.pow_succ_r by lia. done. }
    rewrite revbin_high by apply revbin_bound.
    cbn [revbin].
    pose proof (revbin_bound m (i `div` 2)) as Hb.
    pose proof (Z.mod_pos_bound i 2 ltac:(lia)) as Hm.
    replace (2 ^ Z.of_nat m * (i `mod` 2) + revbin m (i `div` 2))
      with (revbin m (i `div` 2) + (i `mod` 2) * 2 ^ Z.of_nat m) by lia.
    rewrite Z_mod_plus_full, Z.div_add by lia.
    rewrite Z.mod_small, (Z.div_small (revbin m (i `div` 2))) by lia.
    rewrite IH; cycle 1.
    { split; [apply Z.div_pos; lia|]. apply Z.div_lt_upper_bound; lia. }
    pose proof (Z.div_mod i 2 ltac:(lia)). lia.
Qed.

Lemma land_pow2_small x k : 0 ≤ k → 0 ≤ x < 2 ^ k → Z.land x (2 ^ k) = 0.
Proof.
  intros Hk Hx. apply Z.bits_inj'. intros n Hn.
  rewrite Z.land_spec, Z.bits_0, Z.pow2_bits_eqb by done.
  destruct (Z.eqb_spec k n) as [<-|]; [|by rewrite andb_false_r].
  rewrite andb_true_r. destruct (Z.eq_dec x 0) as [->|]; [apply Z.bits_0|].
  apply Z.bits_above_log2; [lia|]. apply Z.log2_lt_pow2; lia.
Qed.

Lemma lxor_pow2_set x k :
  0 ≤ k → 0 ≤ x < 2 ^ k →
  Z.lxor x (2 ^ k) = x + 2 ^ k ∧ Z.land (x + 2 ^ k) (2 ^ k) = 2 ^ k.
Proof.
  intros Hk Hx. pose proof (land_pow2_small x k Hk Hx) as H0.
  rewrite (Z.add_nocarry_lxor x) by done. split; [done|].
  rewrite Z.lxor_lor by done.
  by rewrite Z.land_lor_distr_l, H0, Z.land_diag, Z.lor_0_l.
Qed.

Lemma lxor_pow2_clear x k :
  0 ≤ k → 0 ≤ x < 2 ^ k → Z.lxor (2 ^ k + x) (2 ^ k) = x.
Proof.
  intros Hk Hx. pose proof (land_pow2_small x k Hk Hx) as H0.
  rewrite (Z.add_comm _ x), (Z.add_nocarry_lxor x) by done.
  by rewrite Z.lxor_assoc, Z.lxor_nilpotent, Z.lxor_0_r.
Qed.

(** One call of [revbin_upd] steps the bit-reversed counter. *)
Lemma revbin_upd_loop_next (m : nat) :
  ∀ (fuel : nat) i,
    (1 ≤ m ≤ fuel)%nat → 0 ≤ i → i + 1 < 2 ^ Z.of_nat m →
    revbin_upd_loop fuel (revbin m i) (2 ^ (Z.of_nat m - 1))
    = Some (revbin m (i + 1)).
Proof.
  induction m as [|m IH]; intros fuel i Hm Hi Hlt; [lia|].
  destruct fuel as [|fuel]; [lia|]. cbn [revbin_upd_loop revbin].
  replace (Z.of_nat (S m) - 1) with (Z.of_nat m) by lia.
  pose proof (pow2_pos (Z.of_nat m) ltac:(lia)) as Hp.
  pose proof (revbin_bound m (i `div` 2)) as Hb.
  pose proof (Z.div_mod i 2 ltac:(lia)) as Hdiv.
  pose proof (Z.mod_pos_bound i 2 ltac:(lia)) as Hmod.
  rewrite Nat2Z.inj_succ, Z.pow_succ_r in Hlt by lia.
  destruct (Z.eq_dec (i `mod` 2) 0) as [He|Ho].
  - (* the top bit of the counter is clear: set it, and return *)
    rewrite He, Z.mul_0_r, Z.add_0_l.
    destruct (lxor_pow2_set (revbin m (i `div` 2)) (Z.of_nat m))
      as [-> ->]; [lia|done|].
    destruct (Z.eqb_spec (2 ^ Z.of_nat m) 0); [lia|].
    f_equal.
    replace ((i + 1) `mod` 2) with 1
      by (rewrite <- Zplus_mod_idemp_l, He; done).
    replace ((i + 1) `div` 2) with (i `div` 2); [lia|].
    apply (Z.div_unique _ _ _ 1); lia.
  - (* the top bit is set: clear it, and go on one bit lower *)
    assert (Hi1 : i `mod` 2 = 1) by lia.
    rewrite Hi1, Z.mul_1_r.
    rewrite lxor_pow2_clear by (done || lia).
    rewrite land_pow2_small, Z.eqb_refl by (done || lia).
    rewrite Z.shiftr_div_pow2 by lia. change (2 ^ 1) with 2.
    assert (Hm1 : (1 ≤ m)%nat).
    { destruct m; [|lia]. change (2 ^ Z.of_nat 0) with 1 in *. lia. }
    replace (2 ^ Z.of_nat m `div` 2) with (2 ^ (Z.of_nat m - 1)); cycle 1.
    { replace (Z.of_nat m) with (Z.succ (Z.of_nat m - 1)) at 2 by lia.
      rewrite Z.pow_succ_r by lia.
      by rewrite (Z.mul_comm 2), Z.div_mul by lia. }
    rewrite IH; [|lia|apply Z.div_pos; lia|]; cycle 1.
    { assert (i `div` 2 + 1 ≤ 2 ^ Z.of_nat m - 1); [|lia].
      assert (2 * (i `div` 2) + 2 ≤ 2 * 2 ^ Z.of_nat m - 1) by lia.
      assert (2 * 2 ^ Z.of_nat m = 2 * (2 ^ Z.of_nat m - 1) + 2) by lia.
      lia. }
    f_equal.
    replace ((i + 1) `mod` 2) with 0
      by (rewrite <- Zplus_mod_idemp_l, Hi1; done).
    replace ((i + 1) `div` 2) with (i `div` 2 + 1); [lia|].
    apply (Z.div_unique _ _ _ 0); lia.
Qed.

(** One call of [revbin_upd] on the reversal of [i]. *)
Lemma revbin_upd_step (m : nat) (i : Z) :
  (1 ≤ m ≤ 32)%nat → 0 ≤ i → i + 1 < 2 ^ Z.of_nat m →
  revbin_upd (revbin m i) (Z.shiftr (2 ^ Z.of_nat m) 1)
  = Some (revbin m (i + 1)).
Proof.
  intros Hm Hi Hlt. unfold revbin_upd.
  rewrite Z.shiftr_div_pow2 by lia. change (2 ^ 1) with 2.
  replace (2 ^ Z.of_nat m `div` 2) with (2 ^ (Z.of_nat m - 1)).
  - apply revbin_upd_loop_next; [lia|done|done].
  - replace (Z.of_nat m) with (Z.succ (Z.of_nat m - 1)) at 2 by lia.
    rewrite Z.pow_succ_r by lia.
    by rewrite (Z.mul_comm 2), Z.div_mul by lia.
Qed.

(** [r = revbin_upd(r, h)] with [h = N >> 1] turns the bit reversal of [i]
    into the bit reversal of [i + 1], for every counter [i] that has a
    successor below [N = 2^m] ([1 ≤ m ≤ 32]). *)
Theorem revbin_upd_next (m : nat) (i : Z) :
  (1 ≤ m ≤ 32)%nat → 0 ≤ i → i + 1 < 2 ^ Z.of_nat m →
  revbin_upd (revbin m i) (Z.shiftr (2 ^ Z.of_nat m) 1)
  = Some (revbin m (i + 1)).
Proof.
  intros Hm Hi Hlt. unfold revbin_upd.
  rewrite Z.shiftr_div_pow2 by lia. change (2 ^ 1) with 2.
  replace (2 ^ Z.of_nat m `div` 2) with (2 ^ (Z.of_nat m - 1)).
  - apply revbin_upd_loop_next; [lia|done|done].
  - replace (Z.of_nat m) with (Z.succ (Z.of_nat m - 1)) at 2 by lia.
    rewrite Z.pow_succ_r by lia.
    by rewrite (Z.mul_comm 2), Z.div_mul by lia.
Qed.

Lemma revbin_upd_next_witness :
  ((1 ≤ 3 ≤ 32)%nat ∧ 0 ≤ 3 ∧ 3 + 1 < 2 ^ Z.of_nat 3) ∧
  revbin_upd (revbin 3 3) (Z.shiftr (2 ^ Z.of_nat 3) 1)
  = Some (revbin 3 (3 + 1)).
Proof.
  split; [cbn; lia|]. apply (revbin_upd_next 3 3); [lia|lia|cbn; lia].
Defined.

Lemma revbin_upd_loop_zero (fuel : nat) r : revbin_upd_loop fuel r 0 = None.
Proof.
  revert r. induction fuel as [|fuel IH]; intros r; [done|].
  cbn [revbin_upd_loop]. rewrite Z.land_0_r. cbn. apply IH.
Qed.

(** On the last value of the counter, all ones, [revbin_upd] clears the
    bits one after the other and then loops on [h = 0] for ever: no amount
    of fuel lets it return. *)
Theorem revbin_upd_last_diverges (m fuel : nat) :
  revbin_upd_loop fuel (2 ^ Z.of_nat (S m) - 1) (2 ^ Z.of_nat m) = None.
Proof.
  revert fuel. induction m as [|m IH]; intros fuel;
    (destruct fuel as [|fuel]; [done|]); cbn [revbin_upd_loop].
  - change (Z.land (Z.lxor (2 ^ Z.of_nat 1 - 1) (2 ^ Z.of_nat 0))
              (2 ^ Z.of_nat 0) =? 0) with true.
    cbn. apply revbin_upd_loop_zero.
  - pose proof (pow2_pos (Z.of_nat (S m)) ltac:(lia)) as Hp.
    assert (Hpow : 2 ^ Z.of_nat (S (S m)) = 2 * 2 ^ Z.of_nat (S m)).
    { rewrite (Nat2Z.inj_succ (S m)), Z.pow_succ_r by lia. done. }
    replace (2 ^ Z.of_nat (S (S m)) - 1)
      with (2 ^ Z.of_nat (S m) + (2 ^ Z.of_nat (S m) - 1)) by lia.
    rewrite lxor_pow2_clear by lia.
    rewrite land_pow2_small, Z.eqb_refl by lia.
    rewrite Z.shiftr_div_pow2 by lia. change (2 ^ 1) with 2.
    replace (2 ^ Z.of_nat (S m) `div` 2) with (2 ^ Z.of_nat m); [apply IH|].
    rewrite Nat2Z.inj_succ, Z.pow_succ_r by lia.
    by rewrite (Z.mul_comm 2), Z.div_mul by lia.
Qed.

Section Reorder.
Context {A : Type}.
Variables (m : nat) (base : Z) (data : list A).
Hypothesis Hm : (m ≤ 31)%nat.
Hypothesis Hbase : 0 ≤ base.
Hypothesis Hlen : base + 2 ^ Z.of_nat m ≤ Z.of_nat (length data).

Local Abbreviation len := (2 ^ Z.of_nat m).

Lemma revbin_eq_inv k k' :
  0 ≤ k < len → 0 ≤ k' < len → revbin m k = k' → k = revbin m k'.
Proof. intros Hk Hk' <-. by rewrite revbin_involutive. Qed.

Lemma reordered_upto_init : reordered_upto m base data 1 data.
Proof.
  split; [done|]. intros k Hk. case_decide as Hc; [|done].
  assert (k = 0) as ->.
  { destruct Hc as [?|Hr]; [lia|].
    pose proof (revbin_bound m k).
    rewrite (revbin_eq_inv k 0); [apply revbin_0|done|lia|lia]. }
  by rewrite revbin_0.
Qed.

Lemma reordered_upto_keep i d :
  1 ≤ i < len → revbin m i ≤ i →
  reordered_upto m base data i d → reordered_upto m base data (i + 1) d.
Proof.
  intros Hi Hle [Hout Hd]. split; [done|]. intros k Hk. rewrite Hd by done.
  pose proof (revbin_bound m k) as Hb.
  destruct (decide (k < i ∨ revbin m k < i)) as [Hc|Hc].
  { rewrite decide_True by lia. done. }
  case_decide as Hc'; [|done].
  assert (k = i ∨ revbin m k = i) as [->|Hr] by lia.
  - assert (revbin m i = i) as -> by lia. done.
  - pose proof (revbin_eq_inv k i ltac:(lia) ltac:(lia) Hr).
    rewrite Hr. do 2 f_equal. lia.
Qed.

Lemma reordered_upto_swap i d :
  1 ≤ i < len → i < revbin m i →
  reordered_upto m base data i d →
  ∃ vi vj,
    load d (base + i) = Some vi ∧ load d (base + revbin m i) = Some vj ∧
    reordered_upto m base data (i + 1)
      (<[Z.to_nat (base + revbin m i) := vi]>
         (<[Z.to_nat (base + i) := vj]> d)).
Proof.
  intros Hi Hlt [[Hl Hout] Hd].
  pose proof (revbin_bound m i) as Hbi.
  destruct (load_is_Some d (base + i)) as [vi Hvi]; [lia|].
  destruct (load_is_Some d (base + revbin m i)) as [vj Hvj]; [lia|].
  exists vi, vj. split; [done|]. split; [done|].
  assert (Hld : ∀ k,
            load (<[Z.to_nat (base + revbin m i) := vi]>
                    (<[Z.to_nat (base + i) := vj]> d)) k
            = if decide (k = base + revbin m i) then Some vi
              else if decide (k = base + i) then Some vj else load d k).
  { intros k. rewrite !load_insert by (rewrite ?length_insert; lia). done. }
  split; [split|].
  - by rewrite !length_insert.
  - intros k Hk. rewrite Hld, !decide_False by lia. by apply Hout.
  - intros k Hk. rewrite Hld. pose proof (revbin_bound m k) as Hb.
    destruct (decide (base + k = base + revbin m i)) as [Hk1|Hk1].
    { assert (k = revbin m i) as -> by lia.
      rewrite revbin_involutive, decide_True by lia.
      rewrite <- Hvi, Hd by lia.
      by rewrite decide_False by lia. }
    destruct (decide (base + k = base + i)) as [Hk2|Hk2].
    { assert (k = i) as -> by lia. rewrite decide_True by lia.
      rewrite <- Hvj, Hd by lia.
      rewrite revbin_involutive by lia. by rewrite decide_False by lia. }
    rewrite Hd by done.
    destruct (decide (k < i ∨ revbin m k < i)) as [Hc|Hc].
    { by rewrite decide_True by lia. }
    rewrite decide_False; [done|]. intros [?|Hr]; [lia|].
    assert (revbin m k = i) as Hr' by lia.
    apply revbin_eq_inv in Hr'; [|lia..]. lia.
Qed.

Lemma reordered_upto_done i d :
  len - 1 ≤ i →
  reordered_upto m base data i d →
  ∀ k, 0 ≤ k < len → load d (base + k) = load data (base + revbin m k).
Proof.
  intros Hi [_ Hd] k Hk. rewrite Hd by done.
  case_decide as Hc; [done|].
  pose proof (revbin_bound m k). do 2 f_equal. lia.
Qed.

Lemma FHT_revbin_spec :
  ∃ d, FHT_revbin base len data = Some d ∧
       same_outside base len data d ∧
       ∀ k, 0 ≤ k < len →
         load d (base + k) = load data (base + revbin m k).
Proof.
  unfold FHT_revbin.
  pose proof (pow2_pos (Z.of_nat m) ltac:(lia)) as Hp.
  destruct (Z.le_gt_cases (len - 1) 1) as [Hsmall|Hbig].
  { rewrite for_range_empty by lia. exists data. split; [done|].
    split; [done|].
    apply (reordered_upto_done 1); [lia|apply reordered_upto_init]. }
  assert (Hm1 : (1 ≤ m)%nat).
  { destruct m; [|lia]. change (2 ^ Z.of_nat 0) with 1 in *. lia. }
  destruct (for_range_total
              (λ i '(d, j), j = revbin m (i - 1)
                            ∧ reordered_upto m base data i d)
              1 (len - 1)
              (λ i '(data, j),
                 j ← revbin_upd j (Z.shiftr len 1);
                 if i <? j then
                   t1 ← load data (base + i);
                   dj ← load data (base + j);
                   data ← store data (base + i) dj;
                   data ← store data (base + j) t1;
                   Some (data, j)
                 else Some (data, j))
              (data, 0)) as ([d j] & Hrun & _ & Hd); [lia| | |].
  - split; [by rewrite revbin_0|apply reordered_upto_init].
  - intros i [d j] Hi [-> Hd].
    rewrite revbin_upd_step by lia. cbn [mbind option_bind].
    replace (i - 1 + 1) with i by lia.
    destruct (Z.ltb_spec i (revbin m i)) as [Hlt|Hge].
    + destruct (reordered_upto_swap i d ltac:(lia) Hlt Hd)
        as (vi & vj & Hvi & Hvj & Hd').
      pose proof (revbin_bound m i) as Hbi. destruct Hd as [[Hl _] _].
      rewrite Hvi, Hvj. cbn [mbind option_bind].
      rewrite store_is_Some by lia. cbn [mbind option_bind].
      rewrite store_is_Some by (rewrite length_insert; lia).
      cbn [mbind option_bind]. eexists (_, _). split; [done|].
      split; [f_equal; lia|done].
    + eexists (_, _). split; [done|]. split; [f_equal; lia|].
      apply reordered_upto_keep; [lia|lia|done].
  - rewrite Hrun. exists d. split; [done|]. split; [by destruct Hd|].
    by apply (reordered_upto_done (len - 1)).
Qed.

End Reorder.

(** The reordering loop at the head of [FHT] puts the buffer in
    bit-reversed order: on return the cell [k] of the [2^M] cells at
    [base] holds the sample that was at the bit reversal of [k], and the
    cells outside are as they were.  The exponent is at most 30, so that
    [int len = 1 << M], [len - 1] and [Nh = len >> 1] of the source are
    the numbers used here. *)
Theorem FHT_revbin_reorders {A} (data : list A) (base M : Z) :
  0 ≤ M ≤ 30 → 0 ≤ base → base + 2 ^ M ≤ Z.of_nat (length data) →
  ∃ d, FHT_revbin base (Z.shiftl 1 M) data = Some d ∧
       same_outside base (2 ^ M) data d ∧
       ∀ k, 0 ≤ k < 2 ^ M →
         load d (base + k) = load data (base + revbin (Z.to_nat M) k).
Proof.
  intros HM Hbase Hlen. rewrite Z.shiftl_1_l.
  pose proof (FHT_revbin_spec (Z.to_nat M) base data) as Hspec.
  rewrite Z2Nat.id in Hspec by lia. apply Hspec; [lia|done|done].
Qed.

Lemma FHT_revbin_reorders_witness :
  (0 ≤ 3 ≤ 30 ∧ 0 ≤ 1 ∧
   1 + 2 ^ 3 ≤ Z.of_nat (length [9; 0; 1; 2; 3; 4; 5; 6; 7; 9])) ∧
  ∃ d, FHT_revbin 1 (Z.shiftl 1 3) [9; 0; 1; 2; 3; 4; 5; 6; 7; 9] = Some d ∧
       same_outside 1 (2 ^ 3) [9; 0; 1; 2; 3; 4; 5; 6; 7; 9] d ∧
       ∀ k, 0 ≤ k < 2 ^ 3 →
         load d (1 + k)
         = load [9; 0; 1; 2; 3; 4; 5; 6; 7; 9] (1 + revbin (Z.to_nat 3) k).
Proof.
  split; [cbn; lia|].
  apply (FHT_revbin_reorders [9; 0; 1; 2; 3; 4; 5; 6; 7; 9] 1 3);
    [lia|lia|cbn; lia].
Defined.

(** ** Loops over lists and strided loops *)

Section StepLoops.
Context {I S : Type}.

Lemma for_each_total (P : S → Prop) (body : I → S → option S) l s :
  P s →
  (∀ i s, i ∈ l → P s → ∃ s', body i s = Some s' ∧ P s') →
  ∃ s', for_each body l s = Some s' ∧ P s'.
Proof.
  revert s. induction l as [|i l IH]; intros s HP Hstep; cbn [for_each].
  - by exists s.
  - destruct (Hstep i s) as (s1 & -> & HP1); [set_solver|done|].
    cbn [mbind option_bind]. apply IH; [done|].
    intros. apply Hstep; [set_solver|done].
Qed.

End StepLoops.

Lemma for_step_total {S} (P : S → Prop) lo hi step
    (body : Z → S → option S) s :
  0 < step → P s →
  (∀ t s, 0 ≤ t → lo + t * step < hi → P s →
     ∃ s', body (lo + t * step) s = Some s' ∧ P s') →
  ∃ s', for_step lo hi step body s = Some s' ∧ P s'.
Proof.
  intros Hstep HP Hbody. unfold for_step. apply for_each_total; [done|].
  intros k s0 (t & -> & [Ht0 Ht]%elem_of_seqZ)%list_elem_of_fmap HP0.
  apply Hbody; [lia| |done].
  pose proof (Z.mul_div_le (hi - lo + step - 1) step Hstep). nia.
Qed.

(** ** The buffer outside the cells of a call *)

Section Frame.
Context {A : Type}.
Implicit Types (data d : list A).

Lemma same_outside_refl base n data : same_outside base n data data.
Proof. done. Qed.

Lemma same_outside_load base n data d i :
  same_outside base n data d →
  0 ≤ base → base + n ≤ Z.of_nat (length data) → base ≤ i < base + n →
  ∃ v, load d i = Some v.
Proof.
  intros [Hl _] ? ? ?. destruct (load_is_Some d i) as [v Hv]; [lia|eauto].
Qed.

Lemma same_outside_store base n data d i v :
  same_outside base n data d →
  0 ≤ base → base + n ≤ Z.of_nat (length data) → base ≤ i < base + n →
  ∃ d', store d i v = Some d' ∧ same_outside base n data d'.
Proof.
  intros [Hl Hout] ? ? ?. rewrite store_is_Some by lia.
  eexists. split; [done|]. split; [by rewrite length_insert|].
  intros k Hk. rewrite load_insert by lia.
  rewrite decide_False by lia. by apply Hout.
Qed.

Lemma same_outside_trans base n data d d' :
  same_outside base n data d → same_outside base n d d' →
  same_outside base n data d'.
Proof.
  intros [Hl Hout] [Hl' Hout']. split; [congruence|].
  intros k Hk. by rewrite Hout', Hout.
Qed.

Lemma same_outside_weaken base n base' n' data d :
  base' ≤ base → base + n ≤ base' + n' →
  same_outside base n data d → same_outside base' n' data d.
Proof.
  intros ? ? [Hl Hout]. split; [done|]. intros k Hk. apply Hout. lia.
Qed.

End Frame.

(** One load or store of a body whose cells lie among the cells of the
    call. *)
Ltac frame_op :=
  lazymatch goal with
  | H : same_outside ?base ?n ?data ?d |- context [load ?d ?i] =>
      let v := fresh "v" in
      destruct (same_outside_load base n data d i H) as [v ->];
      [try done; try lia..|]; cbn [mbind option_bind]
  | H : same_outside ?base ?n ?data ?d |- context [store ?d ?i ?v] =>
      let d' := fresh "d" in
      let H' := fresh "Hframe" in
      destruct (same_outside_store base n data d i v H) as (d' & -> & H');
      [try done; try lia..|]; cbn [mbind option_bind]; clear H
  end.

Section FHT_frame.
Context {F D : Type} `{!FloatArith F D} (cos : D → D).
Variables (base len : Z) (data : list F).
Hypothesis Hbase : 0 ≤ base.
Hypothesis Hlen : base + len ≤ Z.of_nat (length data).

Lemma FHT_butterfly_frame p q d :
  base ≤ p < base + len → base ≤ q < base + len →
  same_outside base len data d →
  ∃ d', FHT_butterfly p q d = Some d' ∧ same_outside base len data d'.
Proof.
  intros Hp Hq Hd. unfold FHT_butterfly. repeat frame_op. eauto.
Qed.

Lemma FHT_rotate_frame fc fs pk pnk pnbd pbd d :
  base ≤ pk < base + len → base ≤ pnk < base + len →
  base ≤ pnbd < base + len → base ≤ pbd < base + len →
  same_outside base len data d →
  ∃ d', FHT_rotate fc fs pk pnk pnbd pbd d = Some d'
        ∧ same_outside base len data d'.
Proof.
  intros Hk Hnk Hnbd Hbd Hd. unfold FHT_rotate. repeat frame_op. eauto.
Qed.

(** One stage, of half-width [n], on a buffer of [c] blocks of [2 n]
    cells. *)
Lemma FHT_stage_frame n c a d :
  1 ≤ n → 1 ≤ c → len = c * (2 * n) → (2 < n → n `mod` 2 = 0) →
  same_outside base len data d →
  ∃ d', FHT_stage cos base len n a d = Some d'
        ∧ same_outside base len data d'.
Proof.
  intros Hn Hc Hcn Heven Hd. unfold FHT_stage.
  rewrite Z.shiftl_mul_pow2, Z.shiftr_div_pow2 by lia.
  change (2 ^ 1) with 2.
  assert (Hblock : ∀ lo t, 0 ≤ lo → 0 ≤ t → lo + t * (n * 2) < len →
            t + 1 ≤ c) by (intros; nia).
  assert (Hn2 : 0 ≤ n `div` 2) by (apply Z.div_pos; lia).
  (* the butterflies of the blocks' middle cells, which come last *)
  assert (Hlast : ∀ d2, same_outside base len data d2 →
            ∃ d', (if 1 <? n
                   then for_step (n `div` 2) len (n * 2)
                          (λ k, FHT_butterfly (base + k) (base + n + k)) d2
                   else Some d2) = Some d'
                  ∧ same_outside base len data d').
  { intros d2 Hd2. destruct (Z.ltb_spec 1 n) as [Hbig|Hsmall]; [|by exists d2].
    assert (n `div` 2 < n) by (apply Z.div_lt; lia).
    apply for_step_total; [lia|done|].
    intros t s Ht Hlt Hs.
    pose proof (Hblock (n `div` 2) t ltac:(lia) Ht Hlt).
    apply FHT_butterfly_frame; [nia|nia|done]. }
  (* the butterflies of the blocks' first cells *)
  destruct (for_step_total (same_outside base len data) 0 len (n * 2)
              (λ k, FHT_butterfly (base + k) (base + n + k)) d)
    as (d1 & -> & Hd1); [lia|done| |].
  { intros t s Ht Hlt Hs. pose proof (Hblock 0 t ltac:(lia) Ht Hlt).
    apply FHT_butterfly_frame; [nia|nia|done]. }
  cbn [mbind option_bind].
  (* the rotations *)
  destruct (Z.ltb_spec 2 n) as [Hbig|Hsmall];
    [|cbn [mbind option_bind]; by apply Hlast].
  cbv zeta.
  assert (Hdiv : n = 2 * (n `div` 2)).
  { pose proof (Z.div_mod n 2 ltac:(lia)). specialize (Heven Hbig). lia. }
  lazymatch goal with
  | |- context [for_range 1 ?hi ?body ?s] =>
      destruct (for_range_total
                  (λ bl '(d, _, _, bd),
                     bd = n - 2 * bl ∧ same_outside base len data d)
                  1 hi body s) as ([[[d2 fc] fs] bd] & -> & _ & Hd2)
  end; [lia|split; [lia|done]| |cbn [mbind option_bind]; by apply Hlast].
  intros bl [[[d0 fc] fs] bd] Hbl [-> Hd0].
  destruct (for_step_total (same_outside base len data) bl len (n * 2)
              (λ k, FHT_rotate fc fs (base + k) (base + n + k)
                      (base + n + (n - 2 * bl) + k)
                      (base + (n - 2 * bl) + k)) d0)
    as (d0' & -> & Hd0'); [lia|done| |].
  { intros t s Ht Hlt Hs. pose proof (Hblock bl t ltac:(lia) Ht Hlt).
    apply FHT_rotate_frame; [nia|nia|nia|nia|done]. }
  cbn [mbind option_bind]. eexists (_, _, _, _). split; [done|].
  split; [lia|done].
Qed.

Lemma FHT_stages_frame (r : nat) :
  ∀ (fuel : nat) s M a d,
    0 ≤ s → s + Z.of_nat r + 1 = M → len = 2 ^ M → (r < fuel)%nat →
    same_outside base len data d →
    ∃ d', FHT_stages cos fuel base len (2 ^ s) a d = Some d'
          ∧ same_outside base len data d'.
Proof.
  induction r as [|r IH]; intros fuel s M a d Hs HM HlenM Hfuel Hd;
    (destruct fuel as [|fuel]; [lia|]); cbn [FHT_stages];
    pose proof (pow2_pos s Hs) as Hps;
    pose proof (pow2_pos (M - s - 1) ltac:(lia)) as Hpc;
    (assert (Hsplit : len = 2 ^ (M - s - 1) * (2 * 2 ^ s));
     [rewrite HlenM, <- Z.pow_succ_r, <- Z.pow_add_r by lia; f_equal; lia|]);
    (assert (Heven : 2 < 2 ^ s → 2 ^ s `mod` 2 = 0);
     [intros Hgt; destruct (Z.eq_dec s 0) as [->|];
        [change (2 ^ 0) with 1 in Hgt; lia|];
      replace (2 ^ s) with (2 ^ (s - 1) * 2);
        [apply Z.mod_mul; lia|];
      rewrite Z.mul_comm, <- Z.pow_succ_r by lia; f_equal; lia|]);
    (destruct (FHT_stage_frame (2 ^ s) (2 ^ (M - s - 1)) a d)
       as (d1 & -> & Hd1); [lia|lia|done|done|done|]);
    cbn [mbind option_bind];
    rewrite Z.shiftl_mul_pow2 by lia; change (2 ^ 1) with 2;
    replace (2 ^ s * 2) with (2 ^ (s + 1))
      by (rewrite Z.pow_add_r by lia; done).
  - replace (s + 1) with M by lia. rewrite <- HlenM, Z.ltb_irrefl.
    by exists d1.
  - assert (2 ^ (s + 1) < 2 ^ M) by (apply Z.pow_lt_mono_r; lia).
    destruct (Z.ltb_spec (2 ^ (s + 1)) len) as [_|]; [|lia].
    apply (IH fuel (s + 1) M); [lia|lia|done|lia|done].
Qed.

(** Every access of [FHT] stays inside the [2^M] cells it is given. *)
Lemma FHT_frame M inverse :
  1 ≤ M ≤ 30 → len = 2 ^ M →
  ∃ d, FHT cos data base M inverse = Some d ∧ same_outside base len data d.
Proof.
  intros HM HlenM. unfold FHT.
  rewrite Z.shiftl_1_l, <- HlenM.
  pose proof (FHT_revbin_spec (Z.to_nat M) base data) as Hrev.
  rewrite Z2Nat.id, <- HlenM in Hrev by lia.
  destruct Hrev as (d0 & -> & Hd0 & _); [lia|done|done|].
  cbn [mbind option_bind].
  destruct (FHT_stages_frame (Z.to_nat (M - 1)) (S (Z.to_nat M)) 0 M d_pi d0)
    as (d1 & Hrun & Hd1); [lia|lia|done|lia|done|].
  change (2 ^ 0) with 1 in Hrun. rewrite Hrun. cbn [mbind option_bind].
  destruct inverse; [|by exists d1].
  pose proof (pow2_pos M ltac:(lia)).
  apply (for_range_total (λ _, same_outside base len data)); [lia|done|].
  intros k d2 Hk Hd2. repeat frame_op. eauto.
Qed.

End FHT_frame.

(** [FHT(&data[base], M, inverse)] on a buffer that holds the [2^M] cells
    from [base] on ([1 ≤ M ≤ 30]) returns, whatever the samples, the
    arithmetic and the direction; the buffer keeps its length, and its
    cells outside these [2^M] are not changed. *)
Theorem FHT_in_bounds {F D} `{!FloatArith F D} (cos : D → D)
    (data : list F) (base M : Z) (inverse : bool) :
  1 ≤ M ≤ 30 → 0 ≤ base → base + 2 ^ M ≤ Z.of_nat (length data) →
  ∃ d, FHT cos data base M inverse = Some d ∧
       length d = length data ∧
       ∀ k, ¬ (base ≤ k < base + 2 ^ M) → load d k = load data k.
Proof. intros HM Hbase Hlen. by apply FHT_frame. Qed.

(** ** A call on a part of a buffer

    A routine called on [&buf[base]] that stays inside [n] cells runs on
    the whole buffer as it runs on the part alone. *)

Section Window.
Context {A : Type}.
Variables (pre post : list A).

Local Abbreviation base := (Z.of_nat (length pre)).
Local Abbreviation emb w := (pre ++ w ++ post).

Lemma load_window w i v :
  load w i = Some v → load (emb w) (base + i) = Some v.
Proof.
  intros [Hi Hv]%load_Some. apply load_Some. split; [lia|].
  replace (Z.to_nat (base + i)) with (length pre + Z.to_nat i)%nat by lia.
  rewrite lookup_app_r by lia.
  replace (length pre + Z.to_nat i - length pre)%nat with (Z.to_nat i) by lia.
  by apply lookup_app_l_Some.
Qed.

Lemma store_window w i v w' :
  store w i v = Some w' → store (emb w) (base + i) v = Some (emb w').
Proof.
  intros [Hi ->]%store_Some. rewrite store_is_Some
    by (rewrite !length_app; lia).
  f_equal.
  replace (Z.to_nat (base + i)) with (length pre + Z.to_nat i)%nat by lia.
  rewrite insert_app_r. f_equal. apply insert_app_l. lia.
Qed.

Lemma SWAP_window w a b w' :
  SWAP w a b = Some w' → SWAP (emb w) (base + a) (base + b) = Some (emb w').
Proof.
  unfold SWAP. intros Hs.
  destruct (load w a) as [va|] eqn:Ha; [|done].
  destruct (load w b) as [vb|] eqn:Hb; [|done].
  cbn [mbind option_bind] in Hs.
  destruct (store w a vb) as [w1|] eqn:Hw1; [|done].
  cbn [mbind option_bind] in Hs.
  rewrite (load_window _ _ _ Ha), (load_window _ _ _ Hb).
  cbn [mbind option_bind]. rewrite (store_window _ _ _ _ Hw1).
  cbn [mbind option_bind]. by apply store_window.
Qed.

Lemma for_each_window {I} (body0 body : I → list A → option (list A)) l :
  (∀ i w w', i ∈ l → body0 i w = Some w' → body i (emb w) = Some (emb w')) →
  ∀ w w', for_each body0 l w = Some w' →
          for_each body l (emb w) = Some (emb w').
Proof.
  induction l as [|i l IH]; intros Hbody w w'; cbn [for_each].
  - by intros [= ->].
  - destruct (body0 i w) as [w1|] eqn:H1; [|done].
    cbn [mbind option_bind]. intros Hrest.
    rewrite (Hbody i w w1) by (done || set_solver).
    cbn [mbind option_bind]. apply IH; [|done].
    intros. apply Hbody; [set_solver|done].
Qed.

Lemma for_range_window lo hi (body0 body : Z → list A → option (list A)) :
  (∀ i w w', lo ≤ i < hi → body0 i w = Some w' →
     body i (emb w) = Some (emb w')) →
  ∀ w w', for_range lo hi body0 w = Some w' →
          for_range lo hi body (emb w) = Some (emb w').
Proof.
  intros Hbody. apply for_each_window.
  intros i w w' [? ?]%elem_of_seqZ. apply Hbody. lia.
Qed.

Lemma same_outside_window w w' :
  length w' = length w →
  same_outside base (Z.of_nat (length w)) (emb w) (emb w').
Proof.
  intros Hl. split; [by rewrite !length_app, Hl|].
  intros k Hk. unfold load. destruct (Z.leb_spec 0 k); [|done].
  destruct (decide (k < base)) as [Hlt|Hge].
  - by rewrite !lookup_app_l by lia.
  - rewrite !lookup_app_r by lia. by rewrite Hl.
Qed.

End Window.

Lemma window_split {A} (data : list A) (base n : Z) :
  0 ≤ base → 0 ≤ n → base + n ≤ Z.of_nat (length data) →
  ∃ pre w post, data = pre ++ w ++ post ∧
                Z.of_nat (length pre) = base ∧ Z.of_nat (length w) = n.
Proof.
  intros Hbase Hn Hlen.
  exists (take (Z.to_nat base) data),
         (take (Z.to_nat n) (drop (Z.to_nat base) data)),
         (drop (Z.to_nat n) (drop (Z.to_nat base) data)).
  rewrite !take_drop. split; [done|].
  rewrite !length_take, length_drop. lia.
Qed.

Section TransposeWindow.
Context {F : Type}.
Variables (pre post : list F).

Local Abbreviation base := (Z.of_nat (length pre)).
Local Abbreviation emb w := (pre ++ w ++ post).

Lemma transpose_cycle_window (fuel : nat) Mx My i :
  ∀ k j stm w w' stm',
    transpose_cycle fuel 0 Mx My i k j stm w = Some (w', stm') →
    transpose_cycle fuel base Mx My i k j stm (emb w) = Some (emb w', stm').
Proof.
  induction fuel as [|fuel IH]; intros k j stm w w' stm';
    cbn [transpose_cycle]; [done|].
  destruct (j =? i); [by intros [= -> ->]|].
  rewrite !Z.add_0_l.
  destruct (SWAP w j k) as [w1|] eqn:Hs; [|done].
  cbn [mbind option_bind]. rewrite (SWAP_window _ _ _ _ _ _ Hs).
  cbn [mbind option_bind]. apply IH.
Qed.

Lemma transpose_rect_window (fuel : nat) Mx My :
  ∀ i stm w w',
    transpose_rect fuel 0 Mx My i stm w = Some w' →
    transpose_rect fuel base Mx My i stm (emb w) = Some (emb w').
Proof.
  induction fuel as [|fuel IH]; intros i stm w w';
    cbn [transpose_rect]; [done|].
  destruct (0 <? stm); [|by intros [= ->]].
  destruct (transpose_chase _ Mx My i (PRED Mx My i)) as [j|]; [|done].
  cbn [mbind option_bind]. destruct (j <? i); [apply IH|].
  destruct (transpose_cycle _ 0 Mx My i i (PRED Mx My i) stm w)
    as [[w1 stm1]|] eqn:Hc; [|done].
  cbn [mbind option_bind]. rewrite (transpose_cycle_window _ _ _ _ _ _ _ _ _ _ Hc).
  cbn [mbind option_bind]. apply IH.
Qed.

Lemma transpose_square_window Mx My w w' :
  transpose_square 0 Mx My w = Some w' →
  transpose_square base Mx My (emb w) = Some (emb w').
Proof.
  unfold transpose_square. apply for_range_window. intros j w1 w1' _.
  apply for_range_window. intros i w2 w2' _. rewrite !Z.add_0_l.
  apply SWAP_window.
Qed.

Lemma FHT2D_transpose_window Mx My w w' :
  FHT2D_transpose w 0 Mx My = Some w' →
  FHT2D_transpose (emb w) base Mx My = Some (emb w').
Proof.
  unfold FHT2D_transpose. destruct (_ =? _).
  - apply transpose_square_window.
  - apply transpose_rect_window.
Qed.

End TransposeWindow.

(** The transposition of [FHT2D] at any place of a buffer. *)
Lemma FHT2D_transpose_frame {F} (data : list F) (base Mx My : Z) :
  0 ≤ Mx → 0 ≤ My → Mx + My < 32 →
  0 ≤ base → base + 2 ^ Mx * 2 ^ My ≤ Z.of_nat (length data) →
  ∃ d, FHT2D_transpose data base Mx My = Some d ∧
       same_outside base (2 ^ Mx * 2 ^ My) data d.
Proof.
  intros HMx HMy HM Hbase Hlen.
  pose proof (Nx_pos Mx HMx). pose proof (Ny_pos My HMy).
  destruct (window_split data base (2 ^ Mx * 2 ^ My))
    as (pre & w & post & -> & Hpre & Hw); [done|lia|done|].
  rewrite <- Hpre.
  rewrite (FHT2D_transpose_window pre post Mx My w
             (transpose_ref (2 ^ Mx) (2 ^ My) w))
    by (by apply FHT2D_transpose_ref).
  eexists. split; [done|]. rewrite <- Hw.
  apply same_outside_window.
  pose proof (transpose_ref_length (2 ^ Mx) (2 ^ My) w ltac:(lia) ltac:(lia)
                Hw). lia.
Qed.

(** ** [FHT2D] stays inside its grid *)

Section FHT2D_frame.
Context {F D : Type} `{!FloatArith F D} (cos : D → D).

(** The passes over the rows: [rows] transforms of [2^M] cells each. *)
Lemma FHT_rows_frame (data : list F) base M total rows inverse d :
  1 ≤ M ≤ 30 → 0 ≤ base → 0 ≤ rows ≤ total →
  base + 2 ^ M * total ≤ Z.of_nat (length data) →
  same_outside base (2 ^ M * total) data d →
  ∃ d', for_range 0 rows
          (λ j data, FHT cos data (base + 2 ^ M * j) M inverse) d = Some d'
        ∧ same_outside base (2 ^ M * total) data d'.
Proof.
  intros HM Hbase Hrows Hlen Hd.
  pose proof (pow2_pos M ltac:(lia)) as Hp.
  apply (for_range_total (λ _, same_outside base (2 ^ M * total) data));
    [lia|done|].
  intros j d0 Hj Hd0. pose proof Hd0 as [Hl0 _].
  destruct (FHT_frame cos (base + 2 ^ M * j) (2 ^ M) d0) with (M := M)
    (inverse := inverse) as (d1 & -> & Hd1); [nia|nia|done|done|].
  exists d1. split; [done|].
  eapply same_outside_trans; [done|].
  eapply same_outside_weaken; [| |done]; nia.
Qed.

Lemma land_mask x k : 0 ≤ k → Z.land x (2 ^ k - 1) = x `mod` 2 ^ k.
Proof.
  intros Hk. by rewrite Z.sub_1_r, <- Z.ones_equiv, Z.land_ones by done.
Qed.

Lemma FHT2D_finalize_at_frame (data : list F) base Mx My j i d :
  0 ≤ Mx → 0 ≤ My → 0 ≤ base →
  base + 2 ^ Mx * 2 ^ My ≤ Z.of_nat (length data) →
  0 ≤ j < 2 ^ My → 0 ≤ i < 2 ^ Mx →
  same_outside base (2 ^ Mx * 2 ^ My) data d →
  ∃ d', FHT2D_finalize_at base Mx (2 ^ Mx) (2 ^ My) j i d = Some d'
        ∧ same_outside base (2 ^ Mx * 2 ^ My) data d'.
Proof.
  intros HMx HMy Hbase Hlen Hj Hi Hd. unfold FHT2D_finalize_at.
  rewrite !land_mask, !Z.shiftl_mul_pow2 by lia.
  pose proof (Z.mod_pos_bound (2 ^ My - j) (2 ^ My) ltac:(lia)) as Hjm.
  pose proof (Z.mod_pos_bound (2 ^ Mx - i) (2 ^ Mx) ltac:(lia)) as Him.
  set (jm := (2 ^ My - j) `mod` 2 ^ My) in *.
  set (im := (2 ^ Mx - i) `mod` 2 ^ Mx) in *.
  assert (Hcell : ∀ r c, 0 ≤ r < 2 ^ My → 0 ≤ c < 2 ^ Mx →
            base ≤ base + (r * 2 ^ Mx + c) < base + 2 ^ Mx * 2 ^ My)
    by (intros; nia).
  pose proof (Hcell j i Hj Hi). pose proof (Hcell jm i Hjm Hi).
  pose proof (Hcell j im Hj Him). pose proof (Hcell jm im Hjm Him).
  cbv zeta. repeat frame_op. eauto.
Qed.

Lemma FHT2D_frame (data : list F) base Mx My nzp inverse :
  1 ≤ Mx → 1 ≤ My → Mx + My ≤ 30 → 0 ≤ nzp ≤ 2 ^ My → 0 ≤ base →
  base + 2 ^ Mx * 2 ^ My ≤ Z.of_nat (length data) →
  ∃ d, FHT2D cos data base Mx My nzp inverse = Some d ∧
       same_outside base (2 ^ Mx * 2 ^ My) data d.
Proof.
  intros HMx HMy HM Hnzp Hbase Hlen. unfold FHT2D.
  rewrite !Z.shiftl_1_l.
  pose proof (pow2_pos Mx ltac:(lia)) as HNx.
  pose proof (pow2_pos My ltac:(lia)) as HNy.
  set (N := 2 ^ Mx * 2 ^ My) in *.
  (* rows *)
  destruct (FHT_rows_frame data base Mx (2 ^ My)
              (if inverse then 2 ^ My else nzp) inverse data)
    as (d1 & -> & Hd1); [lia|done|by destruct inverse; lia|done|done|].
  cbn [mbind option_bind]. fold N in Hd1. pose proof Hd1 as [Hl1 _].
  (* transposition *)
  destruct (FHT2D_transpose_frame d1 base Mx My) as (d2 & -> & Hd2);
    [lia|lia|lia|done|fold N; lia|].
  cbn [mbind option_bind]. fold N in Hd2.
  assert (Hd2' : same_outside base N data d2)
    by (by eapply same_outside_trans).
  (* columns *)
  assert (HN : N = 2 ^ My * 2 ^ Mx) by (unfold N; lia).
  destruct (FHT_rows_frame data base My (2 ^ Mx) (2 ^ Mx) inverse d2)
    as (d3 & -> & Hd3); [lia|done|lia|lia|by rewrite <- HN|].
  cbn [mbind option_bind]. rewrite <- HN in Hd3.
  (* the final pass *)
  rewrite !Z.shiftr_div_pow2 by lia. change (2 ^ 1) with 2.
  assert (2 ^ Mx `div` 2 < 2 ^ Mx) by (apply Z.div_lt; lia).
  assert (2 ^ My `div` 2 < 2 ^ My) by (apply Z.div_lt; lia).
  assert (0 ≤ 2 ^ Mx `div` 2) by (apply Z.div_pos; lia).
  assert (0 ≤ 2 ^ My `div` 2) by (apply Z.div_pos; lia).
  apply (for_range_total (λ _, same_outside base N data)); [lia|done|].
  intros j d4 Hj Hd4.
  apply (for_range_total (λ _, same_outside base N data)); [lia|done|].
  intros i d5 Hi Hd5. rewrite HN in Hd5 |- *.
  apply FHT2D_finalize_at_frame; [lia|lia|done|lia|lia|lia|done].
Qed.

End FHT2D_frame.

(** [FHT2D(&data[base], Mx, My, nzp, inverse)] on a buffer that holds the
    [2^My × 2^Mx] grid from [base] on ([Mx, My ≥ 1], at most [2^30] cells)
    returns whenever the first zero-pad row [nzp] is at most [2^My]: no
    access leaves the grid, the buffer keeps its length and its cells
    outside the grid are not changed. *)
Theorem FHT2D_in_bounds {F D} `{!FloatArith F D} (cos : D → D)
    (data : list F) (base Mx My nzp : Z) (inverse : bool) :
  1 ≤ Mx → 1 ≤ My → Mx + My ≤ 30 → 0 ≤ nzp ≤ 2 ^ My → 0 ≤ base →
  base + 2 ^ Mx * 2 ^ My ≤ Z.of_nat (length data) →
  ∃ d, FHT2D cos data base Mx My nzp inverse = Some d ∧
       length d = length data ∧
       ∀ k, ¬ (base ≤ k < base + 2 ^ Mx * 2 ^ My) → load d k = load data k.
Proof. intros. by apply FHT2D_frame. Qed.

(** ** [fht_convolve] stays inside its grids *)

Section FhtConvolveFrame.
Context {F D : Type} `{!FloatArith F D}.
Variables (d1 d2 : list F) (b1 b2 m2 n2 : Z).
Hypothesis Hm2 : 1 ≤ m2.
Hypothesis Hn2 : 1 ≤ n2.
Hypothesis Hb1 : 0 ≤ b1.
Hypothesis Hb2 : 0 ≤ b2.
Hypothesis Hlen1 : b1 + 4 * (m2 * n2) ≤ Z.of_nat (length d1).
Hypothesis Hlen2 : b2 + 4 * (m2 * n2) ≤ Z.of_nat (length d2).

Local Abbreviation inside p := (0 ≤ p < 4 * (m2 * n2)).
Local Abbreviation framed d := (same_outside b1 (4 * (m2 * n2)) d1 d).

Lemma fht_mul_at_frame p d :
  inside p → framed d →
  ∃ d', fht_mul_at d2 b2 b1 p d = Some d' ∧ framed d'.
Proof.
  intros Hp Hd. unfold fht_mul_at.
  destruct (load_is_Some d2 (b2 + p)) as [y ->]; [lia|].
  repeat frame_op. eauto.
Qed.

Lemma fht_pair_at_frame p q d :
  inside p → inside q → framed d →
  ∃ d', fht_pair_at d2 b2 b1 p q d = Some d' ∧ framed d'.
Proof.
  intros Hp Hq Hd. unfold fht_pair_at.
  destruct (load_is_Some d2 (b2 + p)) as [yp ->]; [lia|].
  destruct (load_is_Some d2 (b2 + q)) as [yq ->]; [lia|].
  repeat frame_op. eauto.
Qed.

Lemma fht_pair_at_frame2 p q p' q' d :
  inside p → inside q → inside p' → inside q' → framed d →
  ∃ d', (d ← fht_pair_at d2 b2 b1 p q d; fht_pair_at d2 b2 b1 p' q' d)
        = Some d' ∧ framed d'.
Proof.
  intros Hp Hq Hp' Hq' Hd.
  destruct (fht_pair_at_frame p q d) as (d' & -> & Hd'); [done..|].
  cbn [mbind option_bind]. by apply fht_pair_at_frame.
Qed.

Lemma fht_convolve_frame_grid M N :
  Z.shiftl 1 M = 2 * m2 → Z.shiftl 1 (M - 1) = m2 →
  Z.shiftl 1 N = 2 * n2 → Z.shiftl 1 (N - 1) = n2 →
  Z.shiftl (2 * m2) (N - 1) = 2 * m2 * n2 →
  (∀ j, Z.shiftl j M = j * (2 * m2)) →
  ∃ r, fht_convolve d1 b1 d2 b2 M N = Some r ∧ framed r.
Proof.
  intros HsM HsM1 HsN HsN1 Hsmn Hsj. unfold fht_convolve.
  rewrite HsM, HsM1, HsN, HsN1, Hsmn. cbv zeta.
  assert (Hmn : 1 ≤ m2 * n2) by nia.
  destruct (fht_mul_at_frame 0 d1) as (r1 & -> & Hr1); [lia|done|].
  cbn [mbind option_bind].
  destruct (fht_mul_at_frame (2 * m2 * n2) r1) as (r2 & -> & Hr2);
    [nia|done|].
  cbn [mbind option_bind].
  destruct (fht_mul_at_frame m2 r2) as (r3 & -> & Hr3); [nia|done|].
  cbn [mbind option_bind].
  destruct (fht_mul_at_frame (m2 + 2 * m2 * n2) r3) as (r4 & -> & Hr4);
    [nia|done|].
  cbn [mbind option_bind].
  assert (Hcol : ∀ j, 1 ≤ j < n2 →
            2 * m2 ≤ j * (2 * m2) ≤ 2 * m2 * n2 - 2 * m2 ∧
            2 * m2 * n2 + 2 * m2 ≤ (2 * n2 - j) * (2 * m2)
              ≤ 4 * (m2 * n2) - 2 * m2) by (intros; nia).
  lazymatch goal with
  | |- context [for_range 1 m2 ?body r4] =>
      destruct (for_range_total (λ _ d, framed d) 1 m2 body r4)
        as (r5 & -> & Hr5)
  end; [lia|done| |].
  { intros i d Hi Hd. apply fht_pair_at_frame2; [nia|nia|nia|nia|done]. }
  cbn [mbind option_bind].
  lazymatch goal with
  | |- context [for_range 1 n2 ?body r5] =>
      destruct (for_range_total (λ _ d, framed d) 1 n2 body r5)
        as (r6 & -> & Hr6)
  end; [lia|done| |].
  { intros j d Hj Hd. rewrite !Hsj. pose proof (Hcol j Hj).
    apply fht_pair_at_frame2; [lia|lia|lia|lia|done]. }
  cbn [mbind option_bind].
  apply (for_range_total (λ _ d, framed d)); [lia|done|].
  intros i d Hi Hd.
  apply (for_range_total (λ _ d, framed d)); [lia|done|].
  intros j d' Hj Hd'. rewrite !Hsj. pose proof (Hcol j Hj).
  apply fht_pair_at_frame2; [lia|lia|lia|lia|done].
Qed.

End FhtConvolveFrame.

Lemma fht_convolve_frame {F D} `{!FloatArith F D} (d1 d2 : list F)
    (b1 b2 M N : Z) :
  1 ≤ M → 1 ≤ N → 0 ≤ b1 → 0 ≤ b2 →
  b1 + 2 ^ M * 2 ^ N ≤ Z.of_nat (length d1) →
  b2 + 2 ^ M * 2 ^ N ≤ Z.of_nat (length d2) →
  ∃ r, fht_convolve d1 b1 d2 b2 M N = Some r ∧
       same_outside b1 (2 ^ M * 2 ^ N) d1 r.
Proof.
  intros HM HN Hb1 Hb2 Hl1 Hl2.
  assert (Hpow : ∀ k, 1 ≤ k → 2 ^ k = 2 * 2 ^ (k - 1)).
  { intros k Hk. rewrite <- Z.pow_succ_r by lia. f_equal. lia. }
  pose proof (pow2_pos (M - 1) ltac:(lia)).
  pose proof (pow2_pos (N - 1) ltac:(lia)).
  assert (Hsize : 2 ^ M * 2 ^ N = 4 * (2 ^ (M - 1) * 2 ^ (N - 1))).
  { rewrite (Hpow M), (Hpow N) by done. lia. }
  rewrite Hsize in *.
  apply fht_convolve_frame_grid; try done; try lia.
  - rewrite Z.shiftl_1_l. by apply Hpow.
  - apply Z.shiftl_1_l.
  - rewrite Z.shiftl_1_l. by apply Hpow.
  - apply Z.shiftl_1_l.
  - rewrite Z.shiftl_mul_pow2 by lia. done.
  - intros j. rewrite Z.shiftl_mul_pow2, (Hpow M) by lia. done.
Qed.

(** [fht_convolve(&d1[b1], &d2[b2], M, N)] on two buffers that hold their
    [2^N × 2^M] grids ([M, N ≥ 1]) returns: every cell it reads or writes
    lies in the grids, [d1] keeps its length and its cells outside the
    grid are not changed. *)
Theorem fht_convolve_in_bounds {F D} `{!FloatArith F D} (d1 d2 : list F)
    (b1 b2 M N : Z) :
  1 ≤ M → 1 ≤ N → 0 ≤ b1 → 0 ≤ b2 →
  b1 + 2 ^ M * 2 ^ N ≤ Z.of_nat (length d1) →
  b2 + 2 ^ M * 2 ^ N ≤ Z.of_nat (length d2) →
  ∃ r, fht_convolve d1 b1 d2 b2 M N = Some r ∧
       length r = length d1 ∧
       ∀ k, ¬ (b1 ≤ k < b1 + 2 ^ M * 2 ^ N) → load r k = load d1 k.
Proof. intros. by apply fht_convolve_frame. Qed.

(** ** [convolve] returns *)

Section ConvolveTotal.
Context {F D : Type} `{!FloatArith F D} (cos : D → D).

Lemma normalize_kernel_total kw kh (kernel : list F) :
  0 ≤ kw → 0 ≤ kh → Z.of_nat (length kernel) = kw * kh * 4 →
  ∃ k', normalize_kernel kw kh kernel = Some k' ∧ length k' = length kernel.
Proof.
  intros Hw Hh Hlen. unfold normalize_kernel.
  rewrite kernel_weights_sum by done. cbn [mbind option_bind].
  set (wf := λ c, reciprocal_weight (channel_sum kernel (kw * kh) c)).
  change (reciprocal_weight (channel_sum kernel (kw * kh) 0)) with (wf 0).
  change (reciprocal_weight (channel_sum kernel (kw * kh) 1)) with (wf 1).
  change (reciprocal_weight (channel_sum kernel (kw * kh) 2)) with (wf 2).
  destruct (for_range_grid_total (λ q, scaled_upto wf kernel (4 * q))
    kw kh (mul_v3_px kw kh (wf 0, wf 1, wf 2)) kernel)
    as (k' & Hk' & Hl & _); [done|done| | |by exists k'].
  - split; [done|]. intros p c Hp Hc.
    destruct (Z.ltb_spec (4 * p + c) (4 * 0)); [lia|]. by rewrite andb_false_r.
  - intros x y k Hx Hy Hk. by apply mul_v3_px_step.
Qed.

Lemma padded_size_spec kernel_dim :
  1 ≤ kernel_dim ≤ 2 ^ 30 →
  ∃ w2 log2_w, padded_size kernel_dim = Some (w2, log2_w) ∧
               is_next_pow2 (2 * kernel_dim - 1) w2 log2_w.
Proof.
  intros Hk. unfold padded_size. rewrite u32_small by lia.
  apply next_pow2_spec. lia.
Qed.

(** The padded size for a kernel dimension between [2] and [2^14]. *)
Lemma padded_size_bounds kernel_dim :
  2 ≤ kernel_dim ≤ 2 ^ 14 →
  ∃ w2 log2_w, padded_size kernel_dim = Some (w2, log2_w) ∧
               w2 = 2 ^ log2_w ∧ 2 ≤ log2_w ≤ 15 ∧
               2 * kernel_dim - 1 ≤ w2.
Proof.
  intros Hk.
  destruct (padded_size_spec kernel_dim) as (w2 & L & Hp & HL & -> & Hle & Hmin);
    [lia|].
  exists (2 ^ L), L. split; [done|]. split; [done|]. split; [|done].
  pose proof (Hmin 15 ltac:(lia) ltac:(lia)) as H15.
  apply Z.pow_le_mono_r_iff in H15; [|lia|lia].
  split; [|done].
  destruct (Z_lt_le_dec L 2) as [Hlt|]; [exfalso|done].
  assert (2 ^ L ≤ 2 ^ 1) by (apply Z.pow_le_mono_r; lia).
  change (2 ^ 1) with 2 in *. lia.
Qed.

Lemma load_kernel_frame kw kh w2 h2 (kernel data1 : list F) b1 ch d :
  0 ≤ kw ≤ w2 → 0 ≤ kh ≤ h2 → 0 ≤ ch < 4 →
  Z.of_nat (length kernel) = kw * kh * 4 →
  0 ≤ b1 → b1 + w2 * h2 ≤ Z.of_nat (length data1) →
  same_outside b1 (w2 * h2) data1 d →
  ∃ d', load_kernel kw kh w2 kernel b1 ch d = Some d'
        ∧ same_outside b1 (w2 * h2) data1 d'.
Proof.
  intros Hkw Hkh Hch Hlen Hb1 Hl1 Hd. unfold load_kernel.
  apply (for_range_total (λ _, same_outside b1 (w2 * h2) data1)); [lia|done|].
  intros y d0 Hy Hd0.
  apply (for_range_total (λ _, same_outside b1 (w2 * h2) data1)); [lia|done|].
  intros x d1 Hx Hd1. unfold load_pixel.
  rewrite pixel_Some by lia. cbn [mbind option_bind].
  pose proof (pixel_bound kw kh x y ltac:(lia) ltac:(lia)).
  destruct (load_is_Some kernel (4 * (y * kw + x) + ch)) as [v ->]; [lia|].
  cbn [mbind option_bind].
  assert (b1 ≤ b1 + (y * w2 + x) < b1 + w2 * h2) by nia.
  repeat frame_op. eauto.
Qed.

Section Channel.
Variables (iw ih kw kh w2 h2 log2_w log2_h xbsz ybsz hw hh : Z).
Variables (image kernel : list F).
Hypothesis Hiw : 0 ≤ iw.
Hypothesis Hih : 0 ≤ ih.
Hypothesis Himage : Z.of_nat (length image) = iw * ih * 4.
Hypothesis Hkernel : Z.of_nat (length kernel) = kw * kh * 4.
Hypothesis Hkw : 0 ≤ kw ≤ w2.
Hypothesis Hkh : 0 ≤ kh ∧ kh + 1 ≤ h2.
Hypothesis Hw2 : w2 = 2 ^ log2_w.
Hypothesis Hh2 : h2 = 2 ^ log2_h.
Hypothesis Hlog_w : 1 ≤ log2_w.
Hypothesis Hlog_h : 1 ≤ log2_h.
Hypothesis Hlog : log2_w + log2_h ≤ 30.
Hypothesis Hxbsz : 0 ≤ xbsz ≤ w2.
Hypothesis Hybsz : 0 ≤ ybsz ≤ h2.


End Channel.

Lemma tile_count_nonneg n bsz :
  0 ≤ n → 0 < bsz → 0 ≤ n `div` bsz + (if n `mod` bsz =? 0 then 0 else 1).
Proof.
  intros Hn Hb. pose proof (Z.div_pos n bsz Hn Hb).
  destruct (_ =? _); lia.
Qed.


End ConvolveTotal.

(** ** The transform on short buffers, and the padded size of the glare kernels *)
Section FHT_short.
Context {F D : Type} `{!FloatArith F D} (cos : D → D).

(** On four samples the transform uses additions and subtractions only
    (no rotation, hence no [cos]): forward, it returns the four Hartley
    sums; inverse, the same sums, each multiplied by the [float] quotient
    [1 / 4]. *)
Theorem FHT_length_4 (a b c d : F) (inverse : bool) :
  FHT cos [a; b; c; d] 0 2 inverse
  = Some ((λ v, if inverse
                then f_mul v (f_div (f_of_int 1) (f_of_int 4)) else v)
          <$> [f_add (f_add a c) (f_add b d); f_add (f_sub a c) (f_sub b d);
               f_sub (f_add a c) (f_add b d); f_sub (f_sub a c) (f_sub b d)]).
Proof. destruct inverse; reflexivity. Qed.

(** With [M = 0] the transform is not the identity on its single cell: the
    first pass of the [do ... while] loop runs a butterfly on that cell and
    on the next one, which lies outside the call's buffer.  When the
    allocation goes on past the cell the neighbour is overwritten. *)
Theorem FHT_length_1_overruns (data : list F) (base : Z) (a b : F) :
  load data base = Some a → load data (base + 1) = Some b →
  FHT cos data base 0 false
  = Some (<[Z.to_nat base := f_add a b]>
            (<[Z.to_nat (base + 1) := f_sub a b]> data)).
Proof.
  intros Ha Hb. unfold FHT.
  change (FHT_revbin base (Z.shiftl 1 0) data) with (Some data).
  cbn [mbind option_bind].
  change (Z.to_nat 0) with 0%nat. cbn [FHT_stages].
  unfold FHT_stage.
  change (for_step 0 (Z.shiftl 1 0) (Z.shiftl 1 1)
            (λ k, FHT_butterfly (base + k) (base + 1 + k)) data)
    with (data' ← FHT_butterfly (base + 0) (base + 1 + 0) data; Some data').
  unfold FHT_butterfly. rewrite !Z.add_0_r, Ha, Hb.
  cbn [mbind option_bind].
  pose proof (load_lt _ _ _ Ha). pose proof (load_lt _ _ _ Hb).
  rewrite store_is_Some by lia. cbn [mbind option_bind].
  rewrite load_insert by lia. rewrite decide_False by lia. rewrite Ha.
  cbn [mbind option_bind].
  rewrite store_is_Some by (rewrite length_insert; lia).
  reflexivity.
Qed.

End FHT_short.

(** For a kernel whose dimension is a power of two, [2^p] with
    [1 ≤ p ≤ 29] (the kernels [generate_glare] builds have the dimension
    [1 << size]), the padded size is twice the dimension, so that a tile
    takes [2^p + 1] image pixels per row or column. *)
Theorem padded_size_pow2 (p : Z) :
  1 ≤ p ≤ 29 →
  padded_size (2 ^ p) = Some (2 ^ (p + 1), p + 1) ∧
  2 ^ (p + 1) + 1 - 2 ^ p = 2 ^ p + 1.
Proof.
  intros Hp.
  assert (Hpow : 2 ^ (p + 1) = 2 * 2 ^ p)
    by (rewrite Z.pow_add_r by lia; lia).
  assert (0 < 2 ^ p) by (apply Z.pow_pos_nonneg; lia).
  assert (2 ^ 1 ≤ 2 ^ p ≤ 2 ^ 29) by (split; apply Z.pow_le_mono_r; lia).
  split; [|lia].
  unfold padded_size. rewrite u32_small by lia.
  destruct (next_pow2_spec (2 * 2 ^ p - 1))
    as (w2 & L & -> & HL & -> & Hle & Hmin); [lia|].
  pose proof (Hmin (p + 1) ltac:(lia) ltac:(lia)) as Hup.
  assert (p < L).
  { destruct (Z_lt_le_dec p L) as [|Hge]; [done|exfalso].
    assert (2 ^ L ≤ 2 ^ p) by (apply Z.pow_le_mono_r; lia). lia. }
  apply Z.pow_le_mono_r_iff in Hup; [|lia|lia].
  by replace L with (p + 1) by lia.
Qed.

Lemma padded_size_pow2_witness :
  1 ≤ 6 ≤ 29 ∧
  padded_size (2 ^ 6) = Some (2 ^ (6 + 1), 6 + 1) ∧
  2 ^ (6 + 1) + 1 - 2 ^ 6 = 2 ^ 6 + 1.
Proof. split; [lia|]. apply (padded_size_pow2 6). lia. Defined.

(** ** Finite sums of real numbers *)

Section Sums.
Local Open Scope R_scope.

Lemma sumZ_0 f : sumZ 0 f = 0.
Proof. done. Qed.

Lemma sumZ_succ n f : (0 ≤ n)%Z → sumZ (n + 1) f = sumZ n f + f n.
Proof.
  intros Hn. unfold sumZ.
  replace (Z.to_nat (n + 1)) with (S (Z.to_nat n)) by lia.
  cbn [sum_upto]. by rewrite Z2Nat.id by done.
Qed.

Lemma sumZ_ind (P : Z → Prop) :
  P 0%Z → (∀ n, (0 ≤ n)%Z → P n → P (n + 1)%Z) → ∀ n, (0 ≤ n)%Z → P n.
Proof. intros H0 Hs n Hn. by apply (natlike_ind P). Qed.

Lemma sumZ_ext n f g :
  (∀ j, (0 ≤ j < n)%Z → f j = g j) → sumZ n f = sumZ n g.
Proof.
  destruct (Z_lt_le_dec n 0) as [Hneg|Hn].
  { intros _. unfold sumZ. by replace (Z.to_nat n) with 0%nat by lia. }
  revert n Hn f g. apply (sumZ_ind (λ n, ∀ f g, _ → _)).
  - done.
  - intros n Hn IH f g Hfg. rewrite !sumZ_succ by done.
    rewrite (IH f g), Hfg; [done|lia|]. intros. apply Hfg. lia.
Qed.

Lemma sumZ_plus n f g :
  sumZ n (λ j, f j + g j) = sumZ n f + sumZ n g.
Proof.
  unfold sumZ. induction (Z.to_nat n) as [|m IH]; cbn [sum_upto]; [lra|].
  rewrite IH. lra.
Qed.

Lemma sumZ_scal n c f : sumZ n (λ j, c * f j) = c * sumZ n f.
Proof.
  unfold sumZ. induction (Z.to_nat n) as [|m IH]; cbn [sum_upto]; [lra|].
  rewrite IH. lra.
Qed.

Lemma sumZ_opp n f : sumZ n (λ j, - f j) = - sumZ n f.
Proof.
  unfold sumZ. induction (Z.to_nat n) as [|m IH]; cbn [sum_upto]; [lra|].
  rewrite IH. lra.
Qed.

Lemma sumZ_zero n : sumZ n (λ _, 0) = 0.
Proof.
  unfold sumZ. induction (Z.to_nat n) as [|m IH]; cbn [sum_upto]; [lra|].
  rewrite IH. lra.
Qed.

Lemma sumZ_const n c : (0 ≤ n)%Z → sumZ n (λ _, c) = IZR n * c.
Proof.
  revert n. apply sumZ_ind.
  - rewrite sumZ_0. cbn. lra.
  - intros n Hn IH. rewrite sumZ_succ, IH, plus_IZR by done. lra.
Qed.

Lemma sumZ_even_odd n f :
  (0 ≤ n)%Z →
  sumZ (2 * n) f = sumZ n (λ j, f (2 * j)%Z) + sumZ n (λ j, f (2 * j + 1)%Z).
Proof.
  revert n. apply sumZ_ind.
  - rewrite !sumZ_0. lra.
  - intros n Hn IH.
    replace (2 * (n + 1))%Z with (2 * n + 1 + 1)%Z by lia.
    rewrite !sumZ_succ, IH by lia. lra.
Qed.

Lemma sumZ_swap n m (g : Z → Z → R) :
  sumZ n (λ j, sumZ m (λ l, g j l)) = sumZ m (λ l, sumZ n (λ j, g j l)).
Proof.
  assert (Hnat : ∀ a : nat,
            sum_upto a (λ j, sumZ m (λ l, g (Z.of_nat j) l))
            = sumZ m (λ l, sum_upto a (λ j, g (Z.of_nat j) l))).
  { induction a as [|a IH]; cbn [sum_upto].
    - symmetry. apply sumZ_zero.
    - rewrite IH. symmetry.
      apply (sumZ_plus m (λ l, sum_upto a (λ j, g (Z.of_nat j) l))
               (λ l, g (Z.of_nat a) l)). }
  apply Hnat.
Qed.

Lemma sumZ_shift n g :
  (0 ≤ n)%Z → sumZ n (λ j, g (j + 1)%Z) = sumZ n g + g n - g 0%Z.
Proof.
  revert n. apply sumZ_ind.
  - rewrite !sumZ_0. cbn. lra.
  - intros n Hn IH. rewrite !sumZ_succ, IH by done. lra.
Qed.

(** A sum with a single term that is not zero. *)
Lemma sumZ_single n k f :
  (0 ≤ k < n)%Z → (∀ j, (0 ≤ j < n)%Z → j ≠ k → f j = 0) →
  sumZ n f = f k.
Proof.
  intros Hk. assert (Hn : (0 ≤ n)%Z) by lia. revert n Hn Hk.
  apply (sumZ_ind (λ n, _ → _ → _)); [lia|].
  intros n Hn IH Hk Hf. rewrite sumZ_succ by done.
  destruct (Z.eq_dec k n) as [->|Hne].
  - rewrite (sumZ_ext n f (λ _, 0)), sumZ_zero; [lra|].
    intros j Hj. apply Hf; lia.
  - rewrite IH, (Hf n); [lra|lia|lia|lia|]. intros. apply Hf; lia.
Qed.

End Sums.

(** ** The Hartley kernel *)

Section Cas.
Local Open Scope R_scope.

Lemma cas_plus a b : cas (a + b) = cos b * cas a + sin b * cas (- a).
Proof. unfold cas. rewrite cos_plus, sin_plus, cos_neg, sin_neg. lra. Qed.

Lemma cas_times a b : cas a * cas b = cos (a - b) + sin (a + b).
Proof. unfold cas. rewrite cos_minus, sin_plus. lra. Qed.

Lemma cos_turns x (j : Z) : cos (x + 2 * PI * IZR j) = cos x.
Proof.
  destruct (Z_le_gt_dec 0 j) as [Hj|Hj].
  - rewrite <- (cos_period x (Z.to_nat j)). f_equal.
    rewrite INR_IZR_INZ, Z2Nat.id by done. lra.
  - rewrite <- (cos_period (x + 2 * PI * IZR j) (Z.to_nat (- j))). f_equal.
    rewrite INR_IZR_INZ, Z2Nat.id, opp_IZR by lia. lra.
Qed.

Lemma sin_turns x (j : Z) : sin (x + 2 * PI * IZR j) = sin x.
Proof.
  destruct (Z_le_gt_dec 0 j) as [Hj|Hj].
  - rewrite <- (sin_period x (Z.to_nat j)). f_equal.
    rewrite INR_IZR_INZ, Z2Nat.id by done. lra.
  - rewrite <- (sin_period (x + 2 * PI * IZR j) (Z.to_nat (- j))). f_equal.
    rewrite INR_IZR_INZ, Z2Nat.id, opp_IZR by lia. lra.
Qed.

Lemma cas_turns x (j : Z) : cas (x + 2 * PI * IZR j) = cas x.
Proof. unfold cas. by rewrite cos_turns, sin_turns. Qed.

Lemma cas_half_turn x : cas (x + PI) = - cas x.
Proof. unfold cas. rewrite neg_cos, neg_sin. lra. Qed.

(** The kernel at the mirrored bin. *)
Lemma cas_mirror n j k :
  (0 < n)%Z → (0 ≤ k < n)%Z →
  cas (- (2 * PI * IZR (j * k) / IZR n))
  = cas (2 * PI * IZR (j * ((n - k) `mod` n)) / IZR n).
Proof.
  intros Hn Hk. assert (IZR n ≠ 0) by (apply not_0_IZR; lia).
  destruct (Z.eq_dec k 0%Z) as [->|Hk0].
  - rewrite Z.sub_0_r, Z.mod_same, !Z.mul_0_r by lia.
    f_equal. cbn. field. done.
  - rewrite Z.mod_small by lia.
    rewrite <- (cas_turns _ j). f_equal.
    rewrite !mult_IZR, minus_IZR. field. done.
Qed.

End Cas.

(** ** Decimation in time *)

Section Decimation.
Local Open Scope R_scope.
Variables (n : Z) (f : Z → R).
Hypothesis Hn : (1 ≤ n)%Z.

Local Abbreviation fe := (λ j : Z, f (2 * j)%Z).
Local Abbreviation fo := (λ j : Z, f (2 * j + 1)%Z).
Local Abbreviation theta k := (PI * IZR k / IZR n).

Lemma IZR_n_neq : IZR n ≠ 0.
Proof. apply not_0_IZR. lia. Qed.

Lemma dht_decimate_low k :
  (0 ≤ k < n)%Z →
  dht (2 * n) f k
  = dht n fe k + (cos (theta k) * dht n fo k
                  + sin (theta k) * dht n fo ((n - k) `mod` n)).
Proof.
  intros Hk. pose proof IZR_n_neq as Hnz. unfold dht.
  rewrite sumZ_even_odd by lia.
  rewrite <- !sumZ_scal, <- !sumZ_plus.
  apply sumZ_ext. intros j Hj. cbv beta.
  replace (2 * PI * IZR (2 * j * k) / IZR (2 * n))
    with (2 * PI * IZR (j * k) / IZR n)
    by (rewrite !mult_IZR; field; done).
  replace (2 * PI * IZR ((2 * j + 1) * k) / IZR (2 * n))
    with (2 * PI * IZR (j * k) / IZR n + theta k)
    by (rewrite !mult_IZR, plus_IZR, !mult_IZR; field; done).
  rewrite cas_plus, cas_mirror by lia. lra.
Qed.

Lemma dht_decimate_high k :
  (0 ≤ k < n)%Z →
  dht (2 * n) f (n + k)
  = dht n fe k - (cos (theta k) * dht n fo k
                  + sin (theta k) * dht n fo ((n - k) `mod` n)).
Proof.
  intros Hk. pose proof IZR_n_neq as Hnz. unfold dht.
  rewrite sumZ_even_odd by lia.
  unfold Rminus.
  rewrite <- !sumZ_scal, <- !sumZ_plus, <- sumZ_opp, <- sumZ_plus.
  apply sumZ_ext. intros j Hj. cbv beta.
  replace (2 * PI * IZR (2 * j * (n + k)) / IZR (2 * n))
    with (2 * PI * IZR (j * k) / IZR n + 2 * PI * IZR j)
    by (rewrite !mult_IZR, plus_IZR; field; done).
  replace (2 * PI * IZR ((2 * j + 1) * (n + k)) / IZR (2 * n))
    with (2 * PI * IZR (j * k) / IZR n + theta k + 2 * PI * IZR j + PI)
    by (rewrite !mult_IZR, !plus_IZR, !mult_IZR; field; done).
  rewrite cas_half_turn, !cas_turns, cas_plus, cas_mirror by lia. lra.
Qed.

End Decimation.

Lemma dht_1 f k : dht 1 f k = f 0%Z.
Proof.
  unfold dht. change 1%Z with (0 + 1)%Z at 1.
  rewrite sumZ_succ, sumZ_0 by lia. rewrite Z.mul_0_l.
  unfold cas. replace (2 * PI * 0 / 1)%R with 0%R by lra.
  rewrite cos_0, sin_0. lra.
Qed.

Lemma dht_ext n f g k :
  (∀ j, 0 ≤ j < n → f j = g j) → dht n f k = dht n g k.
Proof.
  intros Hfg. unfold dht. apply sumZ_ext. intros j Hj. by rewrite Hfg.
Qed.

(** ** The Hartley transform is its own inverse, up to the length *)

Section Orthogonal.
Local Open Scope R_scope.

Lemma cos_whole_turns (m : Z) : cos (2 * PI * IZR m) = 1.
Proof.
  replace (2 * PI * IZR m) with (0 + 2 * PI * IZR m) by lra.
  by rewrite cos_turns, cos_0.
Qed.

Lemma sin_whole_turns (m : Z) : sin (2 * PI * IZR m) = 0.
Proof.
  replace (2 * PI * IZR m) with (0 + 2 * PI * IZR m) by lra.
  by rewrite sin_turns, sin_0.
Qed.

Lemma cos_lt_1 x : 0 < x < 2 * PI → cos x < 1.
Proof.
  intros Hx. replace x with (2 * (x / 2)) by lra.
  rewrite cos_2a_sin.
  assert (0 < sin (x / 2)) by (apply sin_gt_0; lra).
  nra.
Qed.

Lemma cos_neq_1 x : 0 < Rabs x < 2 * PI → cos x ≠ 1.
Proof.
  intros Hx. destruct (Rcase_abs x) as [Hneg|Hpos].
  - rewrite Rabs_left in Hx by done. rewrite <- cos_neg.
    pose proof (cos_lt_1 (- x) Hx). lra.
  - rewrite Rabs_right in Hx by done. pose proof (cos_lt_1 x Hx). lra.
Qed.

(** The sums of the cosines and of the sines of the multiples of an angle
    that closes after [N] steps. *)
Lemma sums_of_turns (N : Z) θ :
  (0 ≤ N)%Z → cos (IZR N * θ) = 1 → sin (IZR N * θ) = 0 →
  (cos θ ≠ 1 →
   sumZ N (λ j, cos (IZR j * θ)) = 0 ∧ sumZ N (λ j, sin (IZR j * θ)) = 0) ∧
  (cos θ = 1 →
   sumZ N (λ j, cos (IZR j * θ)) = IZR N ∧
   sumZ N (λ j, sin (IZR j * θ)) = 0).
Proof.
  intros HN HcN HsN. split.
  - intros Hne.
    set (C := sumZ N (λ j, cos (IZR j * θ))).
    set (S := sumZ N (λ j, sin (IZR j * θ))).
    assert (HC : C = cos θ * C - sin θ * S).
    { unfold C at 2, S. rewrite <- !sumZ_scal.
      unfold Rminus. rewrite <- sumZ_opp, <- sumZ_plus.
      transitivity (sumZ N (λ j, cos (IZR (j + 1) * θ))).
      - rewrite (sumZ_shift N (λ j, cos (IZR j * θ))) by done.
        fold C. rewrite HcN, Rmult_0_l, cos_0. lra.
      - apply sumZ_ext. intros j _. cbv beta.
        rewrite plus_IZR, Rmult_plus_distr_r, Rmult_1_l, cos_plus. lra. }
    assert (HS : S = sin θ * C + cos θ * S).
    { unfold C, S at 2. rewrite <- !sumZ_scal, <- sumZ_plus.
      transitivity (sumZ N (λ j, sin (IZR (j + 1) * θ))).
      - rewrite (sumZ_shift N (λ j, sin (IZR j * θ))) by done.
        fold S. rewrite HsN, Rmult_0_l, sin_0. lra.
      - apply sumZ_ext. intros j _. cbv beta.
        rewrite plus_IZR, Rmult_plus_distr_r, Rmult_1_l, sin_plus. lra. }
    pose proof (sin2_cos2 θ) as H1. unfold Rsqr in H1.
    assert (Hdet : (2 - 2 * cos θ) * C = 0) by nra.
    assert (Hdet' : (2 - 2 * cos θ) * S = 0) by nra.
    assert (2 - 2 * cos θ ≠ 0) by lra.
    split; [apply Rmult_integral in Hdet|apply Rmult_integral in Hdet'];
      tauto.
  - intros Heq.
    assert (Hs : sin θ = 0).
    { pose proof (sin2_cos2 θ) as H1. unfold Rsqr in H1. nra. }
    assert (Hj : ∀ j, (0 ≤ j)%Z →
              cos (IZR j * θ) = 1 ∧ sin (IZR j * θ) = 0).
    { apply sumZ_ind.
      - rewrite Rmult_0_l, cos_0, sin_0. done.
      - intros j Hj [IHc IHs].
        rewrite plus_IZR, Rmult_plus_distr_r, Rmult_1_l.
        rewrite cos_plus, sin_plus, IHc, IHs, Heq, Hs. lra. }
    split.
    + rewrite (sumZ_ext N _ (λ _, 1)), sumZ_const by (done || intros; apply Hj; lia).
      lra.
    + rewrite (sumZ_ext N _ (λ _, 0)), sumZ_zero by (done || intros; apply Hj; lia).
      done.
Qed.

Variable N : Z.
Hypothesis HN : (1 ≤ N)%Z.

Local Abbreviation turn m := (2 * PI * IZR m / IZR N).

Lemma turn_closes m :
  cos (IZR N * turn m) = 1 ∧ sin (IZR N * turn m) = 0.
Proof.
  assert (IZR N ≠ 0) by (apply not_0_IZR; lia).
  replace (IZR N * turn m) with (2 * PI * IZR m) by (field; done).
  by rewrite cos_whole_turns, sin_whole_turns.
Qed.

Lemma turn_not_whole m :
  (m ≠ 0)%Z → (- N < m < N)%Z → cos (turn m) ≠ 1.
Proof.
  intros Hm0 Hm. apply cos_neq_1.
  assert (HNpos : 0 < IZR N) by (apply IZR_lt; lia).
  pose proof PI_RGT_0 as Hpi.
  assert (Habs : Rabs (turn m) = 2 * PI * Rabs (IZR m) / IZR N).
  { unfold Rdiv. rewrite !Rabs_mult, Rabs_inv.
    rewrite (Rabs_right 2), (Rabs_right PI), (Rabs_right (IZR N)); lra. }
  rewrite Habs.
  assert (0 < Rabs (IZR m) < IZR N) as [H1 H2].
  { split.
    - apply Rabs_pos_lt. apply not_0_IZR. done.
    - apply Rabs_def1; [apply IZR_lt; lia|].
      rewrite <- opp_IZR. apply IZR_lt. lia. }
  split.
  - apply Rdiv_lt_0_compat; [|done]. nra.
  - apply Rmult_lt_reg_r with (IZR N); [done|].
    unfold Rdiv. rewrite Rmult_assoc, Rinv_l by lra. nra.
Qed.

(** The kernel is orthogonal. *)
Lemma cas_orthogonal l k :
  (0 ≤ l < N)%Z → (0 ≤ k < N)%Z →
  sumZ N (λ j, cas (2 * PI * IZR (l * j) / IZR N)
               * cas (2 * PI * IZR (j * k) / IZR N))
  = if decide (l = k) then IZR N else 0.
Proof.
  intros Hl Hk. assert (HNz : IZR N ≠ 0) by (apply not_0_IZR; lia).
  rewrite (sumZ_ext N _
             (λ j, cos (IZR j * turn (l - k)) + sin (IZR j * turn (l + k)))).
  2: { intros j _. cbv beta. rewrite cas_times. f_equal; f_equal.
       - rewrite !mult_IZR, minus_IZR. field. done.
       - rewrite !mult_IZR, plus_IZR. field. done. }
  rewrite sumZ_plus.
  destruct (turn_closes (l - k)) as [Hc1 Hs1].
  destruct (turn_closes (l + k)) as [Hc2 Hs2].
  destruct (sums_of_turns N (turn (l - k)) ltac:(lia) Hc1 Hs1) as [Hne1 Heq1].
  destruct (sums_of_turns N (turn (l + k)) ltac:(lia) Hc2 Hs2) as [Hne2 Heq2].
  assert (Hsin : sumZ N (λ j, sin (IZR j * turn (l + k))) = 0).
  { destruct (Req_dec (cos (turn (l + k))) 1) as [H1|H1].
    - by apply Heq2. - by apply Hne2. }
  rewrite Hsin. case_decide as Hlk.
  - subst l. destruct Heq1 as [-> _]; [|lra].
    rewrite Z.sub_diag. replace (turn 0) with 0 by (field; done).
    apply cos_0.
  - destruct Hne1 as [-> _]; [|lra].
    apply turn_not_whole; lia.
Qed.

Lemma dht_involutive f k :
  (0 ≤ k < N)%Z → dht N (dht N f) k = IZR N * f k.
Proof.
  intros Hk. unfold dht at 1.
  rewrite (sumZ_ext N _
             (λ j, sumZ N (λ l, f l * (cas (2 * PI * IZR (l * j) / IZR N)
                                        * cas (2 * PI * IZR (j * k) / IZR N))))).
  2: { intros j _. cbv beta. unfold dht. rewrite Rmult_comm, <- sumZ_scal.
       apply sumZ_ext. intros l _. cbv beta. lra. }
  rewrite sumZ_swap.
  rewrite (sumZ_ext N _ (λ l, f l * (if decide (l = k) then IZR N else 0))).
  2: { intros l Hl. cbv beta. rewrite sumZ_scal. f_equal.
       by apply cas_orthogonal. }
  rewrite (sumZ_single N k) by (done || intros; rewrite decide_False by done; lra).
  rewrite decide_True by done. lra.
Qed.

End Orthogonal.

(** ** The stages of [FHT] in exact arithmetic *)

Section Samples.

Lemma load_sample (d : list R) i :
  0 ≤ i < Z.of_nat (length d) → load d i = Some (sample d i).
Proof.
  intros Hi. unfold sample. by destruct (load_is_Some d i Hi) as [v ->].
Qed.

Lemma sample_insert (d : list R) p v i :
  0 ≤ p < Z.of_nat (length d) →
  sample (<[Z.to_nat p := v]> d) i
  = if decide (i = p) then v else sample d i.
Proof.
  intros Hp. unfold sample. rewrite load_insert by done.
  by case_decide.
Qed.

Lemma for_each_fmap {I J S} (g : I → J) (body : J → S → option S) l s :
  for_each body (g <$> l) s = for_each (λ i, body (g i)) l s.
Proof.
  revert s. induction l as [|i l IH]; intros s; cbn; [done|].
  destruct (body (g i) s); cbn; [apply IH|done].
Qed.

(** A strided loop over whole blocks is a counted loop over the blocks. *)
Lemma for_step_blocks {S} lo c step (body : Z → S → option S) s :
  0 ≤ lo < step → 0 ≤ c →
  for_step lo (c * step) step body s
  = for_range 0 c (λ t, body (lo + t * step)) s.
Proof.
  intros Hlo Hc. unfold for_step, for_range. rewrite for_each_fmap.
  do 2 f_equal.
  replace (c * step - lo + step - 1) with (step - 1 - lo + c * step) by lia.
  rewrite Z.div_add, Z.div_small by lia. lia.
Qed.

End Samples.

Section Stage.
Variables (n c : Z) (d : list R).
Hypothesis Hn : 1 ≤ n.
Hypothesis Hc : 0 ≤ c.
Hypothesis Hlen : Z.of_nat (length d) = c * (2 * n).

Lemma staged_ext (Q Q' : Z → Z → Prop) d' :
  (∀ t k, 0 ≤ t < c → 0 ≤ k < n → Q t k ↔ Q' t k) →
  staged n c d Q d' → staged n c d Q' d'.
Proof.
  intros HQ [Hl Hd]. split; [done|]. intros t k Ht Hk.
  destruct (Hd t k Ht Hk) as [H1 H2]. specialize (HQ t k Ht Hk).
  split; intros; [apply H1|apply H2]; tauto.
Qed.

Lemma staged_init : staged n c d (λ _ _, False) d.
Proof. split; [done|]. intros t k Ht Hk. split; [done|]. done. Qed.

Lemma cell_lo_bound t k :
  0 ≤ t < c → 0 ≤ k < n → 0 ≤ t * (2 * n) + k < Z.of_nat (length d).
Proof. intros. nia. Qed.

Lemma cell_hi_bound t k :
  0 ≤ t < c → 0 ≤ k < n → 0 ≤ t * (2 * n) + n + k < Z.of_nat (length d).
Proof. intros. nia. Qed.

(** The pairs of cells of two different entries are different cells. *)
Lemma cells_apart t k t' k' :
  0 ≤ k < n → 0 ≤ k' < n → ¬ (t' = t ∧ k' = k) →
  t' * (2 * n) + k' ≠ t * (2 * n) + k ∧
  t' * (2 * n) + k' ≠ t * (2 * n) + n + k ∧
  t' * (2 * n) + n + k' ≠ t * (2 * n) + k ∧
  t' * (2 * n) + n + k' ≠ t * (2 * n) + n + k.
Proof.
  intros Hk Hk' Hne.
  repeat split; intros Heq.
  - destruct (grid_index_inj (2 * n) k' t' k t); lia.
  - destruct (grid_index_inj (2 * n) k' t' (n + k) t); lia.
  - destruct (grid_index_inj (2 * n) (n + k') t' k t); lia.
  - destruct (grid_index_inj (2 * n) (n + k') t' (n + k) t); lia.
Qed.

(** The pairs [K] of the block [t] take their new samples. *)
Lemma staged_update (Q : Z → Z → Prop) d' d'' t (K : list Z) :
  0 ≤ t < c → (∀ k, k ∈ K → 0 ≤ k < n) →
  length d'' = length d' →
  (∀ i, (∀ k, k ∈ K → i ≠ t * (2 * n) + k ∧ i ≠ t * (2 * n) + n + k) →
        sample d'' i = sample d' i) →
  (∀ k, k ∈ K →
     sample d'' (t * (2 * n) + k)
     = (sample d (t * (2 * n) + k) + stage_T n d t k)%R ∧
     sample d'' (t * (2 * n) + n + k)
     = (sample d (t * (2 * n) + k) - stage_T n d t k)%R) →
  staged n c d Q d' →
  staged n c d (λ t' k', Q t' k' ∨ (t' = t ∧ k' ∈ K)) d''.
Proof.
  intros Ht HK Hl Hother Hnew [Hl' Hd]. split; [congruence|].
  intros t' k' Ht' Hk'.
  destruct (decide (t' = t ∧ k' ∈ K)) as [[-> HkK]|Hno].
  { split; [intros _; by apply Hnew|]. intros []. by right. }
  assert (Hsame : sample d'' (t' * (2 * n) + k') = sample d' (t' * (2 * n) + k')
                  ∧ sample d'' (t' * (2 * n) + n + k')
                    = sample d' (t' * (2 * n) + n + k')).
  { split; apply Hother; intros k HkK;
      destruct (cells_apart t k t' k') as (? & ? & ? & ?);
      try done; try (by apply HK);
      intros [-> ->]; by apply Hno. }
  destruct Hsame as [-> ->]. destruct (Hd t' k' Ht' Hk') as [H1 H2].
  split.
  - intros [HQ|?]; [by apply H1|done].
  - intros HnQ. apply H2. intros ?. apply HnQ. by left.
Qed.

End Stage.

(** ** One stage of [FHT], in exact arithmetic *)

(** Decides the equations between cells that a goal tests. *)
Ltac decide_lia :=
  repeat match goal with
         | |- context [decide (?a = ?b)] =>
             first [ rewrite (decide_True (P := a = b)) by lia
                   | rewrite (decide_False (P := a = b)) by lia ]
         end.

Section StageSteps.
Import exact.
Variables (n c : Z) (d : list R).
Hypothesis Hn : 1 ≤ n.
Hypothesis Hc : 0 ≤ c.
Hypothesis Hlen : Z.of_nat (length d) = c * (2 * n).

Local Abbreviation theta k := (PI * IZR k / IZR n)%R.

Lemma theta_mirror k :
  cos (theta (n - k)) = (- cos (theta k))%R ∧ sin (theta (n - k)) = sin (theta k).
Proof.
  assert (IZR n ≠ 0%R) by (apply not_0_IZR; lia).
  replace (theta (n - k)) with (- theta k + PI)%R
    by (rewrite minus_IZR; field; done).
  rewrite neg_cos, neg_sin, cos_neg, sin_neg. split; lra.
Qed.

Lemma staged_butterfly (Q : Z → Z → Prop) d' t k p q :
  0 ≤ t < c → 0 ≤ k < n →
  p = t * (2 * n) + k → q = t * (2 * n) + n + k →
  (n - k) `mod` n = k → (cos (theta k) + sin (theta k) = 1)%R →
  ¬ Q t k → staged n c d Q d' →
  ∃ d'', FHT_butterfly p q d' = Some d'' ∧
         staged n c d (λ t' k', Q t' k' ∨ (t' = t ∧ k' ∈ [k])) d''.
Proof.
  intros Ht Hk -> -> Hmir Hcs HnQ Hd. pose proof Hd as [Hl Hcells].
  assert (Hp : 0 ≤ t * (2 * n) + k < Z.of_nat (length d)) by nia.
  assert (Hq : 0 ≤ t * (2 * n) + n + k < Z.of_nat (length d)) by nia.
  destruct (Hcells t k Ht Hk) as [_ Hold].
  destruct (Hold HnQ) as [Hlo Hhi].
  unfold FHT_butterfly.
  rewrite (load_sample d' (t * (2 * n) + n + k)) by lia.
  cbn [mbind option_bind].
  rewrite (load_sample d' (t * (2 * n) + k)) by lia.
  cbn [mbind option_bind].
  rewrite store_is_Some by lia. cbn [mbind option_bind].
  rewrite load_insert by lia. rewrite decide_False by lia.
  rewrite (load_sample d' (t * (2 * n) + k)) by lia.
  cbn [mbind option_bind].
  rewrite store_is_Some by (rewrite length_insert; lia).
  eexists. split; [done|].
  apply staged_update with (d' := d'); [done|done| | | | |done].
  - intros k' ->%list_elem_of_singleton. done.
  - by rewrite !length_insert.
  - intros i Hi. destruct (Hi k) as [? ?]; [by apply list_elem_of_singleton|].
    rewrite !sample_insert by (rewrite ?length_insert; lia).
    by rewrite !decide_False by done.
  - intros k' ->%list_elem_of_singleton.
    rewrite !sample_insert by (rewrite ?length_insert; lia).
    decide_lia.
    rewrite Hlo, Hhi. unfold stage_T. rewrite Hmir.
    cbn [f_add f_sub arith].
    split; nra.
Qed.

Lemma staged_rotate (Q : Z → Z → Prop) d' t bl fc fs pk pnk pnbd pbd :
  0 ≤ t < c → 1 ≤ bl → 2 * bl < n →
  pk = t * (2 * n) + bl → pnk = t * (2 * n) + n + bl →
  pnbd = t * (2 * n) + n + (n - bl) → pbd = t * (2 * n) + (n - bl) →
  fc = cos (theta bl) → fs = sin (theta bl) →
  ¬ Q t bl → ¬ Q t (n - bl) → staged n c d Q d' →
  ∃ d'', FHT_rotate fc fs pk pnk pnbd pbd d' = Some d'' ∧
         staged n c d (λ t' k', Q t' k' ∨ (t' = t ∧ k' ∈ [bl; n - bl])) d''.
Proof.
  intros Ht Hbl Hbl2 -> -> -> -> -> -> HnQ HnQ' Hd.
  pose proof Hd as [Hl Hcells].
  assert (Hp1 : 0 ≤ t * (2 * n) + bl < Z.of_nat (length d)) by nia.
  assert (Hp2 : 0 ≤ t * (2 * n) + n + bl < Z.of_nat (length d)) by nia.
  assert (Hp3 : 0 ≤ t * (2 * n) + (n - bl) < Z.of_nat (length d)) by nia.
  assert (Hp4 : 0 ≤ t * (2 * n) + n + (n - bl) < Z.of_nat (length d)) by nia.
  destruct (Hcells t bl Ht ltac:(lia)) as [_ Hold].
  destruct (Hold HnQ) as [Hlo Hhi].
  destruct (Hcells t (n - bl) Ht ltac:(lia)) as [_ Hold'].
  destruct (Hold' HnQ') as [Hlo' Hhi'].
  unfold FHT_rotate.
  repeat (first
    [ rewrite load_insert by (rewrite ?length_insert; lia);
      rewrite decide_False by lia
    | rewrite load_sample by lia
    | rewrite store_is_Some by (rewrite ?length_insert; lia) ];
    cbn [mbind option_bind]).
  eexists. split; [done|].
  destruct (theta_mirror bl) as [Hcm Hsm].
  apply staged_update with (d' := d'); [done|done| | | | |done].
  - intros k' [->| ->%list_elem_of_singleton]%elem_of_cons; lia.
  - by rewrite !length_insert.
  - intros i Hi. destruct (Hi bl) as [? ?]; [apply elem_of_cons; by left|].
    destruct (Hi (n - bl)) as [? ?];
      [apply elem_of_cons; right; by apply list_elem_of_singleton|].
    rewrite !sample_insert by (rewrite ?length_insert; lia).
    by rewrite !decide_False by done.
  - intros k' Hk'.
    rewrite !sample_insert by (rewrite ?length_insert; lia).
    unfold stage_T. cbn [f_add f_sub f_mul d_add d_sub d_mul d_of_f f_of_d
                         arith]. unfold id.
    apply elem_of_cons in Hk' as [->| ->%list_elem_of_singleton].
    + rewrite (Z.mod_small (n - bl)) by lia. decide_lia.
      rewrite Hlo, Hhi, Hhi'. split; lra.
    + replace (n - (n - bl)) with bl by lia.
      rewrite (Z.mod_small bl) by lia. decide_lia.
      rewrite Hlo', Hhi, Hhi', Hcm, Hsm. split; lra.
Qed.

End StageSteps.

Section StageLoops.
Import exact.
Variables (n c : Z) (d : list R).
Hypothesis Hn : 1 ≤ n.
Hypothesis Hc : 0 ≤ c.
Hypothesis Hlen : Z.of_nat (length d) = c * (2 * n).
Hypothesis Heven : 1 < n → n = 2 * (n `div` 2).

Local Abbreviation theta k := (PI * IZR k / IZR n)%R.

Lemma IZR_n_pos : (0 < IZR n)%R.
Proof. apply IZR_lt. lia. Qed.

Lemma theta_0 : cos (theta 0) = 1%R ∧ sin (theta 0) = 0%R.
Proof.
  pose proof IZR_n_pos.
  replace (theta 0) with 0%R by (field; lra).
  by rewrite cos_0, sin_0.
Qed.

Lemma theta_half :
  1 < n → cos (theta (n `div` 2)) = 0%R ∧ sin (theta (n `div` 2)) = 1%R.
Proof.
  intros H1. pose proof IZR_n_pos.
  replace (theta (n `div` 2)) with (PI / 2)%R.
  - by rewrite cos_PI2, sin_PI2.
  - rewrite (Heven H1) at 2. rewrite mult_IZR.
    assert (IZR (n `div` 2) ≠ 0%R) by (apply not_0_IZR; lia).
    field. done.
Qed.

Lemma theta_succ k :
  cos (theta (k + 1))
  = (cos (theta k) * cos (theta 1) - sin (theta k) * sin (theta 1))%R ∧
  sin (theta (k + 1))
  = (sin (theta k) * cos (theta 1) + cos (theta k) * sin (theta 1))%R.
Proof.
  pose proof IZR_n_pos.
  replace (theta (k + 1)) with (theta k + theta 1)%R
    by (rewrite plus_IZR; field; lra).
  by rewrite cos_plus, sin_plus.
Qed.

(** [fs = ds = sqrt(1.0 - fc * fc)] is the sine of the angle. *)
Lemma theta_1_sqrt :
  2 < n → sqrt (1 - cos (theta 1) * cos (theta 1)) = sin (theta 1).
Proof.
  intros H2. pose proof IZR_n_pos. pose proof PI_RGT_0.
  pose proof (sin2_cos2 (theta 1)) as Hsc. unfold Rsqr in Hsc.
  replace (1 - cos (theta 1) * cos (theta 1))%R
    with (sin (theta 1) * sin (theta 1))%R by lra.
  apply sqrt_square. apply sin_ge_0.
  - apply Rlt_le, Rdiv_lt_0_compat; lra.
  - apply Rmult_le_reg_r with (IZR n); [done|].
    unfold Rdiv. rewrite Rmult_assoc, Rinv_l by lra.
    assert (1 <= IZR n)%R by (apply IZR_le; lia). nra.
Qed.

Local Abbreviation all := (λ _ _ : Z, True).

Lemma FHT_stage_exact a :
  a = (PI / IZR n)%R →
  ∃ d', FHT_stage cos 0 (c * (2 * n)) n a d = Some d' ∧ staged n c d all d'.
Proof.
  intros Ha. pose proof IZR_n_pos as HnR. unfold FHT_stage.
  rewrite Z.shiftl_mul_pow2, Z.shiftr_div_pow2 by lia.
  change (2 ^ 1) with 2.
  replace (c * (2 * n)) with (c * (n * 2)) by lia.
  assert (Hn2 : 0 ≤ n `div` 2 < n) by (split; [apply Z.div_pos|apply Z.div_lt]; lia).
  rewrite !for_step_blocks by lia.
  assert (Ha1 : a = theta 1) by (rewrite Ha; field; lra).
  (* the butterflies of the blocks' middle cells, which come last *)
  assert (Hlast : ∀ d2,
            staged n c d (λ _ k', 1 < n → k' ≠ n `div` 2) d2 →
            ∃ d', (if 1 <? n
                   then for_step (n `div` 2) (c * (n * 2)) (n * 2)
                          (λ k, FHT_butterfly (0 + k) (0 + n + k)) d2
                   else Some d2) = Some d' ∧ staged n c d all d').
  { intros d2 Hd2. destruct (Z.ltb_spec 1 n) as [Hbig|Hsmall].
    - destruct (theta_half Hbig) as [Hch Hsh].
      rewrite for_step_blocks by lia.
      destruct (for_range_total
                  (λ t, staged n c d (λ t' k', k' ≠ n `div` 2 ∨ t' < t))
                  0 c
                  (λ t, FHT_butterfly (0 + (n `div` 2 + t * (n * 2)))
                          (0 + n + (n `div` 2 + t * (n * 2)))) d2)
        as (d' & -> & Hd'); [done| | |].
      + eapply staged_ext; [|done]. intros t k Ht Hk. cbv beta. lia.
      + intros t d3 Ht Hd3.
        destruct (staged_butterfly n c d Hn Hc Hlen
                    (λ t' k', k' ≠ n `div` 2 ∨ t' < t) d3 t (n `div` 2)
                    (0 + (n `div` 2 + t * (n * 2)))
                    (0 + n + (n `div` 2 + t * (n * 2))))
          as (d4 & -> & Hd4); [lia|lia|lia|lia| | | |done|].
        * rewrite Z.mod_small by lia. lia.
        * rewrite Hch, Hsh. lra.
        * lia.
        * exists d4. split; [done|]. eapply staged_ext; [|done].
          intros t' k' Ht' Hk'. cbv beta.
          rewrite list_elem_of_singleton. lia.
      + exists d'. split; [done|]. eapply staged_ext; [|done].
        intros t k Ht Hk. cbv beta. lia.
    - exists d2. split; [done|]. eapply staged_ext; [|done].
      intros t k Ht Hk. cbv beta. lia. }
  (* the butterflies of the blocks' first cells *)
  destruct theta_0 as [Hc0 Hs0].
  destruct (for_range_total
              (λ t, staged n c d (λ t' k', k' = 0 ∧ t' < t)) 0 c
              (λ t, FHT_butterfly (0 + (0 + t * (n * 2)))
                      (0 + n + (0 + t * (n * 2)))) d)
    as (d1 & -> & Hd1); [done| | |].
  { eapply staged_ext; [|apply staged_init]. intros t k Ht Hk. cbv beta. lia. }
  { intros t d0 Ht Hd0.
    destruct (staged_butterfly n c d Hn Hc Hlen
                (λ t' k', k' = 0 ∧ t' < t) d0 t 0
                (0 + (0 + t * (n * 2))) (0 + n + (0 + t * (n * 2))))
      as (d0' & -> & Hd0'); [lia|lia|lia|lia| | | |done|].
    - rewrite Z.sub_0_r, Z.mod_same by lia. done.
    - rewrite Hc0, Hs0. lra.
    - lia.
    - exists d0'. split; [done|]. eapply staged_ext; [|done].
      intros t' k' Ht' Hk'. cbv beta. rewrite list_elem_of_singleton. lia. }
  cbn [mbind option_bind].
  (* the rotations *)
  destruct (Z.ltb_spec 2 n) as [Hbig|Hsmall]; cycle 1.
  { cbn [mbind option_bind]. apply Hlast. eapply staged_ext; [|done].
    intros t k Ht Hk. cbv beta.
    assert (n = 1 ∨ n = 2) as [->| ->] by lia; [lia|].
    change (2 `div` 2) with 1. lia. }
  cbv zeta.
  pose proof (Heven ltac:(lia)) as Hdiv.
  lazymatch goal with
  | |- context [for_range 1 ?hi ?body ?s] =>
      destruct (for_range_total
                  (λ bl '(d', fc, fs, bd),
                     bd = n - 2 * bl ∧ fc = cos (theta bl)
                     ∧ fs = sin (theta bl)
                     ∧ staged n c d
                         (λ _ k', k' = 0 ∨ 1 ≤ k' < bl ∨ n - bl < k' < n) d')
                  1 hi body s) as ([[[d2 fc] fs] bd] & -> & _ & _ & _ & Hd2)
  end; [lia| | |].
  - split; [lia|]. split; [by rewrite Ha1|].
    split; [cbn [d_sqrt d_sub d_mul d_one arith];
            rewrite Ha1; by apply theta_1_sqrt|].
    eapply staged_ext; [|done]. intros t k Ht Hk. cbv beta. lia.
  - intros bl [[[d0 fc] fs] bd] Hbl (-> & -> & -> & Hd0).
    rewrite for_step_blocks by lia.
    destruct (for_range_total
                (λ t, staged n c d
                        (λ t' k', (k' = 0 ∨ 1 ≤ k' < bl ∨ n - bl < k' < n)
                                  ∨ ((k' = bl ∨ k' = n - bl) ∧ t' < t)))
                0 c
                (λ t, FHT_rotate (cos (theta bl)) (sin (theta bl))
                        (0 + (bl + t * (n * 2)))
                        (0 + n + (bl + t * (n * 2)))
                        (0 + n + (n - 2 * bl) + (bl + t * (n * 2)))
                        (0 + (n - 2 * bl) + (bl + t * (n * 2)))) d0)
      as (d0' & -> & Hd0'); [done| | |].
    + eapply staged_ext; [|done]. intros t k Ht Hk. cbv beta. lia.
    + intros t d3 Ht Hd3.
      destruct (staged_rotate n c d Hn Hlen
                  (λ t' k', (k' = 0 ∨ 1 ≤ k' < bl ∨ n - bl < k' < n)
                            ∨ ((k' = bl ∨ k' = n - bl) ∧ t' < t)) d3 t bl
                  (cos (theta bl)) (sin (theta bl))
                  (0 + (bl + t * (n * 2)))
                  (0 + n + (bl + t * (n * 2)))
                  (0 + n + (n - 2 * bl) + (bl + t * (n * 2)))
                  (0 + (n - 2 * bl) + (bl + t * (n * 2))))
        as (d4 & -> & Hd4);
        [lia|lia|lia|lia|lia|lia|lia|done|done| | |done|].
      * lia.
      * lia.
      * exists d4. split; [done|]. eapply staged_ext; [|done].
        intros t' k' Ht' Hk'. cbv beta.
        rewrite elem_of_cons, list_elem_of_singleton. lia.
    + cbn [mbind option_bind]. eexists (_, _, _, _). split; [done|].
      destruct (theta_succ bl) as [Hcs Hss].
      split; [lia|]. rewrite Ha1.
      cbn [d_sqrt d_sub d_add d_mul d_one arith].
      rewrite theta_1_sqrt by done.
      split; [by rewrite Hcs|]. split; [by rewrite Hss|].
      eapply staged_ext; [|done]. intros t k Ht Hk. cbv beta. lia.
  - cbn [mbind option_bind]. apply Hlast. eapply staged_ext; [|done].
    intros t k Ht Hk. cbv beta. lia.
Qed.

End StageLoops.

(** ** [FHT] computes the Hartley transform *)

Section Exact.
Import exact.
Variables (M : Z) (x : list R).
Hypothesis HM : 1 ≤ M ≤ 30.
Hypothesis Hlen : Z.of_nat (length x) = 2 ^ M.

Lemma block_input_even s b j :
  0 ≤ s < M → 0 ≤ b →
  block_input M x (s + 1) b (2 * j) = block_input M x s (2 * b) j.
Proof.
  intros Hs Hb. unfold block_input. f_equal.
  assert (Hpow : 2 ^ (M - s) = 2 * 2 ^ (M - (s + 1))).
  { rewrite <- Z.pow_succ_r by lia. f_equal. lia. }
  rewrite Hpow.
  replace (Z.to_nat (M - s)) with (S (Z.to_nat (M - (s + 1)))) by lia.
  cbn [revbin].
  rewrite (Z.mul_comm 2 b), Z.mod_mul, Z.div_mul by lia. lia.
Qed.

Lemma block_input_odd s b j :
  0 ≤ s < M → 0 ≤ b →
  block_input M x (s + 1) b (2 * j + 1) = block_input M x s (2 * b + 1) j.
Proof.
  intros Hs Hb. unfold block_input. f_equal.
  assert (Hpow : 2 ^ (M - s) = 2 * 2 ^ (M - (s + 1))).
  { rewrite <- Z.pow_succ_r by lia. f_equal. lia. }
  rewrite Hpow.
  replace (Z.to_nat (M - s)) with (S (Z.to_nat (M - (s + 1)))) by lia.
  cbn [revbin].
  rewrite (Z.add_comm (2 * b) 1), (Z.mul_comm 2 b), Z_mod_plus_full,
    Z.div_add by lia.
  change (1 `mod` 2) with 1. change (1 `div` 2) with 0.
  rewrite Z2Nat.id, Z.add_0_l by lia. lia.
Qed.

Lemma blocks_init d :
  length d = length x →
  (∀ k, 0 ≤ k < 2 ^ M →
     load d (0 + k) = load x (0 + revbin (Z.to_nat M) k)) →
  blocks M x 0 d.
Proof.
  intros Hl Hd. split; [done|]. intros b k Hb Hk.
  change (2 ^ 0) with 1 in *. assert (k = 0) as -> by lia.
  rewrite dht_1. unfold block_input, sample.
  rewrite Z.sub_0_r in *. specialize (Hd b Hb).
  rewrite !Z.add_0_l in Hd. rewrite Z.mul_1_r, Z.add_0_r, Z.mul_0_l, Z.add_0_r.
  by rewrite Hd.
Qed.

Lemma blocks_step s d d' :
  0 ≤ s < M → blocks M x s d →
  staged (2 ^ s) (2 ^ (M - s - 1)) d (λ _ _, True) d' →
  blocks M x (s + 1) d'.
Proof.
  intros Hs [Hl Hd] [Hl' Hd']. split; [congruence|].
  set (n := 2 ^ s) in *.
  assert (Hn : 1 ≤ n) by (pose proof (pow2_pos s ltac:(lia)); lia).
  assert (Hn' : 2 ^ (s + 1) = 2 * n)
    by (unfold n; rewrite Z.pow_add_r by lia; lia).
  assert (Hc : 2 ^ (M - s) = 2 * 2 ^ (M - s - 1)).
  { rewrite <- Z.pow_succ_r by lia. f_equal. lia. }
  replace (M - (s + 1)) with (M - s - 1) by lia.
  intros b k Hb Hk. rewrite Hn' in Hk |- *.
  assert (Hlow : ∀ k0, 0 ≤ k0 < n →
            sample d (b * (2 * n) + k0)
            = dht n (λ j, block_input M x (s + 1) b (2 * j)) k0).
  { intros k0 Hk0. replace (b * (2 * n) + k0) with (2 * b * n + k0) by lia.
    rewrite Hd by lia. apply dht_ext. intros j _.
    symmetry. apply block_input_even; lia. }
  assert (Hhigh : ∀ k0, 0 ≤ k0 < n →
            sample d (b * (2 * n) + n + k0)
            = dht n (λ j, block_input M x (s + 1) b (2 * j + 1)) k0).
  { intros k0 Hk0.
    replace (b * (2 * n) + n + k0) with ((2 * b + 1) * n + k0) by lia.
    rewrite Hd by lia. apply dht_ext. intros j _.
    symmetry. apply block_input_odd; lia. }
  destruct (Z_lt_le_dec k n) as [Hlt|Hge].
  - destruct (Hd' b k ltac:(lia) ltac:(lia)) as [[-> _] _]; [done|].
    rewrite dht_decimate_low by lia. unfold stage_T.
    pose proof (Z.mod_pos_bound (n - k) n ltac:(lia)).
    by rewrite Hlow, !Hhigh by lia.
  - destruct (Hd' b (k - n) ltac:(lia) ltac:(lia)) as [[_ Hnew] _]; [done|].
    replace (b * (2 * n) + n + (k - n)) with (b * (2 * n) + k) in Hnew by lia.
    rewrite Hnew.
    replace (dht (2 * n) (block_input M x (s + 1) b) k)
      with (dht (2 * n) (block_input M x (s + 1) b) (n + (k - n)))
      by (f_equal; lia).
    rewrite dht_decimate_high by lia. unfold stage_T.
    pose proof (Z.mod_pos_bound (n - (k - n)) n ltac:(lia)).
    by rewrite Hlow, !Hhigh by lia.
Qed.

Lemma FHT_stages_exact (r : nat) :
  ∀ (fuel : nat) s a d,
    0 ≤ s → s + Z.of_nat r + 1 = M → (r < fuel)%nat →
    a = (PI / IZR (2 ^ s))%R → blocks M x s d →
    ∃ d', FHT_stages cos fuel 0 (2 ^ M) (2 ^ s) a d = Some d'
          ∧ blocks M x M d'.
Proof.
  induction r as [|r IH]; intros fuel s a d Hs HsM Hfuel Ha Hd;
    (destruct fuel as [|fuel]; [lia|]); cbn [FHT_stages];
    pose proof (pow2_pos s Hs) as Hps;
    pose proof (pow2_pos (M - s - 1) ltac:(lia)) as Hpc;
    (assert (Hsplit : 2 ^ M = 2 ^ (M - s - 1) * (2 * 2 ^ s));
     [rewrite <- Z.pow_succ_r, <- Z.pow_add_r by lia; f_equal; lia|]);
    (assert (Heven : 1 < 2 ^ s → 2 ^ s = 2 * (2 ^ s `div` 2));
     [intros Hgt; destruct (Z.eq_dec s 0) as [->|];
        [change (2 ^ 0) with 1 in Hgt; lia|];
      replace (2 ^ s) with (2 ^ (s - 1) * 2)
        by (rewrite Z.mul_comm, <- Z.pow_succ_r by lia; f_equal; lia);
      rewrite Z.div_mul by lia; lia|]);
    pose proof Hd as [Hl _];
    rewrite Hsplit;
    (destruct (FHT_stage_exact (2 ^ s) (2 ^ (M - s - 1)) d) with (a := a)
       as (d1 & -> & Hd1); [lia|lia|lia|done|done|]);
    cbn [mbind option_bind];
    pose proof (blocks_step s d d1 ltac:(lia) Hd Hd1) as Hd1';
    rewrite <- Hsplit;
    rewrite Z.shiftl_mul_pow2 by lia; change (2 ^ 1) with 2;
    replace (2 ^ s * 2) with (2 ^ (s + 1))
      by (rewrite Z.pow_add_r by lia; done).
  - replace (s + 1) with M in * by lia. rewrite Z.ltb_irrefl. by exists d1.
  - assert (2 ^ (s + 1) < 2 ^ M) by (apply Z.pow_lt_mono_r; lia).
    destruct (Z.ltb_spec (2 ^ (s + 1)) (2 ^ M)) as [_|]; [|lia].
    apply (IH fuel (s + 1)); [lia|lia|lia| |done].
    rewrite Ha. cbn [d_mul d_half arith].
    rewrite Z.pow_add_r, mult_IZR by lia. change (2 ^ 1) with 2.
    assert (IZR (2 ^ s) ≠ 0%R) by (apply not_0_IZR; lia).
    field. done.
Qed.

End Exact.

Section ExactFHT.
Import exact.

(** The loop [data[k] *= sc] of the inverse direction. *)
Lemma FHT_scale_exact (d : list R) (N : Z) (sc : R) :
  Z.of_nat (length d) = N →
  ∃ d', for_range 0 N
          (λ k data, x ← load data (0 + k); store data (0 + k) (f_mul x sc))
          d = Some d' ∧
        length d' = length d ∧
        ∀ i, 0 ≤ i < N → sample d' i = (sample d i * sc)%R.
Proof.
  intros Hlen.
  destruct (for_range_total
              (λ k d', length d' = length d ∧
                       ∀ i, 0 ≤ i →
                            sample d' i
                            = if i <? k then (sample d i * sc)%R
                              else sample d i)
              0 N
              (λ k data, x ← load data (0 + k);
                         store data (0 + k) (f_mul x sc)) d)
    as (d' & -> & Hl & Hd'); [lia| | |].
  - split; [done|]. intros i Hi. by destruct (Z.ltb_spec i 0); [lia|].
  - intros k d0 Hk [Hl0 Hd0]. rewrite Z.add_0_l.
    rewrite (load_sample d0 k) by lia. cbn [mbind option_bind].
    rewrite store_is_Some by lia. eexists. split; [done|].
    split; [by rewrite length_insert|]. intros i Hi0.
    rewrite sample_insert by lia. cbn [f_mul arith].
    case_decide as Hi.
    + subst i. destruct (Z.ltb_spec k (k + 1)); [|lia].
      rewrite Hd0 by done. by destruct (Z.ltb_spec k k); [lia|].
    + rewrite Hd0 by done.
      destruct (Z.ltb_spec i k), (Z.ltb_spec i (k + 1)); try done; lia.
  - exists d'. split; [done|]. split; [done|]. intros i Hi.
    rewrite Hd' by lia. by destruct (Z.ltb_spec i N); [|lia].
Qed.

Lemma FHT_exact_spec (x : list R) (M : Z) (inverse : bool) :
  1 ≤ M ≤ 30 → Z.of_nat (length x) = 2 ^ M →
  ∃ d, FHT cos x 0 M inverse = Some d ∧
       length d = length x ∧
       ∀ k, 0 ≤ k < 2 ^ M →
         sample d k = if inverse then (DHT x k * (1 / IZR (2 ^ M)))%R
                      else DHT x k.
Proof.
  intros HM Hlen. unfold FHT. rewrite Z.shiftl_1_l.
  pose proof (FHT_revbin_spec (Z.to_nat M) 0 x) as Hrev.
  rewrite Z2Nat.id in Hrev by lia.
  destruct Hrev as (d0 & -> & [Hl0 _] & Hd0); [lia|done|lia|].
  cbn [mbind option_bind].
  pose proof (blocks_init M x d0 Hl0 Hd0) as Hb0.
  destruct (FHT_stages_exact M x HM Hlen (Z.to_nat (M - 1)) (S (Z.to_nat M)) 0
              d_pi d0) as (d1 & Hrun & Hl1 & Hd1); [lia|lia|lia| |done|].
  { cbn [d_pi arith]. change (2 ^ 0) with 1. lra. }
  change (2 ^ 0) with 1 in Hrun. rewrite Hrun. cbn [mbind option_bind].
  assert (Hdht : ∀ k, 0 ≤ k < 2 ^ M → sample d1 k = DHT x k).
  { intros k Hk. pose proof (pow2_pos M ltac:(lia)).
    specialize (Hd1 0 k). rewrite Z.sub_diag in Hd1.
    change (2 ^ 0) with 1 in Hd1. rewrite Z.mul_0_l, Z.add_0_l in Hd1.
    rewrite Hd1 by lia. unfold DHT. rewrite Hlen.
    apply dht_ext. intros j _. unfold block_input.
    rewrite Z.sub_diag. change (Z.to_nat 0) with 0%nat. cbn [revbin].
    change (2 ^ 0) with 1. f_equal. lia. }
  destruct inverse.
  - destruct (FHT_scale_exact d1 (2 ^ M)
                (f_div (f_of_int 1) (f_of_int (2 ^ M))))
      as (d2 & -> & Hl2 & Hd2); [lia|].
    exists d2. split; [done|]. split; [congruence|].
    intros k Hk. rewrite Hd2, Hdht by done. done.
  - exists d1. split; [done|]. split; [done|]. done.
Qed.


(** In exact arithmetic (the samples real numbers, [cos] and [sqrt] the
    real functions, [M_PI] the number pi) [FHT] computes the discrete
    Hartley transform: on a buffer [x] of [2^M] samples ([1 ≤ M ≤ 30]) the
    forward direction leaves in cell [k] the sum of [x[j] * cas(2 pi j k /
    2^M)] over [j], and the inverse direction the same sum divided by
    [2^M]. *)
Theorem FHT_computes_DHT (x : list R) (M : Z) (inverse : bool) :
  1 ≤ M ≤ 30 → Z.of_nat (length x) = 2 ^ M →
  ∃ d, FHT cos x 0 M inverse = Some d ∧
       length d = length x ∧
       ∀ k, 0 ≤ k < 2 ^ M →
         load d k = Some (if inverse then (DHT x k * (1 / IZR (2 ^ M)))%R
                          else DHT x k).
Proof.
  intros HM Hlen.
  destruct (FHT_exact_spec x M inverse HM Hlen) as (d & Hrun & Hl & Hd).
  exists d. split; [done|]. split; [done|]. intros k Hk.
  rewrite load_sample by lia. by rewrite Hd.
Qed.

(** In exact arithmetic the inverse transform undoes the forward one: on
    every buffer of [2^M] samples ([1 ≤ M ≤ 30]), [FHT] forward and then
    [FHT] inverse give back the buffer. *)
Theorem FHT_round_trip_exact (x : list R) (M : Z) :
  1 ≤ M ≤ 30 → Z.of_nat (length x) = 2 ^ M →
  (d ← FHT cos x 0 M false; FHT cos d 0 M true) = Some x.
Proof.
  intros HM Hlen.
  destruct (FHT_exact_spec x M false HM Hlen) as (d1 & -> & Hl1 & Hd1).
  cbn [mbind option_bind].
  destruct (FHT_exact_spec d1 M true HM ltac:(lia)) as (d2 & -> & Hl2 & Hd2).
  f_equal. pose proof (pow2_pos M ltac:(lia)) as Hp.
  assert (HNz : IZR (2 ^ M) ≠ 0%R) by (apply not_0_IZR; lia).
  apply list_eq. intros i.
  destruct (decide (i < length x)%nat) as [Hi|Hi]; cycle 1.
  { rewrite !lookup_ge_None_2 by lia. done. }
  assert (Hs : sample d2 (Z.of_nat i) = sample x (Z.of_nat i)).
  { rewrite Hd2 by lia. unfold DHT. rewrite Hl1, Hlen.
    rewrite (dht_ext _ (sample d1) (dht (2 ^ M) (sample x))).
    - rewrite dht_involutive by lia. field. done.
    - intros j Hj. rewrite Hd1 by done. unfold DHT. by rewrite Hlen. }
  pose proof (load_sample d2 (Z.of_nat i) ltac:(lia)) as H2.
  pose proof (load_sample x (Z.of_nat i) ltac:(lia)) as Hx.
  unfold load in H2, Hx. rewrite Nat2Z.id in H2, Hx.
  destruct (Z.leb_spec 0 (Z.of_nat i)); [|lia].
  by rewrite H2, Hx, Hs.
Qed.

End ExactFHT.
(** ** Loops that run in step *)

Section Sim.
Context {I S S' : Type} (R : S → S' → Prop).

Lemma for_each_sim (body : I → S → option S) (body' : I → S' → option S') l :
  (∀ i s s' s1, i ∈ l → R s s' → body i s = Some s1 →
     ∃ s1', body' i s' = Some s1' ∧ R s1 s1') →
  ∀ s s' s1, R s s' → for_each body l s = Some s1 →
    ∃ s1', for_each body' l s' = Some s1' ∧ R s1 s1'.
Proof.
  induction l as [|i l IH]; intros Hbody s s' s1 HR; cbn [for_each].
  - intros [= <-]. by exists s'.
  - destruct (body i s) as [s2|] eqn:H2; [|done]. cbn [mbind option_bind].
    intros Hrest.
    destruct (Hbody i s s' s2) as (s2' & -> & HR2);
      [apply elem_of_cons; by left|done|done|].
    cbn [mbind option_bind]. apply (IH (λ i0 s0 s0' s3 Hi0, Hbody i0 s0 s0' s3
      (proj2 (elem_of_cons l i0 i) (or_intror Hi0))) s2 s2' s1 HR2 Hrest).
Qed.

End Sim.

Lemma for_range_sim {S S'} (R : S → S' → Prop) lo hi
    (body : Z → S → option S) (body' : Z → S' → option S') :
  (∀ i s s' s1, lo ≤ i < hi → R s s' → body i s = Some s1 →
     ∃ s1', body' i s' = Some s1' ∧ R s1 s1') →
  ∀ s s' s1, R s s' → for_range lo hi body s = Some s1 →
    ∃ s1', for_range lo hi body' s' = Some s1' ∧ R s1 s1'.
Proof.
  intros Hbody. apply for_each_sim.
  intros i s s' s1 [? ?]%elem_of_seqZ. apply Hbody. lia.
Qed.

Lemma for_step_sim {S S'} (R : S → S' → Prop) lo hi step
    (body : Z → S → option S) (body' : Z → S' → option S') :
  (∀ i s s' s1, R s s' → body i s = Some s1 →
     ∃ s1', body' i s' = Some s1' ∧ R s1 s1') →
  ∀ s s' s1, R s s' → for_step lo hi step body s = Some s1 →
    ∃ s1', for_step lo hi step body' s' = Some s1' ∧ R s1 s1'.
Proof. intros Hbody. apply for_each_sim. intros i s s' s1 _. apply Hbody. Qed.

(** ** [FHT] on a part of a buffer *)

Section FHTWindow.
Context {F D : Type} `{!FloatArith F D} (cos : D → D).
Variables (pre post : list F).

Local Abbreviation base := (Z.of_nat (length pre)).
Local Abbreviation emb w := (pre ++ w ++ post).

Lemma load_window_at (w : list F) i i' v :
  load w i = Some v → i' = base + i → load (emb w) i' = Some v.
Proof. intros Hv ->. by apply load_window. Qed.

Lemma store_window_at (w : list F) i i' v w' :
  store w i v = Some w' → i' = base + i → store (emb w) i' v = Some (emb w').
Proof. intros Hv ->. by apply store_window. Qed.

End FHTWindow.

(** Runs the next load or store of [H], a run on the part, on the whole
    buffer of the goal. *)
Ltac window_op H :=
  lazymatch type of H with
  | mbind _ (load ?w ?i) = Some _ =>
      let v := fresh "v" in
      let E := fresh "E" in
      destruct (load w i) as [v|] eqn:E; [|done];
      cbn [mbind option_bind] in H;
      lazymatch goal with
      | |- context [mbind _ (load (?pre ++ w ++ ?post) ?i')] =>
          rewrite (load_window_at pre post w i i' v E) by lia;
          cbn [mbind option_bind]
      end
  | mbind _ (store ?w ?i ?x) = Some _ =>
      let w1 := fresh "w" in
      let E := fresh "E" in
      destruct (store w i x) as [w1|] eqn:E; [|done];
      cbn [mbind option_bind] in H;
      lazymatch goal with
      | |- context [mbind _ (store (?pre ++ w ++ ?post) ?i' x)] =>
          rewrite (store_window_at pre post w i i' x w1 E) by lia;
          cbn [mbind option_bind]
      end
  end.

Section FHTWindow2.
Context {F D : Type} `{!FloatArith F D} (cos : D → D).
Variables (pre post : list F).

Local Abbreviation base := (Z.of_nat (length pre)).
Local Abbreviation emb w := (pre ++ w ++ post).

Lemma FHT_butterfly_window p q p' q' (w w' : list F) :
  p' = base + p → q' = base + q →
  FHT_butterfly p q w = Some w' →
  FHT_butterfly p' q' (emb w) = Some (emb w').
Proof.
  intros Hp Hq Hrun. unfold FHT_butterfly in *.
  do 4 window_op Hrun.
  eapply store_window_at; [exact Hrun|lia].
Qed.

Lemma FHT_rotate_window fc fs pk pnk pnbd pbd pk' pnk' pnbd' pbd'
    (w w' : list F) :
  pk' = base + pk → pnk' = base + pnk → pnbd' = base + pnbd →
  pbd' = base + pbd →
  FHT_rotate fc fs pk pnk pnbd pbd w = Some w' →
  FHT_rotate fc fs pk' pnk' pnbd' pbd' (emb w) = Some (emb w').
Proof.
  intros H1 H2 H3 H4 Hrun. unfold FHT_rotate in *.
  do 2 window_op Hrun. cbv zeta in Hrun |- *.
  do 7 window_op Hrun.
  eapply store_window_at; [exact Hrun|lia].
Qed.

End FHTWindow2.

Section Map.
Context {I S S' : Type} (g : S → S').

Lemma for_each_map (body : I → S → option S) (body' : I → S' → option S') l :
  (∀ i s s1, body i s = Some s1 → body' i (g s) = Some (g s1)) →
  ∀ s s1, for_each body l s = Some s1 →
          for_each body' l (g s) = Some (g s1).
Proof.
  intros Hbody s s1 Hrun.
  destruct (for_each_sim (λ s s', s' = g s) body body' l) with
    (s := s) (s' := g s) (s1 := s1) as (s1' & -> & ->); [|done|done|done].
  intros i s0 s0' s2 _ -> H2. exists (g s2). split; [|done]. by apply Hbody.
Qed.

End Map.

Lemma for_range_map {S S'} (g : S → S') lo hi
    (body : Z → S → option S) (body' : Z → S' → option S') :
  (∀ i s s1, body i s = Some s1 → body' i (g s) = Some (g s1)) →
  ∀ s s1, for_range lo hi body s = Some s1 →
          for_range lo hi body' (g s) = Some (g s1).
Proof. apply for_each_map. Qed.

Lemma for_step_map {S S'} (g : S → S') lo hi step
    (body : Z → S → option S) (body' : Z → S' → option S') :
  (∀ i s s1, body i s = Some s1 → body' i (g s) = Some (g s1)) →
  ∀ s s1, for_step lo hi step body s = Some s1 →
          for_step lo hi step body' (g s) = Some (g s1).
Proof. apply for_each_map. Qed.

Section FHTWindow3.
Context {F D : Type} `{!FloatArith F D} (cos : D → D).
Variables (pre post : list F).

Local Abbreviation base := (Z.of_nat (length pre)).
Local Abbreviation emb := (λ w : list F, pre ++ w ++ post).
Variable b : Z.

Lemma FHT_stage_window len n a (w w' : list F) :
  FHT_stage cos b len n a w = Some w' →
  FHT_stage cos (base + b) len n a (emb w) = Some (emb w').
Proof.
  unfold FHT_stage. intros Hrun.
  destruct (for_step 0 len _ _ w) as [w1|] eqn:H1; [|done].
  cbn [mbind option_bind] in Hrun.
  rewrite (for_step_map emb _ _ _ _ _ (λ k s s1,
             FHT_butterfly_window pre post (b + k) (b + n + k)
               (base + b + k) (base + b + n + k) s s1 ltac:(lia) ltac:(lia)) w w1 H1).
  cbn [mbind option_bind].
  assert (Hlast : ∀ w2,
            (if 1 <? n
             then for_step (Z.shiftr n 1) len (Z.shiftl n 1)
                    (λ k, FHT_butterfly (b + k) (b + n + k)) w2
             else Some w2) = Some w' →
            (if 1 <? n
             then for_step (Z.shiftr n 1) len (Z.shiftl n 1)
                    (λ k, FHT_butterfly (base + b + k) (base + b + n + k)) (emb w2)
             else Some (emb w2)) = Some (emb w')).
  { intros w2 H2. destruct (1 <? n); [|by injection H2 as ->].
    apply (for_step_map emb _ _ _ _ _ (λ k s s1,
             FHT_butterfly_window pre post (b + k) (b + n + k)
               (base + b + k) (base + b + n + k) s s1 ltac:(lia) ltac:(lia)) w2 w' H2). }
  destruct (2 <? n); [|cbn [mbind option_bind] in *; by apply Hlast].
  cbv zeta in Hrun |- *.
  match type of Hrun with
  | mbind _ (mbind _ (for_range 1 ?hi ?body ?s)) = _ =>
      destruct (for_range 1 hi body s) as [[[[w2 fc] fs] bd]|] eqn:H2;
      [|done]
  end.
  cbn [mbind option_bind] in Hrun.
  erewrite (for_range_map
              (λ '(w, fc, fs, bd), (emb w, fc, fs, bd)) 1 _ _ _ _
              (w1, _, _, _) (w2, fc, fs, bd) H2).
  - cbn [mbind option_bind]. by apply Hlast.
  Unshelve.
  intros bl [[[w3 fc3] fs3] bd3] [[[w4 fc4] fs4] bd4] Hbody.
  destruct (for_step bl len _ _ w3) as [w5|] eqn:H5; [|done].
  cbn [mbind option_bind] in Hbody. injection Hbody as <- <- <- <-.
  rewrite (for_step_map emb _ _ _ _ _ (λ k s s1,
             FHT_rotate_window pre post fc3 fs3
               (b + k) (b + n + k) (b + n + bd3 + k) (b + bd3 + k)
               (base + b + k) (base + b + n + k) (base + b + n + bd3 + k)
               (base + b + bd3 + k)
               s s1 ltac:(lia) ltac:(lia) ltac:(lia) ltac:(lia)) w3 w5 H5).
  done.
Qed.

Lemma FHT_stages_window (fuel : nat) :
  ∀ len n a (w w' : list F),
    FHT_stages cos fuel b len n a w = Some w' →
    FHT_stages cos fuel (base + b) len n a (emb w) = Some (emb w').
Proof.
  induction fuel as [|fuel IH]; intros len n a w w'; cbn [FHT_stages];
    [done|].
  destruct (FHT_stage cos b len n a w) as [w1|] eqn:H1; [|done].
  cbn [mbind option_bind]. rewrite (FHT_stage_window _ _ _ _ _ H1).
  cbn [mbind option_bind]. destruct (_ <? _); [apply IH|by intros [= ->]].
Qed.

Lemma FHT_revbin_window len (w w' : list F) :
  FHT_revbin b len w = Some w' →
  FHT_revbin (base + b) len (emb w) = Some (emb w').
Proof.
  unfold FHT_revbin. intros Hrun.
  destruct (for_range 1 _ _ _) as [[w1 j1]|] eqn:H1; [|done].
  injection Hrun as <-.
  eapply (for_range_map (λ '(w, j), (emb w, j))) in H1.
  { cbn beta iota in H1. erewrite H1. done. }
  intros i [w2 j2] [w3 j3] Hbody. cbn beta iota in Hbody |- *.
  destruct (revbin_upd j2 _) as [j|]; [|done].
  cbn [mbind option_bind] in Hbody |- *.
  destruct (i <? j); [|by injection Hbody as <- <-].
  do 4 window_op Hbody. by injection Hbody as <- <-.
Qed.

Lemma FHT_window M inverse (w w' : list F) :
  FHT cos w b M inverse = Some w' →
  FHT cos (emb w) (base + b) M inverse = Some (emb w').
Proof.
  unfold FHT. intros Hrun.
  destruct (FHT_revbin b _ w) as [w1|] eqn:H1; [|done].
  cbn [mbind option_bind] in Hrun |- *.
  rewrite (FHT_revbin_window _ _ _ H1). cbn [mbind option_bind].
  destruct (FHT_stages cos _ b _ 1 d_pi w1) as [w2|] eqn:H2; [|done].
  cbn [mbind option_bind] in Hrun |- *.
  rewrite (FHT_stages_window _ _ _ _ _ _ H2). cbn [mbind option_bind].
  destruct inverse; [|by injection Hrun as ->].
  cbv zeta in Hrun |- *.
  eapply (for_range_map emb) in Hrun; [exact Hrun|].
  intros k s s1 Hbody. cbv beta in Hbody |- *. window_op Hbody.
  eapply store_window_at; [exact Hbody|lia].
Qed.

End FHTWindow3.

(** ** [FHT] on the rows of a grid, in exact arithmetic *)

Section ExactRows.
Import exact.

Lemma sample_window (pre w post : list R) k :
  0 ≤ k < Z.of_nat (length w) →
  sample (pre ++ w ++ post) (Z.of_nat (length pre) + k) = sample w k.
Proof.
  intros Hk. unfold sample at 1.
  by rewrite (load_window pre post w k (sample w k)) by (by apply load_sample).
Qed.

Lemma FHT_exact_at (data : list R) base M inverse :
  1 ≤ M ≤ 30 → 0 ≤ base → base + 2 ^ M ≤ Z.of_nat (length data) →
  ∃ d, FHT cos data base M inverse = Some d ∧
       same_outside base (2 ^ M) data d ∧
       ∀ k, 0 ≤ k < 2 ^ M →
         sample d (base + k)
         = (dht (2 ^ M) (λ j, sample data (base + j)) k * scale M inverse)%R.
Proof.
  intros HM Hbase Hlen. pose proof (pow2_pos M ltac:(lia)) as Hp.
  destruct (window_split data base (2 ^ M))
    as (pre & w & post & -> & Hpre & Hw); [done|lia|done|].
  destruct (FHT_exact_spec w M inverse HM Hw) as (w' & Hrun & Hl & Hd).
  rewrite <- Hpre.
  pose proof (FHT_window cos pre post 0 M inverse w w' Hrun) as Hrun'.
  rewrite Z.add_0_r in Hrun'. rewrite Hrun'.
  eexists. split; [done|]. split.
  - rewrite <- Hw. by apply same_outside_window.
  - intros k Hk. rewrite !sample_window by lia. rewrite Hd by done.
    unfold DHT, scale. rewrite Hw.
    rewrite (dht_ext (2 ^ M) (sample w)
               (λ j, sample (pre ++ w ++ post) (Z.of_nat (length pre) + j)))
      by (intros j Hj; by rewrite sample_window by lia).
    destruct inverse; [done|lra].
Qed.

(** The row of [2^Mw] samples that starts at the cell [b]. *)
Local Abbreviation row data b := (λ j : Z, sample data (b + j)).

Lemma FHT_rows_exact (data : list R) Mw rows total inverse :
  1 ≤ Mw ≤ 30 → 0 ≤ rows ≤ total →
  Z.of_nat (length data) = 2 ^ Mw * total →
  ∃ d, for_range 0 rows
         (λ j d, FHT cos d (0 + 2 ^ Mw * j) Mw inverse) data = Some d ∧
       length d = length data ∧
       ∀ r c, 0 ≤ r < total → 0 ≤ c < 2 ^ Mw →
         sample d (2 ^ Mw * r + c)
         = if r <? rows
           then (dht (2 ^ Mw) (row data (2 ^ Mw * r)) c * scale Mw inverse)%R
           else sample data (2 ^ Mw * r + c).
Proof.
  intros HM Hrows Hlen. pose proof (pow2_pos Mw ltac:(lia)) as Hp.
  destruct (for_range_total
              (λ j d, length d = length data ∧
                 ∀ r c, 0 ≤ r < total → 0 ≤ c < 2 ^ Mw →
                   sample d (2 ^ Mw * r + c)
                   = if r <? j
                     then (dht (2 ^ Mw) (row data (2 ^ Mw * r)) c
                           * scale Mw inverse)%R
                     else sample data (2 ^ Mw * r + c))
              0 rows (λ j d, FHT cos d (0 + 2 ^ Mw * j) Mw inverse) data)
    as (d & Hrun & Hl & Hd); [lia| | |by exists d].
  - split; [done|]. intros r c Hr Hc. by destruct (Z.ltb_spec r 0); [lia|].
  - intros j d0 Hj [Hl0 Hd0]. rewrite Z.add_0_l.
    destruct (FHT_exact_at d0 (2 ^ Mw * j) Mw inverse)
      as (d1 & -> & [Hl1 Hout] & Hd1); [done|nia|nia|].
    exists d1. split; [done|]. split; [congruence|].
    intros r c Hr Hc. destruct (Z.eq_dec r j) as [->|Hne].
    + destruct (Z.ltb_spec j (j + 1)); [|lia]. rewrite Hd1 by done.
      f_equal. apply dht_ext. intros i Hi. rewrite Hd0 by lia.
      by destruct (Z.ltb_spec j j); [lia|].
    + unfold sample at 1. rewrite Hout by nia. fold (sample d0 (2 ^ Mw * r + c)).
      rewrite Hd0 by done.
      destruct (Z.ltb_spec r j), (Z.ltb_spec r (j + 1)); try done; lia.
Qed.

End ExactRows.

(** ** The last pass of [FHT2D], in exact arithmetic *)

Section Finalize.
Import exact.

Lemma mirror_cases n u :
  0 < n → 0 ≤ u < n →
  (u = 0 ∧ mirror n u = 0) ∨ (0 < u ∧ mirror n u = n - u).
Proof.
  intros Hn Hu. unfold mirror. destruct (Z.eq_dec u 0) as [->|].
  - left. by rewrite Z.sub_0_r, Z.mod_same by lia.
  - right. rewrite Z.mod_small by lia. lia.
Qed.

Lemma mirror_mirror n u : 0 < n → 0 ≤ u < n → mirror n (mirror n u) = u.
Proof.
  intros Hn Hu.
  destruct (mirror_cases n u Hn Hu) as [[-> E]|[? E]].
  - rewrite E. unfold mirror. by rewrite Z.sub_0_r, Z.mod_same by lia.
  - destruct (mirror_cases n (mirror n u) Hn ltac:(lia)) as [[? ?]|[? ?]]; lia.
Qed.

Lemma min_mirror_eq n2 u j :
  1 ≤ n2 → 0 ≤ u < 2 * n2 → 0 ≤ j ≤ n2 →
  Z.min u (mirror (2 * n2) u) = j ↔ u = j ∨ u = mirror (2 * n2) j.
Proof.
  intros Hn Hu Hj.
  destruct (mirror_cases (2 * n2) u ltac:(lia) Hu) as [[? ?]|[? ?]];
    destruct (mirror_cases (2 * n2) j ltac:(lia) ltac:(lia)) as [[? ?]|[? ?]];
    lia.
Qed.

Variables (Mw Mh w2 h2 : Z) (d : list R).
Hypothesis HMw : 0 ≤ Mw.
Hypothesis HMh : 0 ≤ Mh.
Hypothesis Hw2 : 1 ≤ w2.
Hypothesis Hh2 : 1 ≤ h2.
Hypothesis HW : 2 ^ Mw = 2 * w2.
Hypothesis HH : 2 ^ Mh = 2 * h2.
Hypothesis Hlen : Z.of_nat (length d) = (2 * h2) * (2 * w2).

Local Abbreviation W := (2 * w2).
Local Abbreviation Hh := (2 * h2).

Lemma fin_cell_eq u v r c :
  0 ≤ v < W → 0 ≤ c < W → u * W + v = r * W + c ↔ u = r ∧ v = c.
Proof.
  intros Hv Hc. split; [|by intros [-> ->]]. intros Heq.
  destruct (grid_index_inj W v u c r); [lia|lia|lia|done].
Qed.

Lemma fin_cell_bound u v :
  0 ≤ u < Hh → 0 ≤ v < W → 0 ≤ u * W + v < Hh * W.
Proof. intros Hu Hv. nia. Qed.

Lemma fin_pos_eq u v j i :
  0 ≤ u < Hh → 0 ≤ v < W → 0 ≤ i ≤ w2 →
  fin_pos W Hh u v = j * (w2 + 1) + i
  ↔ Z.min u (mirror Hh u) = j ∧ Z.min v (mirror W v) = i.
Proof.
  intros Hu Hv Hi. unfold fin_pos.
  replace (W `div` 2) with w2 by (rewrite Z.mul_comm, Z.div_mul; lia).
  destruct (mirror_cases W v ltac:(lia) Hv) as [[? ?]|[? ?]];
    (split; [|by intros [-> ->]]); intros Heq;
    destruct (grid_index_inj (w2 + 1) (Z.min v (mirror W v))
                (Z.min u (mirror Hh u)) i j); lia.
Qed.

Lemma fin_pos_group u v j i :
  0 ≤ u < Hh → 0 ≤ v < W → 0 ≤ j ≤ h2 → 0 ≤ i ≤ w2 →
  fin_pos W Hh u v = j * (w2 + 1) + i
  ↔ (u = j ∨ u = mirror Hh j) ∧ (v = i ∨ v = mirror W i).
Proof.
  intros Hu Hv Hj Hi. rewrite fin_pos_eq by done.
  by rewrite !min_mirror_eq by done.
Qed.

Ltac cells :=
  repeat match goal with
  | |- context [decide (?a * W + ?b = ?r * W + ?c)] =>
      let H := fresh in
      let e := fresh in
      pose proof (fin_cell_eq a b r c ltac:(lia) ltac:(lia)) as H;
      destruct (decide (a * W + b = r * W + c)) as [e|e];
      [apply H in e as [? ?]|]; try (exfalso; lia); clear H
  end.

Lemma finalize_at_exact j i d' :
  0 ≤ j ≤ h2 → 0 ≤ i ≤ w2 →
  finalized W Hh d (j * (w2 + 1) + i) d' →
  ∃ d'', FHT2D_finalize_at 0 Mw W Hh j i d' = Some d'' ∧
         finalized W Hh d (j * (w2 + 1) + i + 1) d''.
Proof.
  intros Hj Hi [Hl Hd']. unfold FHT2D_finalize_at.
  replace (Hh - 1) with (2 ^ Mh - 1) by lia.
  replace (W - 1) with (2 ^ Mw - 1) by lia.
  rewrite !land_mask by done. rewrite HW, HH.
  rewrite !Z.shiftl_mul_pow2, HW by done.
  fold (mirror Hh j) (mirror W i).
  rewrite !Z.add_0_l.
  assert (HHh : 0 < Hh) by lia. assert (HWp : 0 < W) by lia.
  assert (Hrj : 0 ≤ j < Hh) by lia. assert (Hri : 0 ≤ i < W) by lia.
  pose proof (mirror_cases Hh j HHh Hrj) as Hjm.
  pose proof (mirror_cases W i HWp Hri) as Him.
  pose proof (mirror_mirror Hh j HHh Hrj) as Hjmm.
  pose proof (mirror_mirror W i HWp Hri) as Himm.
  assert (Hgrp : ∀ u v, 0 ≤ u < Hh → 0 ≤ v < W →
            fin_pos W Hh u v = j * (w2 + 1) + i
            ↔ (u = j ∨ u = mirror Hh j) ∧ (v = i ∨ v = mirror W i)).
  { intros u v Hu Hv. by apply fin_pos_group. }
  remember (mirror Hh j) as jm eqn:Ejm. symmetry in Ejm.
  remember (mirror W i) as im eqn:Eim. symmetry in Eim.
  assert (Hrjm : 0 ≤ jm < Hh) by lia. assert (Hrim : 0 ≤ im < W) by lia.
  clear Hjm Him.
  pose proof (fin_cell_bound j i Hrj Hri) as Hb1.
  pose proof (fin_cell_bound jm i Hrjm Hri) as Hb2.
  pose proof (fin_cell_bound j im Hrj Hrim) as Hb3.
  pose proof (fin_cell_bound jm im Hrjm Hrim) as Hb4.
  rewrite !load_sample by lia. cbn [mbind option_bind].
  rewrite store_is_Some by lia. cbn [mbind option_bind].
  rewrite store_is_Some by (rewrite ?length_insert; lia). cbn [mbind option_bind].
  rewrite store_is_Some by (rewrite ?length_insert; lia). cbn [mbind option_bind].
  rewrite store_is_Some by (rewrite ?length_insert; lia).
  eexists; split; [done|]. split; [by rewrite !length_insert|].
  assert (Hold : ∀ r c, (r = j ∨ r = jm) → (c = i ∨ c = im) →
            sample d' (r * W + c) = sample d (r * W + c)).
  { intros r c Hr Hc. rewrite Hd' by lia.
    destruct (Z.ltb_spec (fin_pos W Hh r c) (j * (w2 + 1) + i)) as [Hlt|];
      [|done].
    exfalso. assert (fin_pos W Hh r c = j * (w2 + 1) + i); [|lia].
    apply Hgrp; [lia|lia|done]. }
  rewrite !Hold by tauto. clear Hold.
  intros u v Hu Hv.
  rewrite !sample_insert by (rewrite ?length_insert; lia).
  specialize (Hgrp u v Hu Hv). specialize (Hd' u v Hu Hv).
  unfold fin_out. clear Hb1 Hb2 Hb3 Hb4 Hl Hlen.
  cbn [f_sub f_add f_mul f_half arith].
  destruct (decide ((u = j ∨ u = jm) ∧ (v = i ∨ v = im))) as [Hin|Hout].
  - apply Hgrp in Hin as Hq. rewrite Hq.
    destruct (Z.ltb_spec (j * (w2 + 1) + i) (j * (w2 + 1) + i + 1)); [|lia].
    clear Hq Hgrp Hd'.
    destruct Hin as [[-> | ->] [-> | ->]];
      rewrite ?Ejm, ?Eim, ?Hjmm, ?Himm; clear Ejm Eim Hjmm Himm;
      cells; subst; lra.
  - assert (Hq : fin_pos W Hh u v ≠ j * (w2 + 1) + i) by tauto.
    rewrite Hd'. clear Hd' Hgrp Ejm Eim Hjmm Himm.
    cells; [tauto..|].
    destruct (Z.ltb_spec (fin_pos W Hh u v) (j * (w2 + 1) + i));
      destruct (Z.ltb_spec (fin_pos W Hh u v) (j * (w2 + 1) + i + 1));
      first [done|lia].
Qed.

Lemma fin_pos_bound u v :
  0 ≤ u < Hh → 0 ≤ v < W → 0 ≤ fin_pos W Hh u v < (w2 + 1) * (h2 + 1).
Proof.
  intros Hu Hv. unfold fin_pos.
  replace (W `div` 2) with w2 by (rewrite Z.mul_comm, Z.div_mul; lia).
  destruct (mirror_cases Hh u ltac:(lia) Hu) as [[? ?]|[? ?]];
    destruct (mirror_cases W v ltac:(lia) Hv) as [[? ?]|[? ?]]; nia.
Qed.

Lemma FHT2D_finalize_exact :
  ∃ d', for_range 0 (Z.shiftr Hh 1 + 1)
          (λ j, for_range 0 (Z.shiftr W 1 + 1)
                  (λ i, FHT2D_finalize_at 0 Mw W Hh j i)) d = Some d' ∧
        length d' = length d ∧
        ∀ u v, 0 ≤ u < Hh → 0 ≤ v < W →
          sample d' (u * W + v) = fin_out W Hh d u v.
Proof.
  rewrite !Z.shiftr_div_pow2 by lia. change (2 ^ 1) with 2.
  replace (W `div` 2) with w2 by (rewrite Z.mul_comm, Z.div_mul; lia).
  replace (Hh `div` 2) with h2 by (rewrite Z.mul_comm, Z.div_mul; lia).
  destruct (for_range_grid_total (finalized W Hh d) (w2 + 1) (h2 + 1)
              (λ i j, FHT2D_finalize_at 0 Mw W Hh j i) d)
    as (d' & Hrun & Hl & Hd'); [lia|lia| | |].
  - split; [done|]. intros u v Hu Hv.
    pose proof (fin_pos_bound u v Hu Hv).
    by destruct (Z.ltb_spec (fin_pos W Hh u v) 0); [lia|].
  - intros i j d0 Hi Hj HP. apply finalize_at_exact; [lia|lia|done].
  - exists d'. split; [done|]. split; [done|]. intros u v Hu Hv.
    rewrite Hd' by done. pose proof (fin_pos_bound u v Hu Hv).
    by destruct (Z.ltb_spec (fin_pos W Hh u v) ((w2 + 1) * (h2 + 1))); [|lia].
Qed.

End Finalize.

(** ** The two-dimensional transform from the one-dimensional ones *)

Section Separable.
Local Open Scope R_scope.

Lemma cas_sum a b :
  cas (a + b)
  = / 2 * (cas a * cas b + cas (- a) * cas b + cas a * cas (- b)
           - cas (- a) * cas (- b)).
Proof.
  unfold cas. rewrite cos_plus, sin_plus, !cos_neg, !sin_neg. lra.
Qed.

Lemma sumZ_lin4 n (a b c e : Z → R) :
  sumZ n (λ j, / 2 * (a j + b j + c j - e j))
  = / 2 * (sumZ n a + sumZ n b + sumZ n c - sumZ n e).
Proof.
  unfold sumZ. induction (Z.to_nat n) as [|m IH]; cbn [sum_upto]; [lra|].
  rewrite IH. lra.
Qed.

Lemma dht_scal n f s k : dht n (λ j, f j * s) k = dht n f k * s.
Proof.
  unfold dht. rewrite (Rmult_comm (sumZ _ _) s), <- sumZ_scal.
  apply sumZ_ext. intros j _. lra.
Qed.

Lemma dht_zero n f k : (∀ j, (0 ≤ j < n)%Z → f j = 0) → dht n f k = 0.
Proof.
  intros Hf. unfold dht. rewrite <- (sumZ_zero n). apply sumZ_ext.
  intros j Hj. rewrite Hf by done. lra.
Qed.

Lemma dht_rows_cols_sum Nx Ny f u v :
  dht_rows_cols Nx Ny f u v
  = sumZ Ny (λ y, sumZ Nx (λ x,
      f x y * (cas (2 * PI * IZR (x * u) / IZR Nx)
               * cas (2 * PI * IZR (y * v) / IZR Ny)))).
Proof.
  unfold dht_rows_cols, dht. apply sumZ_ext. intros y _.
  rewrite (Rmult_comm (sumZ _ _)), <- sumZ_scal.
  apply sumZ_ext. intros x _. lra.
Qed.

Lemma dht2_rows_cols Nx Ny f u v :
  (0 ≤ u < Nx)%Z → (0 ≤ v < Ny)%Z →
  dht2 Nx Ny f u v
  = / 2 * (dht_rows_cols Nx Ny f u v
           + dht_rows_cols Nx Ny f (mirror Nx u) v
           + dht_rows_cols Nx Ny f u (mirror Ny v)
           - dht_rows_cols Nx Ny f (mirror Nx u) (mirror Ny v)).
Proof.
  intros Hu Hv. rewrite !dht_rows_cols_sum, <- sumZ_lin4. unfold dht2.
  apply sumZ_ext. intros y _. rewrite <- sumZ_lin4.
  apply sumZ_ext. intros x _. unfold mirror.
  rewrite <- !(cas_mirror Nx x u), <- !(cas_mirror Ny y v) by lia.
  rewrite cas_sum. lra.
Qed.

End Separable.

(** ** [FHT2D] in exact arithmetic *)

Section ExactFHT2D.
Import exact.

Lemma mirror_bound n u : 0 < n → 0 ≤ mirror n u < n.
Proof. intros Hn. by apply Z.mod_pos_bound. Qed.

Lemma FHT2D_finalize_pow2 (d : list R) Mw Mh :
  1 ≤ Mw → 1 ≤ Mh →
  Z.of_nat (length d) = 2 ^ Mh * 2 ^ Mw →
  ∃ d', for_range 0 (Z.shiftr (2 ^ Mh) 1 + 1)
          (λ j, for_range 0 (Z.shiftr (2 ^ Mw) 1 + 1)
                  (λ i, FHT2D_finalize_at 0 Mw (2 ^ Mw) (2 ^ Mh) j i)) d
        = Some d' ∧
        length d' = length d ∧
        ∀ u v, 0 ≤ u < 2 ^ Mh → 0 ≤ v < 2 ^ Mw →
          sample d' (u * 2 ^ Mw + v) = fin_out (2 ^ Mw) (2 ^ Mh) d u v.
Proof.
  intros HMw HMh Hlen.
  assert (HW : 2 ^ Mw = 2 * 2 ^ (Mw - 1)).
  { rewrite <- Z.pow_succ_r by lia. f_equal. lia. }
  assert (HH : 2 ^ Mh = 2 * 2 ^ (Mh - 1)).
  { rewrite <- Z.pow_succ_r by lia. f_equal. lia. }
  pose proof (pow2_pos (Mw - 1) ltac:(lia)).
  pose proof (pow2_pos (Mh - 1) ltac:(lia)).
  destruct (FHT2D_finalize_exact Mw Mh (2 ^ (Mw - 1)) (2 ^ (Mh - 1)) d)
    as (d' & Hrun & Hl & Hd'); [lia|lia|lia|lia|done|done|lia|].
  rewrite <- HW, <- HH in Hrun. exists d'. split; [done|]. split; [done|].
  intros u v Hu Hv. rewrite HW, HH. apply Hd'; lia.
Qed.

Lemma FHT2D_exact_spec (x : list R) Mx My nzp inverse :
  1 ≤ Mx → 1 ≤ My → Mx + My < 32 →
  Z.of_nat (length x) = 2 ^ Mx * 2 ^ My →
  (inverse = false →
   0 ≤ nzp ≤ 2 ^ My ∧
   ∀ r c, nzp ≤ r < 2 ^ My → 0 ≤ c < 2 ^ Mx →
     sample x (r * 2 ^ Mx + c) = 0%R) →
  ∃ d, FHT2D cos x 0 Mx My nzp inverse = Some d ∧
       length d = length x ∧
       ∀ u v, 0 ≤ u < 2 ^ Mx → 0 ≤ v < 2 ^ My →
         sample d (u * 2 ^ My + v)
         = (dht2 (2 ^ Mx) (2 ^ My) (λ c r, sample x (r * 2 ^ Mx + c)) u v
            * (scale Mx inverse * scale My inverse))%R.
Proof.
  intros HMx HMy HM Hlen Hnzp.
  pose proof (pow2_pos Mx ltac:(lia)) as HNx.
  pose proof (pow2_pos My ltac:(lia)) as HNy.
  unfold FHT2D. rewrite !Z.shiftl_1_l.
  set (f := λ c r : Z, sample x (r * 2 ^ Mx + c)).
  set (maxy := if inverse then 2 ^ My else nzp).
  assert (Hmaxy : 0 ≤ maxy ≤ 2 ^ My).
  { unfold maxy. destruct inverse; [lia|]. by destruct Hnzp. }
  destruct (FHT_rows_exact x Mx maxy (2 ^ My) inverse)
    as (d1 & -> & Hl1 & Hd1); [lia|done|done|].
  cbn [mbind option_bind].
  assert (Hrows : ∀ r c, 0 ≤ r < 2 ^ My → 0 ≤ c < 2 ^ Mx →
            sample d1 (r * 2 ^ Mx + c)
            = (dht (2 ^ Mx) (λ c, f c r) c * scale Mx inverse)%R).
  { intros r c Hr Hc. rewrite (Z.mul_comm r), Hd1 by done.
    destruct (Z.ltb_spec r maxy) as [Hlt|Hge].
    - f_equal. apply dht_ext. intros j Hj. unfold f. f_equal. lia.
    - unfold maxy in Hge. destruct inverse; [lia|].
      destruct Hnzp as [_ Hz]; [done|]. rewrite (Z.mul_comm _ r).
      rewrite Hz by lia. rewrite dht_zero; [unfold scale; lra|].
      intros j Hj. unfold f. apply Hz; lia. }
  clear Hd1.
  rewrite FHT2D_transpose_ref by lia. cbn [mbind option_bind].
  pose proof (transpose_ref_length (2 ^ Mx) (2 ^ My) d1
                ltac:(lia) ltac:(lia) ltac:(lia)) as Hl2.
  assert (Hd2 : ∀ c r, 0 ≤ c < 2 ^ Mx → 0 ≤ r < 2 ^ My →
            sample (transpose_ref (2 ^ Mx) (2 ^ My) d1) (c * 2 ^ My + r)
            = sample d1 (r * 2 ^ Mx + c)).
  { intros c r Hc Hr. unfold sample.
    by rewrite transpose_ref_load by lia. }
  generalize dependent (transpose_ref (2 ^ Mx) (2 ^ My) d1).
  intros d2 Hl2 Hd2.
  destruct (FHT_rows_exact d2 My (2 ^ Mx) (2 ^ Mx) inverse)
    as (d3 & -> & Hl3 & Hd3); [lia|lia|lia|].
  cbn [mbind option_bind].
  assert (Hsep : ∀ u v, 0 ≤ u < 2 ^ Mx → 0 ≤ v < 2 ^ My →
            sample d3 (u * 2 ^ My + v)
            = (dht_rows_cols (2 ^ Mx) (2 ^ My) f u v
               * (scale Mx inverse * scale My inverse))%R).
  { intros u v Hu Hv. rewrite (Z.mul_comm u), Hd3 by done.
    destruct (Z.ltb_spec u (2 ^ Mx)); [|lia].
    unfold dht_rows_cols.
    rewrite (dht_ext _ _ (λ y, dht (2 ^ Mx) (λ c, f c y) u
                               * scale Mx inverse)%R).
    - rewrite dht_scal. lra.
    - intros j Hj. rewrite (Z.mul_comm _ u), Hd2 by done. by apply Hrows. }
  clear Hd3.
  destruct (FHT2D_finalize_pow2 d3 My Mx) as (d4 & -> & Hl4 & Hd4);
    [done|done|lia|].
  exists d4. split; [done|]. split; [lia|].
  intros u v Hu Hv. rewrite Hd4 by done. unfold fin_out.
  pose proof (mirror_bound (2 ^ Mx) u HNx).
  pose proof (mirror_bound (2 ^ My) v HNy).
  rewrite !Hsep by done. rewrite dht2_rows_cols by done. lra.
Qed.

End ExactFHT2D.

(** ** The two-dimensional transform is its own inverse, up to the size *)

Section Involution2.
Local Open Scope R_scope.

Lemma sumZ_rev m :
  (0 ≤ m)%Z → ∀ g, sumZ m (λ j, g (m - 1 - j)%Z) = sumZ m g.
Proof.
  revert m. apply (sumZ_ind (λ m, ∀ g, sumZ m (λ j, g (m - 1 - j)%Z) = sumZ m g)).
  - intros g. by rewrite !sumZ_0.
  - intros m Hm IH g. rewrite !sumZ_succ by done.
    replace (m + 1 - 1 - m)%Z with 0%Z by lia.
    rewrite (sumZ_ext m _ (λ j, (λ i, g (i + 1)%Z) (m - 1 - j)%Z))
      by (intros; cbv beta; f_equal; lia).
    rewrite (IH (λ i, g (i + 1)%Z)), sumZ_shift by done. lra.
Qed.

Lemma sumZ_mirror n g :
  (1 ≤ n)%Z → sumZ n (λ j, g (mirror n j)) = sumZ n g.
Proof.
  intros Hn.
  assert (Hsplit : ∀ h, sumZ n h = h 0%Z + sumZ (n - 1) (λ j, h (j + 1)%Z)).
  { intros h. rewrite sumZ_shift by lia.
    replace n with (n - 1 + 1)%Z at 1 by lia. rewrite sumZ_succ by lia. lra. }
  rewrite (Hsplit g), (Hsplit (λ j, g (mirror n j))). f_equal.
  - unfold mirror. by rewrite Z.sub_0_r, Z.mod_same by lia.
  - rewrite <- (sumZ_rev (n - 1) ltac:(lia) (λ j, g (j + 1)%Z)).
    apply sumZ_ext. intros j Hj. cbv beta. f_equal. unfold mirror.
    rewrite Z.mod_small by lia. lia.
Qed.

Lemma cas_mirror_back n j k :
  (0 < n)%Z → (0 ≤ k < n)%Z →
  cas (2 * PI * IZR (j * k) / IZR n)
  = cas (- (2 * PI * IZR (j * mirror n k) / IZR n)).
Proof.
  intros Hn Hk. pose proof (mirror_bound n k Hn).
  rewrite (cas_mirror n j (mirror n k)) by done.
  fold (mirror n (mirror n k)). by rewrite mirror_mirror.
Qed.

Lemma dht_mirror n f k :
  (1 ≤ n)%Z → (0 ≤ k < n)%Z →
  dht n (λ j, f (mirror n j)) k = dht n f (mirror n k).
Proof.
  intros Hn Hk. unfold dht.
  rewrite <- (sumZ_mirror n
                (λ j, f j * cas (2 * PI * IZR (j * mirror n k) / IZR n)))
    by done.
  apply sumZ_ext. intros j Hj. cbv beta. f_equal.
  unfold mirror at 2. rewrite <- (cas_mirror n (mirror n j) k) by lia.
  rewrite (Z.mul_comm j k), (Z.mul_comm (mirror n j) k).
  by apply cas_mirror_back; lia.
Qed.

Lemma dht_plus n f g k : dht n (λ j, f j + g j) k = dht n f k + dht n g k.
Proof.
  unfold dht. rewrite <- sumZ_plus. apply sumZ_ext. intros j _. lra.
Qed.

Lemma dht_swap n m (h : Z → Z → R) k l :
  dht n (λ x, dht m (λ y, h x y) l) k = dht m (λ y, dht n (λ x, h x y) k) l.
Proof.
  unfold dht.
  rewrite (sumZ_ext n _
             (λ x, sumZ m (λ y, h x y
                                * cas (2 * PI * IZR (y * l) / IZR m)
                                * cas (2 * PI * IZR (x * k) / IZR n)))).
  2: { intros x _. cbv beta. rewrite (Rmult_comm (sumZ _ _)), <- sumZ_scal.
       apply sumZ_ext. intros y _. lra. }
  rewrite sumZ_swap. apply sumZ_ext. intros y _. cbv beta.
  rewrite (Rmult_comm (sumZ _ _)), <- sumZ_scal.
  apply sumZ_ext. intros x _. lra.
Qed.

Variables Nx Ny : Z.
Hypothesis HNx : (1 ≤ Nx)%Z.
Hypothesis HNy : (1 ≤ Ny)%Z.

Local Abbreviation S := (dht_rows_cols Nx Ny).

Lemma dht_rows_cols_ext f g u v :
  (∀ x y, (0 ≤ x < Nx)%Z → (0 ≤ y < Ny)%Z → f x y = g x y) →
  S f u v = S g u v.
Proof.
  intros Hfg. unfold dht_rows_cols. apply dht_ext. intros y Hy.
  apply dht_ext. intros x Hx. by apply Hfg.
Qed.

Lemma dht_rows_cols_lin4 g1 g2 g3 g4 u v :
  S (λ x y, / 2 * (g1 x y + g2 x y + g3 x y - g4 x y)) u v
  = / 2 * (S g1 u v + S g2 u v + S g3 u v - S g4 u v).
Proof.
  rewrite !dht_rows_cols_sum, <- sumZ_lin4. apply sumZ_ext. intros y _.
  rewrite <- sumZ_lin4. apply sumZ_ext. intros x _. lra.
Qed.

Lemma dht_rows_cols_mirror_x f u v :
  (0 ≤ u < Nx)%Z →
  S (λ x y, f (mirror Nx x) y) u v = S f (mirror Nx u) v.
Proof.
  intros Hu. unfold dht_rows_cols. apply dht_ext. intros y _.
  by apply (dht_mirror Nx (λ x, f x y)).
Qed.

Lemma dht_rows_cols_mirror_y f u v :
  (0 ≤ v < Ny)%Z →
  S (λ x y, f x (mirror Ny y)) u v = S f u (mirror Ny v).
Proof.
  intros Hv. unfold dht_rows_cols.
  by apply (dht_mirror Ny (λ y, dht Nx (λ x, f x y) u)).
Qed.

Lemma dht_rows_cols_involutive f u v :
  (0 ≤ u < Nx)%Z → (0 ≤ v < Ny)%Z →
  S (S f) u v = IZR Nx * IZR Ny * f u v.
Proof.
  intros Hu Hv. unfold dht_rows_cols.
  rewrite (dht_ext Ny _ (dht Ny (λ y, IZR Nx * f u y))).
  - rewrite dht_involutive by done. lra.
  - intros y Hy. rewrite dht_swap. apply dht_ext. intros y' Hy'.
    by rewrite (dht_involutive Nx HNx (λ x, f x y')).
Qed.

Lemma dht_rows_cols_dht2 f u v :
  (0 ≤ u < Nx)%Z → (0 ≤ v < Ny)%Z →
  S (dht2 Nx Ny f) u v
  = / 2 * (IZR Nx * IZR Ny)
    * (f u v + f (mirror Nx u) v + f u (mirror Ny v)
       - f (mirror Nx u) (mirror Ny v)).
Proof.
  intros Hu Hv.
  pose proof (mirror_bound Nx u ltac:(lia)).
  pose proof (mirror_bound Ny v ltac:(lia)).
  rewrite (dht_rows_cols_ext _
             (λ x y, / 2 * (S f x y
                            + (λ x y, S f (mirror Nx x) y) x y
                            + (λ x y, S f x (mirror Ny y)) x y
                            - (λ x y, (λ x y, S f (mirror Nx x) y)
                                        x (mirror Ny y)) x y)))
    by (intros; by apply dht2_rows_cols).
  rewrite dht_rows_cols_lin4.
  rewrite (dht_rows_cols_mirror_y (λ x y, S f (mirror Nx x) y)) by done.
  rewrite !(dht_rows_cols_mirror_x (S f)) by done.
  rewrite (dht_rows_cols_mirror_y (S f)) by done.
  rewrite !dht_rows_cols_involutive by done. lra.
Qed.

Lemma dht2_involutive f u v :
  (0 ≤ u < Nx)%Z → (0 ≤ v < Ny)%Z →
  dht2 Nx Ny (dht2 Nx Ny f) u v = IZR Nx * IZR Ny * f u v.
Proof.
  intros Hu Hv.
  pose proof (mirror_bound Nx u ltac:(lia)).
  pose proof (mirror_bound Ny v ltac:(lia)).
  rewrite dht2_rows_cols by done.
  rewrite !dht_rows_cols_dht2 by done.
  rewrite !mirror_mirror by lia. lra.
Qed.

End Involution2.

(** The transform of the transposed grid is the transposed transform. *)
Lemma dht2_transposed Nx Ny (f : Z → Z → R) u v :
  dht2 Ny Nx (λ c r, f r c) v u = dht2 Nx Ny f u v.
Proof.
  unfold dht2. rewrite sumZ_swap. apply sumZ_ext. intros y _.
  apply sumZ_ext. intros x _. cbv beta. f_equal. f_equal. lra.
Qed.

Lemma dht2_ext Nx Ny f g u v :
  (∀ x y, 0 ≤ x < Nx → 0 ≤ y < Ny → f x y = g x y) →
  dht2 Nx Ny f u v = dht2 Nx Ny g u v.
Proof.
  intros Hfg. unfold dht2. apply sumZ_ext. intros y Hy.
  apply sumZ_ext. intros x Hx. cbv beta. by rewrite Hfg.
Qed.

Section ExactFHT2D_top.
Import exact.

(** In exact arithmetic [FHT2D] computes the two-dimensional discrete
    Hartley transform and leaves it transposed: on a grid [x] of [2^My]
    rows of [2^Mx] samples, of which in the forward direction the rows from
    [nzp] on hold zeros, the cell [v] of the row [u] of the result (rows of
    [2^My] cells) holds the sum of [x[r][c] * cas(2 pi (c u / 2^Mx + r v /
    2^My))] over the grid, divided by the number of cells in the inverse
    direction. *)
Theorem FHT2D_computes_DHT2 (x : list R) (Mx My nzp : Z) (inverse : bool) :
  1 ≤ Mx → 1 ≤ My → Mx + My < 32 →
  Z.of_nat (length x) = 2 ^ Mx * 2 ^ My →
  (inverse = false →
   0 ≤ nzp ≤ 2 ^ My ∧
   ∀ r c, nzp ≤ r < 2 ^ My → 0 ≤ c < 2 ^ Mx →
     load x (r * 2 ^ Mx + c) = Some 0%R) →
  ∃ d, FHT2D cos x 0 Mx My nzp inverse = Some d ∧
       length d = length x ∧
       ∀ u v, 0 ≤ u < 2 ^ Mx → 0 ≤ v < 2 ^ My →
         load d (u * 2 ^ My + v)
         = Some (dht2 (2 ^ Mx) (2 ^ My) (λ c r, sample x (r * 2 ^ Mx + c)) u v
                 * (if inverse then 1 / IZR (2 ^ Mx * 2 ^ My) else 1))%R.
Proof.
  intros HMx HMy HM Hlen Hnzp.
  pose proof (pow2_pos Mx ltac:(lia)) as HNx.
  pose proof (pow2_pos My ltac:(lia)) as HNy.
  destruct (FHT2D_exact_spec x Mx My nzp inverse) as (d & Hrun & Hl & Hd);
    [done|done|done|done| |].
  { intros Hi. destruct (Hnzp Hi) as [Hn Hz]. split; [done|].
    intros r c Hr Hc. unfold sample. by rewrite Hz. }
  exists d. split; [done|]. split; [done|]. intros u v Hu Hv.
  rewrite load_sample by nia. rewrite Hd by done. do 2 f_equal.
  unfold scale. destruct inverse; [|lra].
  rewrite mult_IZR. field. split; apply not_0_IZR; lia.
Qed.

(** In exact arithmetic the inverse [FHT2D] undoes the forward one: a grid
    of [2^My] rows of [2^Mx] samples whose rows from [nzp] on hold zeros
    comes back from [FHT2D(.., Mx, My, nzp, 0)] followed by
    [FHT2D(.., My, Mx, .., 1)], the call on the transposed grid. *)
Theorem FHT2D_round_trip_exact (x : list R) (Mx My nzp nzp' : Z) :
  1 ≤ Mx → 1 ≤ My → Mx + My < 32 →
  Z.of_nat (length x) = 2 ^ Mx * 2 ^ My →
  0 ≤ nzp ≤ 2 ^ My →
  (∀ r c, nzp ≤ r < 2 ^ My → 0 ≤ c < 2 ^ Mx →
     load x (r * 2 ^ Mx + c) = Some 0%R) →
  (d ← FHT2D cos x 0 Mx My nzp false; FHT2D cos d 0 My Mx nzp' true)
  = Some x.
Proof.
  intros HMx HMy HM Hlen Hnzp Hz.
  pose proof (pow2_pos Mx ltac:(lia)) as HNx.
  pose proof (pow2_pos My ltac:(lia)) as HNy.
  destruct (FHT2D_exact_spec x Mx My nzp false) as (d1 & -> & Hl1 & Hd1);
    [done|done|done|done| |].
  { intros _. split; [done|]. intros r c Hr Hc. unfold sample.
    by rewrite Hz. }
  cbn [mbind option_bind].
  destruct (FHT2D_exact_spec d1 My Mx nzp' true) as (d2 & -> & Hl2 & Hd2);
    [done|done|lia|lia|done|].
  f_equal. apply list_eq. intros i.
  destruct (decide (i < length x)%nat) as [Hi|Hi]; cycle 1.
  { rewrite !lookup_ge_None_2 by lia. done. }
  set (a := Z.of_nat i `div` 2 ^ Mx). set (b := Z.of_nat i `mod` 2 ^ Mx).
  assert (Hab : Z.of_nat i = a * 2 ^ Mx + b).
  { unfold a, b. rewrite (Z.mul_comm _ (2 ^ Mx)). apply Z.div_mod. lia. }
  assert (Hb : 0 ≤ b < 2 ^ Mx) by (apply Z.mod_pos_bound; lia).
  assert (Ha : 0 ≤ a < 2 ^ My).
  { split; [apply Z.div_pos; lia|].
    apply Z.div_lt_upper_bound; [lia|]. lia. }
  assert (Hs : sample d2 (Z.of_nat i) = sample x (Z.of_nat i)).
  { rewrite Hab, Hd2 by done.
    rewrite (dht2_ext _ _ _
               (λ c r, dht2 (2 ^ Mx) (2 ^ My)
                         (λ c r, sample x (r * 2 ^ Mx + c)) r c)).
    - rewrite (dht2_transposed (2 ^ Mx) (2 ^ My)
                 (dht2 (2 ^ Mx) (2 ^ My) (λ c r, sample x (r * 2 ^ Mx + c)))).
      rewrite dht2_involutive by lia. unfold scale.
      field. split; apply not_0_IZR; lia.
    - intros c r Hc Hr. rewrite Hd1 by done. unfold scale. lra. }
  pose proof (load_sample d2 (Z.of_nat i) ltac:(lia)) as H2.
  pose proof (load_sample x (Z.of_nat i) ltac:(lia)) as Hx.
  unfold load in H2, Hx. rewrite Nat2Z.id in H2, Hx.
  destruct (Z.leb_spec 0 (Z.of_nat i)); [|lia].
  by rewrite H2, Hx, Hs.
Qed.

End ExactFHT2D_top.

(** ** [fht_convolve] in exact arithmetic *)

Lemma mirror_0 n : 0 < n → mirror n 0 = 0.
Proof. intros Hn. unfold mirror. by rewrite Z.sub_0_r, Z.mod_same by lia. Qed.

Lemma mirror_pos n u : 0 < u < n → mirror n u = n - u.
Proof. intros Hu. unfold mirror. by rewrite Z.mod_small by lia. Qed.

Section Multiplied.
Import exact.

Variables (x y : list R) (b2 m n : Z).
Hypothesis Hlenx : Z.of_nat (length x) = m * n.
Hypothesis Hbase2 : 0 ≤ b2.
Hypothesis Hleny : b2 + m * n ≤ Z.of_nat (length y).

Local Abbreviation ys := (λ p : Z, sample y (b2 + p)).

Lemma multiplied_ext (T T' : Z → Z → Prop) a :
  (∀ c r, 0 ≤ c < m → 0 ≤ r < n → T c r ↔ T' c r) →
  multiplied x ys m n T a → multiplied x ys m n T' a.
Proof.
  intros HT (Hla & Hc). split; [done|].
  intros c r Hcm Hrn. destruct (Hc c r Hcm Hrn) as [H1 H2].
  specialize (HT c r Hcm Hrn). split; intros; [apply H1|apply H2]; tauto.
Qed.

Lemma multiplied_init : multiplied x ys m n (λ _ _, False) x.
Proof. split; [done|]. intros c r _ _. split; [done|]. done. Qed.

Lemma multiplied_mul T a c1 r1 p :
  p = c1 + r1 * m →
  0 ≤ c1 < m → 0 ≤ r1 < n → mirror m c1 = c1 → mirror n r1 = r1 →
  ¬ T c1 r1 →
  multiplied x ys m n T a →
  ∃ a', fht_mul_at y b2 0 p a = Some a' ∧
        multiplied x ys m n (λ c r, T c r ∨ (c = c1 ∧ r = r1)) a'.
Proof.
  intros -> Hc1 Hr1 Hm1 Hm2 HT (Hla & Hc).
  pose proof (cell_bound x x m n Hlenx Hlenx c1 r1 Hc1 Hr1) as Hb.
  destruct (Hc c1 r1 Hc1 Hr1) as [_ Hax]. specialize (Hax HT).
  unfold fht_mul_at. rewrite !Z.add_0_l, !load_sample by lia.
  cbn [mbind option_bind]. rewrite store_is_Some by lia.
  eexists. split; [done|]. split; [by rewrite length_insert|].
  intros c r Hcm Hrn. rewrite sample_insert by lia.
  case_decide as Heq.
  - apply (cell_inj x y) in Heq as [-> ->]; [|done..].
    split; [|tauto]. intros _. unfold hartley_product.
    rewrite Hm1, Hm2, Hax. cbn [f_mul arith]. lra.
  - destruct (Hc c r Hcm Hrn) as [H1 H2].
    split; [|tauto]. intros [?|[-> ->]]; [auto|done].
Qed.

Lemma multiplied_pair T a c1 r1 c2 r2 p q :
  p = c1 + r1 * m → q = c2 + r2 * m →
  0 ≤ c1 < m → 0 ≤ r1 < n → 0 ≤ c2 < m → 0 ≤ r2 < n →
  mirror m c1 = c2 → mirror n r1 = r2 →
  ¬ T c1 r1 → ¬ T c2 r2 → ¬ (c1 = c2 ∧ r1 = r2) →
  multiplied x ys m n T a →
  ∃ a', fht_pair_at y b2 0 p q a = Some a' ∧
        multiplied x ys m n
          (λ c r, T c r ∨ (c = c1 ∧ r = r1) ∨ (c = c2 ∧ r = r2)) a'.
Proof.
  intros -> -> Hc1 Hr1 Hc2 Hr2 Hm1 Hm2 HT1 HT2 Hne12 (Hla & Hc).
  pose proof (cell_bound x x m n Hlenx Hlenx c1 r1 Hc1 Hr1) as Hb1.
  pose proof (cell_bound x x m n Hlenx Hlenx c2 r2 Hc2 Hr2) as Hb2.
  assert (Hpq : c1 + r1 * m ≠ c2 + r2 * m).
  { intros Heq. by apply (cell_inj x y) in Heq. }
  assert (Hm1' : mirror m c2 = c1).
  { rewrite <- Hm1. apply mirror_mirror; lia. }
  assert (Hm2' : mirror n r2 = r1).
  { rewrite <- Hm2. apply mirror_mirror; lia. }
  destruct (Hc c1 r1 Hc1 Hr1) as [_ Hax1]. specialize (Hax1 HT1).
  destruct (Hc c2 r2 Hc2 Hr2) as [_ Hax2]. specialize (Hax2 HT2).
  unfold fht_pair_at. rewrite !Z.add_0_l, !load_sample by lia.
  cbn [mbind option_bind]. rewrite store_is_Some by lia.
  cbn [mbind option_bind].
  rewrite store_is_Some by (rewrite length_insert; lia).
  eexists. split; [done|]. split; [by rewrite !length_insert|].
  intros c r Hcm Hrn.
  rewrite !sample_insert by (rewrite ?length_insert; lia).
  destruct (Hc c r Hcm Hrn) as [H1 H2].
  repeat case_decide.
  - apply (cell_inj x y) in H as [-> ->]; [|done..]. split; [|tauto].
    intros _. unfold hartley_product. rewrite Hm1', Hm2', Hax1, Hax2.
    cbn [f_mul f_add f_sub f_half arith]. lra.
  - apply (cell_inj x y) in H0 as [-> ->]; [|done..]. split; [|tauto].
    intros _. unfold hartley_product. rewrite Hm1, Hm2, Hax1, Hax2.
    cbn [f_mul f_add f_sub f_half arith]. lra.
  - split; [|tauto].
    intros [?|[[-> ->]|[-> ->]]]; [auto|done|done].
Qed.

(** One step of the run, on the invariant [L]. *)
Ltac cells_lia :=
  cbv beta;
  unfold fht_corners, fht_rows, fht_cols, fht_inner, fht_inner_col in *;
  lia.

Ltac mirror_lia :=
  first [rewrite mirror_0 by lia; lia | rewrite mirror_pos by lia; lia].

Ltac multiplied_mul_step L c1 r1 p a' L' :=
  lazymatch type of L with
  | multiplied _ _ _ _ ?T ?a =>
      destruct (multiplied_mul T a c1 r1 p) as (a' & -> & L');
      [cells_lia|cells_lia|cells_lia|mirror_lia|mirror_lia|cells_lia|exact L|];
      cbn [mbind option_bind]
  end.

Ltac multiplied_pair_step L c1 r1 c2 r2 p q a' L' :=
  lazymatch type of L with
  | multiplied _ _ _ _ ?T ?a =>
      destruct (multiplied_pair T a c1 r1 c2 r2 p q) as (a' & -> & L');
      [cells_lia|cells_lia|cells_lia|cells_lia|cells_lia|cells_lia|mirror_lia|mirror_lia
      |cells_lia|cells_lia|cells_lia|exact L|];
      cbn [mbind option_bind]
  end.

Ltac multiplied_loop P lo hi a a' L' :=
  lazymatch goal with
  | |- context [for_range lo hi ?bA a] =>
      destruct (for_range_total P lo hi bA a) as (a' & -> & L')
  end.

Ltac multiplied_done L step :=
  eexists; split; [done|];
  eapply multiplied_ext; [|exact L]; intros ? ? ? ?; cbv beta;
  rewrite step by lia; tauto.

Lemma fht_convolve_multiplied M N m2 n2 :
  m = 2 * m2 → n = 2 * n2 → 1 ≤ m2 → 1 ≤ n2 →
  Z.shiftl 1 M = m → Z.shiftl 1 (M - 1) = m2 →
  Z.shiftl 1 N = n → Z.shiftl 1 (N - 1) = n2 →
  Z.shiftl m (N - 1) = m * n2 →
  (∀ j, Z.shiftl j M = j * m) →
  ∃ a, fht_convolve x 0 y b2 M N = Some a ∧
       multiplied x ys m n (λ _ _, True) a.
Proof.
  intros Em En Hm2 Hn2 E1 E2 E3 E4 E5 EM.
  unfold fht_convolve. rewrite E1, E2, E3, E4, E5.
  pose proof multiplied_init as L0.
  multiplied_mul_step L0 0 0 0 a1 L1.
  multiplied_mul_step L1 0 n2 (m * n2) a2 L2.
  multiplied_mul_step L2 m2 0 m2 a3 L3.
  multiplied_mul_step L3 m2 n2 (m2 + m * n2) a4 L4.
  multiplied_loop
    (λ i, multiplied x ys m n
            (λ c r, fht_corners m2 n2 c r ∨ fht_rows m n2 i c r))
    1 m2 a4 a5 L5; [lia| | |].
  { eapply multiplied_ext; [|exact L4]. intros c r Hc Hr. cbv beta.
    pose proof (fht_rows_1 x y m n2 c r ltac:(lia)). unfold fht_corners.
    tauto. }
  { intros i a Hi L.
    multiplied_pair_step L i 0 (m - i) 0 i (m - i) a' L'.
    multiplied_pair_step L' i n2 (m - i) n2 (i + m * n2) (m - i + m * n2)
      a'' L''.
    multiplied_done L'' (fht_rows_step x y). }
  cbn [mbind option_bind].
  multiplied_loop
    (λ j, multiplied x ys m n
            (λ c r, fht_corners m2 n2 c r ∨ fht_rows m n2 m2 c r
                    ∨ fht_cols m2 n j c r))
    1 n2 a5 a6 L6; [lia| | |].
  { eapply multiplied_ext; [|exact L5]. intros c r Hc Hr. cbv beta.
    pose proof (fht_cols_1 x y m2 n c r ltac:(lia)). tauto. }
  { intros j a Hj L. rewrite !EM.
    multiplied_pair_step L 0 j 0 (n - j) (j * m) ((n - j) * m) a' L'.
    multiplied_pair_step L' m2 j m2 (n - j) (m2 + j * m) (m2 + (n - j) * m)
      a'' L''.
    multiplied_done L'' (fht_cols_step x y). }
  cbn [mbind option_bind].
  multiplied_loop
    (λ i, multiplied x ys m n
            (λ c r, fht_corners m2 n2 c r ∨ fht_rows m n2 m2 c r
                    ∨ fht_cols m2 n n2 c r ∨ fht_inner m n n2 i c r))
    1 m2 a6 a7 L7; [lia| | |].
  { eapply multiplied_ext; [|exact L6]. intros c r Hc Hr. cbv beta.
    pose proof (fht_inner_1 x y m n n2 c r ltac:(lia)). tauto. }
  { intros i a Hi L.
    multiplied_loop
      (λ j, multiplied x ys m n
              (λ c r, (fht_corners m2 n2 c r ∨ fht_rows m n2 m2 c r
                       ∨ fht_cols m2 n n2 c r ∨ fht_inner m n n2 i c r)
                      ∨ fht_inner_col m n i j c r))
      1 n2 a a' L'; [lia| | |].
    { eapply multiplied_ext; [|exact L]. intros c r Hc Hr. cbv beta.
      pose proof (fht_inner_col_1 x y m n i c r ltac:(lia)). tauto. }
    { intros j a0 Hj L0'. rewrite !EM.
      multiplied_pair_step L0' i j (m - i) (n - j)
        (i + j * m) (m - i + (n - j) * m) a1' L1'.
      multiplied_pair_step L1' i (n - j) (m - i) j
        (i + (n - j) * m) (m - i + j * m) a2' L2'.
      multiplied_done L2' (fht_inner_col_step x y). }
    multiplied_done L' (fht_inner_step x y m n n2). }
  exists a7. split; [done|].
  eapply multiplied_ext; [|exact L7]. intros c r Hc Hr. cbv beta.
  pose proof (fht_cells_all x y m n m2 n2 c r Em En Hc Hr). tauto.
Qed.

End Multiplied.

(** ** The transform of a circular convolution *)

Section Convolution.
Local Open Scope R_scope.

Lemma sumZ_cyclic N (F : Z → R) s :
  (0 ≤ N)%Z → (∀ x, F (x + N)%Z = F x) → (0 ≤ s)%Z →
  sumZ N (λ x, F (x + s)%Z) = sumZ N F.
Proof.
  intros HN Hper. revert s.
  apply (sumZ_ind (λ s, sumZ N (λ x, F (x + s)%Z) = sumZ N F)).
  - apply sumZ_ext. intros x _. f_equal. lia.
  - intros s Hs IH.
    rewrite (sumZ_ext N _ (λ x, (λ x, F (x + s)%Z) (x + 1)%Z))
      by (intros; cbv beta; f_equal; lia).
    rewrite (sumZ_shift N (λ x, F (x + s)%Z)) by done. cbv beta. rewrite IH.
    rewrite (Z.add_comm N s), Hper, Z.add_0_l. lra.
Qed.

Lemma sumZ_rotate N (h k : Z → R) s :
  (1 ≤ N)%Z → (∀ x, k (x + N)%Z = k x) → (0 ≤ s)%Z →
  sumZ N (λ x, h ((x - s) `mod` N)%Z * k x)
  = sumZ N (λ x, h x * k (x + s)%Z).
Proof.
  intros HN Hper Hs.
  rewrite <- (sumZ_cyclic N (λ x, h ((x - s) `mod` N)%Z * k x) s);
    [|lia| |done].
  - apply sumZ_ext. intros x Hx. cbv beta.
    replace (x + s - s)%Z with x by lia. by rewrite Z.mod_small by lia.
  - intros x. cbv beta. rewrite Hper. do 2 f_equal.
    replace (x + N - s)%Z with (x - s + 1 * N)%Z by lia.
    by rewrite Z.mod_add by lia.
Qed.

Variables Nx Ny : Z.
Hypothesis HNx : (1 ≤ Nx)%Z.
Hypothesis HNy : (1 ≤ Ny)%Z.

Local Abbreviation ang := (angle2 Nx Ny).

Lemma angle2_plus u v x y x' y' :
  ang u v (x + x') (y + y') = ang u v x y + ang u v x' y'.
Proof.
  unfold angle2. rewrite !Z.mul_add_distr_r, !plus_IZR.
  field. split; apply not_0_IZR; lia.
Qed.

Lemma cas_angle2_period_x u v x y :
  cas (ang u v (x + Nx) y) = cas (ang u v x y).
Proof.
  rewrite <- (cas_turns (ang u v x y) u). f_equal. unfold angle2.
  rewrite Z.mul_add_distr_r, plus_IZR, !mult_IZR.
  field. split; apply not_0_IZR; lia.
Qed.

Lemma cas_angle2_period_y u v x y :
  cas (ang u v x (y + Ny)) = cas (ang u v x y).
Proof.
  rewrite <- (cas_turns (ang u v x y) v). f_equal. unfold angle2.
  rewrite Z.mul_add_distr_r, plus_IZR, !mult_IZR.
  field. split; apply not_0_IZR; lia.
Qed.

Lemma turn_mirror n j k :
  (0 < n)%Z → (0 ≤ k < n)%Z →
  ∃ t : Z, 2 * PI * IZR (j * mirror n k) / IZR n
           = - (2 * PI * IZR (j * k) / IZR n) + 2 * PI * IZR t.
Proof.
  intros Hn Hk. assert (IZR n ≠ 0) by (apply not_0_IZR; lia).
  destruct (Z.eq_dec k 0%Z) as [->|Hk0].
  - exists 0%Z. rewrite mirror_0 by done. rewrite Z.mul_0_r. field. done.
  - exists j. rewrite mirror_pos by lia.
    rewrite Z.mul_sub_distr_l, minus_IZR, !mult_IZR. field. done.
Qed.

Lemma cas_angle2_mirror u v x y :
  (0 ≤ u < Nx)%Z → (0 ≤ v < Ny)%Z →
  cas (ang (mirror Nx u) (mirror Ny v) x y) = cas (- ang u v x y).
Proof.
  intros Hu Hv. unfold angle2.
  destruct (turn_mirror Nx x u ltac:(lia) Hu) as [t1 ->].
  destruct (turn_mirror Ny y v ltac:(lia) Hv) as [t2 ->].
  rewrite <- (cas_turns (- _) (t1 + t2)). f_equal. rewrite plus_IZR. lra.
Qed.

Lemma dht2_angle f u v :
  dht2 Nx Ny f u v = sumZ Ny (λ y, sumZ Nx (λ x, f x y * cas (ang u v x y))).
Proof. done. Qed.

(** Moving the grid by [(x', y')] under the transform. *)
Lemma dht2_rotate b u v x' y' :
  (0 ≤ u < Nx)%Z → (0 ≤ v < Ny)%Z → (0 ≤ x')%Z → (0 ≤ y')%Z →
  sumZ Ny (λ y, sumZ Nx (λ x,
    b ((x - x') `mod` Nx)%Z ((y - y') `mod` Ny)%Z * cas (ang u v x y)))
  = cos (ang u v x' y') * dht2 Nx Ny b u v
    + sin (ang u v x' y') * dht2 Nx Ny b (mirror Nx u) (mirror Ny v).
Proof.
  intros Hu Hv Hx' Hy'.
  rewrite (sumZ_ext Ny _
             (λ y, sumZ Nx (λ x, b x ((y - y') `mod` Ny)%Z
                                 * cas (ang u v (x + x') y)))).
  2: { intros y Hy. cbv beta.
       apply (sumZ_rotate Nx (λ x, b x ((y - y') `mod` Ny)%Z)
                (λ x, cas (ang u v x y))); [done| |done].
       intros x. apply cas_angle2_period_x. }
  rewrite sumZ_swap.
  rewrite (sumZ_ext Nx _
             (λ x, sumZ Ny (λ y, b x y * cas (ang u v (x + x') (y + y'))))).
  2: { intros x Hx. cbv beta.
       apply (sumZ_rotate Ny (λ y, b x y)
                (λ y, cas (ang u v (x + x') y))); [done| |done].
       intros y. apply cas_angle2_period_y. }
  rewrite sumZ_swap. rewrite !dht2_angle, <- !sumZ_scal, <- sumZ_plus.
  apply sumZ_ext. intros y _. cbv beta.
  rewrite <- !sumZ_scal, <- sumZ_plus. apply sumZ_ext. intros x _. cbv beta.
  rewrite angle2_plus, cas_plus, cas_angle2_mirror by done. lra.
Qed.

(** The transform of a circular convolution, from the transforms of the
    two grids. *)
Lemma dht2_cconv2 a b u v :
  (0 ≤ u < Nx)%Z → (0 ≤ v < Ny)%Z →
  dht2 Nx Ny (cconv2 Nx Ny a b) u v
  = / 2 * (dht2 Nx Ny a u v * dht2 Nx Ny b u v
           - dht2 Nx Ny a (mirror Nx u) (mirror Ny v)
             * dht2 Nx Ny b (mirror Nx u) (mirror Ny v)
           + dht2 Nx Ny a (mirror Nx u) (mirror Ny v) * dht2 Nx Ny b u v
           + dht2 Nx Ny a u v
             * dht2 Nx Ny b (mirror Nx u) (mirror Ny v)).
Proof.
  intros Hu Hv.
  set (B := dht2 Nx Ny b u v).
  set (Bm := dht2 Nx Ny b (mirror Nx u) (mirror Ny v)).
  transitivity
    (sumZ Ny (λ y', sumZ Nx (λ x',
       a x' y' * (cos (ang u v x' y') * B + sin (ang u v x' y') * Bm)))).
  - rewrite dht2_angle. unfold cconv2.
    rewrite (sumZ_ext Ny _
               (λ y, sumZ Nx (λ x, sumZ Ny (λ y', sumZ Nx (λ x',
                  a x' y' * (b ((x - x') `mod` Nx)%Z ((y - y') `mod` Ny)%Z
                             * cas (ang u v x y))))))).
    2: { intros y _. cbv beta. apply sumZ_ext. intros x _. cbv beta.
         rewrite (Rmult_comm (sumZ _ _)), <- sumZ_scal.
         apply sumZ_ext. intros y' _. cbv beta.
         rewrite <- sumZ_scal. apply sumZ_ext. intros x' _. lra. }
    rewrite (sumZ_ext Ny _
               (λ y, sumZ Ny (λ y', sumZ Nx (λ x, sumZ Nx (λ x',
                  a x' y' * (b ((x - x') `mod` Nx)%Z ((y - y') `mod` Ny)%Z
                             * cas (ang u v x y)))))))
      by (intros y _; cbv beta; apply sumZ_swap).
    rewrite sumZ_swap. apply sumZ_ext. intros y' Hy'. cbv beta.
    rewrite (sumZ_ext Ny _
               (λ y, sumZ Nx (λ x', sumZ Nx (λ x,
                  a x' y' * (b ((x - x') `mod` Nx)%Z ((y - y') `mod` Ny)%Z
                             * cas (ang u v x y))))))
      by (intros y _; cbv beta; apply sumZ_swap).
    rewrite sumZ_swap. apply sumZ_ext. intros x' Hx'. cbv beta.
    unfold B, Bm. rewrite <- (dht2_rotate b u v x' y') by lia.
    rewrite <- sumZ_scal. apply sumZ_ext. intros y _. cbv beta.
    by rewrite <- sumZ_scal.
  - assert (Hcos : ∀ t, cos t = / 2 * (cas t + cas (- t))).
    { intros t. unfold cas. rewrite cos_neg, sin_neg. lra. }
    assert (Hsin : ∀ t, sin t = / 2 * (cas t - cas (- t))).
    { intros t. unfold cas. rewrite cos_neg, sin_neg. lra. }
    set (A := dht2 Nx Ny a u v).
    set (Am := dht2 Nx Ny a (mirror Nx u) (mirror Ny v)).
    replace (/ 2 * (A * B - Am * Bm + Am * B + A * Bm))
      with (/ 2 * (B + Bm) * A + / 2 * (B - Bm) * Am) by lra.
    unfold A, Am. rewrite !dht2_angle, <- !sumZ_scal, <- sumZ_plus.
    apply sumZ_ext. intros y _. cbv beta.
    rewrite <- !sumZ_scal, <- sumZ_plus. apply sumZ_ext. intros x _. cbv beta.
    rewrite cas_angle2_mirror, Hcos, Hsin by done. lra.
Qed.

End Convolution.

Section ExactConvolve.
Import exact.

Lemma fht_convolve_exact_spec (x y : list R) (b2 M N : Z) :
  1 ≤ M → 1 ≤ N →
  Z.of_nat (length x) = 2 ^ M * 2 ^ N →
  0 ≤ b2 → b2 + 2 ^ M * 2 ^ N ≤ Z.of_nat (length y) →
  ∃ a, fht_convolve x 0 y b2 M N = Some a ∧
       length a = length x ∧
       ∀ c r, 0 ≤ c < 2 ^ M → 0 ≤ r < 2 ^ N →
         sample a (c + r * 2 ^ M)
         = hartley_product (2 ^ M) (2 ^ N)
             (sample x) (λ p, sample y (b2 + p)) c r.
Proof.
  intros HM HN Hlx Hb2 Hly.
  assert (Hpow : ∀ k, 1 ≤ k → 2 ^ k = 2 * 2 ^ (k - 1)).
  { intros k Hk. rewrite <- Z.pow_succ_r by lia. f_equal. lia. }
  assert (1 ≤ 2 ^ (M - 1)) by (pose proof (Z.pow_pos_nonneg 2 (M - 1)); lia).
  assert (1 ≤ 2 ^ (N - 1)) by (pose proof (Z.pow_pos_nonneg 2 (N - 1)); lia).
  destruct (fht_convolve_multiplied x y b2 (2 ^ M) (2 ^ N) Hlx Hb2 Hly M N
              (2 ^ (M - 1)) (2 ^ (N - 1))) as (a & Hrun & Hl & Ha).
  - by apply Hpow.
  - by apply Hpow.
  - done.
  - done.
  - apply Z.shiftl_1_l.
  - apply Z.shiftl_1_l.
  - apply Z.shiftl_1_l.
  - apply Z.shiftl_1_l.
  - rewrite Z.shiftl_mul_pow2 by lia. done.
  - intros j. apply Z.shiftl_mul_pow2. lia.
  - exists a. split; [done|]. split; [done|]. intros c r Hc Hr.
    by apply Ha.
Qed.

(** In exact arithmetic [fht_convolve(d1, d2, M, N)] leaves in every bin
    of the grid of [2^N] rows of [2^M] cells the product of the two
    spectra under the Hartley transform: with [p] the bin and [q] the bin
    mirrored in both directions, half of
    [d1[p] d2[p] - d1[q] d2[q] + d1[q] d2[p] + d1[p] d2[q]].  The bound
    on [M + N] keeps the unsigned index computations from wrapping. *)
Theorem fht_convolve_hartley_product (x y : list R) (M N : Z) :
  1 ≤ M → 1 ≤ N → M + N < 32 →
  Z.of_nat (length x) = 2 ^ M * 2 ^ N →
  Z.of_nat (length y) = 2 ^ M * 2 ^ N →
  ∃ a, fht_convolve x 0 y 0 M N = Some a ∧
       length a = length x ∧
       ∀ c r, 0 ≤ c < 2 ^ M → 0 ≤ r < 2 ^ N →
         load a (c + r * 2 ^ M)
         = Some (hartley_product (2 ^ M) (2 ^ N) (sample x) (sample y) c r).
Proof.
  intros HM HN _ Hlx Hly.
  destruct (fht_convolve_exact_spec x y 0 M N HM HN Hlx) as (a & Hrun & Hl & Ha);
    [lia|lia|].
  exists a. split; [done|]. split; [done|]. intros c r Hc Hr.
  pose proof (pow2_pos M ltac:(lia)). pose proof (pow2_pos N ltac:(lia)).
  rewrite load_sample by nia. by rewrite Ha.
Qed.

(** The grid of [2^My] rows of [2^Mx] samples that a buffer holds. *)
Local Abbreviation grid Mx x := (λ c r : Z, sample x (r * 2 ^ Mx + c)).

(** In exact arithmetic the transform steps of a tile of [convolve]
    compute a circular convolution: for two grids [a] and [b] of [2^My]
    rows of [2^Mx] samples, whose rows from [nza] and [nzb] on hold zeros,
    the forward [FHT2D] of both, [fht_convolve] on the transposed spectra
    and the inverse [FHT2D] leave in the cell [c] of the row [r] the sum of
    [a[r'][c'] * b[(r - r') mod 2^My][(c - c') mod 2^Mx]] over the
    grid. *)
Theorem FHT2D_fht_convolve_circular (a b : list R) (Mx My nza nzb nzp : Z) :
  1 ≤ Mx → 1 ≤ My → Mx + My < 32 →
  Z.of_nat (length a) = 2 ^ Mx * 2 ^ My →
  Z.of_nat (length b) = 2 ^ Mx * 2 ^ My →
  0 ≤ nza ≤ 2 ^ My → 0 ≤ nzb ≤ 2 ^ My →
  (∀ r c, nza ≤ r < 2 ^ My → 0 ≤ c < 2 ^ Mx →
     load a (r * 2 ^ Mx + c) = Some 0%R) →
  (∀ r c, nzb ≤ r < 2 ^ My → 0 ≤ c < 2 ^ Mx →
     load b (r * 2 ^ Mx + c) = Some 0%R) →
  ∃ d, (sb ← FHT2D cos b 0 Mx My nzb false;
        sa ← FHT2D cos a 0 Mx My nza false;
        sa ← fht_convolve sa 0 sb 0 My Mx;
        FHT2D cos sa 0 My Mx nzp true) = Some d ∧
       length d = length a ∧
       ∀ r c, 0 ≤ r < 2 ^ My → 0 ≤ c < 2 ^ Mx →
         load d (r * 2 ^ Mx + c)
         = Some (cconv2 (2 ^ Mx) (2 ^ My) (grid Mx a) (grid Mx b) c r).
Proof.
  intros HMx HMy HM Hla Hlb Hnza Hnzb Hza Hzb.
  pose proof (pow2_pos Mx ltac:(lia)) as HNx.
  pose proof (pow2_pos My ltac:(lia)) as HNy.
  destruct (FHT2D_exact_spec b Mx My nzb false) as (sb & -> & Hlsb & Hsb);
    [done|done|done|done| |].
  { intros _. split; [done|]. intros r c Hr Hc. unfold sample.
    by rewrite Hzb. }
  cbn [mbind option_bind].
  destruct (FHT2D_exact_spec a Mx My nza false) as (sa & -> & Hlsa & Hsa);
    [done|done|done|done| |].
  { intros _. split; [done|]. intros r c Hr Hc. unfold sample.
    by rewrite Hza. }
  cbn [mbind option_bind].
  destruct (fht_convolve_exact_spec sa sb 0 My Mx) as (sc & -> & Hlsc & Hsc);
    [done|done|lia|lia|lia|].
  cbn [mbind option_bind].
  destruct (FHT2D_exact_spec sc My Mx nzp true) as (d & -> & Hld & Hd);
    [done|done|lia|lia|done|].
  exists d. split; [done|]. split; [lia|]. intros r c Hr Hc.
  rewrite load_sample by nia. f_equal. rewrite Hd by done.
  assert (Hspec : ∀ u v, 0 ≤ u < 2 ^ Mx → 0 ≤ v < 2 ^ My →
            sample sc (u * 2 ^ My + v)
            = dht2 (2 ^ Mx) (2 ^ My)
                (cconv2 (2 ^ Mx) (2 ^ My) (grid Mx a) (grid Mx b)) u v).
  { intros u v Hu Hv. rewrite Z.add_comm, Hsc by done.
    unfold hartley_product.
    pose proof (mirror_bound (2 ^ Mx) u HNx).
    pose proof (mirror_bound (2 ^ My) v HNy).
    rewrite !Z.add_0_l, !(Z.add_comm _ (_ * 2 ^ My)).
    rewrite !Hsa, !Hsb by done. rewrite dht2_cconv2 by lia.
    unfold scale. lra. }
  rewrite (dht2_ext _ _ _
             (λ v u, dht2 (2 ^ Mx) (2 ^ My)
                       (cconv2 (2 ^ Mx) (2 ^ My) (grid Mx a) (grid Mx b))
                       u v))
    by (intros v u Hv Hu; by apply Hspec).
  rewrite (dht2_transposed (2 ^ Mx) (2 ^ My)
             (dht2 (2 ^ Mx) (2 ^ My)
                (cconv2 (2 ^ Mx) (2 ^ My) (grid Mx a) (grid Mx b)))).
  rewrite dht2_involutive by lia. unfold scale.
  field. split; apply not_0_IZR; lia.
Qed.

End ExactConvolve.

(** ** [FHT2D] on a part of a buffer *)

Section FHT2DWindow.
Context {F D : Type} `{!FloatArith F D} (cos : D → D).
Variables (pre post : list F).

Local Abbreviation base := (Z.of_nat (length pre)).
Local Abbreviation emb := (λ w : list F, pre ++ w ++ post).

Lemma FHT2D_finalize_at_window Mx Nx Ny j i (w w' : list F) :
  FHT2D_finalize_at 0 Mx Nx Ny j i w = Some w' →
  FHT2D_finalize_at base Mx Nx Ny j i (emb w) = Some (emb w').
Proof.
  unfold FHT2D_finalize_at. intros Hrun. cbv zeta in Hrun |- *.
  do 7 window_op Hrun.
  eapply store_window_at; [exact Hrun|lia].
Qed.

Lemma FHT_rows_window Nx M inverse rows (w w' : list F) :
  for_range 0 rows (λ j d, FHT cos d (0 + Nx * j) M inverse) w = Some w' →
  for_range 0 rows (λ j d, FHT cos d (base + Nx * j) M inverse) (emb w)
  = Some (emb w').
Proof.
  apply (for_range_map emb). intros j s s1 Hrun. cbv beta in Hrun |- *.
  rewrite Z.add_0_l in Hrun. by apply FHT_window.
Qed.

Lemma FHT2D_window Mx My nzp inverse (w w' : list F) :
  FHT2D cos w 0 Mx My nzp inverse = Some w' →
  FHT2D cos (emb w) base Mx My nzp inverse = Some (emb w').
Proof.
  unfold FHT2D. intros Hrun.
  destruct (for_range 0 _ _ w) as [w1|] eqn:H1; [|done].
  cbn [mbind option_bind] in Hrun |- *.
  rewrite (FHT_rows_window _ _ _ _ _ _ H1). cbn [mbind option_bind].
  destruct (FHT2D_transpose w1 0 Mx My) as [w2|] eqn:H2; [|done].
  cbn [mbind option_bind] in Hrun |- *.
  rewrite (FHT2D_transpose_window pre post _ _ _ _ H2).
  cbn [mbind option_bind].
  destruct (for_range 0 _ _ w2) as [w3|] eqn:H3; [|done].
  cbn [mbind option_bind] in Hrun |- *.
  rewrite (FHT_rows_window _ _ _ _ _ _ H3). cbn [mbind option_bind].
  revert Hrun. apply (for_range_map emb). intros j s s1.
  apply (for_range_map emb). intros i s' s1'.
  apply FHT2D_finalize_at_window.
Qed.

End FHT2DWindow.

Section ExactAt.
Import exact.

(** [FHT2D] on the grid that starts at the cell [b] of a buffer. *)
Lemma FHT2D_exact_at (x : list R) b Mx My nzp inverse :
  1 ≤ Mx → 1 ≤ My → Mx + My < 32 →
  0 ≤ b → b + 2 ^ Mx * 2 ^ My ≤ Z.of_nat (length x) →
  (inverse = false →
   0 ≤ nzp ≤ 2 ^ My ∧
   ∀ r c, nzp ≤ r < 2 ^ My → 0 ≤ c < 2 ^ Mx →
     sample x (b + (r * 2 ^ Mx + c)) = 0%R) →
  ∃ d, FHT2D cos x b Mx My nzp inverse = Some d ∧
       same_outside b (2 ^ Mx * 2 ^ My) x d ∧
       ∀ u v, 0 ≤ u < 2 ^ Mx → 0 ≤ v < 2 ^ My →
         sample d (b + (u * 2 ^ My + v))
         = (dht2 (2 ^ Mx) (2 ^ My)
              (λ c r, sample x (b + (r * 2 ^ Mx + c))) u v
            * (scale Mx inverse * scale My inverse))%R.
Proof.
  intros HMx HMy HM Hb Hlen Hnzp.
  pose proof (pow2_pos Mx ltac:(lia)) as HNx.
  pose proof (pow2_pos My ltac:(lia)) as HNy.
  destruct (window_split x b (2 ^ Mx * 2 ^ My))
    as (pre & w & post & -> & Hpre & Hw); [done|nia|done|].
  assert (Hsw : ∀ k, 0 ≤ k < 2 ^ Mx * 2 ^ My →
            sample (pre ++ w ++ post) (b + k) = sample w k).
  { intros k Hk. rewrite <- Hpre. apply sample_window. lia. }
  destruct (FHT2D_exact_spec w Mx My nzp inverse) as (w' & Hrun & Hl & Hd);
    [done|done|done|done| |].
  { intros Hi. destruct (Hnzp Hi) as [Hn Hz]. split; [done|].
    intros r c Hr Hc. rewrite <- Hsw by nia. by apply Hz. }
  rewrite <- Hpre. rewrite (FHT2D_window cos pre post _ _ _ _ _ _ Hrun).
  eexists. split; [done|]. split.
  - rewrite <- Hw. by apply same_outside_window.
  - intros u v Hu Hv. rewrite sample_window by (rewrite Hl; nia).
    rewrite Hd by done. f_equal. apply dht2_ext. intros c r Hc Hr.
    rewrite Hpre, Hsw by nia. done.
Qed.

End ExactAt.

(** ** Sums over the tiles of an image *)

Section TileSums.
Local Open Scope R_scope.

Lemma sumZ_truncate n m f :
  (0 ≤ n ≤ m)%Z → (∀ j, (n ≤ j < m)%Z → f j = 0) → sumZ m f = sumZ n f.
Proof.
  intros Hn Hf. replace m with (n + (m - n))%Z by lia.
  assert (Hk : (0 ≤ m - n)%Z) by lia.
  assert (Hf' : ∀ j, (n ≤ j < n + (m - n))%Z → f j = 0)
    by (intros; apply Hf; lia).
  revert Hf'. generalize (m - n)%Z Hk. clear Hf.
  apply (sumZ_ind (λ k, (∀ j, (n ≤ j < n + k)%Z → f j = 0) →
                        sumZ (n + k) f = sumZ n f)).
  - intros _. by rewrite Z.add_0_r.
  - intros k Hk' IH Hf. rewrite Z.add_assoc, sumZ_succ by lia.
    rewrite IH by (intros; apply Hf; lia). rewrite Hf by lia. lra.
Qed.

Lemma sumZ_append n k f :
  (0 ≤ n)%Z → (0 ≤ k)%Z →
  sumZ (n + k) f = sumZ n f + sumZ k (λ j, f (n + j)%Z).
Proof.
  intros Hn. revert k.
  apply (sumZ_ind (λ k, sumZ (n + k) f
                        = sumZ n f + sumZ k (λ j, f (n + j)%Z))).
  - rewrite Z.add_0_r, sumZ_0. lra.
  - intros k Hk IH. rewrite Z.add_assoc, !sumZ_succ, IH by lia. lra.
Qed.

Lemma sumZ_blocks a b f :
  (0 ≤ a)%Z → (0 ≤ b)%Z →
  sumZ (a * b) f = sumZ a (λ q, sumZ b (λ r, f (q * b + r)%Z)).
Proof.
  intros Ha Hb. revert a Ha.
  apply (sumZ_ind (λ a, sumZ (a * b) f
                        = sumZ a (λ q, sumZ b (λ r, f (q * b + r)%Z)))).
  - by rewrite Z.mul_0_l, !sumZ_0.
  - intros a Ha IH. rewrite Z.mul_add_distr_r, Z.mul_1_l.
    rewrite sumZ_append, sumZ_succ, IH by nia. done.
Qed.

Lemma tile_count_covers n bsz :
  (0 ≤ n)%Z → (0 < bsz)%Z →
  (n ≤ (n `div` bsz + (if n `mod` bsz =? 0 then 0 else 1)) * bsz)%Z.
Proof.
  intros Hn Hb. pose proof (Z.div_mod n bsz ltac:(lia)).
  pose proof (Z.mod_pos_bound n bsz Hb).
  destruct (Z.eqb_spec (n `mod` bsz) 0); nia.
Qed.

Variables (iw ih kw kh xbsz ybsz : Z) (image kernel : list R).
Hypothesis Hiw : (0 ≤ iw)%Z.
Hypothesis Hih : (0 ≤ ih)%Z.
Hypothesis Hxbsz : (0 < xbsz)%Z.
Hypothesis Hybsz : (0 < ybsz)%Z.

Local Abbreviation nxb :=
  (iw `div` xbsz + (if iw `mod` xbsz =? 0 then 0 else 1))%Z.
Local Abbreviation nyb :=
  (ih `div` ybsz + (if ih `mod` ybsz =? 0 then 0 else 1))%Z.

(** The tiles together give the convolution. *)
Lemma tiles_part_all ch x y :
  tiles_part iw ih kw kh xbsz ybsz nxb image kernel ch (nyb * nxb) x y
  = convolved iw ih kw kh image kernel ch x y.
Proof.
  pose proof (tile_count_covers iw xbsz Hiw Hxbsz) as Hcx.
  pose proof (tile_count_covers ih ybsz Hih Hybsz) as Hcy.
  pose proof (tile_count_nonneg iw xbsz Hiw Hxbsz) as Hnx.
  pose proof (tile_count_nonneg ih ybsz Hih Hybsz) as Hny.
  set (G := λ ix iy : Z,
         pixel_at iw ih image ch ix iy
         * kernel_at kw kh kernel ch (x + kw `div` 2 - ix)
             (y + kh `div` 2 - iy)).
  unfold tiles_part. rewrite sumZ_blocks by done.
  transitivity (sumZ (nyb * ybsz) (λ iy, sumZ (nxb * xbsz) (λ ix, G ix iy))).
  - rewrite sumZ_blocks by lia. apply sumZ_ext. intros ybl Hybl. cbv beta.
    rewrite (sumZ_ext ybsz _
               (λ ty, sumZ nxb (λ xbl, sumZ xbsz (λ tx,
                  G (xbl * xbsz + tx)%Z (ybl * ybsz + ty)%Z))))
      by (intros ty _; cbv beta; by rewrite sumZ_blocks by lia).
    rewrite sumZ_swap. apply sumZ_ext. intros xbl Hxbl. cbv beta.
    rewrite (Z.add_comm (ybl * _)), Z.mod_add, Z.mod_small by lia.
    rewrite Z.div_add, Z.div_small, Z.add_0_l by lia. done.
  - unfold convolved.
    rewrite (sumZ_truncate ih (nyb * ybsz)); [|lia|].
    + apply sumZ_ext. intros iy Hiy. cbv beta.
      rewrite (sumZ_truncate iw (nxb * xbsz)); [|lia|].
      * apply sumZ_ext. intros ix Hix. unfold G, pixel_at.
        destruct (Z.leb_spec 0 ix), (Z.ltb_spec ix iw), (Z.leb_spec 0 iy),
          (Z.ltb_spec iy ih); try lia. done.
      * intros ix Hix. unfold G, pixel_at.
        destruct (Z.ltb_spec ix iw); [lia|].
        rewrite andb_false_r. cbn. lra.
    + intros iy Hiy. rewrite <- (sumZ_zero (nxb * xbsz)). apply sumZ_ext.
      intros ix _. unfold G, pixel_at.
      destruct (Z.ltb_spec iy ih); [lia|]. rewrite !andb_false_r. lra.
Qed.

End TileSums.

(** ** The circular convolution of a tile is its convolution *)

Section TileConvolution.
Local Open Scope R_scope.

Variables (kw kh w2 h2 : Z) (kernel : list R) (ch : Z).
Hypothesis Hkw : (1 ≤ kw ≤ w2)%Z.
Hypothesis Hkh : (1 ≤ kh ≤ h2)%Z.

Local Abbreviation xbsz := (w2 + 1 - kw)%Z.
Local Abbreviation ybsz := (h2 + 1 - kh)%Z.
Local Abbreviation K := (kernel_at kw kh kernel ch).

Lemma wrapped_index n k bsz x x' :
  (1 ≤ k ≤ n)%Z → bsz = (n + 1 - k)%Z → (0 ≤ x < n)%Z → (0 ≤ x' < bsz)%Z →
  (x' ≤ x ∧ ((x - x') `mod` n = x - x'))%Z
  ∨ (x < x' ∧ (k ≤ (x - x') `mod` n))%Z.
Proof.
  intros Hk -> Hx Hx'. destruct (Z_le_gt_dec x' x) as [Hle|Hgt].
  - left. split; [done|]. apply Z.mod_small. lia.
  - right. split; [lia|].
    replace (x - x')%Z with (x - x' + n + -1 * n)%Z by lia.
    rewrite Z.mod_add, Z.mod_small by lia. lia.
Qed.

Lemma kernel_at_wrapped x y x' y' :
  (0 ≤ x < w2)%Z → (0 ≤ y < h2)%Z → (0 ≤ x' < xbsz)%Z → (0 ≤ y' < ybsz)%Z →
  K ((x - x') `mod` w2)%Z ((y - y') `mod` h2)%Z = K (x - x')%Z (y - y')%Z.
Proof.
  intros Hx Hy Hx' Hy'. unfold kernel_at.
  pose proof (Z.mod_pos_bound (x - x') w2 ltac:(lia)).
  pose proof (Z.mod_pos_bound (y - y') h2 ltac:(lia)).
  destruct (wrapped_index w2 kw xbsz x x' Hkw eq_refl Hx Hx') as [[? Ex]|[? ?]];
    destruct (wrapped_index h2 kh ybsz y y' Hkh eq_refl Hy Hy')
      as [[? Ey]|[? ?]];
    rewrite ?Ex, ?Ey; try done;
    repeat match goal with
           | |- context [(?a <=? ?b)%Z] => destruct (Z.leb_spec a b)
           | |- context [(?a <? ?b)%Z] => destruct (Z.ltb_spec a b)
           end; cbn [andb]; try done; lia.
Qed.

Lemma cconv2_tile (T : Z → Z → R) x y :
  (∀ c r, (0 ≤ c < w2)%Z → (0 ≤ r < h2)%Z → (xbsz ≤ c ∨ ybsz ≤ r)%Z →
     T c r = 0) →
  (0 ≤ x < w2)%Z → (0 ≤ y < h2)%Z →
  cconv2 w2 h2 T K x y
  = sumZ ybsz (λ ty, sumZ xbsz (λ tx, T tx ty * K (x - tx)%Z (y - ty)%Z)).
Proof.
  intros HT Hx Hy. unfold cconv2.
  rewrite (sumZ_truncate ybsz h2); [|lia|].
  - apply sumZ_ext. intros ty Hty. cbv beta.
    rewrite (sumZ_truncate xbsz w2); [|lia|].
    + apply sumZ_ext. intros tx Htx. cbv beta.
      by rewrite kernel_at_wrapped by lia.
    + intros tx Htx. rewrite HT by lia. lra.
  - intros ty Hty. rewrite <- (sumZ_zero w2). apply sumZ_ext.
    intros tx Htx. rewrite HT by lia. lra.
Qed.

(** Outside the padded tile the tile adds nothing. *)
Lemma kernel_at_outside x tx y ty :
  (0 ≤ tx < xbsz)%Z → (0 ≤ ty < ybsz)%Z →
  ¬ ((0 ≤ x < w2)%Z ∧ (0 ≤ y < h2)%Z) →
  K (x - tx)%Z (y - ty)%Z = 0.
Proof.
  intros Htx Hty Hout. unfold kernel_at.
  repeat match goal with
         | |- context [(?a <=? ?b)%Z] => destruct (Z.leb_spec a b)
         | |- context [(?a <? ?b)%Z] => destruct (Z.ltb_spec a b)
         end; cbn [andb]; try done; lia.
Qed.

End TileConvolution.

(** ** The loads and the overlap-add of a tile, in exact arithmetic *)

Ltac bool_lia :=
  repeat match goal with
         | |- context [?a <=? ?b] => destruct (Z.leb_spec a b)
         | |- context [?a <? ?b] => destruct (Z.ltb_spec a b)
         | |- context [?a =? ?b] => destruct (Z.eqb_spec a b)
         end; cbn [andb orb]; try done; try lia.

Section TileSteps.
Import exact.

Lemma same_outside_sample b n (data d : list R) k :
  same_outside b n data d → ¬ (b ≤ k < b + n) → sample d k = sample data k.
Proof. intros [_ Hd] Hk. unfold sample. by rewrite Hd. Qed.

(** "in2, channel ch -> data1" on a blank part of [data1]. *)
Lemma load_kernel_exact kw kh w2 h2 (kernel data1 : list R) b1 ch :
  0 ≤ kw ≤ w2 → 0 ≤ kh ≤ h2 → 0 ≤ ch < 4 →
  Z.of_nat (length kernel) = kw * kh * 4 →
  0 ≤ b1 → b1 + w2 * h2 ≤ Z.of_nat (length data1) →
  (∀ k, 0 ≤ k < w2 * h2 → sample data1 (b1 + k) = 0%R) →
  ∃ d, load_kernel kw kh w2 kernel b1 ch data1 = Some d ∧
       same_outside b1 (w2 * h2) data1 d ∧
       ∀ c r, 0 ≤ c < w2 → 0 ≤ r < h2 →
         sample d (b1 + (r * w2 + c)) = kernel_at kw kh kernel ch c r.
Proof.
  intros Hkw Hkh Hch Hlen Hb1 Hl1 Hblank. unfold load_kernel.
  destruct (for_range_grid_total
              (λ q d, same_outside b1 (w2 * h2) data1 d ∧
                 ∀ c r, 0 ≤ c < w2 → 0 ≤ r < h2 →
                   sample d (b1 + (r * w2 + c))
                   = if (c <? kw) && (r <? kh) && (r * kw + c <? q)
                     then sample kernel (4 * (r * kw + c) + ch) else 0%R)
              kw kh
              (λ x y d, v ← load_pixel kw kh kernel x y ch;
                        store d (b1 + (y * w2 + x)) v) data1)
    as (d & Hrun & Hout & Hd); [lia|lia| | |].
  - split; [apply same_outside_refl|]. intros c r Hc Hr.
    rewrite Hblank by nia.
    destruct (Z.ltb_spec (r * kw + c) 0); [nia|].
    by rewrite andb_false_r.
  - intros x y d Hx Hy [Hout Hd]. unfold load_pixel.
    rewrite pixel_Some by lia. cbn [mbind option_bind].
    pose proof (pixel_bound kw kh x y ltac:(lia) ltac:(lia)).
    rewrite load_sample by lia. cbn [mbind option_bind].
    destruct Hout as [Hl Hout].
    assert (b1 ≤ b1 + (y * w2 + x) < b1 + w2 * h2) by nia.
    rewrite store_is_Some by lia. eexists. split; [done|]. split.
    + split; [by rewrite length_insert|]. intros k Hk.
      rewrite load_insert by lia. rewrite decide_False by lia. by apply Hout.
    + intros c r Hc Hr. rewrite sample_insert by lia. case_decide as Heq.
      * assert (c = x ∧ r = y) as [-> ->].
        { apply (grid_index_inj w2); [lia|lia|lia]. }
        by bool_lia.
      * rewrite Hd by done.
        assert (c < kw → r * kw + c = y * kw + x → False).
        { intros Hck Hq. apply Heq.
          destruct (grid_index_inj kw c r x y) as [-> ->]; [lia|lia|done|].
          done. }
        by bool_lia.
  - exists d. split; [done|]. split; [done|]. intros c r Hc Hr.
    rewrite Hd by done. unfold kernel_at.
    assert (c < kw → r < kh → r * kw + c < kw * kh) by nia.
    by bool_lia.
Qed.

(** "in1, channel ch -> data2". *)
Lemma load_tile_exact iw ih w2 h2 xbsz ybsz xbl ybl ch (image data2 : list R) :
  0 ≤ iw → 0 ≤ ih → Z.of_nat (length image) = iw * ih * 4 →
  Z.of_nat (length data2) = w2 * h2 →
  0 ≤ xbsz ≤ w2 → 0 ≤ ybsz ≤ h2 → 0 ≤ xbl → 0 ≤ ybl → 0 ≤ ch < 4 →
  ∃ d2, load_tile iw ih w2 h2 xbsz ybsz xbl ybl ch image data2 = Some d2 ∧
    length d2 = length data2 ∧
    ∀ x y, 0 ≤ x < w2 → 0 ≤ y < h2 →
      sample d2 (y * w2 + x)
      = if (x <? xbsz) && (y <? ybsz)
        then pixel_at iw ih image ch (xbl * xbsz + x) (ybl * ybsz + y)
        else 0%R.
Proof.
  intros Hiw Hih Hlen Hlen2 Hxb Hyb Hxbl Hybl Hch.
  destruct (load_tile_spec iw ih w2 h2 xbsz ybsz xbl ybl ch image data2)
    as (d2 & Hrun & Hl & Hd); [done..|].
  exists d2. split; [done|]. split; [done|]. intros x y Hx Hy.
  unfold sample. rewrite Hd by done. unfold tile_sample, pixel_at.
  assert (0 ≤ xbl * xbsz + x) by nia. assert (0 ≤ ybl * ybsz + y) by nia.
  destruct (Z.ltb_spec x xbsz); [|done].
  destruct (Z.ltb_spec y ybsz); [|done].
  destruct (Z.ltb_spec (xbl * xbsz + x) iw); [|by bool_lia].
  destruct (Z.ltb_spec (ybl * ybsz + y) ih); [|by bool_lia].
  cbn [andb]. unfold load_pixel. rewrite pixel_Some by lia.
  cbn [mbind option_bind]. by bool_lia.
Qed.

(** "Overlap-add result". *)
Lemma overlap_add_exact iw ih w2 h2 xbsz ybsz hw hh xbl ybl ch
    (data2 rdst : list R) :
  0 ≤ iw → 0 ≤ ih → Z.of_nat (length rdst) = iw * ih * 4 →
  0 ≤ w2 → 0 ≤ h2 → Z.of_nat (length data2) = w2 * h2 → 0 ≤ ch < 4 →
  ∃ r, overlap_add iw ih w2 h2 xbsz ybsz hw hh xbl ybl ch data2 rdst
       = Some r ∧
       length r = length rdst ∧
       ∀ xx yy c, 0 ≤ xx < iw → 0 ≤ yy < ih → 0 ≤ c < 4 →
         sample r (4 * (yy * iw + xx) + c)
         = (sample rdst (4 * (yy * iw + xx) + c)
            + if c =? ch
              then padded_at w2 h2 data2
                     (xx - xbl * xbsz + hw) (yy - ybl * ybsz + hh)
              else 0)%R.
Proof.
  intros Hiw Hih Hlen Hw2 Hh2 Hlen2 Hch. unfold overlap_add.
  erewrite for_range_ext; cycle 1.
  { intros y r _. apply for_range_guard. }
  cbv beta.
  destruct (for_range_grid_total
    (λ q r, length r = length rdst ∧
       ∀ xx yy c, 0 ≤ xx < iw → 0 ≤ yy < ih → 0 ≤ c < 4 →
         sample r (4 * (yy * iw + xx) + c)
         = (sample rdst (4 * (yy * iw + xx) + c)
            + if (c =? ch)
                 && ((yy - ybl * ybsz + hh) * w2 + (xx - xbl * xbsz + hw) <? q)
              then padded_at w2 h2 data2
                     (xx - xbl * xbsz + hw) (yy - ybl * ybsz + hh)
              else 0)%R)
    w2 h2
    (λ x y r,
       if (ybl * ybsz + y - hh <? 0) || (ih <=? ybl * ybsz + y - hh)
       then Some r
       else if (xbl * xbsz + x - hw <? 0) || (iw <=? xbl * xbsz + x - hw)
            then Some r
            else v ← load data2 (y * w2 + x);
                 p ← pixel iw ih (xbl * xbsz + x - hw)
                       (ybl * ybsz + y - hh) ch;
                 old ← load r p;
                 store r p (f_add old v)) rdst)
    as (r & Hr & Hl & Hd); [done|done| | |].
  - split; [done|]. intros xx yy c Hxx Hyy Hc. unfold padded_at.
    assert (0 ≤ yy - ybl * ybsz + hh → 0 ≤ xx - xbl * xbsz + hw →
            0 ≤ (yy - ybl * ybsz + hh) * w2 + (xx - xbl * xbsz + hw)) by nia.
    bool_lia; lra.
  - intros x y r Hx Hy [Hl Hd].
    assert (Hpos : ∀ x' y', 0 ≤ x' < w2 → 0 ≤ y' < h2 →
              y' * w2 + x' = y * w2 + x → x' = x ∧ y' = y).
    { intros x' y' Hx' Hy' Heq. by apply (grid_index_inj w2). }
    assert (Hskip : ¬ (0 ≤ xbl * xbsz + x - hw < iw ∧
                       0 ≤ ybl * ybsz + y - hh < ih) →
              ∃ s', Some r = Some s' ∧
                length s' = length rdst ∧
                ∀ xx yy c, 0 ≤ xx < iw → 0 ≤ yy < ih → 0 ≤ c < 4 →
                  sample s' (4 * (yy * iw + xx) + c)
                  = (sample rdst (4 * (yy * iw + xx) + c)
                     + if (c =? ch)
                          && ((yy - ybl * ybsz + hh) * w2
                              + (xx - xbl * xbsz + hw) <? y * w2 + x + 1)
                       then padded_at w2 h2 data2
                              (xx - xbl * xbsz + hw) (yy - ybl * ybsz + hh)
                       else 0)%R).
    { intros Hout. exists r. split; [done|]. split; [done|].
      intros xx yy c Hxx Hyy Hc. rewrite Hd by done. f_equal.
      pose proof (Hpos (xx - xbl * xbsz + hw) (yy - ybl * ybsz + hh)).
      unfold padded_at. bool_lia. }
    destruct (Z.ltb_spec (ybl * ybsz + y - hh) 0); [apply Hskip; lia|].
    destruct (Z.leb_spec ih (ybl * ybsz + y - hh)); [apply Hskip; lia|].
    destruct (Z.ltb_spec (xbl * xbsz + x - hw) 0); [apply Hskip; lia|].
    destruct (Z.leb_spec iw (xbl * xbsz + x - hw)); [apply Hskip; lia|].
    cbn [orb]. clear Hskip.
    pose proof (pixel_bound w2 h2 x y Hx Hy).
    rewrite load_sample by lia. cbn [mbind option_bind].
    rewrite pixel_Some by lia. cbn [mbind option_bind].
    pose proof (pixel_bound iw ih (xbl * xbsz + x - hw)
                  (ybl * ybsz + y - hh) ltac:(lia) ltac:(lia)).
    rewrite load_sample by lia. cbn [mbind option_bind].
    rewrite store_is_Some by lia.
    eexists. split; [done|]. split; [by rewrite length_insert|].
    intros xx yy c Hxx Hyy Hc. rewrite sample_insert by lia.
    pose proof (Hpos (xx - xbl * xbsz + hw) (yy - ybl * ybsz + hh)) as Hp.
    case_decide as Heq.
    + assert (c = ch ∧ yy * iw + xx
                       = (ybl * ybsz + y - hh) * iw + (xbl * xbsz + x - hw))
        as [-> Heq'] by lia.
      apply (grid_index_inj iw) in Heq' as [-> ->]; [|lia|lia].
      rewrite Hd by lia. cbn [f_add arith]. unfold padded_at.
      replace (xbl * xbsz + x - hw - xbl * xbsz + hw) with x by lia.
      replace (ybl * ybsz + y - hh - ybl * ybsz + hh) with y by lia.
      bool_lia; lra.
    + rewrite Hd by done. f_equal. unfold padded_at.
      assert (c = ch → xx - xbl * xbsz + hw = x →
              yy - ybl * ybsz + hh = y → False).
      { intros -> Hxe Hye. apply Heq. f_equal. f_equal.
        replace xx with (xbl * xbsz + x - hw) by lia.
        replace yy with (ybl * ybsz + y - hh) by lia. done. }
      bool_lia.
  - exists r. split; [done|]. split; [done|].
    intros xx yy c Hxx Hyy Hc. rewrite Hd by done. f_equal.
    unfold padded_at.
    assert (0 ≤ xx - xbl * xbsz + hw < w2 → 0 ≤ yy - ybl * ybsz + hh < h2 →
            (yy - ybl * ybsz + hh) * w2 + (xx - xbl * xbsz + hw) < w2 * h2)
      by nia.
    bool_lia.
Qed.

End TileSteps.

(** ** The transforms of a tile, in exact arithmetic *)

Section Spectral.
Import exact.

(** The forward transform of the tile, the product with the transform of
    [K] and the inverse transform give the circular convolution with
    [K]. *)
Lemma spectral_convolution (d2 d1 : list R) (b1 Mw Mh nzp nzp' : Z)
    (K : Z → Z → R) :
  1 ≤ Mw → 1 ≤ Mh → Mw + Mh < 32 →
  Z.of_nat (length d2) = 2 ^ Mw * 2 ^ Mh →
  0 ≤ b1 → b1 + 2 ^ Mw * 2 ^ Mh ≤ Z.of_nat (length d1) →
  0 ≤ nzp ≤ 2 ^ Mh →
  (∀ r c, nzp ≤ r < 2 ^ Mh → 0 ≤ c < 2 ^ Mw →
     sample d2 (r * 2 ^ Mw + c) = 0%R) →
  (∀ u v, 0 ≤ u < 2 ^ Mw → 0 ≤ v < 2 ^ Mh →
     sample d1 (b1 + (u * 2 ^ Mh + v)) = dht2 (2 ^ Mw) (2 ^ Mh) K u v) →
  ∃ d, (d2 ← FHT2D cos d2 0 Mw Mh nzp false;
        d2 ← fht_convolve d2 0 d1 b1 Mh Mw;
        FHT2D cos d2 0 Mh Mw nzp' true) = Some d ∧
       length d = length d2 ∧
       ∀ r c, 0 ≤ r < 2 ^ Mh → 0 ≤ c < 2 ^ Mw →
         sample d (r * 2 ^ Mw + c)
         = cconv2 (2 ^ Mw) (2 ^ Mh) (λ c r, sample d2 (r * 2 ^ Mw + c)) K c r.
Proof.
  intros HMw HMh HM Hl2 Hb1 Hl1 Hnzp Hz HK.
  pose proof (pow2_pos Mw ltac:(lia)) as HNx.
  pose proof (pow2_pos Mh ltac:(lia)) as HNy.
  destruct (FHT2D_exact_spec d2 Mw Mh nzp false) as (sa & -> & Hlsa & Hsa);
    [done|done|done|done|by intros _|].
  cbn [mbind option_bind].
  destruct (fht_convolve_exact_spec sa d1 b1 Mh Mw) as (sc & -> & Hlsc & Hsc);
    [done|done|lia|done|lia|].
  cbn [mbind option_bind].
  destruct (FHT2D_exact_spec sc Mh Mw nzp' true) as (d & -> & Hld & Hd);
    [done|done|lia|lia|done|].
  exists d. split; [done|]. split; [lia|]. intros r c Hr Hc.
  rewrite Hd by done.
  set (T := λ c r : Z, sample d2 (r * 2 ^ Mw + c)).
  assert (Hspec : ∀ u v, 0 ≤ u < 2 ^ Mw → 0 ≤ v < 2 ^ Mh →
            sample sc (u * 2 ^ Mh + v)
            = dht2 (2 ^ Mw) (2 ^ Mh) (cconv2 (2 ^ Mw) (2 ^ Mh) T K) u v).
  { intros u v Hu Hv. rewrite Z.add_comm, Hsc by done.
    unfold hartley_product.
    pose proof (mirror_bound (2 ^ Mw) u HNx).
    pose proof (mirror_bound (2 ^ Mh) v HNy).
    rewrite !(Z.add_comm _ (_ * 2 ^ Mh)).
    rewrite !Hsa, !HK by done. rewrite dht2_cconv2 by lia.
    unfold scale. fold T. lra. }
  rewrite (dht2_ext _ _ _
             (λ v u, dht2 (2 ^ Mw) (2 ^ Mh)
                       (cconv2 (2 ^ Mw) (2 ^ Mh) T K) u v))
    by (intros v u Hv Hu; by apply Hspec).
  rewrite (dht2_transposed (2 ^ Mw) (2 ^ Mh)
             (dht2 (2 ^ Mw) (2 ^ Mh) (cconv2 (2 ^ Mw) (2 ^ Mh) T K))).
  rewrite dht2_involutive by lia. unfold scale.
  field. split; apply not_0_IZR; lia.
Qed.

End Spectral.

(** ** One channel of one tile of [convolve], in exact arithmetic *)

Section ChannelExact.
Import exact.

Variables (iw ih kw kh w2 h2 Mw Mh : Z).
Variables (image kernel : list R).
Hypothesis Hiw : 0 ≤ iw.
Hypothesis Hih : 0 ≤ ih.
Hypothesis Himage : Z.of_nat (length image) = iw * ih * 4.
Hypothesis Hkernel : Z.of_nat (length kernel) = kw * kh * 4.
Hypothesis Hw2 : w2 = 2 ^ Mw.
Hypothesis Hh2 : h2 = 2 ^ Mh.
Hypothesis HMw : 1 ≤ Mw.
Hypothesis HMh : 1 ≤ Mh.
Hypothesis HM : Mw + Mh < 32.
Hypothesis Hkw : 1 ≤ kw ≤ w2.
Hypothesis Hkh : 1 ≤ kh ∧ kh + 1 ≤ h2.
Hypothesis Hrows : h2 ≤ 2 * kh.

Local Abbreviation xbsz := (w2 + 1 - kw).
Local Abbreviation ybsz := (h2 + 1 - kh).
Local Abbreviation hw := (kw `div` 2).
Local Abbreviation hh := (kh `div` 2).

Lemma convolve_channel_exact xbl ybl ch (s : scratch R) :
  0 ≤ xbl → 0 ≤ ybl → 0 ≤ ch < 3 →
  scratch_sized iw ih w2 h2 s →
  (if in2done s then kernel_ready kw kh w2 h2 kernel (data1 s) ch
   else kernel_blank w2 h2 (data1 s) ch) →
  ∃ s', convolve_channel cos iw ih kw kh w2 h2 Mw Mh xbsz ybsz hw hh
          xbl ybl image kernel ch s = Some s' ∧
        scratch_sized iw ih w2 h2 s' ∧ in2done s' = in2done s ∧
        same_outside (ch * w2 * h2) (w2 * h2) (data1 s) (data1 s') ∧
        kernel_ready kw kh w2 h2 kernel (data1 s') ch ∧
        ∀ xx yy c, 0 ≤ xx < iw → 0 ≤ yy < ih → 0 ≤ c < 4 →
          sample (rdst s') (4 * (yy * iw + xx) + c)
          = (sample (rdst s) (4 * (yy * iw + xx) + c)
             + if c =? ch
               then tile_part iw ih kw kh xbsz ybsz image kernel ch
                      xbl ybl xx yy
               else 0)%R.
Proof.
  intros Hxbl Hybl Hch (Hr & H1 & H2) Hk. unfold convolve_channel.
  pose proof (pow2_pos Mw ltac:(lia)) as Hpw.
  pose proof (pow2_pos Mh ltac:(lia)) as Hph.
  rewrite <- Hw2 in Hpw. rewrite <- Hh2 in Hph.
  assert (Hb1 : 0 ≤ ch * w2 * h2 ∧
                ch * w2 * h2 + w2 * h2 ≤ Z.of_nat (length (data1 s))) by nia.
  set (b1 := ch * w2 * h2) in *.
  set (K := kernel_at kw kh kernel ch).
  assert (Hkh' : 1 ≤ kh ≤ h2) by lia.
  (* in2, channel ch -> data1 *)
  assert (∃ d1, (if in2done s then Some (data1 s)
                 else load_kernel kw kh w2 kernel b1 ch (data1 s)) = Some d1 ∧
                same_outside b1 (w2 * h2) (data1 s) d1 ∧
                if in2done s
                then kernel_ready kw kh w2 h2 kernel d1 ch
                else ∀ c r, 0 ≤ c < w2 → 0 ≤ r < h2 →
                       sample d1 (b1 + (r * w2 + c)) = K c r)
    as (d1 & -> & Ho1 & Hd1).
  { destruct (in2done s).
    - exists (data1 s). split; [done|]. split; [apply same_outside_refl|done].
    - destruct (load_kernel_exact kw kh w2 h2 kernel (data1 s) b1 ch)
        as (d1 & -> & Ho1 & Hd1); [lia|lia|lia|done|lia|lia|done|].
      by exists d1. }
  cbn [mbind option_bind].
  (* in1, channel ch -> data2 *)
  destruct (load_tile_exact iw ih w2 h2 xbsz ybsz xbl ybl ch image (data2 s))
    as (d2 & -> & Hl2 & Hd2); [done|done|done|done|lia|lia|done|done|lia|].
  cbn [mbind option_bind].
  (* the forward transform of the kernel *)
  assert (∃ d1', (if in2done s then Some d1
                  else FHT2D cos d1 b1 Mw Mh (kh + 1) false) = Some d1' ∧
                 same_outside b1 (w2 * h2) (data1 s) d1' ∧
                 kernel_ready kw kh w2 h2 kernel d1' ch)
    as (d1' & -> & Ho1' & Hd1').
  { destruct (in2done s); [by exists d1|].
    destruct (FHT2D_exact_at d1 b1 Mw Mh (kh + 1) false)
      as (d1' & -> & Ho & Hv); [done|done|done|lia| | |].
    - destruct Ho1 as [-> _]. rewrite <- Hw2, <- Hh2. lia.
    - intros _. split; [lia|]. intros r c Hr' Hc'.
      rewrite <- Hw2 in *. rewrite <- Hh2 in *. rewrite Hd1 by lia.
      unfold K, kernel_at. by bool_lia.
    - exists d1'. split; [done|]. rewrite <- Hw2, <- Hh2 in Ho. split.
      + by apply same_outside_trans with d1.
      + intros u v Hu Hv'. fold b1. rewrite Hw2, Hh2 at 1.
        rewrite Hv by lia. rewrite <- Hw2, <- Hh2. unfold scale.
        rewrite Rmult_1_r, Rmult_1_r. apply dht2_ext. intros c r Hc' Hr'.
        by apply Hd1. }
  cbn [mbind option_bind].
  (* the transforms of the tile *)
  set (T := λ c r : Z, sample d2 (r * w2 + c)).
  destruct (spectral_convolution d2 d1' b1 Mw Mh (kh + 1) 0 K)
    as (d2c & Hrun & Hl2c & Hd2c);
    [done|done|done|lia|lia| |lia| | |].
  { destruct Ho1' as [-> _]. rewrite <- Hw2, <- Hh2. lia. }
  { intros r c Hr' Hc'. rewrite <- Hw2 in *. rewrite <- Hh2 in *.
    rewrite Hd2 by lia. by bool_lia. }
  { intros u v Hu Hv. rewrite <- Hw2 in *. rewrite <- Hh2 in *.
    by apply Hd1'. }
  destruct (FHT2D cos d2 0 Mw Mh (kh + 1) false) as [d2a|]; [|done].
  cbn [mbind option_bind] in Hrun |- *.
  destruct (fht_convolve d2a 0 d1' b1 Mh Mw) as [d2b|]; [|done].
  cbn [mbind option_bind] in Hrun |- *. rewrite Hrun.
  cbn [mbind option_bind]. rewrite <- Hw2, <- Hh2 in Hd2c. fold T in Hd2c.
  (* overlap-add *)
  destruct (overlap_add_exact iw ih w2 h2 xbsz ybsz hw hh xbl ybl ch d2c
              (rdst s)) as (r & -> & Hlr & Hrv);
    [done|done|done|lia|lia|lia|lia|].
  cbn [mbind option_bind]. eexists. split; [done|].
  cbn [rdst data1 data2 in2done].
  split.
  { destruct Ho1' as [Hl1' _]. unfold scratch_sized.
    cbn [rdst data1 data2]. lia. }
  split; [done|]. split; [done|]. split; [done|].
  intros xx yy c Hxx Hyy Hc. rewrite Hrv by done. f_equal.
  destruct (Z.eqb_spec c ch) as [->|]; [|done].
  unfold padded_at, tile_part.
  destruct (decide (0 ≤ xx - xbl * xbsz + hw < w2 ∧
                    0 ≤ yy - ybl * ybsz + hh < h2)) as [Hin|Hout].
  - replace ((0 <=? xx - xbl * xbsz + hw) && (xx - xbl * xbsz + hw <? w2)
             && (0 <=? yy - ybl * ybsz + hh) && (yy - ybl * ybsz + hh <? h2))
      with true by (symmetry; bool_lia).
    rewrite Hd2c by lia. fold K.
    rewrite (cconv2_tile kw kh w2 h2 kernel ch Hkw Hkh' T); [|  |lia|lia].
    + apply sumZ_ext. intros ty Hty. apply sumZ_ext. intros tx Htx.
      cbv beta. unfold T. rewrite Hd2 by lia.
      replace ((tx <? xbsz) && (ty <? ybsz)) with true
        by (symmetry; bool_lia).
      f_equal. f_equal; lia.
    + intros c0 r0 Hc' Hr' Hno. unfold T. rewrite Hd2 by lia. by bool_lia.
  - replace ((0 <=? xx - xbl * xbsz + hw) && (xx - xbl * xbsz + hw <? w2)
             && (0 <=? yy - ybl * ybsz + hh) && (yy - ybl * ybsz + hh <? h2))
      with false by (symmetry; bool_lia).
    symmetry. rewrite <- (sumZ_zero ybsz). apply sumZ_ext. intros ty Hty.
    cbv beta. rewrite <- (sumZ_zero xbsz). apply sumZ_ext. intros tx Htx.
    cbv beta. fold K.
    replace (xx + hw - (xbl * xbsz + tx))
      with (xx - xbl * xbsz + hw - tx) by lia.
    replace (yy + hh - (ybl * ybsz + ty))
      with (yy - ybl * ybsz + hh - ty) by lia.
    unfold K.
    rewrite (kernel_at_outside kw kh w2 h2) by (lia || done).
    lra.
Qed.

End ChannelExact.

(** ** [convolve] in exact arithmetic *)

Section ConvolveExact.
Import exact.

Lemma padded_size_two_power (p : Z) :
  1 ≤ p ≤ 29 → padded_size (2 ^ p) = Some (2 ^ (p + 1), p + 1).
Proof.
  intros Hp.
  assert (Hpow : 2 ^ (p + 1) = 2 * 2 ^ p)
    by (rewrite Z.pow_add_r by lia; lia).
  assert (0 < 2 ^ p) by (apply Z.pow_pos_nonneg; lia).
  assert (2 ^ 1 ≤ 2 ^ p ≤ 2 ^ 29) by (split; apply Z.pow_le_mono_r; lia).
  unfold padded_size. rewrite u32_small by lia.
  destruct (next_pow2_spec (2 * 2 ^ p - 1))
    as (w2 & L & -> & HL & -> & Hle & Hmin); [lia|].
  pose proof (Hmin (p + 1) ltac:(lia) ltac:(lia)) as Hup.
  assert (p < L).
  { destruct (Z_lt_le_dec p L) as [|Hge]; [done|exfalso].
    assert (2 ^ L ≤ 2 ^ p) by (apply Z.pow_le_mono_r; lia). lia. }
  apply Z.pow_le_mono_r_iff in Hup; [|lia|lia].
  by replace L with (p + 1) by lia.
Qed.

Lemma sample_replicate n k : sample (replicate n 0%R) k = 0%R.
Proof.
  unfold sample, load. destruct (0 <=? k); [|done].
  destruct (replicate n 0%R !! Z.to_nat k) as [v|] eqn:Hv; [|done].
  by apply lookup_replicate in Hv as [-> _].
Qed.

Section Tiles.
Variables (iw ih kw kh w2 h2 Mw Mh : Z).
Variables (image kernel : list R).
Hypothesis Hiw : 0 ≤ iw.
Hypothesis Hih : 0 ≤ ih.
Hypothesis Himage : Z.of_nat (length image) = iw * ih * 4.
Hypothesis Hkernel : Z.of_nat (length kernel) = kw * kh * 4.
Hypothesis Hw2 : w2 = 2 ^ Mw.
Hypothesis Hh2 : h2 = 2 ^ Mh.
Hypothesis HMw : 1 ≤ Mw.
Hypothesis HMh : 1 ≤ Mh.
Hypothesis HM : Mw + Mh < 32.
Hypothesis Hkw : 1 ≤ kw ≤ w2.
Hypothesis Hkh : 1 ≤ kh ∧ kh + 1 ≤ h2.
Hypothesis Hrows : h2 ≤ 2 * kh.

Local Abbreviation xbsz := (w2 + 1 - kw).
Local Abbreviation ybsz := (h2 + 1 - kh).
Local Abbreviation hw := (kw `div` 2).
Local Abbreviation hh := (kh `div` 2).
Local Abbreviation nxb :=
  (iw `div` xbsz + (if iw `mod` xbsz =? 0 then 0 else 1)).
Local Abbreviation nyb :=
  (ih `div` ybsz + (if ih `mod` ybsz =? 0 then 0 else 1)).
Local Abbreviation inv :=
  (convolving iw ih kw kh w2 h2 xbsz ybsz nxb image kernel).

Lemma convolving_channel xbl ybl ch (s : scratch R) :
  0 ≤ xbl < nxb → 0 ≤ ybl → 0 ≤ ch < 3 →
  inv (ybl * nxb + xbl) ch s →
  ∃ s', convolve_channel cos iw ih kw kh w2 h2 Mw Mh xbsz ybsz hw hh
          xbl ybl image kernel ch s = Some s' ∧
        inv (ybl * nxb + xbl) (ch + 1) s'.
Proof.
  intros Hxbl Hybl Hch (Hsz & Hdone & Hker & Hrd).
  set (t := ybl * nxb + xbl) in *. assert (Ht : 0 ≤ t) by (unfold t; nia).
  destruct (convolve_channel_exact iw ih kw kh w2 h2 Mw Mh image kernel
              Hiw Hih Himage Hkernel Hw2 Hh2 HMw HMh HM Hkw Hkh Hrows
              xbl ybl ch s) as (s' & Hrun & Hsz' & Hdone' & Hout & Hready & Hrd');
    [lia|done|done|done| |].
  { specialize (Hker ch Hch). rewrite Hdone.
    destruct (0 <? t); [done|]. by rewrite Z.ltb_irrefl in Hker. }
  exists s'. split; [done|]. split; [done|]. split; [congruence|]. split.
  - intros ch' Hch'. destruct (Z.eq_dec ch' ch) as [->|Hne].
    + replace (ch <? ch + 1) with true by (symmetry; bool_lia).
      by rewrite orb_true_r.
    + specialize (Hker ch' Hch').
      replace (ch' <? ch + 1) with (ch' <? ch) by bool_lia.
      pose proof (pow2_pos Mw ltac:(lia)). pose proof (pow2_pos Mh ltac:(lia)).
      assert (Hfar : ∀ k, 0 ≤ k < w2 * h2 →
                ¬ (ch * w2 * h2 ≤ ch' * w2 * h2 + k < ch * w2 * h2 + w2 * h2))
        by (intros k Hk; nia).
      destruct ((0 <? t) || (ch' <? ch)).
      * intros u v Hu Hv.
        rewrite (same_outside_sample _ _ _ _ _ Hout) by (apply Hfar; nia).
        by apply Hker.
      * intros k Hk.
        rewrite (same_outside_sample _ _ _ _ _ Hout) by (by apply Hfar).
        by apply Hker.
  - intros xx yy c Hxx Hyy Hc. rewrite Hrd', Hrd by done.
    destruct (Z.ltb_spec c 3); cycle 1.
    { replace (c =? ch) with false by (symmetry; bool_lia). lra. }
    destruct (Z.eqb_spec c ch) as [->|Hne].
    + replace (ch <? ch) with false by (symmetry; bool_lia).
      replace (ch <? ch + 1) with true by (symmetry; bool_lia).
      unfold tiles_part. rewrite sumZ_succ by done. f_equal.
      unfold t. rewrite (Z.add_comm (ybl * _)), Z.mod_add, Z.mod_small by lia.
      by rewrite Z.div_add, Z.div_small, Z.add_0_l by lia.
    + replace (c <? ch + 1) with (c <? ch) by bool_lia. lra.
Qed.

Lemma convolving_tile xbl ybl (s : scratch R) :
  0 ≤ xbl < nxb → 0 ≤ ybl →
  inv (ybl * nxb + xbl) 0 s →
  ∃ s', (s ← for_range 0 3
                (convolve_channel cos iw ih kw kh w2 h2 Mw Mh xbsz ybsz hw hh
                   xbl ybl image kernel) s;
         Some {| rdst := rdst s; data1 := data1 s; data2 := data2 s;
                 in2done := true |}) = Some s' ∧
        inv (ybl * nxb + xbl + 1) 0 s'.
Proof.
  intros Hxbl Hybl Hinv.
  destruct (for_range_total (λ ch, inv (ybl * nxb + xbl) ch) 0 3
              (convolve_channel cos iw ih kw kh w2 h2 Mw Mh xbsz ybsz hw hh
                 xbl ybl image kernel) s)
    as (s' & -> & Hsz & Hdone & Hker & Hrd); [lia|done| |].
  { intros ch s0 Hch Hs0. by apply convolving_channel. }
  cbn [mbind option_bind]. eexists. split; [done|].
  assert (0 ≤ ybl * nxb + xbl) by nia.
  split; [done|]. cbn [rdst data1 data2 in2done].
  split; [symmetry; bool_lia|]. split.
  - intros ch Hch. specialize (Hker ch Hch).
    replace (ch <? 3) with true in Hker by (symmetry; bool_lia).
    rewrite orb_true_r in Hker.
    by replace (0 <? ybl * nxb + xbl + 1) with true by (symmetry; bool_lia).
  - intros xx yy c Hxx Hyy Hc. rewrite Hrd by done.
    destruct (Z.ltb_spec c 3); [|done].
    by replace (c <? 0) with false by (symmetry; bool_lia).
Qed.

Lemma convolving_all (s0 : scratch R) :
  inv 0 0 s0 →
  ∃ s, for_range 0 nyb
         (λ ybl, for_range 0 nxb
            (λ xbl s,
               s ← for_range 0 3
                     (convolve_channel cos iw ih kw kh w2 h2 Mw Mh xbsz ybsz
                        hw hh xbl ybl image kernel) s;
               Some {| rdst := rdst s; data1 := data1 s; data2 := data2 s;
                       in2done := true |})) s0 = Some s ∧
       Z.of_nat (length (rdst s)) = iw * ih * 4 ∧
       ∀ xx yy c, 0 ≤ xx < iw → 0 ≤ yy < ih → 0 ≤ c < 4 →
         sample (rdst s) (4 * (yy * iw + xx) + c)
         = if c <? 3 then convolved iw ih kw kh image kernel c xx yy
           else 0%R.
Proof.
  intros H0.
  pose proof (tile_count_nonneg iw xbsz Hiw ltac:(lia)) as Hnx.
  pose proof (tile_count_nonneg ih ybsz Hih ltac:(lia)) as Hny.
  destruct (for_range_grid_total (λ t, inv t 0) nxb nyb
              (λ xbl ybl s,
                 s ← for_range 0 3
                       (convolve_channel cos iw ih kw kh w2 h2 Mw Mh xbsz ybsz
                          hw hh xbl ybl image kernel) s;
                 Some {| rdst := rdst s; data1 := data1 s; data2 := data2 s;
                         in2done := true |}) s0)
    as (s & Hrun & (Hsz & _) & _ & _ & Hrd); [done|done|done| |].
  { intros xbl ybl s1 Hxbl Hybl Hs1. apply convolving_tile; [done|lia|done]. }
  exists s. split; [done|]. split; [done|].
  intros xx yy c Hxx Hyy Hc. rewrite Hrd by done.
  destruct (Z.ltb_spec c 3); [|done].
  replace (c <? 0) with false by (symmetry; bool_lia).
  rewrite (Z.mul_comm nxb nyb). apply tiles_part_all; lia.
Qed.

End Tiles.

(** In exact arithmetic (the model's [float] and [double] the real
    numbers, [cos] and [sqrt] the real functions) [convolve] computes the
    convolution of the image with the normalised kernel, for an image of
    at most [2^28] pixels and a kernel of between 2 and [2^14] pixels in
    width whose height is a power of two between 2 and [2^14]: on return
    the kernel buffer holds the normalised kernel, every colour cell of
    [dst] holds the sum over the image of
    [image[iy][ix][ch] * kernel[y + kh/2 - iy][x + kw/2 - ix][ch]] (zero
    where the kernel has no pixel), and every alpha cell holds zero.  The
    bound on the image keeps the row offsets
    [yy * image_width * COM_DATA_TYPE_COLOR_CHANNELS], which the source
    forms in [unsigned int], and its [int] coordinates and sizes, below
    [2^31], where they are the numbers computed here. *)
Theorem convolve_exact (dst : list R) (in1 in2 : MemoryBuffer R) (q : Z) :
  0 ≤ get_width in1 ≤ 2 ^ 28 → 0 ≤ get_height in1 ≤ 2 ^ 28 →
  get_width in1 * get_height in1 ≤ 2 ^ 28 →
  2 ≤ get_width in2 ≤ 2 ^ 14 →
  1 ≤ q ≤ 14 → get_height in2 = 2 ^ q →
  Z.of_nat (length (get_buffer in1))
    = get_width in1 * get_height in1 * 4 →
  Z.of_nat (length (get_buffer in2))
    = get_width in2 * get_height in2 * 4 →
  get_width in1 * get_height in1 * 4 ≤ Z.of_nat (length dst) →
  ∃ dst' kernel',
    normalize_kernel (get_width in2) (get_height in2) (get_buffer in2)
    = Some kernel' ∧
    convolve cos dst in1 in2
    = Some (dst', in1,
            {| get_width := get_width in2; get_height := get_height in2;
               get_buffer := kernel' |}) ∧
    length dst' = length dst ∧
    ∀ x y, 0 ≤ x < get_width in1 → 0 ≤ y < get_height in1 →
      (∀ ch, 0 ≤ ch < 3 →
         load dst' (4 * (y * get_width in1 + x) + ch)
         = Some (convolved (get_width in1) (get_height in1)
                   (get_width in2) (get_height in2)
                   (get_buffer in1) kernel' ch x y)) ∧
      load dst' (4 * (y * get_width in1 + x) + 3) = Some 0%R.
Proof.
  destruct in1 as [iw ih image], in2 as [kw kh kernel].
  cbn [get_width get_height get_buffer].
  intros [Hiw _] [Hih _] _ Hkw Hq -> Himage Hkernel Hdst. unfold convolve.
  cbn [get_width get_height get_buffer].
  unfold COM_DATA_TYPE_COLOR_CHANNELS.
  destruct (padded_size_bounds kw Hkw) as (w2 & lw & -> & Hw2 & Hlw & Hwk).
  cbn [mbind option_bind].
  rewrite padded_size_two_power by lia. cbn [mbind option_bind].
  assert (Hh2 : 2 ^ (q + 1) = 2 * 2 ^ q)
    by (rewrite Z.pow_add_r by lia; lia).
  assert (2 ^ 1 ≤ 2 ^ q) by (apply Z.pow_le_mono_r; lia).
  change (2 ^ 1) with 2 in *.
  set (kh := 2 ^ q) in *. set (h2 := 2 ^ (q + 1)) in *.
  destruct (normalize_kernel_total kw kh kernel) as (kernel' & Hnorm & Hk');
    [lia|lia|done|].
  rewrite Hnorm. cbn [mbind option_bind].
  pose proof (pow2_pos lw ltac:(lia)) as Hpw. rewrite <- Hw2 in Hpw.
  assert (0 ≤ iw * ih) by nia. assert (0 ≤ w2 * h2) by nia.
  rewrite !Z.shiftr_div_pow2 by lia. change (2 ^ 1) with 2.
  destruct (convolving_all iw ih kw kh w2 h2 lw (q + 1) image kernel')
    with (s0 := {| rdst := replicate (Z.to_nat (iw * ih * 4)) 0%R;
                   data1 := replicate (Z.to_nat (3 * w2 * h2)) 0%R;
                   data2 := replicate (Z.to_nat (w2 * h2)) 0%R;
                   in2done := false |})
    as (s & Hrun & Hlr & Hrd);
    [done|done|done|lia|done|done|lia|lia|lia|lia|lia|lia| |].
  { split.
    { repeat split; cbn [rdst data1 data2]; rewrite length_replicate; lia. }
    cbn [rdst data1 data2 in2done]. split; [done|]. split.
    - intros ch Hch. cbn [orb].
      replace (ch <? 0) with false by (symmetry; bool_lia).
      intros k Hk. apply sample_replicate.
    - intros xx yy c Hxx Hyy Hc. rewrite sample_replicate.
      destruct (c <? 3); [|done].
      by replace (c <? 0) with false by (symmetry; bool_lia). }
  cbn [f_zero arith] in Hrun |- *. rewrite Hrun. cbn [mbind option_bind].
  unfold memcpy.
  destruct (Z.leb_spec 0 (iw * ih * 4)); [|lia].
  destruct (Z.leb_spec (iw * ih * 4) (Z.of_nat (length (rdst s)))); [|lia].
  destruct (Z.leb_spec (iw * ih * 4) (Z.of_nat (length dst))); [|lia].
  cbn [andb mbind option_bind]. eexists _, kernel'.
  split; [done|]. split; [done|].
  split; [rewrite length_app, length_take, length_drop; lia|].
  assert (Hcopy : ∀ p, 0 ≤ p < iw * ih * 4 →
            load (take (Z.to_nat (iw * ih * 4)) (rdst s)
                  ++ drop (Z.to_nat (iw * ih * 4)) dst) p
            = Some (sample (rdst s) p)).
  { intros p Hp. rewrite <- load_sample by lia. unfold load.
    destruct (Z.leb_spec 0 p); [|lia].
    rewrite lookup_app_l by (rewrite length_take; lia).
    apply lookup_take_lt. lia. }
  intros x y Hx Hy. pose proof (pixel_bound iw ih x y Hx Hy). split.
  - intros ch Hch. rewrite Hcopy by lia. rewrite Hrd by lia.
    by replace (ch <? 3) with true by (symmetry; bool_lia).
  - rewrite Hcopy by lia. by rewrite Hrd by lia.
Qed.

End ConvolveExact.

(** ** The rows that the forward [FHT2D] skips *)

Section SkippedRows.
Import exact.

Lemma dht_skipped Nx nzp (f : Z → Z → R) r c :
  1 ≤ Nx → 0 ≤ c < Nx →
  dht Nx (λ c', skipped_rows Nx nzp f c' r) c
  = if r <? nzp then dht Nx (λ c', f c' r) c else f c r.
Proof.
  intros HNx Hc. unfold skipped_rows. destruct (r <? nzp); [done|].
  unfold Rdiv. rewrite dht_scal, dht_involutive by done.
  field. apply not_0_IZR. lia.
Qed.

Lemma FHT2D_forward_exact (x : list R) Mx My nzp :
  1 ≤ Mx → 1 ≤ My → Mx + My < 32 →
  Z.of_nat (length x) = 2 ^ Mx * 2 ^ My →
  0 ≤ nzp ≤ 2 ^ My →
  ∃ d, FHT2D cos x 0 Mx My nzp false = Some d ∧
       length d = length x ∧
       ∀ u v, 0 ≤ u < 2 ^ Mx → 0 ≤ v < 2 ^ My →
         sample d (u * 2 ^ My + v)
         = dht2 (2 ^ Mx) (2 ^ My)
             (skipped_rows (2 ^ Mx) nzp (λ c r, sample x (r * 2 ^ Mx + c)))
             u v.
Proof.
  intros HMx HMy HM Hlen Hnzp.
  pose proof (pow2_pos Mx ltac:(lia)) as HNx.
  pose proof (pow2_pos My ltac:(lia)) as HNy.
  unfold FHT2D. rewrite !Z.shiftl_1_l.
  set (f := λ c r : Z, sample x (r * 2 ^ Mx + c)).
  set (f' := skipped_rows (2 ^ Mx) nzp f).
  destruct (FHT_rows_exact x Mx nzp (2 ^ My) false)
    as (d1 & -> & Hl1 & Hd1); [lia|done|done|].
  cbn [mbind option_bind].
  assert (Hrows : ∀ r c, 0 ≤ r < 2 ^ My → 0 ≤ c < 2 ^ Mx →
            sample d1 (r * 2 ^ Mx + c) = dht (2 ^ Mx) (λ c, f' c r) c).
  { intros r c Hr Hc. rewrite (Z.mul_comm r), Hd1 by done.
    unfold f'. rewrite dht_skipped by lia. unfold scale, f.
    destruct (r <? nzp).
    - rewrite Rmult_1_r. apply dht_ext. intros j Hj. f_equal. lia.
    - f_equal. lia. }
  clear Hd1.
  rewrite FHT2D_transpose_ref by lia. cbn [mbind option_bind].
  pose proof (transpose_ref_length (2 ^ Mx) (2 ^ My) d1
                ltac:(lia) ltac:(lia) ltac:(lia)) as Hl2.
  assert (Hd2 : ∀ c r, 0 ≤ c < 2 ^ Mx → 0 ≤ r < 2 ^ My →
            sample (transpose_ref (2 ^ Mx) (2 ^ My) d1) (c * 2 ^ My + r)
            = sample d1 (r * 2 ^ Mx + c)).
  { intros c r Hc Hr. unfold sample.
    by rewrite transpose_ref_load by lia. }
  generalize dependent (transpose_ref (2 ^ Mx) (2 ^ My) d1).
  intros d2 Hl2 Hd2.
  destruct (FHT_rows_exact d2 My (2 ^ Mx) (2 ^ Mx) false)
    as (d3 & -> & Hl3 & Hd3); [lia|lia|lia|].
  cbn [mbind option_bind].
  assert (Hsep : ∀ u v, 0 ≤ u < 2 ^ Mx → 0 ≤ v < 2 ^ My →
            sample d3 (u * 2 ^ My + v)
            = dht_rows_cols (2 ^ Mx) (2 ^ My) f' u v).
  { intros u v Hu Hv. rewrite (Z.mul_comm u), Hd3 by done.
    destruct (Z.ltb_spec u (2 ^ Mx)); [|lia].
    unfold dht_rows_cols, scale. rewrite Rmult_1_r. apply dht_ext.
    intros j Hj. rewrite (Z.mul_comm _ u), Hd2 by done. by apply Hrows. }
  clear Hd3.
  destruct (FHT2D_finalize_pow2 d3 My Mx) as (d4 & -> & Hl4 & Hd4);
    [done|done|lia|].
  exists d4. split; [done|]. split; [lia|].
  intros u v Hu Hv. rewrite Hd4 by done. unfold fin_out.
  pose proof (mirror_bound (2 ^ Mx) u HNx).
  pose proof (mirror_bound (2 ^ My) v HNy).
  rewrite !Hsep by done. by rewrite dht2_rows_cols by done.
Qed.

(** A row that is [1 / N] times its own transform is zero. *)
Lemma dht_fixed_zero N (g : Z → R) :
  2 ≤ N →
  (∀ c, 0 ≤ c < N → (dht N g c / IZR N)%R = g c) →
  ∀ c, 0 ≤ c < N → g c = 0%R.
Proof.
  intros HN Hfix c Hc.
  assert (HNz : IZR N ≠ 0%R) by (apply not_0_IZR; lia).
  assert (H2 : (2 <= IZR N)%R) by (apply IZR_le; lia).
  assert (Hd : ∀ j, 0 ≤ j < N → dht N g j = (IZR N * g j)%R).
  { intros j Hj. rewrite <- (Hfix j Hj). field. done. }
  pose proof (dht_involutive N ltac:(lia) g c Hc) as Hinv.
  rewrite (dht_ext N (dht N g) (λ j, g j * IZR N)%R) in Hinv
    by (intros j Hj; rewrite Hd by done; lra).
  rewrite dht_scal, Hd in Hinv by done.
  assert ((IZR N * (IZR N - 1)) * g c = 0)%R as [H0|H0]%Rmult_integral
    by lra; [|done].
  apply Rmult_integral in H0 as [?|?]; lra.
Qed.

Lemma dht2_injective Nx Ny (f g : Z → Z → R) :
  1 ≤ Nx → 1 ≤ Ny →
  (∀ u v, 0 ≤ u < Nx → 0 ≤ v < Ny → dht2 Nx Ny f u v = dht2 Nx Ny g u v) →
  ∀ c r, 0 ≤ c < Nx → 0 ≤ r < Ny → f c r = g c r.
Proof.
  intros HNx HNy Heq c r Hc Hr.
  pose proof (dht2_involutive Nx Ny HNx HNy f c r Hc Hr) as Hf.
  pose proof (dht2_involutive Nx Ny HNx HNy g c r Hc Hr) as Hg.
  rewrite (dht2_ext Nx Ny _ (dht2 Nx Ny g)) in Hf by done.
  assert (IZR Nx ≠ 0%R) by (apply not_0_IZR; lia).
  assert (IZR Ny ≠ 0%R) by (apply not_0_IZR; lia).
  apply (Rmult_eq_reg_l (IZR Nx * IZR Ny)); [congruence|].
  by apply Rmult_integral_contrapositive.
Qed.

(** In exact arithmetic the forward [FHT2D] computes the transform of the
    grid exactly when the rows that its row pass skips, those from [nzp]
    on, hold zeros: the zero rows that the argument [nzp] promises are
    needed, not only sufficient. *)
Theorem FHT2D_forward_iff_zero_rows (x : list R) (Mx My nzp : Z) :
  1 ≤ Mx → 1 ≤ My → Mx + My < 32 →
  Z.of_nat (length x) = 2 ^ Mx * 2 ^ My →
  0 ≤ nzp ≤ 2 ^ My →
  ∃ d, FHT2D cos x 0 Mx My nzp false = Some d ∧
       ((∀ u v, 0 ≤ u < 2 ^ Mx → 0 ≤ v < 2 ^ My →
           load d (u * 2 ^ My + v)
           = Some (dht2 (2 ^ Mx) (2 ^ My)
                     (λ c r, sample x (r * 2 ^ Mx + c)) u v))
        ↔ (∀ r c, nzp ≤ r < 2 ^ My → 0 ≤ c < 2 ^ Mx →
             load x (r * 2 ^ Mx + c) = Some 0%R)).
Proof.
  intros HMx HMy HM Hlen Hnzp.
  pose proof (pow2_pos Mx ltac:(lia)) as HNx.
  pose proof (pow2_pos My ltac:(lia)) as HNy.
  assert (2 ^ 1 ≤ 2 ^ Mx) by (apply Z.pow_le_mono_r; lia).
  change (2 ^ 1) with 2 in *.
  destruct (FHT2D_forward_exact x Mx My nzp) as (d & Hrun & Hl & Hd);
    [done..|].
  exists d. split; [done|].
  set (f := λ c r : Z, sample x (r * 2 ^ Mx + c)) in *.
  assert (Hsame : (∀ u v, 0 ≤ u < 2 ^ Mx → 0 ≤ v < 2 ^ My →
                     load d (u * 2 ^ My + v)
                     = Some (dht2 (2 ^ Mx) (2 ^ My) f u v))
                  ↔ (∀ c r, 0 ≤ c < 2 ^ Mx → 0 ≤ r < 2 ^ My →
                       skipped_rows (2 ^ Mx) nzp f c r = f c r)).
  { split.
    - intros Hload. apply dht2_injective; [lia|lia|].
      intros u v Hu Hv. rewrite <- Hd by done.
      specialize (Hload u v Hu Hv). rewrite load_sample in Hload by nia.
      congruence.
    - intros Hf u v Hu Hv. rewrite load_sample by nia. rewrite Hd by done.
      f_equal. by apply dht2_ext. }
  rewrite Hsame. split.
  - intros Hf r c Hr Hc. rewrite load_sample by nia. f_equal.
    apply (dht_fixed_zero (2 ^ Mx) (λ c, f c r)); [lia| |done].
    intros c' Hc'. specialize (Hf c' r Hc' ltac:(lia)).
    unfold skipped_rows in Hf. by destruct (Z.ltb_spec r nzp); [lia|].
  - intros Hz c r Hc Hr. unfold skipped_rows.
    destruct (Z.ltb_spec r nzp); [done|].
    assert (Hrow : ∀ c', 0 ≤ c' < 2 ^ Mx → f c' r = 0%R).
    { intros c' Hc'. unfold f, sample. by rewrite Hz by lia. }
    rewrite dht_zero by done. rewrite Hrow by done. unfold Rdiv. lra.
Qed.

End SkippedRows.

(** ** The height of the tiles and the rows that [FHT2D] transforms *)

(** The tiles of [convolve] have [ybsz = h2 + 1 - kernel_height] rows.
    That is at least [kernel_height + 1], the number of rows that the
    forward [FHT2D] is told to transform, and exactly that many if and only
    if the height of the kernel is a power of two. *)
Theorem tile_rows_vs_transformed_rows (kh : Z) :
  2 ≤ kh ≤ 2 ^ 14 →
  ∃ h2 L, padded_size kh = Some (h2, L) ∧
          kh + 1 ≤ h2 + 1 - kh ∧
          (h2 + 1 - kh = kh + 1 ↔ ∃ p, kh = 2 ^ p).
Proof.
  intros Hkh.
  destruct (padded_size_spec kh) as (h2 & L & Hp & HL & -> & Hle & Hmin);
    [lia|].
  exists (2 ^ L), L. split; [done|].
  assert (HL2 : 2 ≤ L).
  { destruct (Z_lt_le_dec L 2) as [Hlt|]; [exfalso|done].
    assert (2 ^ L ≤ 2 ^ 1) by (apply Z.pow_le_mono_r; lia).
    change (2 ^ 1) with 2 in *. lia. }
  assert (Heven : 2 ^ L = 2 * 2 ^ (L - 1)).
  { rewrite <- Z.pow_succ_r by lia. f_equal. lia. }
  split; [lia|]. split.
  - intros Heq. exists (L - 1). lia.
  - intros [p ->].
    assert (Hp1 : 1 ≤ p).
    { destruct (Z_lt_le_dec p 1) as [Hlt|]; [exfalso|done].
      destruct (Z_lt_le_dec p 0) as [Hneg|].
      - rewrite Z.pow_neg_r in Hkh by done. lia.
      - assert (p = 0) as -> by lia. change (2 ^ 0) with 1 in Hkh. lia. }
    assert (Hp14 : p ≤ 14).
    { apply (Z.pow_le_mono_r_iff 2); lia. }
    rewrite padded_size_two_power in Hp by lia. injection Hp as Hh _.
    rewrite <- Hh, Z.pow_add_r by lia. lia.
Qed.

(** ** The normalisation of the kernel, in exact arithmetic *)

Section NormalizeExact.
Import exact.

Lemma channel_sum_exact (kernel : list R) n ch :
  0 ≤ n → channel_sum kernel n ch = channel_total kernel n ch.
Proof.
  revert n. apply (sumZ_ind (λ n, channel_sum kernel n ch
                                  = channel_total kernel n ch)).
  - done.
  - intros n Hn IH. unfold channel_total in *.
    rewrite channel_sum_step, sumZ_succ, IH by done. done.
Qed.

Lemma normalize_kernel_exact_spec kw kh (kernel : list R) :
  0 ≤ kw → 0 ≤ kh → Z.of_nat (length kernel) = kw * kh * 4 →
  ∃ k', normalize_kernel kw kh kernel = Some k' ∧
        length k' = length kernel ∧
        ∀ p c, 0 ≤ p < kw * kh → 0 ≤ c < 4 →
          sample k' (4 * p + c)
          = if c <? 3
            then (sample kernel (4 * p + c)
                  * reciprocal_weight (channel_total kernel (kw * kh) c))%R
            else sample kernel (4 * p + c).
Proof.
  intros Hw Hh Hlen. unfold normalize_kernel.
  rewrite kernel_weights_sum by done. cbn [mbind option_bind].
  assert (0 ≤ kw * kh) by nia.
  rewrite !channel_sum_exact by done.
  set (wf := λ c, reciprocal_weight (channel_total kernel (kw * kh) c)).
  change (reciprocal_weight (channel_total kernel (kw * kh) 0)) with (wf 0).
  change (reciprocal_weight (channel_total kernel (kw * kh) 1)) with (wf 1).
  change (reciprocal_weight (channel_total kernel (kw * kh) 2)) with (wf 2).
  destruct (for_range_grid_total (λ q, scaled_upto wf kernel (4 * q))
    kw kh (mul_v3_px kw kh (wf 0, wf 1, wf 2)) kernel)
    as (k' & Hk' & Hl & Hv); [done|done| | |].
  - split; [done|]. intros p c Hp Hc.
    destruct (Z.ltb_spec (4 * p + c) (4 * 0)); [lia|]. by rewrite andb_false_r.
  - intros x y k Hx Hy Hk. by apply mul_v3_px_step.
  - exists k'. split; [done|]. split; [done|]. intros p c Hp Hc.
    unfold sample. rewrite Hv by lia.
    destruct (Z.ltb_spec (4 * p + c) (4 * (kw * kh))); [|lia].
    rewrite andb_true_r. destruct (c <? 3); [|done].
    destruct (load_is_Some kernel (4 * p + c)) as [v ->]; [lia|]. done.
Qed.

(** In exact arithmetic the normalisation makes every colour channel of
    the kernel sum to one, when the channel did not sum to zero; a channel
    that sums to zero is cleared, and alpha is left alone. *)
Theorem normalize_kernel_sums_to_one kw kh (kernel : list R) :
  0 ≤ kw → 0 ≤ kh → Z.of_nat (length kernel) = kw * kh * 4 →
  ∃ k', normalize_kernel kw kh kernel = Some k' ∧
        length k' = length kernel ∧
        (∀ ch, 0 ≤ ch < 3 →
           (channel_total kernel (kw * kh) ch ≠ 0%R →
            channel_total k' (kw * kh) ch = 1%R) ∧
           (channel_total kernel (kw * kh) ch = 0%R →
            ∀ p, 0 ≤ p < kw * kh → load k' (4 * p + ch) = Some 0%R)) ∧
        ∀ p, 0 ≤ p < kw * kh → load k' (4 * p + 3) = load kernel (4 * p + 3).
Proof.
  intros Hw Hh Hlen.
  destruct (normalize_kernel_exact_spec kw kh kernel Hw Hh Hlen)
    as (k' & Hrun & Hl & Hv).
  exists k'. split; [done|]. split; [done|]. split.
  - intros ch Hch. set (S := channel_total kernel (kw * kh) ch).
    assert (Hcell : ∀ p, 0 ≤ p < kw * kh →
              sample k' (4 * p + ch)
              = (sample kernel (4 * p + ch) * reciprocal_weight S)%R).
    { intros p Hp. rewrite Hv by lia.
      by destruct (Z.ltb_spec ch 3); [|lia]. }
    unfold reciprocal_weight in Hcell. cbn [f_nonzero arith] in Hcell.
    unfold nonzero in Hcell. split.
    + intros HS. destruct (Req_dec_T S 0) as [?|_]; [done|].
      unfold channel_total.
      rewrite (sumZ_ext _ _ (λ p, f_div f_one S * sample kernel (4 * p + ch))%R)
        by (intros p Hp; rewrite Hcell by done; lra).
      rewrite sumZ_scal. fold (channel_total kernel (kw * kh) ch). fold S.
      cbn [f_div f_one arith]. field. done.
    + intros HS p Hp. rewrite load_sample by lia. f_equal.
      rewrite Hcell by done. destruct (Req_dec_T S 0) as [_|?]; [|done].
      rewrite HS. lra.
  - intros p Hp. rewrite !load_sample by lia. f_equal.
    rewrite Hv by lia. done.
Qed.

End NormalizeExact.


(** ** Buffers inside one memory *)

Section Blocks.
Context {A : Type}.
Implicit Types a b w : list A.

Lemma load_app_l a b i v : load a i = Some v → load (a ++ b) i = Some v.
Proof.
  intros [Hi Hv]%load_Some. apply load_Some. split; [done|].
  by apply lookup_app_l_Some.
Qed.

Lemma load_app_r a b i j v :
  load b i = Some v → j = Z.of_nat (length a) + i → load (a ++ b) j = Some v.
Proof.
  intros [Hi Hv]%load_Some ->. apply load_Some. split; [lia|].
  rewrite lookup_app_r by lia. rewrite <- Hv. f_equal. lia.
Qed.

Lemma store_app_l a b i v a' :
  store a i v = Some a' → store (a ++ b) i v = Some (a' ++ b).
Proof.
  intros [Hi ->]%store_Some. rewrite store_is_Some
    by (rewrite length_app; lia).
  f_equal. apply insert_app_l. lia.
Qed.

Lemma store_app_r a b i j v b' :
  store b i v = Some b' → j = Z.of_nat (length a) + i →
  store (a ++ b) j v = Some (a ++ b').
Proof.
  intros [Hi ->]%store_Some ->. rewrite store_is_Some
    by (rewrite length_app; lia).
  f_equal.
  replace (Z.to_nat (Z.of_nat (length a) + i))
    with (length a + Z.to_nat i)%nat by lia.
  apply insert_app_r.
Qed.

Lemma load_region (mem : list A) p n i v :
  0 ≤ p → load (region mem p n) i = Some v → load mem (p + i) = Some v.
Proof.
  intros Hp [Hi Hv]%load_Some. apply load_Some. split; [lia|].
  unfold region in Hv. apply lookup_take_Some in Hv as [Hv _].
  rewrite lookup_drop in Hv. rewrite <- Hv. f_equal. lia.
Qed.

Lemma length_region (mem : list A) p n :
  0 ≤ p → 0 ≤ n → p + n ≤ Z.of_nat (length mem) →
  Z.of_nat (length (region mem p n)) = n.
Proof.
  intros Hp Hn Hl. unfold region. rewrite length_take, length_drop. lia.
Qed.

Lemma region_split (mem : list A) p n :
  0 ≤ p → 0 ≤ n → p + n ≤ Z.of_nat (length mem) →
  mem = take (Z.to_nat p) mem ++ region mem p n ++ drop (Z.to_nat (p + n)) mem
  ∧ Z.of_nat (length (take (Z.to_nat p) mem)) = p.
Proof.
  intros Hp Hn Hl. split; [|rewrite length_take; lia].
  unfold region.
  replace (Z.to_nat (p + n)) with (Z.to_nat p + Z.to_nat n)%nat by lia.
  rewrite <- drop_drop, take_drop. by rewrite take_drop.
Qed.

End Blocks.

(** ** [FHT2D] at an offset of a part of the memory *)

Section FHT2DWindowAt.
Context {F D : Type} `{!FloatArith F D} (cos : D → D).
Variables (pre post : list F).

Local Abbreviation base := (Z.of_nat (length pre)).
Local Abbreviation emb := (λ w : list F, pre ++ w ++ post).
Variable b : Z.

Lemma SWAP_window_at (w w' : list F) p q p' q' :
  p' = base + p → q' = base + q →
  SWAP w p q = Some w' → SWAP (emb w) p' q' = Some (emb w').
Proof. intros -> ->. apply SWAP_window. Qed.

Lemma transpose_cycle_window_at (fuel : nat) Mx My i :
  ∀ k j stm w w' stm',
    transpose_cycle fuel b Mx My i k j stm w = Some (w', stm') →
    transpose_cycle fuel (base + b) Mx My i k j stm (emb w)
    = Some (emb w', stm').
Proof.
  induction fuel as [|fuel IH]; intros k j stm w w' stm';
    cbn [transpose_cycle]; [done|].
  destruct (j =? i); [by intros [= -> ->]|].
  destruct (SWAP w (b + j) (b + k)) as [w1|] eqn:Hs; [|done].
  cbn [mbind option_bind].
  rewrite (SWAP_window_at w w1 (b + j) (b + k) (base + b + j) (base + b + k)
             ltac:(lia) ltac:(lia) Hs).
  cbn [mbind option_bind]. apply IH.
Qed.

Lemma transpose_rect_window_at (fuel : nat) Mx My :
  ∀ i stm w w',
    transpose_rect fuel b Mx My i stm w = Some w' →
    transpose_rect fuel (base + b) Mx My i stm (emb w) = Some (emb w').
Proof.
  induction fuel as [|fuel IH]; intros i stm w w';
    cbn [transpose_rect]; [done|].
  destruct (0 <? stm); [|by intros [= ->]].
  destruct (transpose_chase _ Mx My i (PRED Mx My i)) as [j|]; [|done].
  cbn [mbind option_bind]. destruct (j <? i); [apply IH|].
  destruct (transpose_cycle _ b Mx My i i (PRED Mx My i) stm w)
    as [[w1 stm1]|] eqn:Hc; [|done].
  cbn [mbind option_bind].
  rewrite (transpose_cycle_window_at _ _ _ _ _ _ _ _ _ _ Hc).
  cbn [mbind option_bind]. apply IH.
Qed.

Lemma transpose_square_window_at Mx My w w' :
  transpose_square b Mx My w = Some w' →
  transpose_square (base + b) Mx My (emb w) = Some (emb w').
Proof.
  unfold transpose_square. apply (for_range_map emb). intros j w1 w1'.
  apply (for_range_map emb). intros i w2 w2'.
  apply SWAP_window_at; lia.
Qed.

Lemma FHT2D_transpose_window_at Mx My w w' :
  FHT2D_transpose w b Mx My = Some w' →
  FHT2D_transpose (emb w) (base + b) Mx My = Some (emb w').
Proof.
  unfold FHT2D_transpose. destruct (_ =? _).
  - apply transpose_square_window_at.
  - apply transpose_rect_window_at.
Qed.

Lemma FHT2D_finalize_at_window_at Mx Nx Ny j i (w w' : list F) :
  FHT2D_finalize_at b Mx Nx Ny j i w = Some w' →
  FHT2D_finalize_at (base + b) Mx Nx Ny j i (emb w) = Some (emb w').
Proof.
  unfold FHT2D_finalize_at. intros Hrun. cbv zeta in Hrun |- *.
  do 7 window_op Hrun.
  eapply store_window_at; [exact Hrun|lia].
Qed.

Lemma FHT_rows_window_at Nx M inverse rows (w w' : list F) :
  for_range 0 rows (λ j d, FHT cos d (b + Nx * j) M inverse) w = Some w' →
  for_range 0 rows (λ j d, FHT cos d (base + b + Nx * j) M inverse) (emb w)
  = Some (emb w').
Proof.
  apply (for_range_map emb). intros j s s1 Hrun. cbv beta in Hrun |- *.
  rewrite <- Z.add_assoc. by apply FHT_window.
Qed.

Lemma FHT2D_window_at Mx My nzp inverse (w w' : list F) :
  FHT2D cos w b Mx My nzp inverse = Some w' →
  FHT2D cos (emb w) (base + b) Mx My nzp inverse = Some (emb w').
Proof.
  unfold FHT2D. intros Hrun.
  destruct (for_range 0 _ _ w) as [w1|] eqn:H1; [|done].
  cbn [mbind option_bind] in Hrun |- *.
  rewrite (FHT_rows_window_at _ _ _ _ _ _ H1). cbn [mbind option_bind].
  destruct (FHT2D_transpose w1 b Mx My) as [w2|] eqn:H2; [|done].
  cbn [mbind option_bind] in Hrun |- *.
  rewrite (FHT2D_transpose_window_at _ _ _ _ H2).
  cbn [mbind option_bind].
  destruct (for_range 0 _ _ w2) as [w3|] eqn:H3; [|done].
  cbn [mbind option_bind] in Hrun |- *.
  rewrite (FHT_rows_window_at _ _ _ _ _ _ H3). cbn [mbind option_bind].
  revert Hrun. apply (for_range_map emb). intros j s s1.
  apply (for_range_map emb). intros i s' s1'.
  apply FHT2D_finalize_at_window_at.
Qed.

End FHT2DWindowAt.

(** ** The steps of [convolve] on a part of the memory

    Every step of [flat.convolve] works on one buffer, the part [w] of the
    memory [pre ++ w ++ post], and reads at most one other buffer, which
    lies outside that part.  It then does to the part what the step on
    lists does to the list. *)

Lemma for_range_map_inv {S S'} (g : S → S') (P : S → Prop) lo hi
    (body : Z → S → option S) (body' : Z → S' → option S') :
  (∀ i s s1, P s → body i s = Some s1 →
     P s1 ∧ body' i (g s) = Some (g s1)) →
  ∀ s s1, P s → for_range lo hi body s = Some s1 →
    P s1 ∧ for_range lo hi body' (g s) = Some (g s1).
Proof.
  intros Hbody s s1 HP Hrun.
  destruct (for_range_sim (λ s s', P s ∧ s' = g s) lo hi body body')
    with (s := s) (s' := g s) (s1 := s1) as (s1' & -> & HP1 & ->);
    [|done|done|done].
  intros i s0 s0' s2 _ [HP0 ->] H2. exists (g s2).
  destruct (Hbody i s0 s2 HP0 H2) as [? ?]. done.
Qed.

(** Two loops that both run to their end, in step. *)
Lemma for_range_total_sim {S S'} (R : S → S' → Prop) lo hi
    (body : Z → S → option S) (body' : Z → S' → option S') s s' :
  lo ≤ hi → R s s' →
  (∀ i s s', lo ≤ i < hi → R s s' →
     ∃ s1 s1', body i s = Some s1 ∧ body' i s' = Some s1' ∧ R s1 s1') →
  ∃ s1 s1', for_range lo hi body s = Some s1
            ∧ for_range lo hi body' s' = Some s1' ∧ R s1 s1'.
Proof.
  intros Hle HR Hstep.
  remember (Z.to_nat (hi - lo)) as k eqn:Hk.
  revert lo s s' Hle HR Hstep Hk.
  induction k as [|k IH]; intros lo s s' Hle HR Hstep Hk.
  - assert (lo = hi) as -> by lia. rewrite !for_range_empty by lia. eauto.
  - rewrite !for_range_first by lia.
    destruct (Hstep lo s s') as (s1 & s1' & -> & -> & HR'); [lia|done|].
    cbn [mbind option_bind].
    apply IH; [lia|done|intros; eapply Hstep; eauto; lia|lia].
Qed.

Section FlatSteps.
Context {F D : Type} `{!FloatArith F D} (cos : D → D).
Variables (pre post : list F).

Local Abbreviation base := (Z.of_nat (length pre)).
Local Abbreviation emb := (λ w : list F, pre ++ w ++ post).

Lemma memset0_flat n (w w' : list F) :
  memset0 n w = Some w' → flat.memset0 base n (emb w) = Some (emb w').
Proof.
  unfold memset0, flat.memset0.
  destruct (Z.leb_spec 0 n), (Z.leb_spec n (Z.of_nat (length w)));
    simpl; try done.
  intros [= <-].
  destruct (Z.leb_spec 0 base); [|lia].
  destruct (Z.leb_spec (base + n) (Z.of_nat (length (pre ++ w ++ post))));
    [|rewrite !length_app in *; lia].
  cbn [andb]. f_equal. rewrite Nat2Z.id, take_app_length. f_equal.
  rewrite <- app_assoc. f_equal.
  replace (Z.to_nat (base + n)) with (length pre + Z.to_nat n)%nat by lia.
  rewrite drop_app_add'. 2: done.
  rewrite drop_app_le by lia. done.
Qed.

(** A buffer [src] outside the part, at the address [p]. *)
Section Source.
Variables (src : list F) (p : Z).
Hypothesis Hsrc :
  ∀ (w : list F) i v, load src i = Some v → load (emb w) (p + i) = Some v.

Lemma load_pixel_flat width height (w : list F) x y ch v :
  load_pixel width height src x y ch = Some v →
  flat.load_pixel p width (emb w) x y ch = Some v.
Proof.
  unfold load_pixel, flat.load_pixel, pixel, flat.pixel.
  destruct (_ && _); [|done]. cbn [mbind option_bind].
  apply Hsrc.
Qed.

Lemma load_tile_flat iw ih w2 h2 xbsz ybsz xbl ybl ch (w w' : list F) :
  load_tile iw ih w2 h2 xbsz ybsz xbl ybl ch src w = Some w' →
  flat.load_tile p iw ih w2 h2 xbsz ybsz xbl ybl ch base (emb w)
  = Some (emb w').
Proof.
  unfold load_tile, flat.load_tile. intros Hrun.
  destruct (memset0 _ w) as [w0|] eqn:Hm; [|done].
  cbn [mbind option_bind] in Hrun |- *.
  rewrite (memset0_flat _ _ _ Hm). cbn [mbind option_bind].
  revert Hrun. apply (for_range_map emb). intros y s s1. cbv zeta.
  destruct (ih <=? _); [by intros [= ->]|].
  apply (for_range_map emb). intros x s2 s3.
  destruct (iw <=? _); [by intros [= ->]|].
  destruct (load_pixel _ _ _ _ _ _) as [v|] eqn:Hv; [|done].
  cbv beta. rewrite (load_pixel_flat _ _ _ _ _ _ _ Hv).
  cbn [mbind option_bind].
  intros Hst. eapply store_window_at; [exact Hst|lia].
Qed.

Lemma load_kernel_flat kw kh w2 b1 ch (w w' : list F) :
  load_kernel kw kh w2 src b1 ch w = Some w' →
  flat.load_kernel p kw kh w2 (base + b1) ch (emb w) = Some (emb w').
Proof.
  unfold load_kernel, flat.load_kernel.
  apply (for_range_map emb). intros y s s1.
  apply (for_range_map emb). intros x s2 s3.
  destruct (load_pixel _ _ _ _ _ _) as [v|] eqn:Hv; [|done].
  cbv beta. rewrite (load_pixel_flat _ _ _ _ _ _ _ Hv).
  cbn [mbind option_bind].
  intros Hst. eapply store_window_at; [exact Hst|lia].
Qed.

Lemma fht_mul_at_flat b2 b1 q (w w' : list F) :
  fht_mul_at src b2 b1 q w = Some w' →
  flat.fht_mul_at (base + b1) (p + b2) q (emb w) = Some (emb w').
Proof.
  unfold fht_mul_at, flat.fht_mul_at. intros Hrun. cbv beta.
  window_op Hrun.
  destruct (load src (b2 + q)) as [y|] eqn:Hy; [|done].
  cbn [mbind option_bind] in Hrun.
  replace (p + b2 + q) with (p + (b2 + q)) by lia.
  rewrite (Hsrc _ _ _ Hy). cbn [mbind option_bind].
  eapply store_window_at; [exact Hrun|lia].
Qed.

Lemma fht_pair_at_flat b2 b1 q r (w w' : list F) :
  fht_pair_at src b2 b1 q r w = Some w' →
  flat.fht_pair_at (base + b1) (p + b2) q r (emb w) = Some (emb w').
Proof.
  unfold fht_pair_at, flat.fht_pair_at. intros Hrun. cbv beta.
  window_op Hrun.
  destruct (load src (b2 + q)) as [y|] eqn:Hy; [|done].
  cbn [mbind option_bind] in Hrun.
  replace (p + b2 + q) with (p + (b2 + q)) by lia.
  rewrite (Hsrc _ _ _ Hy). cbn [mbind option_bind].
  window_op Hrun.
  destruct (load src (b2 + r)) as [z|] eqn:Hz; [|done].
  cbn [mbind option_bind] in Hrun.
  replace (p + b2 + r) with (p + (b2 + r)) by lia.
  rewrite (Hsrc _ _ _ Hz). cbn [mbind option_bind].
  cbv zeta in Hrun |- *.
  window_op Hrun.
  eapply store_window_at; [exact Hrun|lia].
Qed.

Lemma fht_pair2_flat b2 b1 q r q' r' (w w' : list F) :
  (w ← fht_pair_at src b2 b1 q r w; fht_pair_at src b2 b1 q' r' w)
  = Some w' →
  (m ← flat.fht_pair_at (base + b1) (p + b2) q r (emb w);
   flat.fht_pair_at (base + b1) (p + b2) q' r' m) = Some (emb w').
Proof.
  intros Hrun.
  destruct (fht_pair_at src b2 b1 q r w) as [w1|] eqn:H1; [|done].
  cbn [mbind option_bind] in Hrun.
  rewrite (fht_pair_at_flat _ _ _ _ _ _ H1). cbn [mbind option_bind].
  by apply fht_pair_at_flat.
Qed.

Lemma fht_convolve_flat b2 b1 M N (w w' : list F) :
  fht_convolve w b1 src b2 M N = Some w' →
  flat.fht_convolve (base + b1) (p + b2) M N (emb w) = Some (emb w').
Proof.
  unfold fht_convolve, flat.fht_convolve. cbv zeta. intros Hrun.
  repeat lazymatch type of Hrun with
  | mbind _ (fht_mul_at src b2 b1 ?q ?s) = Some _ =>
      let w1 := fresh "w" in
      let E := fresh "E" in
      destruct (fht_mul_at src b2 b1 q s) as [w1|] eqn:E; [|done];
      cbn [mbind option_bind] in Hrun;
      rewrite (fht_mul_at_flat _ _ _ _ _ E); cbn [mbind option_bind]
  end.
  repeat lazymatch type of Hrun with
  | mbind _ (for_range ?lo ?hi ?body ?s) = Some _ =>
      let w1 := fresh "w" in
      let E := fresh "E" in
      destruct (for_range lo hi body s) as [w1|] eqn:E; [|done];
      cbn [mbind option_bind] in Hrun;
      eapply (for_range_map emb) in E;
      [cbv beta in E; rewrite E; cbn [mbind option_bind]
      |intros i s0 s1; cbv beta; apply fht_pair2_flat]
  end.
  revert Hrun. apply (for_range_map emb). intros i s s1.
  apply (for_range_map emb). intros j s2 s3. cbv beta.
  apply fht_pair2_flat.
Qed.

End Source.

(** The overlap-add reads [data2], which lies after the part of [rdst]:
    its address depends on the length of the part. *)
Lemma overlap_add_flat iw ih w2 h2 xbsz ybsz hw hh xbl ybl ch
    (src : list F) (p : Z) (n : nat) (w w' : list F) :
  (∀ (w : list F) i v, length w = n → load src i = Some v →
     load (emb w) (p + i) = Some v) →
  length w = n →
  overlap_add iw ih w2 h2 xbsz ybsz hw hh xbl ybl ch src w = Some w' →
  flat.overlap_add iw ih w2 h2 xbsz ybsz hw hh xbl ybl ch p base (emb w)
  = Some (emb w').
Proof.
  intros Hsrc Hn Hrun.
  eapply (for_range_map_inv emb (λ w : list F, length w = n));
    [|exact Hn|exact Hrun].
  intros y s s1 Hs. cbv beta zeta.
  destruct (_ || _); [by intros [= ->]|].
  intros Hr. eapply (for_range_map_inv emb (λ w : list F, length w = n));
    [|exact Hs|exact Hr].
  intros x s2 s3 Hs2. cbv beta.
  destruct (_ || _); [by intros [= ->]|].
  intros Hb.
  destruct (load src _) as [v|] eqn:Hv; [|done].
  cbn [mbind option_bind] in Hb.
  rewrite (Hsrc s2 _ v Hs2 Hv). cbn [mbind option_bind].
  unfold pixel in Hb. unfold flat.pixel. destruct (_ && _); [|done].
  cbn [mbind option_bind] in Hb |- *. cbv zeta.
  window_op Hb. split.
  - by rewrite (store_length _ _ _ _ Hb).
  - eapply store_window_at; [exact Hb|lia].
Qed.

(** The normalisation reads and writes the buffer of the kernel only. *)
Lemma load_pixel_window width height (w : list F) x y ch v :
  load_pixel width height w x y ch = Some v →
  flat.load_pixel base width (emb w) x y ch = Some v.
Proof.
  unfold load_pixel, flat.load_pixel, pixel, flat.pixel.
  destruct (_ && _); [|done]. cbn [mbind option_bind].
  apply load_window.
Qed.

Lemma add_v3_px_flat kw kh (w : list F) x y wt wt' :
  add_v3_px kw kh w x y wt = Some wt' →
  flat.add_v3_px base kw (emb w) x y wt = Some wt'.
Proof.
  unfold add_v3_px, flat.add_v3_px. destruct wt as [[w0 w1] w2].
  intros Hrun.
  destruct (load_pixel kw kh w x y 0) as [a0|] eqn:E0; [|done].
  destruct (load_pixel kw kh w x y 1) as [a1|] eqn:E1; [|done].
  destruct (load_pixel kw kh w x y 2) as [a2|] eqn:E2; [|done].
  cbv beta.
  rewrite (load_pixel_window _ _ _ _ _ _ _ E0),
    (load_pixel_window _ _ _ _ _ _ _ E1),
    (load_pixel_window _ _ _ _ _ _ _ E2).
  done.
Qed.

Lemma mul_px_flat kw kh x y ch a (w w' : list F) :
  mul_px kw kh x y ch a w = Some w' →
  flat.mul_px base kw x y ch a (emb w) = Some (emb w').
Proof.
  unfold mul_px, flat.mul_px, pixel, flat.pixel. intros Hrun. cbv beta zeta.
  destruct (_ && _); [|done].
  cbn [mbind option_bind] in Hrun |- *.
  window_op Hrun.
  eapply store_window_at; [exact Hrun|lia].
Qed.

Lemma mul_v3_px_flat kw kh wt x y (w w' : list F) :
  mul_v3_px kw kh wt x y w = Some w' →
  flat.mul_v3_px base kw wt x y (emb w) = Some (emb w').
Proof.
  unfold mul_v3_px, flat.mul_v3_px. destruct wt as [[w0 w1] w2].
  intros Hrun.
  destruct (mul_px kw kh x y 0 w0 w) as [k1|] eqn:H1; [|done].
  cbn [mbind option_bind] in Hrun.
  rewrite (mul_px_flat _ _ _ _ _ _ _ _ H1). cbn [mbind option_bind].
  destruct (mul_px kw kh x y 1 w1 k1) as [k2|] eqn:H2; [|done].
  cbn [mbind option_bind] in Hrun.
  rewrite (mul_px_flat _ _ _ _ _ _ _ _ H2). cbn [mbind option_bind].
  by apply (mul_px_flat kw kh).
Qed.

Lemma normalize_kernel_flat kw kh (w w' : list F) :
  normalize_kernel kw kh w = Some w' →
  flat.normalize_kernel base kw kh (emb w) = Some (emb w').
Proof.
  unfold normalize_kernel, flat.normalize_kernel. intros Hrun.
  destruct (kernel_weights kw kh w) as [[[w0 w1] w2]|] eqn:Hw; [|done].
  cbn [mbind option_bind] in Hrun.
  assert (flat.kernel_weights base kw kh (emb w) = Some (w0, w1, w2))
    as ->.
  { revert Hw. unfold kernel_weights, flat.kernel_weights.
    apply (for_range_map (λ wt : F * F * F, wt)). intros y s s1.
    apply (for_range_map (λ wt : F * F * F, wt)). intros x s2 s3.
    apply add_v3_px_flat. }
  cbn [mbind option_bind]. revert Hrun.
  apply (for_range_map emb). intros y s s1.
  apply (for_range_map emb). intros x s2 s3.
  apply mul_v3_px_flat.
Qed.

End FlatSteps.

(** ** One tile and channel in the memory

    During the tiles the memory is the memory [c] of the caller followed
    by the three buffers of the call.  A step of a channel changes the
    three buffers as the step on lists does, and nothing else. *)

Section FlatChannel.
Context {F D : Type} `{!FloatArith F D} (cos : D → D).
Variables (iw ih kw kh w2 h2 log2_w log2_h xbsz ybsz hw hh : Z).
Variables (c : list F) (ib kb : Z).
Variables (P0 P1 P2 : Z).
Hypothesis Hiw : 0 ≤ iw.
Hypothesis Hih : 0 ≤ ih.
Hypothesis Hib : 0 ≤ ib ∧ ib + iw * ih * 4 ≤ Z.of_nat (length c).
Hypothesis Hkb : 0 ≤ kb ∧ kb + kw * kh * 4 ≤ Z.of_nat (length c).
Hypothesis Hkw : 0 ≤ kw ≤ w2.
Hypothesis Hkh : 0 ≤ kh ∧ kh + 1 ≤ h2.
Hypothesis Hw2 : w2 = 2 ^ log2_w.
Hypothesis Hh2 : h2 = 2 ^ log2_h.
Hypothesis Hlog_w : 1 ≤ log2_w.
Hypothesis Hlog_h : 1 ≤ log2_h.
Hypothesis Hlog : log2_w + log2_h ≤ 30.
Hypothesis Hxbsz : 0 ≤ xbsz ≤ w2.
Hypothesis Hybsz : 0 ≤ ybsz ≤ h2.
Hypothesis HP0 : P0 = Z.of_nat (length c).
Hypothesis HP1 : P1 = P0 + iw * ih * 4.
Hypothesis HP2 : P2 = P1 + 3 * w2 * h2.

Local Abbreviation image := (region c ib (iw * ih * 4)).
Local Abbreviation kernel := (region c kb (kw * kh * 4)).
Local Abbreviation layout s := (c ++ rdst s ++ data1 s ++ data2 s).

Lemma layout_data1 (r d1 x : list F) :
  c ++ r ++ d1 ++ x = (c ++ r) ++ d1 ++ x.
Proof. by rewrite <- app_assoc. Qed.

Lemma layout_data2 (r d1 x : list F) :
  c ++ r ++ d1 ++ x = (c ++ r ++ d1) ++ x ++ [].
Proof. by rewrite app_nil_r, <- !app_assoc. Qed.

Lemma caller_read (x : list F) p n i v :
  0 ≤ p → load (region c p n) i = Some v → load (c ++ x) (p + i) = Some v.
Proof. intros Hp Hv. apply load_app_l. by eapply load_region. Qed.

Lemma convolve_channel_flat xbl ybl ch (s : scratch F) :
  0 ≤ xbl → 0 ≤ ybl → 0 ≤ ch < 3 →
  scratch_sized iw ih w2 h2 s →
  ∃ s', convolve_channel cos iw ih kw kh w2 h2 log2_w log2_h xbsz ybsz hw hh
          xbl ybl image kernel ch s = Some s'
        ∧ scratch_sized iw ih w2 h2 s' ∧ in2done s' = in2done s
        ∧ flat.convolve_channel cos iw ih kw kh w2 h2 log2_w log2_h
            xbsz ybsz hw hh xbl ybl ib kb P0 P1 P2 (in2done s) ch (layout s)
          = Some (layout s').
Proof.
  intros Hxbl Hybl Hch (Hr & H1 & H2).
  destruct s as [r d1 d2 isdone]. cbn [rdst data1 data2 in2done] in *.
  unfold convolve_channel, flat.convolve_channel.
  cbn [rdst data1 data2 in2done]. cbv zeta.
  pose proof (pow2_pos log2_w ltac:(lia)) as Hpw.
  pose proof (pow2_pos log2_h ltac:(lia)) as Hph.
  assert (0 ≤ iw * ih) by nia.
  assert (Himage : Z.of_nat (length image) = iw * ih * 4)
    by (apply length_region; lia).
  assert (Hkernel : Z.of_nat (length kernel) = kw * kh * 4)
    by (apply length_region; nia).
  assert (Hb1 : 0 ≤ ch * w2 * h2 ∧
                ch * w2 * h2 + w2 * h2 ≤ Z.of_nat (length d1))
    by (subst w2 h2; nia).
  (* in2, channel ch -> data1 *)
  assert (∃ d1a,
            (if isdone then Some d1
             else load_kernel kw kh w2 kernel (ch * w2 * h2) ch d1)
            = Some d1a ∧ length d1a = length d1 ∧
            (if isdone then Some (c ++ r ++ d1 ++ d2)
             else flat.load_kernel kb kw kh w2 (P1 + ch * w2 * h2) ch
                    (c ++ r ++ d1 ++ d2))
            = Some (c ++ r ++ d1a ++ d2))
    as (d1a & -> & Hd1a & ->).
  { destruct isdone; [by eexists|].
    destruct (load_kernel_frame kw kh w2 h2 kernel d1 (ch * w2 * h2) ch d1)
      as (d1a & Hrun & [Hl _]); [lia|lia|lia|done|lia|lia|done|].
    exists d1a. split; [done|]. split; [done|].
    rewrite !layout_data1.
    replace P1 with (Z.of_nat (length (c ++ r)))
      by (rewrite length_app; lia).
    apply (load_kernel_flat _ _ kernel); [|done].
    intros w i v Hv. rewrite <- app_assoc. eapply caller_read; [lia|exact Hv]. }
  cbn [mbind option_bind].
  (* in1, channel ch -> data2 *)
  destruct (load_tile_spec iw ih w2 h2 xbsz ybsz xbl ybl ch image d2)
    as (d2a & Hrun & Hd2a & _);
    [done|done|done|done|done|done|done|done|lia|].
  rewrite Hrun. cbn [mbind option_bind].
  assert (flat.load_tile ib iw ih w2 h2 xbsz ybsz xbl ybl ch P2
            (c ++ r ++ d1a ++ d2) = Some (c ++ r ++ d1a ++ d2a)) as ->.
  { rewrite !layout_data2.
    replace P2 with (Z.of_nat (length (c ++ r ++ d1a)))
      by (rewrite !length_app; lia).
    apply (load_tile_flat _ _ image); [|done].
    intros w i v Hv. rewrite <- !app_assoc. eapply caller_read; [lia|exact Hv]. }
  cbn [mbind option_bind]. clear Hrun.
  (* forward transforms *)
  assert (∃ d1b,
            (if isdone then Some d1a
             else FHT2D cos d1a (ch * w2 * h2) log2_w log2_h (kh + 1) false)
            = Some d1b ∧ length d1b = length d1 ∧
            (if isdone then Some (c ++ r ++ d1a ++ d2a)
             else FHT2D cos (c ++ r ++ d1a ++ d2a) (P1 + ch * w2 * h2)
                    log2_w log2_h (kh + 1) false)
            = Some (c ++ r ++ d1b ++ d2a))
    as (d1b & -> & Hd1b & ->).
  { destruct isdone; [by eexists|].
    destruct (FHT2D_frame cos d1a (ch * w2 * h2) log2_w log2_h (kh + 1) false)
      as (d1b & Hrun & [Hl _]);
      [done|done|done|lia|lia|rewrite <- Hw2, <- Hh2; lia|].
    exists d1b. split; [done|]. split; [congruence|].
    rewrite !layout_data1.
    replace P1 with (Z.of_nat (length (c ++ r)))
      by (rewrite length_app; lia).
    by apply FHT2D_window_at. }
  cbn [mbind option_bind].
  destruct (FHT2D_frame cos d2a 0 log2_w log2_h (kh + 1) false)
    as (d2b & Hrun & [Hd2b _]);
    [done|done|done|lia|lia|rewrite <- Hw2, <- Hh2; lia|].
  rewrite Hrun. cbn [mbind option_bind].
  assert (FHT2D cos (c ++ r ++ d1b ++ d2a) P2 log2_w log2_h (kh + 1) false
          = Some (c ++ r ++ d1b ++ d2b)) as ->.
  { rewrite !layout_data2.
    replace P2 with (Z.of_nat (length (c ++ r ++ d1b)))
      by (rewrite !length_app; lia).
    by apply FHT2D_window. }
  cbn [mbind option_bind]. clear Hrun.
  (* the product of the spectra, and the inverse transform *)
  destruct (fht_convolve_frame d2b d1b 0 (ch * w2 * h2) log2_h log2_w)
    as (d2c & Hrun & [Hd2c _]);
    [done|done|lia|lia|rewrite <- Hw2, <- Hh2; lia
    |rewrite <- Hw2, <- Hh2; lia|].
  rewrite Hrun. cbn [mbind option_bind].
  assert (flat.fht_convolve P2 (P1 + ch * w2 * h2) log2_h log2_w
            (c ++ r ++ d1b ++ d2b) = Some (c ++ r ++ d1b ++ d2c)) as ->.
  { rewrite !layout_data2.
    replace P2 with (Z.of_nat (length (c ++ r ++ d1b)) + 0)
      by (rewrite !length_app; lia).
    apply (fht_convolve_flat _ _ d1b); [|done].
    intros w i v Hv. rewrite <- !app_assoc.
    apply (load_app_r c _ (Z.of_nat (length r) + i)); [|lia].
    apply (load_app_r r _ i); [|lia].
    by apply load_app_l. }
  cbn [mbind option_bind]. clear Hrun.
  destruct (FHT2D_frame cos d2c 0 log2_h log2_w 0 true)
    as (d2d & Hrun & [Hd2d _]);
    [done|done|lia|lia|lia|rewrite <- Hw2, <- Hh2; lia|].
  rewrite Hrun. cbn [mbind option_bind].
  assert (FHT2D cos (c ++ r ++ d1b ++ d2c) P2 log2_h log2_w 0 true
          = Some (c ++ r ++ d1b ++ d2d)) as ->.
  { rewrite !layout_data2.
    replace P2 with (Z.of_nat (length (c ++ r ++ d1b)))
      by (rewrite !length_app; lia).
    by apply FHT2D_window. }
  cbn [mbind option_bind]. clear Hrun.
  (* overlap-add *)
  destruct (overlap_add_total iw ih w2 h2 xbsz ybsz hw hh xbl ybl ch d2d r)
    as [r' Hrun]; [done|done|done|lia|lia|lia|lia|].
  rewrite Hrun. cbn [mbind option_bind].
  pose proof (overlap_add_frame _ _ _ _ _ _ _ _ _ _ _ _ _ _ Hrun) as [Hlr _].
  exists {| rdst := r'; data1 := d1b; data2 := d2d; in2done := isdone |}.
  cbn [rdst data1 data2 in2done].
  split; [done|]. split; [repeat split; cbn [rdst data1 data2]; lia|].
  split; [done|].
  rewrite HP0.
  apply (overlap_add_flat c (d1b ++ d2d) _ _ _ _ _ _ _ _ _ _ _ d2d P2
           (length r)); [|done|done].
  intros w i v Hw Hv.
  apply (load_app_r c _ (Z.of_nat (length w) + (Z.of_nat (length d1b) + i)));
    [|lia].
  apply (load_app_r w _ (Z.of_nat (length d1b) + i)); [|lia].
  apply (load_app_r d1b _ i); [done|lia].
Qed.

(** The tiles: the three buffers change as they do in the run on lists,
    and the memory of the caller stays as it is. *)
Lemma convolve_tiles_flat nxb nyb (s0 : scratch F) :
  0 ≤ nxb → 0 ≤ nyb → scratch_sized iw ih w2 h2 s0 →
  ∃ s f,
    for_range 0 nyb
      (λ ybl, for_range 0 nxb
         (λ xbl s,
            s ← for_range 0 3
                  (convolve_channel cos iw ih kw kh w2 h2 log2_w log2_h
                     xbsz ybsz hw hh xbl ybl image kernel) s;
            Some {| rdst := rdst s; data1 := data1 s; data2 := data2 s;
                    in2done := true |}))
      s0 = Some s
    ∧ for_range 0 nyb
        (λ ybl, for_range 0 nxb
           (λ xbl '(mem, in2done),
              mem ← for_range 0 3
                      (flat.convolve_channel cos iw ih kw kh w2 h2
                         log2_w log2_h xbsz ybsz hw hh xbl ybl ib kb
                         P0 P1 P2 in2done) mem;
              Some (mem, true)))
        (layout s0, in2done s0) = Some (layout s, f)
    ∧ scratch_sized iw ih w2 h2 s.
Proof.
  intros Hnxb Hnyb Hs0.
  set (R := λ (s : scratch F) (st : list F * bool),
         st = (layout s, in2done s) ∧ scratch_sized iw ih w2 h2 s).
  lazymatch goal with
  | |- ∃ s f, for_range 0 nyb ?body s0 = _
              ∧ for_range 0 nyb ?body' ?st0 = _ ∧ _ =>
      destruct (for_range_total_sim R 0 nyb body body' s0 st0)
        as (s & st & Hrun & Hrun' & (-> & Hs))
  end.
  - done.
  - done.
  - intros ybl s st Hybl HR. apply (for_range_total_sim R); [done|done|].
    clear s st HR. intros xbl s1 st Hxbl (-> & Hs1).
    lazymatch goal with
    | |- context [for_range 0 3 ?body' (layout s1)] =>
        lazymatch goal with
        | |- context [for_range 0 3 ?body s1] =>
            destruct (for_range_total_sim
                        (λ (s : scratch F) (m : list F),
                           m = layout s ∧ scratch_sized iw ih w2 h2 s
                           ∧ in2done s = in2done s1)
                        0 3 body body' s1 (layout s1))
              as (s2 & m & Hm & Hm' & (-> & Hs2 & _))
        end
    end.
    + lia.
    + done.
    + intros ch s2 m Hch (-> & Hs2 & Hd).
      destruct (convolve_channel_flat xbl ybl ch s2)
        as (s3 & Hlist & Hs3 & Hd3 & Hflat); [lia|lia|done|done|].
      rewrite <- Hd, Hflat, Hlist. eexists _, _. split; [done|].
      split; [done|]. split; [done|]. split; [done|congruence].
    + rewrite Hm, Hm'. cbn [mbind option_bind]. eexists _, _.
      split; [done|]. split; [done|].
      split; [done|]. destruct Hs2 as (? & ? & ?). by repeat split.
  - exists s, (in2done s). done.
Qed.

End FlatChannel.

(** ** What a call of [convolve] leaves in the memory of its caller *)

Section Patch.
Context {A : Type}.
Implicit Types x r : list A.

(** The memory [x] with the cells from [a] on replaced by [r]. *)
Lemma length_patch x r a :
  0 ≤ a → a + Z.of_nat (length r) ≤ Z.of_nat (length x) →
  length (take (Z.to_nat a) x ++ r
          ++ drop (Z.to_nat (a + Z.of_nat (length r))) x) = length x.
Proof.
  intros Ha Hl. rewrite !length_app, length_take, length_drop. lia.
Qed.

Lemma load_patch_outside x r a i :
  0 ≤ a → a + Z.of_nat (length r) ≤ Z.of_nat (length x) →
  ¬ (a ≤ i < a + Z.of_nat (length r)) →
  load (take (Z.to_nat a) x ++ r
        ++ drop (Z.to_nat (a + Z.of_nat (length r))) x) i = load x i.
Proof.
  intros Ha Hl Hi. unfold load. destruct (Z.leb_spec 0 i); [|done].
  destruct (decide (i < a)) as [Hlt|Hge].
  - rewrite lookup_app_l by (rewrite length_take; lia).
    apply lookup_take_lt. lia.
  - rewrite lookup_app_r by (rewrite length_take; lia).
    rewrite lookup_app_r by (rewrite length_take; lia).
    rewrite lookup_drop. f_equal. rewrite length_take. lia.
Qed.

Lemma load_patch_inside x r a i :
  0 ≤ a → a + Z.of_nat (length r) ≤ Z.of_nat (length x) →
  0 ≤ i < Z.of_nat (length r) →
  load (take (Z.to_nat a) x ++ r
        ++ drop (Z.to_nat (a + Z.of_nat (length r))) x) (a + i) = load r i.
Proof.
  intros Ha Hl Hi. unfold load.
  destruct (Z.leb_spec 0 (a + i)); [|lia]. destruct (Z.leb_spec 0 i); [|lia].
  rewrite lookup_app_r by (rewrite length_take; lia).
  rewrite length_take, Nat.min_l by lia.
  replace (Z.to_nat (a + i) - Z.to_nat a)%nat with (Z.to_nat i) by lia.
  by rewrite lookup_app_l by lia.
Qed.

End Patch.

Section FlatConvolve.
Context {F D : Type} `{!FloatArith F D} (cos : D → D).

Lemma memset0_fresh (c : list F) n :
  0 ≤ n →
  flat.memset0 (Z.of_nat (length c)) n (c ++ replicate (Z.to_nat n) f_zero)
  = Some (c ++ replicate (Z.to_nat n) f_zero).
Proof.
  intros Hn. unfold flat.memset0.
  rewrite length_app, length_replicate.
  destruct (Z.leb_spec 0 (Z.of_nat (length c))); [|lia].
  destruct (Z.leb_spec 0 n); [|lia].
  destruct (Z.leb_spec (Z.of_nat (length c) + n)
              (Z.of_nat (length c + Z.to_nat n))); [|lia].
  cbn [andb]. f_equal.
  rewrite Nat2Z.id, take_app_length. f_equal.
  rewrite drop_ge by (rewrite length_app, length_replicate; lia).
  by rewrite app_nil_r.
Qed.

(** The end of the call: [data1] and [data2] are released, [rdst] is
    copied to [dst] and released. *)
Lemma convolve_finish (c r rest : list F) dst n P0 P1 :
  P0 = Z.of_nat (length c) → P1 = P0 + n → Z.of_nat (length r) = n →
  0 ≤ dst → dst + n ≤ Z.of_nat (length c) →
  (mem ← flat.memcpy dst P0 n (flat.release P1 (c ++ r ++ rest));
   Some (flat.release P0 mem))
  = Some (take (Z.to_nat dst) c ++ r ++ drop (Z.to_nat (dst + n)) c).
Proof.
  intros -> -> Hr Hdst Hlen. unfold flat.release.
  assert (take (Z.to_nat (Z.of_nat (length c) + n)) (c ++ r ++ rest)
          = c ++ r) as ->.
  { rewrite app_assoc.
    replace (Z.to_nat (Z.of_nat (length c) + n)) with (length (c ++ r))
      by (rewrite length_app; lia).
    apply take_app_length. }
  unfold flat.memcpy. rewrite length_app.
  destruct (Z.leb_spec 0 dst); [|lia].
  destruct (Z.leb_spec 0 (Z.of_nat (length c))); [|lia].
  destruct (Z.leb_spec 0 n); [|lia].
  destruct (Z.leb_spec (dst + n) (Z.of_nat (length c + length r))); [|lia].
  destruct (Z.leb_spec (Z.of_nat (length c) + n)
              (Z.of_nat (length c + length r))); [|lia].
  cbn [andb mbind option_bind]. f_equal.
  rewrite Nat2Z.id, drop_app_length.
  rewrite (take_ge r) by lia.
  rewrite (take_app_le c) by lia.
  rewrite (drop_app_le c) by lia.
  rewrite !app_assoc.
  replace (length c) with
    (length ((take (Z.to_nat dst) c ++ r) ++ drop (Z.to_nat (dst + n)) c))
    at 1
    by (rewrite !length_app, length_take, length_drop; lia).
  apply take_app_length.
Qed.

(** The run of [flat.convolve] on a memory whose cells from [kb] on are
    the kernel: the kernel is normalised in place, and the result of the
    tiles, which is the one of the run on lists for the image as it is
    after the normalisation, is copied to [dst]. *)
Lemma convolve_flat_run (pre kernel post kernel' d : list F)
    (dst iw ih ib kw kh : Z) :
  0 ≤ iw → 0 ≤ ih → 2 ≤ kw ≤ 2 ^ 14 → 2 ≤ kh ≤ 2 ^ 14 →
  Z.of_nat (length kernel) = kw * kh * 4 →
  normalize_kernel kw kh kernel = Some kernel' →
  length kernel' = length kernel →
  0 ≤ dst →
  dst + iw * ih * 4 ≤ Z.of_nat (length (pre ++ kernel ++ post)) →
  0 ≤ ib →
  ib + iw * ih * 4 ≤ Z.of_nat (length (pre ++ kernel ++ post)) →
  iw * ih * 4 ≤ Z.of_nat (length d) →
  ∃ r, Z.of_nat (length r) = iw * ih * 4 ∧
    convolve cos d
      {| get_width := iw; get_height := ih;
         get_buffer := region (pre ++ kernel' ++ post) ib (iw * ih * 4) |}
      {| get_width := kw; get_height := kh; get_buffer := kernel |}
    = Some (r ++ drop (Z.to_nat (iw * ih * 4)) d,
            {| get_width := iw; get_height := ih;
               get_buffer :=
                 region (pre ++ kernel' ++ post) ib (iw * ih * 4) |},
            {| get_width := kw; get_height := kh; get_buffer := kernel' |}) ∧
    flat.convolve cos dst
      {| flat.get_width := iw; flat.get_height := ih; flat.get_buffer := ib |}
      {| flat.get_width := kw; flat.get_height := kh;
         flat.get_buffer := Z.of_nat (length pre) |}
      (pre ++ kernel ++ post)
    = Some (take (Z.to_nat dst) (pre ++ kernel' ++ post) ++ r
            ++ drop (Z.to_nat (dst + iw * ih * 4)) (pre ++ kernel' ++ post)).
Proof.
  intros Hiw Hih Hkw Hkh Hkernel Hnorm Hk' Hdst0 Hdst Hib0 Hib Hd.
  unfold flat.convolve, convolve.
  cbn [flat.get_width flat.get_height flat.get_buffer
       get_width get_height get_buffer].
  unfold COM_DATA_TYPE_COLOR_CHANNELS, flat.alloc.
  assert (Hn : 0 ≤ iw * ih * 4) by nia.
  rewrite memset0_fresh by done. cbn [mbind option_bind].
  destruct (padded_size_bounds kw Hkw) as (w2 & lw & -> & Hw2 & Hlw & Hwk).
  cbn [mbind option_bind].
  destruct (padded_size_bounds kh Hkh) as (h2 & lh & -> & Hh2 & Hlh & Hhk).
  cbn [mbind option_bind]. rewrite Hnorm. cbn [mbind option_bind].
  pose proof (pow2_pos lw ltac:(lia)) as Hpw.
  pose proof (pow2_pos lh ltac:(lia)) as Hph.
  rewrite <- Hw2 in Hpw. rewrite <- Hh2 in Hph.
  assert (0 ≤ w2 * h2) by nia.
  set (c := pre ++ kernel ++ post) in *.
  set (c1 := pre ++ kernel' ++ post).
  assert (Hc1 : length c1 = length c)
    by (unfold c, c1; rewrite !length_app; lia).
  assert (Hk1 : region c1 (Z.of_nat (length pre)) (kw * kh * 4) = kernel').
  { unfold region, c1. rewrite Nat2Z.id, drop_app_length.
    replace (Z.to_nat (kw * kh * 4)) with (length kernel') by lia.
    apply take_app_length. }
  set (r0 := replicate (Z.to_nat (iw * ih * 4)) f_zero).
  set (d10 := replicate (Z.to_nat (3 * w2 * h2)) f_zero).
  set (d20 := replicate (Z.to_nat (w2 * h2)) f_zero).
  set (P0 := Z.of_nat (length c)).
  set (P1 := Z.of_nat (length (c ++ r0))).
  set (P2 := Z.of_nat (length ((c ++ r0) ++ d10))).
  (* the normalisation *)
  assert (flat.normalize_kernel (Z.of_nat (length pre)) kw kh
            (((c ++ r0) ++ d10) ++ d20)
          = Some (c1 ++ r0 ++ d10 ++ d20)) as ->.
  { unfold c, c1. rewrite <- !app_assoc.
    by apply normalize_kernel_flat. }
  cbn [mbind option_bind].
  (* the tiles *)
  destruct (convolve_tiles_flat cos iw ih kw kh w2 h2 lw lh
              (w2 + 1 - kw) (h2 + 1 - kh) (Z.shiftr kw 1) (Z.shiftr kh 1)
              c1 ib (Z.of_nat (length pre)) P0 P1 P2)
    with (nxb := iw `div` (w2 + 1 - kw)
                 + (if iw `mod` (w2 + 1 - kw) =? 0 then 0 else 1))
         (nyb := ih `div` (h2 + 1 - kh)
                 + (if ih `mod` (h2 + 1 - kh) =? 0 then 0 else 1))
         (s0 := {| rdst := r0; data1 := d10; data2 := d20;
                   in2done := false |})
    as (s & f & Hlist & Hrun & (Hr & _)); try done; try lia.
  - unfold c1. rewrite !length_app. lia.
  - unfold P1, P0, r0. rewrite length_app, length_replicate. lia.
  - unfold P2, P1, d10. rewrite (length_app (c ++ r0)), length_replicate. lia.
  - apply tile_count_nonneg; lia.
  - apply tile_count_nonneg; lia.
  - repeat split; cbn [rdst data1 data2];
      unfold r0, d10, d20; rewrite length_replicate; lia.
  - cbn [rdst data1 data2 in2done] in Hrun. rewrite Hrun.
    rewrite Hk1 in Hlist. rewrite Hlist.
    cbn [mbind option_bind]. exists (rdst s). split; [done|]. split.
    + unfold memcpy.
      destruct (Z.leb_spec 0 (iw * ih * 4)); [|lia].
      destruct (Z.leb_spec (iw * ih * 4) (Z.of_nat (length (rdst s))));
        [|lia].
      destruct (Z.leb_spec (iw * ih * 4) (Z.of_nat (length d))); [|lia].
      cbn [andb mbind option_bind]. by rewrite take_ge by lia.
    + apply convolve_finish; try done.
      * unfold P0. by rewrite Hc1.
      * unfold P1, P0, r0. rewrite length_app, length_replicate. lia.
      * rewrite Hc1. fold P0. unfold P0. lia.
Qed.

(** C3 (as amended).  A call [convolve(dst, in1, in2)] on any memory in
    which the three buffers lie, wherever they lie, returns, for an image
    of at most [2^28] pixels and a kernel of between 2 and [2^14] pixels
    per side.  It writes the memory of its caller in two places only: the
    buffer of the kernel, which it normalises in place, and the
    [image_width * image_height * 4] floats at [dst].  So on return the
    buffer of the image is as it was wherever it lies outside these two,
    and so is every other cell, but the buffer of the kernel is not: it
    holds the normalised kernel (where [dst] does not cover it).  The
    buffers [rdst], [data1] and [data2] are gone. *)
Theorem convolve_frame (mem : list F) (dst : Z)
    (in1 in2 : flat.MemoryBuffer) :
  0 ≤ flat.get_width in1 ≤ 2 ^ 28 → 0 ≤ flat.get_height in1 ≤ 2 ^ 28 →
  flat.get_width in1 * flat.get_height in1 ≤ 2 ^ 28 →
  2 ≤ flat.get_width in2 ≤ 2 ^ 14 → 2 ≤ flat.get_height in2 ≤ 2 ^ 14 →
  0 ≤ dst →
  dst + flat.get_width in1 * flat.get_height in1 * 4
    ≤ Z.of_nat (length mem) →
  0 ≤ flat.get_buffer in1 →
  flat.get_buffer in1 + flat.get_width in1 * flat.get_height in1 * 4
    ≤ Z.of_nat (length mem) →
  0 ≤ flat.get_buffer in2 →
  flat.get_buffer in2 + flat.get_width in2 * flat.get_height in2 * 4
    ≤ Z.of_nat (length mem) →
  ∃ mem' kernel',
    normalize_kernel (flat.get_width in2) (flat.get_height in2)
      (region mem (flat.get_buffer in2)
         (flat.get_width in2 * flat.get_height in2 * 4))
    = Some kernel' ∧
    flat.convolve cos dst in1 in2 mem = Some mem' ∧
    length mem' = length mem ∧
    (∀ i,
       ¬ (flat.get_buffer in2 ≤ i
          < flat.get_buffer in2
            + flat.get_width in2 * flat.get_height in2 * 4) →
       ¬ (dst ≤ i < dst + flat.get_width in1 * flat.get_height in1 * 4) →
       load mem' i = load mem i) ∧
    (∀ i,
       0 ≤ i < flat.get_width in2 * flat.get_height in2 * 4 →
       ¬ (dst ≤ flat.get_buffer in2 + i
          < dst + flat.get_width in1 * flat.get_height in1 * 4) →
       load mem' (flat.get_buffer in2 + i) = load kernel' i).
Proof.
  destruct in1 as [iw ih ib], in2 as [kw kh kb].
  cbn [flat.get_width flat.get_height flat.get_buffer].
  intros [Hiw _] [Hih _] _ Hkw Hkh Hdst0 Hdst Hib0 Hib Hkb0 Hkb.
  assert (Hn : 0 ≤ iw * ih * 4) by nia.
  assert (Hnk : 0 ≤ kw * kh * 4) by nia.
  destruct (region_split mem kb (kw * kh * 4)) as [Hsplit Hpre];
    [done|done|done|].
  pose proof (length_region mem kb (kw * kh * 4) Hkb0 Hnk Hkb) as Hkernel.
  set (pre := take (Z.to_nat kb) mem) in *.
  set (kernel := region mem kb (kw * kh * 4)) in *.
  set (post := drop (Z.to_nat (kb + kw * kh * 4)) mem) in *.
  clearbody pre kernel post. subst mem kb.
  destruct (normalize_kernel_total kw kh kernel) as (kernel' & Hnorm & Hk');
    [lia|lia|done|].
  destruct (convolve_flat_run pre kernel post kernel'
              (replicate (Z.to_nat (iw * ih * 4)) f_zero) dst iw ih ib kw kh)
    as (r & Hr & _ & Hrun); try done; [rewrite length_replicate; lia|].
  eexists _, kernel'. split; [done|]. split; [exact Hrun|].
  set (c1 := pre ++ kernel' ++ post).
  assert (Hc1 : length c1 = length (pre ++ kernel ++ post))
    by (unfold c1; rewrite !length_app; lia).
  rewrite <- Hr.
  assert (Hpost : post = drop (Z.to_nat (Z.of_nat (length pre)
                                         + Z.of_nat (length kernel')))
                           (pre ++ kernel ++ post)).
  { rewrite app_assoc.
    replace (Z.to_nat (Z.of_nat (length pre) + Z.of_nat (length kernel')))
      with (length (pre ++ kernel)) by (rewrite length_app; lia).
    by rewrite drop_app_length. }
  assert (Hc1' : c1 = take (Z.to_nat (Z.of_nat (length pre)))
                        (pre ++ kernel ++ post)
                      ++ kernel'
                      ++ drop (Z.to_nat (Z.of_nat (length pre)
                                         + Z.of_nat (length kernel')))
                           (pre ++ kernel ++ post)).
  { rewrite <- Hpost. by rewrite Nat2Z.id, take_app_length. }
  split; [|split].
  - rewrite length_patch by lia. done.
  - intros i Hik Hid.
    rewrite load_patch_outside by lia.
    rewrite Hc1'. apply load_patch_outside; [lia|rewrite !length_app; lia|lia].
  - intros i Hi Hid.
    rewrite load_patch_outside by lia.
    rewrite Hc1'. apply load_patch_inside; [lia|rewrite !length_app; lia|lia].
Qed.

Lemma region_middle (a b x : list F) n :
  n = Z.of_nat (length b) →
  region (a ++ b ++ x) (Z.of_nat (length a)) n = b.
Proof.
  intros ->. unfold region. rewrite !Nat2Z.id, drop_app_length.
  apply take_app_length.
Qed.

(** The call through its pointers and the call on lists agree: on a
    memory that holds the floats of [dst], of the image and of the kernel
    one buffer after the other, [flat.convolve] leaves in the three
    buffers what [convolve] returns for the three lists. *)
Lemma flat_convolve_separate (dst image kernel : list F)
    (iw ih kw kh : Z) :
  0 ≤ iw ≤ 2 ^ 28 → 0 ≤ ih ≤ 2 ^ 28 → iw * ih ≤ 2 ^ 28 →
  2 ≤ kw ≤ 2 ^ 14 → 2 ≤ kh ≤ 2 ^ 14 →
  Z.of_nat (length image) = iw * ih * 4 →
  Z.of_nat (length kernel) = kw * kh * 4 →
  iw * ih * 4 ≤ Z.of_nat (length dst) →
  ∃ dst' kernel',
    convolve cos dst
      {| get_width := iw; get_height := ih; get_buffer := image |}
      {| get_width := kw; get_height := kh; get_buffer := kernel |}
    = Some (dst',
            {| get_width := iw; get_height := ih; get_buffer := image |},
            {| get_width := kw; get_height := kh; get_buffer := kernel' |}) ∧
    flat.convolve cos 0
      {| flat.get_width := iw; flat.get_height := ih;
         flat.get_buffer := Z.of_nat (length dst) |}
      {| flat.get_width := kw; flat.get_height := kh;
         flat.get_buffer := Z.of_nat (length dst) + Z.of_nat (length image) |}
      (dst ++ image ++ kernel)
    = Some (dst' ++ image ++ kernel').
Proof.
  intros [Hiw _] [Hih _] _ Hkw Hkh Himage Hkernel Hdst.
  destruct (normalize_kernel_total kw kh kernel) as (kernel' & Hnorm & Hk');
    [lia|lia|done|].
  destruct (convolve_flat_run (dst ++ image) kernel [] kernel' dst
              0 iw ih (Z.of_nat (length dst)) kw kh)
    as (r & Hr & Hlist & Hflat); try done;
    try (rewrite !length_app; lia); try lia.
  rewrite <- (app_assoc dst image), region_middle in Hlist by lia.
  exists (r ++ drop (Z.to_nat (iw * ih * 4)) dst), kernel'.
  split; [exact Hlist|].
  rewrite !app_nil_r, <- !app_assoc, length_app, Nat2Z.inj_add in Hflat.
  rewrite Hflat. f_equal. cbn [take app]. rewrite Z.add_0_l.
  rewrite drop_app_le by lia. by rewrite <- app_assoc.
Qed.

End FlatConvolve.

(** ** Runs in IEEE-754 arithmetic *)

Section Binary32.
Import binary32.

(** IEEE-754 addition and multiplication are commutative ([spec_float]
    has a single NaN). *)
Lemma SFadd_comm prec emax (a b : spec_float) :
  SFadd prec emax a b = SFadd prec emax b a.
Proof.
  destruct a as [[]|[]| |sa ma ea], b as [[]|[]| |sb mb eb]; try reflexivity.
  cbn [SFadd]. by rewrite (Z.min_comm eb ea), Z.add_comm.
Qed.

Lemma SFmul_comm prec emax (a b : spec_float) :
  SFmul prec emax a b = SFmul prec emax b a.
Proof.
  destruct a as [[]|[]| |sa ma ea], b as [[]|[]| |sb mb eb];
    try reflexivity; cbn [SFmul]; try (by rewrite xorb_comm).
  by rewrite (xorb_comm sb sa), (Pos.mul_comm mb ma), (Z.add_comm eb ea).
Qed.

Lemma convolve_unit_kernel_faults_witness :
  (0 < 1 ∧ 0 < 1) ∧
  ∀ cos, convolve cos (fl <$> [9; 9; 9; 9]) (image_of 1 1 [5; 6; 7; 8])
           unit_kernel = None.
Proof.
  split; [lia|]. intros cos.
  apply (convolve_unit_kernel_faults cos (fl <$> [9; 9; 9; 9])
           (image_of 1 1 [5; 6; 7; 8])); simpl; lia.
Defined.

(** C1, as stated, fails: the call on a one-pixel image does not return,
    so it does not leave the image in the destination. *)
Lemma convolve_unit_kernel_no_result :
  (∀ cos, convolve cos (fl <$> [9; 9; 9; 9]) (image_of 1 1 [5; 6; 7; 8])
            unit_kernel = None) ∧
  ¬ ∃ cos dst' in1' in2',
      convolve cos (fl <$> [9; 9; 9; 9]) (image_of 1 1 [5; 6; 7; 8])
        unit_kernel = Some (dst', in1', in2')
      ∧ dst' = fl <$> [5; 6; 7; 8].
Proof.
  assert (Hrun : ∀ cos, convolve cos (fl <$> [9; 9; 9; 9])
                          (image_of 1 1 [5; 6; 7; 8]) unit_kernel = None)
    by (intros cos; vm_compute; reflexivity).
  split; [done|]. intros (cos & d & i & k & Hc & _). by rewrite Hrun in Hc.
Qed.

(** The kernel of four ones and its normalised form, four quarters; alpha
    stays one. *)
Definition ones_2x2 : MemoryBuffer spec_float :=
  image_of 2 2 [1; 1; 1; 1; 1; 1; 1; 1; 1; 1; 1; 1; 1; 1; 1; 1].

Definition quarter : spec_float := S754_finite false 8388608 (-25).

Definition quarters_2x2 : MemoryBuffer spec_float :=
  {| get_width := 2; get_height := 2;
     get_buffer := [quarter; quarter; quarter; fl 1;
                    quarter; quarter; quarter; fl 1;
                    quarter; quarter; quarter; fl 1;
                    quarter; quarter; quarter; fl 1] |}.

Lemma convolve_ones_2x2 cos :
  convolve cos (fl <$> [9; 9; 9; 9]) (image_of 1 1 [4; 8; 12; 16]) ones_2x2
  = Some ([fl 1; fl 2; fl 3; S754_zero false],
          image_of 1 1 [4; 8; 12; 16], quarters_2x2).
Proof. vm_compute. reflexivity. Qed.

(** The same call through its pointers.  The memory holds the floats of
    [dst], of the image and of the kernel, one buffer after the other. *)
Definition one_memory : list spec_float :=
  fl <$> [9; 9; 9; 9; 4; 8; 12; 16;
          1; 1; 1; 1; 1; 1; 1; 1; 1; 1; 1; 1; 1; 1; 1; 1].

Definition image_at (w h p : Z) : flat.MemoryBuffer :=
  {| flat.get_width := w; flat.get_height := h; flat.get_buffer := p |}.

Lemma flat_convolve_ones_2x2 cos :
  flat.convolve cos 0 (image_at 1 1 4) (image_at 2 2 8) one_memory
  = Some ([fl 1; fl 2; fl 3; S754_zero false] ++ (fl <$> [4; 8; 12; 16])
          ++ get_buffer quarters_2x2).
Proof. vm_compute. reflexivity. Qed.

(** With [dst] the buffer of the image, the result replaces the image. *)
Lemma flat_convolve_dst_on_image cos :
  flat.convolve cos 4 (image_at 1 1 4) (image_at 2 2 8) one_memory
  = Some ((fl <$> [9; 9; 9; 9]) ++ [fl 1; fl 2; fl 3; S754_zero false]
          ++ get_buffer quarters_2x2).
Proof. vm_compute. reflexivity. Qed.

Lemma convolve_frame_witness :
  (0 ≤ 1 ≤ 2 ^ 28 ∧ 0 ≤ 1 ≤ 2 ^ 28 ∧ 1 * 1 ≤ 2 ^ 28 ∧
   2 ≤ 2 ≤ 2 ^ 14 ∧ 2 ≤ 2 ≤ 2 ^ 14 ∧
   0 ≤ 0 ∧ 0 + 1 * 1 * 4 ≤ Z.of_nat (length one_memory) ∧
   0 ≤ 4 ∧ 4 + 1 * 1 * 4 ≤ Z.of_nat (length one_memory) ∧
   0 ≤ 8 ∧ 8 + 2 * 2 * 4 ≤ Z.of_nat (length one_memory)) ∧
  ∃ mem' kernel',
    normalize_kernel 2 2 (region one_memory 8 (2 * 2 * 4)) = Some kernel' ∧
    flat.convolve (λ x, x) 0 (image_at 1 1 4) (image_at 2 2 8) one_memory
    = Some mem' ∧
    length mem' = length one_memory ∧
    (∀ i, ¬ (8 ≤ i < 8 + 2 * 2 * 4) → ¬ (0 ≤ i < 0 + 1 * 1 * 4) →
          load mem' i = load one_memory i) ∧
    (∀ i, 0 ≤ i < 2 * 2 * 4 → ¬ (0 ≤ 8 + i < 0 + 1 * 1 * 4) →
          load mem' (8 + i) = load kernel' i).
Proof.
  assert (Hlen : Z.of_nat (length one_memory) = 24) by reflexivity.
  split; [rewrite Hlen; lia|].
  apply (convolve_frame (λ x, x) one_memory 0 (image_at 1 1 4)
           (image_at 2 2 8));
    cbn [image_at flat.get_width flat.get_height flat.get_buffer];
    rewrite ?Hlen; lia.
Defined.

(** C3, as stated, fails for the kernel: on return its buffer holds the
    normalised values. *)
Lemma convolve_overwrites_kernel :
  (∀ cos, convolve cos (fl <$> [9; 9; 9; 9]) (image_of 1 1 [4; 8; 12; 16])
            ones_2x2
          = Some ([fl 1; fl 2; fl 3; S754_zero false],
                  image_of 1 1 [4; 8; 12; 16], quarters_2x2)) ∧
  get_buffer quarters_2x2 ≠ get_buffer ones_2x2.
Proof. split; [apply convolve_ones_2x2|]. vm_compute. discriminate. Qed.


(** A 2×1 kernel whose red channel sums to exactly zero. *)
Definition kernel_2x1 : list spec_float := fl <$> [1; 0; 5; 7; -1; 0; 5; 7].

Lemma normalize_kernel_scales_witness :
  (0 ≤ 2 ∧ 0 ≤ 1 ∧ Z.of_nat (length kernel_2x1) = 2 * 1 * 4) ∧
  ∃ k', normalize_kernel 2 1 kernel_2x1 = Some k' ∧
    length k' = length kernel_2x1 ∧
    ∀ x y ch, 0 ≤ x < 2 → 0 ≤ y < 1 → 0 ≤ ch < 4 →
      load_pixel 2 1 k' x y ch
      = if ch <? 3
        then (λ v, f_mul v
                (reciprocal_weight (channel_sum kernel_2x1 (2 * 1) ch)))
             <$> load_pixel 2 1 kernel_2x1 x y ch
        else load_pixel 2 1 kernel_2x1 x y ch.
Proof.
  split; [by vm_compute|].
  apply (normalize_kernel_scales 2 1 kernel_2x1); [lia|lia|reflexivity].
Defined.

(** C4, as stated, fails on a channel whose sum is exactly zero: the
    channel is not left as it was, it is multiplied by the zero sum. *)
Lemma normalize_kernel_zero_sum_channel :
  channel_sum kernel_2x1 2 0 = S754_zero false ∧
  normalize_kernel 2 1 kernel_2x1
  = Some [S754_zero false; S754_zero false; S754_finite false 8388608 (-24);
          fl 7;
          S754_zero true; S754_zero false; S754_finite false 8388608 (-24);
          fl 7] ∧
  load_pixel 2 1 kernel_2x1 0 0 0 = Some (fl 1).
Proof. by vm_compute. Qed.

(** Nor does a channel with a nonzero sum always sum to one afterwards:
    ten ones become ten times the [float] nearest to a tenth, which add up
    to the successor of one. *)
Lemma normalize_kernel_sum_rounds :
  (k' ← normalize_kernel 10 1 (fl <$> concat (replicate 10 [1; 1; 1; 1]));
   Some (channel_sum k' 10 0))
  = Some (S754_finite false 8388609 (-23)) ∧
  fl 1 = S754_finite false 8388608 (-23).
Proof. split; vm_compute; reflexivity. Qed.

Lemma tile_steps_in_bounds_witness :
  let image := fl <$> seqZ 1 24 in
  let data2 := fl <$> replicate 16 9 in
  let spectrum := fl <$> seqZ 1 16 in
  let rdst := fl <$> replicate 24 0 in
  (0 ≤ 3 ∧ 0 ≤ 2 ∧
   Z.of_nat (length image) = 3 * 2 * 4 ∧ Z.of_nat (length rdst) = 3 * 2 * 4 ∧
   Z.of_nat (length data2) = 4 * 4 ∧ Z.of_nat (length spectrum) = 4 * 4 ∧
   0 ≤ 3 ≤ 4 ∧ 0 ≤ 3 ≤ 4 ∧ 0 ≤ 0 ∧ 0 ≤ 0 ∧ 0 ≤ 1 < 3) ∧
  (∃ d2, load_tile 3 2 4 4 3 3 0 0 1 image data2 = Some d2 ∧
     length d2 = length data2 ∧
     ∀ x y, 0 ≤ x < 4 → 0 ≤ y < 4 →
       load d2 (y * 4 + x) = tile_sample 3 2 3 3 0 0 1 image x y) ∧
  (∃ r, overlap_add 3 2 4 4 3 3 1 1 0 0 1 spectrum rdst = Some r ∧
     length r = length rdst ∧
     ∀ p c, 0 ≤ c < 4 → c ≠ 1 → load r (4 * p + c) = load rdst (4 * p + c)).
Proof.
  intros image data2 spectrum rdst.
  split; [by vm_compute|].
  apply (tile_steps_in_bounds 3 2 4 4 3 3 1 1 0 0 1 image data2 spectrum rdst);
    by vm_compute.
Defined.

Lemma fht_convolve_comm_witness :
  let x := fl <$> [1; 2; 3; 4] in
  let y := fl <$> [5; 6; 7; 8] in
  ((∀ a b : spec_float, f_add a b = f_add b a) ∧
   (∀ a b : spec_float, f_mul a b = f_mul b a) ∧
   1 ≤ 1 ∧ 1 ≤ 1 ∧ 1 + 1 < 32 ∧
   Z.of_nat (length x) = 2 ^ (1 + 1) ∧ Z.of_nat (length y) = 2 ^ (1 + 1)) ∧
  ∃ r, fht_convolve x 0 y 0 1 1 = Some r ∧ fht_convolve y 0 x 0 1 1 = Some r.
Proof.
  intros x y.
  assert (Hadd : ∀ a b : spec_float, f_add a b = f_add b a)
    by apply SFadd_comm.
  assert (Hmul : ∀ a b : spec_float, f_mul a b = f_mul b a)
    by apply SFmul_comm.
  split; [by repeat split|].
  apply (fht_convolve_comm x y 1 1 Hadd Hmul); [lia|lia|lia|reflexivity..].
Defined.

End Binary32.

(** ** Runs of the transposition *)

Lemma FHT2D_transpose_involutive_witness :
  (0 ≤ 2 ∧ 0 ≤ 1 ∧ 2 + 1 < 32 ∧
   Z.of_nat (length [0; 1; 2; 3; 4; 5; 6; 7]) = 2 ^ 2 * 2 ^ 1) ∧
  FHT2D_transpose [0; 1; 2; 3; 4; 5; 6; 7] 0 2 1
    = Some [0; 4; 1; 5; 2; 6; 3; 7] ∧
  (d ← FHT2D_transpose [0; 1; 2; 3; 4; 5; 6; 7] 0 2 1;
   FHT2D_transpose d 0 1 2) = Some [0; 1; 2; 3; 4; 5; 6; 7].
Proof.
  split; [by vm_compute|].
  apply (FHT2D_transpose_involutive [0; 1; 2; 3; 4; 5; 6; 7] 2 1);
    [lia|lia|lia|reflexivity].
Defined.

(** ** Runs that stay in bounds *)

Section InBounds.
Import binary32.

Lemma FHT_in_bounds_witness :
  (1 ≤ 2 ≤ 30 ∧ 0 ≤ 1 ∧
   1 + 2 ^ 2 ≤ Z.of_nat (length (fl <$> [9; 1; 2; 3; 4; 9]))) ∧
  ∀ cos,
    ∃ d, FHT cos (fl <$> [9; 1; 2; 3; 4; 9]) 1 2 true = Some d ∧
         length d = length (fl <$> [9; 1; 2; 3; 4; 9]) ∧
         ∀ k, ¬ (1 ≤ k < 1 + 2 ^ 2) →
           load d k = load (fl <$> [9; 1; 2; 3; 4; 9]) k.
Proof.
  split; [cbn; lia|]. intros cos.
  apply (FHT_in_bounds cos (fl <$> [9; 1; 2; 3; 4; 9]) 1 2 true);
    [lia|lia|cbn; lia].
Defined.

Lemma FHT2D_in_bounds_witness :
  (1 ≤ 2 ∧ 1 ≤ 1 ∧ 2 + 1 ≤ 30 ∧ 0 ≤ 2 ≤ 2 ^ 1 ∧ 0 ≤ 1 ∧
   1 + 2 ^ 2 * 2 ^ 1
   ≤ Z.of_nat (length (fl <$> [9; 1; 2; 3; 4; 5; 6; 7; 8; 9]))) ∧
  ∀ cos,
    ∃ d, FHT2D cos (fl <$> [9; 1; 2; 3; 4; 5; 6; 7; 8; 9]) 1 2 1 2 false
         = Some d ∧
         length d = length (fl <$> [9; 1; 2; 3; 4; 5; 6; 7; 8; 9]) ∧
         ∀ k, ¬ (1 ≤ k < 1 + 2 ^ 2 * 2 ^ 1) →
           load d k = load (fl <$> [9; 1; 2; 3; 4; 5; 6; 7; 8; 9]) k.
Proof.
  split; [cbn; lia|]. intros cos.
  apply (FHT2D_in_bounds cos (fl <$> [9; 1; 2; 3; 4; 5; 6; 7; 8; 9])
           1 2 1 2 false); [lia|lia|lia|lia|lia|cbn; lia].
Defined.

Lemma fht_convolve_in_bounds_witness :
  (1 ≤ 1 ∧ 1 ≤ 1 ∧ 0 ≤ 0 ∧ 0 ≤ 4 ∧
   0 + 2 ^ 1 * 2 ^ 1 ≤ Z.of_nat (length (fl <$> [1; 2; 3; 4])) ∧
   4 + 2 ^ 1 * 2 ^ 1
   ≤ Z.of_nat (length (fl <$> [0; 0; 0; 0; 5; 6; 7; 8]))) ∧
  ∃ r, fht_convolve (fl <$> [1; 2; 3; 4]) 0
         (fl <$> [0; 0; 0; 0; 5; 6; 7; 8]) 4 1 1 = Some r ∧
       length r = length (fl <$> [1; 2; 3; 4]) ∧
       ∀ k, ¬ (0 ≤ k < 0 + 2 ^ 1 * 2 ^ 1) →
         load r k = load (fl <$> [1; 2; 3; 4]) k.
Proof.
  split; [cbn; lia|].
  apply (fht_convolve_in_bounds (fl <$> [1; 2; 3; 4])
           (fl <$> [0; 0; 0; 0; 5; 6; 7; 8]) 0 4 1 1);
    [lia|lia|lia|lia|cbn; lia|cbn; lia].
Defined.


Lemma FHT_length_1_overruns_witness :
  (load (fl <$> [1; 2; 7]) 1 = Some (fl 2) ∧
   load (fl <$> [1; 2; 7]) (1 + 1) = Some (fl 7)) ∧
  ∀ cos,
    FHT cos (fl <$> [1; 2; 7]) 1 0 false
    = Some (<[Z.to_nat 1 := f_add (fl 2) (fl 7)]>
              (<[Z.to_nat (1 + 1) := f_sub (fl 2) (fl 7)]>
                 (fl <$> [1; 2; 7]))).
Proof.
  split; [done|]. intros cos.
  by apply (FHT_length_1_overruns cos (fl <$> [1; 2; 7]) 1 (fl 2) (fl 7)).
Defined.

End InBounds.

(** ** Runs in exact arithmetic, and the same run in binary32 *)

Section ExactRuns.
Import exact.

Lemma FHT_computes_DHT_witness :
  (1 ≤ 2 ≤ 30 ∧ Z.of_nat (length [1%R; 2%R; 3%R; 4%R]) = 2 ^ 2) ∧
  ∃ d, FHT cos [1%R; 2%R; 3%R; 4%R] 0 2 false = Some d ∧
       length d = length [1%R; 2%R; 3%R; 4%R] ∧
       ∀ k, 0 ≤ k < 2 ^ 2 →
         load d k = Some (if false
                          then (DHT [1%R; 2%R; 3%R; 4%R] k
                                * (1 / IZR (2 ^ 2)))%R
                          else DHT [1%R; 2%R; 3%R; 4%R] k).
Proof.
  split; [cbn; lia|].
  apply (FHT_computes_DHT [1%R; 2%R; 3%R; 4%R] 2 false); [lia|reflexivity].
Defined.

Lemma FHT_round_trip_exact_witness :
  (1 ≤ 1 ≤ 30 ∧ Z.of_nat (length [IZR 16777216; 1%R]) = 2 ^ 1) ∧
  (d ← FHT cos [IZR 16777216; 1%R] 0 1 false; FHT cos d 0 1 true)
  = Some [IZR 16777216; 1%R].
Proof.
  split; [cbn; lia|].
  apply (FHT_round_trip_exact [IZR 16777216; 1%R] 1); [lia|reflexivity].
Defined.

Lemma zero_row_loads (p q : R) r c :
  1 ≤ r < 2 ^ 1 → 0 ≤ c < 2 ^ 1 →
  load [p; q; 0%R; 0%R] (r * 2 ^ 1 + c) = Some 0%R.
Proof.
  intros Hr Hc. assert (r = 1) as -> by lia.
  assert (c = 0 ∨ c = 1) as [-> | ->] by lia; reflexivity.
Qed.

Lemma FHT2D_computes_DHT2_witness :
  (1 ≤ 1 ∧ 1 + 1 < 32 ∧
   Z.of_nat (length [1%R; 2%R; 0%R; 0%R]) = 2 ^ 1 * 2 ^ 1 ∧
   (false = false →
    0 ≤ 1 ≤ 2 ^ 1 ∧
    ∀ r c, 1 ≤ r < 2 ^ 1 → 0 ≤ c < 2 ^ 1 →
      load [1%R; 2%R; 0%R; 0%R] (r * 2 ^ 1 + c) = Some 0%R)) ∧
  ∃ d, FHT2D cos [1%R; 2%R; 0%R; 0%R] 0 1 1 1 false = Some d ∧
       length d = length [1%R; 2%R; 0%R; 0%R] ∧
       ∀ u v, 0 ≤ u < 2 ^ 1 → 0 ≤ v < 2 ^ 1 →
         load d (u * 2 ^ 1 + v)
         = Some (dht2 (2 ^ 1) (2 ^ 1)
                   (λ c r, sample [1%R; 2%R; 0%R; 0%R] (r * 2 ^ 1 + c)) u v
                 * (if false then 1 / IZR (2 ^ 1 * 2 ^ 1) else 1))%R.
Proof.
  split.
  - split; [lia|]. split; [lia|]. split; [reflexivity|].
    intros _. split; [lia|]. apply zero_row_loads.
  - apply (FHT2D_computes_DHT2 [1%R; 2%R; 0%R; 0%R] 1 1 1 false);
      [lia|lia|lia|reflexivity|].
    intros _. split; [lia|]. apply zero_row_loads.
Defined.

Lemma FHT2D_round_trip_exact_witness :
  (1 ≤ 1 ∧ 1 + 1 < 32 ∧
   Z.of_nat (length [1%R; 2%R; 0%R; 0%R]) = 2 ^ 1 * 2 ^ 1 ∧
   0 ≤ 1 ≤ 2 ^ 1 ∧
   ∀ r c, 1 ≤ r < 2 ^ 1 → 0 ≤ c < 2 ^ 1 →
     load [1%R; 2%R; 0%R; 0%R] (r * 2 ^ 1 + c) = Some 0%R) ∧
  (d ← FHT2D cos [1%R; 2%R; 0%R; 0%R] 0 1 1 1 false;
   FHT2D cos d 0 1 1 0 true)
  = Some [1%R; 2%R; 0%R; 0%R].
Proof.
  split.
  - split; [lia|]. split; [lia|]. split; [reflexivity|]. split; [lia|].
    apply zero_row_loads.
  - apply (FHT2D_round_trip_exact [1%R; 2%R; 0%R; 0%R] 1 1 1 0);
      [lia|lia|lia|reflexivity|lia|apply zero_row_loads].
Defined.

Lemma fht_convolve_hartley_product_witness :
  (1 ≤ 1 ∧ 1 + 1 < 32 ∧
   Z.of_nat (length [1%R; 2%R; 3%R; 4%R]) = 2 ^ 1 * 2 ^ 1 ∧
   Z.of_nat (length [5%R; 6%R; 7%R; 8%R]) = 2 ^ 1 * 2 ^ 1) ∧
  ∃ a, fht_convolve [1%R; 2%R; 3%R; 4%R] 0 [5%R; 6%R; 7%R; 8%R] 0 1 1
       = Some a ∧
       length a = length [1%R; 2%R; 3%R; 4%R] ∧
       ∀ c r, 0 ≤ c < 2 ^ 1 → 0 ≤ r < 2 ^ 1 →
         load a (c + r * 2 ^ 1)
         = Some (hartley_product (2 ^ 1) (2 ^ 1)
                   (sample [1%R; 2%R; 3%R; 4%R])
                   (sample [5%R; 6%R; 7%R; 8%R]) c r).
Proof.
  split; [cbn; lia|].
  apply (fht_convolve_hartley_product
           [1%R; 2%R; 3%R; 4%R] [5%R; 6%R; 7%R; 8%R] 1 1);
    [lia|lia|lia|reflexivity|reflexivity].
Defined.

Lemma FHT2D_fht_convolve_circular_witness :
  (1 ≤ 1 ∧ 1 + 1 < 32 ∧
   Z.of_nat (length [1%R; 2%R; 0%R; 0%R]) = 2 ^ 1 * 2 ^ 1 ∧
   Z.of_nat (length [3%R; 4%R; 0%R; 0%R]) = 2 ^ 1 * 2 ^ 1 ∧
   0 ≤ 1 ≤ 2 ^ 1 ∧
   (∀ r c, 1 ≤ r < 2 ^ 1 → 0 ≤ c < 2 ^ 1 →
      load [1%R; 2%R; 0%R; 0%R] (r * 2 ^ 1 + c) = Some 0%R) ∧
   (∀ r c, 1 ≤ r < 2 ^ 1 → 0 ≤ c < 2 ^ 1 →
      load [3%R; 4%R; 0%R; 0%R] (r * 2 ^ 1 + c) = Some 0%R)) ∧
  ∃ d, (sb ← FHT2D cos [3%R; 4%R; 0%R; 0%R] 0 1 1 1 false;
        sa ← FHT2D cos [1%R; 2%R; 0%R; 0%R] 0 1 1 1 false;
        sa ← fht_convolve sa 0 sb 0 1 1;
        FHT2D cos sa 0 1 1 0 true) = Some d ∧
       length d = length [1%R; 2%R; 0%R; 0%R] ∧
       ∀ r c, 0 ≤ r < 2 ^ 1 → 0 ≤ c < 2 ^ 1 →
         load d (r * 2 ^ 1 + c)
         = Some (cconv2 (2 ^ 1) (2 ^ 1)
                   (λ c r, sample [1%R; 2%R; 0%R; 0%R] (r * 2 ^ 1 + c))
                   (λ c r, sample [3%R; 4%R; 0%R; 0%R] (r * 2 ^ 1 + c))
                   c r).
Proof.
  split.
  - split; [lia|]. split; [lia|]. split; [reflexivity|].
    split; [reflexivity|]. split; [lia|].
    split; apply zero_row_loads.
  - apply (FHT2D_fht_convolve_circular
             [1%R; 2%R; 0%R; 0%R] [3%R; 4%R; 0%R; 0%R] 1 1 1 1 0);
      [lia|lia|lia|reflexivity|reflexivity|lia|lia
      |apply zero_row_loads|apply zero_row_loads].
Defined.

Lemma convolve_exact_witness :
  (0 ≤ 1 ≤ 2 ^ 28 ∧ 0 ≤ 1 ≤ 2 ^ 28 ∧ 1 * 1 ≤ 2 ^ 28 ∧
   2 ≤ 2 ≤ 2 ^ 14 ∧ 1 ≤ 1 ≤ 14 ∧ 2 = 2 ^ 1 ∧
   Z.of_nat (length [1%R; 2%R; 3%R; 4%R]) = 1 * 1 * 4 ∧
   Z.of_nat (length (replicate 16 1%R)) = 2 * 2 * 4 ∧
   1 * 1 * 4 ≤ Z.of_nat (length [0%R; 0%R; 0%R; 0%R])) ∧
  ∃ dst' kernel',
    normalize_kernel 2 2 (replicate 16 1%R) = Some kernel' ∧
    convolve cos [0%R; 0%R; 0%R; 0%R]
      {| get_width := 1; get_height := 1;
         get_buffer := [1%R; 2%R; 3%R; 4%R] |}
      {| get_width := 2; get_height := 2; get_buffer := replicate 16 1%R |}
    = Some (dst',
            {| get_width := 1; get_height := 1;
               get_buffer := [1%R; 2%R; 3%R; 4%R] |},
            {| get_width := 2; get_height := 2; get_buffer := kernel' |}) ∧
    length dst' = length [0%R; 0%R; 0%R; 0%R] ∧
    ∀ x y, 0 ≤ x < 1 → 0 ≤ y < 1 →
      (∀ ch, 0 ≤ ch < 3 →
         load dst' (4 * (y * 1 + x) + ch)
         = Some (convolved 1 1 2 2 [1%R; 2%R; 3%R; 4%R] kernel' ch x y)) ∧
      load dst' (4 * (y * 1 + x) + 3) = Some 0%R.
Proof.
  split; [repeat split; cbn; lia|].
  apply (convolve_exact [0%R; 0%R; 0%R; 0%R]
           {| get_width := 1; get_height := 1;
              get_buffer := [1%R; 2%R; 3%R; 4%R] |}
           {| get_width := 2; get_height := 2;
              get_buffer := replicate 16 1%R |} 1);
    cbn [get_width get_height get_buffer]; try reflexivity; cbn; lia.
Defined.

Lemma FHT2D_forward_iff_zero_rows_witness :
  (1 ≤ 1 ∧ 1 + 1 < 32 ∧
   Z.of_nat (length [1%R; 2%R; 0%R; 0%R]) = 2 ^ 1 * 2 ^ 1 ∧
   0 ≤ 1 ≤ 2 ^ 1) ∧
  ∃ d, FHT2D cos [1%R; 2%R; 0%R; 0%R] 0 1 1 1 false = Some d ∧
       ((∀ u v, 0 ≤ u < 2 ^ 1 → 0 ≤ v < 2 ^ 1 →
           load d (u * 2 ^ 1 + v)
           = Some (dht2 (2 ^ 1) (2 ^ 1)
                     (λ c r, sample [1%R; 2%R; 0%R; 0%R] (r * 2 ^ 1 + c))
                     u v))
        ↔ (∀ r c, 1 ≤ r < 2 ^ 1 → 0 ≤ c < 2 ^ 1 →
             load [1%R; 2%R; 0%R; 0%R] (r * 2 ^ 1 + c) = Some 0%R)).
Proof.
  split; [repeat split; cbn; lia|].
  apply (FHT2D_forward_iff_zero_rows [1%R; 2%R; 0%R; 0%R] 1 1 1);
    [lia|lia|lia|reflexivity|lia].
Defined.

Lemma normalize_kernel_sums_to_one_witness :
  (0 ≤ 1 ∧ Z.of_nat (length [2%R; 0%R; 4%R; 1%R]) = 1 * 1 * 4) ∧
  ∃ k', normalize_kernel 1 1 [2%R; 0%R; 4%R; 1%R] = Some k' ∧
        length k' = length [2%R; 0%R; 4%R; 1%R] ∧
        (∀ ch, 0 ≤ ch < 3 →
           (channel_total [2%R; 0%R; 4%R; 1%R] (1 * 1) ch ≠ 0%R →
            channel_total k' (1 * 1) ch = 1%R) ∧
           (channel_total [2%R; 0%R; 4%R; 1%R] (1 * 1) ch = 0%R →
            ∀ p, 0 ≤ p < 1 * 1 → load k' (4 * p + ch) = Some 0%R)) ∧
        ∀ p, 0 ≤ p < 1 * 1 →
          load k' (4 * p + 3) = load [2%R; 0%R; 4%R; 1%R] (4 * p + 3).
Proof.
  split; [split; [lia|reflexivity]|].
  apply (normalize_kernel_sums_to_one 1 1 [2%R; 0%R; 4%R; 1%R]);
    [lia|lia|reflexivity].
Defined.

End ExactRuns.

Lemma tile_rows_vs_transformed_rows_witness :
  2 ≤ 3 ≤ 2 ^ 14 ∧
  ∃ h2 L, padded_size 3 = Some (h2, L) ∧
          3 + 1 ≤ h2 + 1 - 3 ∧
          (h2 + 1 - 3 = 3 + 1 ↔ ∃ p, 3 = 2 ^ p).
Proof. split; [lia|]. apply (tile_rows_vs_transformed_rows 3). lia. Defined.

Section Binary32Runs.
Import binary32.

(** The same buffer in binary32: the forward transform rounds
    [2^24 + 1] to [2^24], and the inverse returns [0.5] where the buffer
    held [1]. *)
Lemma FHT_round_trip_binary32_rounds :
  (∀ cos, (d ← FHT cos [fl 16777216; fl 1] 0 1 false; FHT cos d 0 1 true)
          = Some [fl 16777216; S754_finite false 8388608 (-24)]) ∧
  [fl 16777216; S754_finite false 8388608 (-24)] ≠ [fl 16777216; fl 1].
Proof. split; [intros cos; vm_compute; reflexivity|by vm_compute]. Qed.

End Binary32Runs.
